(** * from_dom.ts: the DOM parser of prosemirror-model

    A shallow embedding of [src/from_dom.ts] (classes [DOMParser],
    [NodeContext] and [ParseContext] and the helper functions around
    them), followed by theorems about rule ordering, context matching,
    whitespace options, placement search, pending marks and position
    tracking.

    The schema, the document values and the input DOM are collaborators
    of the parser that live in other files; they appear here as the
    interfaces [SchemaAPI] and [DomAPI].  JavaScript strings are
    restricted to code units below 256 (Rocq's [string]). *)

From Stdlib Require Import ZArith String Ascii List Lia Bool Permutation Sorted.
From stdpp Require Import base list strings.

Import ListNotations.
Local Open Scope string_scope.
Local Open Scope list_scope.
Local Open Scope Z_scope.

(* ===================================================================== *)
(** ** JavaScript strings and the regular expressions of the source *)
(* ===================================================================== *)

Module JS.

Definition code (c : ascii) : N := N_of_ascii c.

(** The character class [[ \t\r\n\u000c]] of the whitespace regexps. *)
Definition isHtmlSpace (c : ascii) : bool :=
  let n := code c in
  (N.eqb n 32 || N.eqb n 9 || N.eqb n 13 || N.eqb n 10 || N.eqb n 12)%bool.

(** The class [\s] (and what [trim] removes), below code unit 256. *)
Definition isSpace (c : ascii) : bool :=
  let n := code c in
  (N.eqb n 32 || (N.leb 9 n && N.leb n 13) || N.eqb n 160)%bool.

(** The class [[\w-]]. *)
Definition isWordOrDash (c : ascii) : bool :=
  let n := code c in
  ((N.leb 48 n && N.leb n 57) || (N.leb 65 n && N.leb n 90) ||
   (N.leb 97 n && N.leb n 122) || N.eqb n 95 || N.eqb n 45)%bool.

Definition isWord (c : ascii) : bool :=
  let n := code c in
  ((N.leb 48 n && N.leb n 57) || (N.leb 65 n && N.leb n 90) ||
   (N.leb 97 n && N.leb n 122) || N.eqb n 95)%bool.

Definition isChar (k : N) (c : ascii) : bool := N.eqb (code c) k.

Definition lowerChar (c : ascii) : ascii :=
  let n := code c in
  if ((N.leb 65 n && N.leb n 90) ||
      (N.leb 192 n && N.leb n 222 && negb (N.eqb n 215)))%bool
  then ascii_of_N (n + 32) else c.

(** [s.toLowerCase()] *)
Fixpoint toLowerCase (s : string) : string :=
  match s with
  | EmptyString => EmptyString
  | String c r => String (lowerChar c) (toLowerCase r)
  end.

Definition isEmpty (s : string) : bool :=
  match s with EmptyString => true | _ => false end.

(** Truthiness of an optional string: [undefined] and [""] are falsy. *)
Definition truthy (s : option string) : bool :=
  match s with Some t => negb (isEmpty t) | None => false end.

Definition len (s : string) : Z := Z.of_nat (String.length s).

(** [/[^ \t\r\n\u000c]/.test(s)] *)
Fixpoint hasNonSpace (s : string) : bool :=
  match s with
  | EmptyString => false
  | String c r => if isHtmlSpace c then hasNonSpace r else true
  end.

(** [s.replace(/[ \t\r\n\u000c]+/g, " ")]; [inrun] tells that the
    previous character belonged to the run being replaced. *)
Fixpoint collapseFrom (inrun : bool) (s : string) : string :=
  match s with
  | EmptyString => EmptyString
  | String c r =>
      if isHtmlSpace c
      then (if inrun then collapseFrom true r
            else String " " (collapseFrom true r))
      else String c (collapseFrom false r)
  end.
Definition collapseSpace (s : string) : string := collapseFrom false s.

(** [/^[ \t\r\n\u000c]/.test(s)] *)
Definition startsWithSpace (s : string) : bool :=
  match s with String c _ => isHtmlSpace c | EmptyString => false end.

(** [/[ \t\r\n\u000c]$/.test(s)] *)
Fixpoint endsWithSpace (s : string) : bool :=
  match s with
  | EmptyString => false
  | String c EmptyString => isHtmlSpace c
  | String _ r => endsWithSpace r
  end.

(** [s.slice(1)] *)
Definition slice1 (s : string) : string :=
  match s with String _ r => r | EmptyString => EmptyString end.

(** [s.slice(n)] for [n >= 0] *)
Fixpoint sliceFrom (n : nat) (s : string) : string :=
  match n, s with
  | O, _ => s
  | S k, String _ r => sliceFrom k r
  | S _, EmptyString => EmptyString
  end.

(** [s.replace(/\r?\n|\r/g, " ")] *)
Fixpoint newlinesToSpaces (s : string) : string :=
  match s with
  | EmptyString => EmptyString
  | String c r =>
      if isChar 13 c then
        match r with
        | String c2 r2 =>
            if isChar 10 c2 then String " " (newlinesToSpaces r2)
            else String " " (newlinesToSpaces r)
        | EmptyString => String " " EmptyString
        end
      else if isChar 10 c then String " " (newlinesToSpaces r)
      else String c (newlinesToSpaces r)
  end.

(** [s.replace(/\r\n?/g, "\n")] *)
Fixpoint normalizeNewlines (s : string) : string :=
  match s with
  | EmptyString => EmptyString
  | String c r =>
      if isChar 13 c then
        match r with
        | String c2 r2 =>
            if isChar 10 c2 then String (ascii_of_N 10) (normalizeNewlines r2)
            else String (ascii_of_N 10) (normalizeNewlines r)
        | EmptyString => String (ascii_of_N 10) EmptyString
        end
      else String c (normalizeNewlines r)
  end.

(** The text left of the match of [/[ \t\r\n\u000c]+$/]: the string
    without its trailing run of whitespace. *)
Fixpoint dropTrailingSpace (s : string) : string :=
  match s with
  | EmptyString => EmptyString
  | String c r =>
      let r' := dropTrailingSpace r in
      if (isHtmlSpace c && isEmpty r')%bool then EmptyString else String c r'
  end.

(** [s.split(sep)] for a one-character separator. *)
Fixpoint splitChar (sep : N) (s : string) : list string :=
  match s with
  | EmptyString => [EmptyString]
  | String c r =>
      if isChar sep c then EmptyString :: splitChar sep r
      else match splitChar sep r with
           | h :: t => String c h :: t
           | [] => [String c EmptyString]
           end
  end.

(** [s.indexOf("|") > -1] *)
Fixpoint hasChar (k : N) (s : string) : bool :=
  match s with
  | EmptyString => false
  | String c r => (isChar k c || hasChar k r)%bool
  end.

(** Does [\s*\|] match at the start of [s]? *)
Fixpoint pipeAhead (s : string) : bool :=
  match s with
  | EmptyString => false
  | String c r =>
      if isChar 124 c then true
      else if isSpace c then pipeAhead r else false
  end.

Inductive SplitMode := InSegment | BeforePipe | AfterPipe.

(** [s.split(/\s*\|\s*/)]: [BeforePipe] consumes the whitespace of a
    separator up to and including its bar, [AfterPipe] the whitespace
    behind it. *)
Fixpoint splitPipeFrom (m : SplitMode) (s : string) : list string :=
  match s with
  | EmptyString => [EmptyString]
  | String c r =>
      let collect :=
        match splitPipeFrom InSegment r with
        | h :: t => String c h :: t
        | [] => [String c EmptyString]
        end in
      match m with
      | BeforePipe =>
          if isChar 124 c then splitPipeFrom AfterPipe r
          else splitPipeFrom BeforePipe r
      | AfterPipe =>
          if isSpace c then splitPipeFrom AfterPipe r
          else if isChar 124 c then EmptyString :: splitPipeFrom AfterPipe r
          else collect
      | InSegment =>
          if isChar 124 c then EmptyString :: splitPipeFrom AfterPipe r
          else if (isSpace c && pipeAhead r)%bool
               then EmptyString :: splitPipeFrom BeforePipe r
               else collect
      end
  end.
Definition splitPipe (s : string) : list string := splitPipeFrom InSegment s.

Fixpoint skipSpace (s : string) : string :=
  match s with
  | String c r => if isSpace c then skipSpace r else s
  | EmptyString => EmptyString
  end.

Fixpoint spanWhile (p : ascii -> bool) (s : string) : string * string :=
  match s with
  | String c r =>
      if p c then let '(a, b) := spanWhile p r in (String c a, b)
      else (EmptyString, s)
  | EmptyString => (EmptyString, EmptyString)
  end.

(** The last whitespace character in front of [skipSpace s], if any:
    what [[^;]+] takes when the greedy [\s*] has to give one back. *)
Fixpoint lastSkipped (s : string) : option ascii :=
  match s with
  | String c r =>
      if isSpace c
      then match lastSkipped r with Some d => Some d | None => Some c end
      else None
  | EmptyString => None
  end.

(** [s.trim()] *)
Fixpoint dropTrailingJsSpace (s : string) : string :=
  match s with
  | EmptyString => EmptyString
  | String c r =>
      let r' := dropTrailingJsSpace r in
      if (isSpace c && isEmpty r')%bool then EmptyString else String c r'
  end.
Definition trim (s : string) : string := dropTrailingJsSpace (skipSpace s).

(** One match of [/\s*([\w-]+)\s*:\s*([^;]+)/] anchored at the start
    of [s]: the two groups and the text behind the match. *)
Definition styleDeclAt (s : string) : option (string * string * string) :=
  let '(name, s2) := spanWhile isWordOrDash (skipSpace s) in
  if isEmpty name then None else
  match skipSpace s2 with
  | String c s4 =>
      if isChar 58 c then
        let s5 := skipSpace s4 in
        let '(value, rest) := spanWhile (fun d => negb (isChar 59 d)) s5 in
        if isEmpty value
        then match lastSkipped s4 with
             | Some d => Some (name, String d EmptyString, s5)
             | None => None
             end
        else Some (name, value, rest)
      else None
  | EmptyString => None
  end.

(** [/^(ul|ol)\b/.test(s)] *)
Definition isListSelector (s : string) : bool :=
  match s with
  | String a (String b r) =>
      ((isChar 117 a || isChar 111 a) && isChar 108 b &&
       match r with String c _ => negb (isWord c) | EmptyString => true end)%bool
  | _ => false
  end.

Definition mem (s : string) (l : list string) : bool :=
  existsb (String.eqb s) l.

End JS.

(* ===================================================================== *)
(** ** Collaborators: the schema and document values, and the input DOM *)
(* ===================================================================== *)

(** Modelled from the spec: the schema, content-model automaton, mark,
    node, fragment and resolved-position values of section 6, which the
    parser consumes through narrow interfaces (files schema.ts, mark.ts,
    node.ts, fragment.ts, content.ts and resolvedpos.ts are not part of
    this source).  Equality on [Mark] and [NodeType] is object identity
    ([===]); [mark_eq] is the method [Mark.eq]. *)
Class SchemaAPI := {
  Attrs : Type;
  NodeType : Type;
  MarkType : Type;
  Mark : Type;
  ContentMatch : Type;
  Node : Type;
  Fragment : Type;
  ResolvedPos : Type;
  NodeType_eq :: EqDecision NodeType;
  ContentMatch_eq :: EqDecision ContentMatch;
  Mark_same :: EqDecision Mark;
  (* NodeType *)
  nt_name : NodeType -> string;
  nt_groups : NodeType -> list string;
  nt_inlineContent : NodeType -> bool;
  nt_isLeaf : NodeType -> bool;
  nt_isTextblock : NodeType -> bool;
  nt_defaultAttrs : NodeType -> option Attrs;
  nt_whitespace : NodeType -> string;
  nt_contentMatch : NodeType -> ContentMatch;
  nt_allowsMarkType : NodeType -> MarkType -> bool;
  nt_create : NodeType -> option Attrs -> option Fragment -> option (list Mark) -> Node;
  (* MarkType and Mark *)
  mt_create : MarkType -> option Attrs -> Mark;
  mark_type : Mark -> MarkType;
  mark_eq : Mark -> Mark -> bool;
  addToSet : Mark -> list Mark -> list Mark;
  removeFromSet : Mark -> list Mark -> list Mark;
  isInSet : Mark -> list Mark -> bool;
  (* ContentMatch *)
  cm_matchType : ContentMatch -> NodeType -> option ContentMatch;
  cm_matchFragment : ContentMatch -> Fragment -> option ContentMatch;
  cm_fillBefore : ContentMatch -> Fragment -> bool -> option Fragment;
  cm_findWrapping : ContentMatch -> NodeType -> option (list NodeType);
  cm_edges : ContentMatch -> list (NodeType * ContentMatch);
  (* the finitely many states of the schema's automata; their number
     bounds the search of [markMayApply] *)
  cm_states : list ContentMatch;
  (* Node *)
  node_type : Node -> NodeType;
  node_attrs : Node -> Attrs;
  node_marks : Node -> list Mark;
  node_isText : Node -> bool;
  node_isInline : Node -> bool;
  node_text : Node -> option string;
  node_nodeSize : Node -> Z;
  node_mark : Node -> list Mark -> Node;
  node_withText : Node -> string -> Node;
  (* Fragment *)
  frag_empty : Fragment;
  frag_from : list Node -> Fragment;
  frag_append : Fragment -> Fragment -> Fragment;
  frag_nodes : Fragment -> list Node;
  (* ResolvedPos: [depth], [node(d).type], [parent.type] and
     [node(d).contentMatchAt(indexAfter(d)).defaultType] *)
  rp_depth : ResolvedPos -> Z;
  rp_nodeType : ResolvedPos -> Z -> NodeType;
  rp_parentType : ResolvedPos -> NodeType;
  rp_defaultTypeAfter : ResolvedPos -> Z -> option NodeType
}.

(** Modelled from the spec: the input markup tree of section 6 (file
    dom.ts and the browser DOM are not part of this source).  [Doc] is
    the state of the tree, which [normalizeList] changes through
    [appendChild]; [DOMNode] is a node reference compared by identity. *)
Class DomAPI := {
  DOMNode : Type;
  Doc : Type;
  DOMNode_eq :: EqDecision DOMNode;
  nodeType : Doc -> DOMNode -> Z;
  nodeName : Doc -> DOMNode -> string;
  nodeValue : Doc -> DOMNode -> option string;
  parentNode : Doc -> DOMNode -> option DOMNode;
  firstChild : Doc -> DOMNode -> option DOMNode;
  nextSibling : Doc -> DOMNode -> option DOMNode;
  previousSibling : Doc -> DOMNode -> option DOMNode;
  childNodes : Doc -> DOMNode -> Z -> option DOMNode;
  getAttribute : Doc -> DOMNode -> string -> option string;
  namespaceURI : Doc -> DOMNode -> option string;
  matches : Doc -> DOMNode -> string -> bool;
  contains : Doc -> DOMNode -> DOMNode -> bool;
  compareDocumentPosition : Doc -> DOMNode -> DOMNode -> Z;
  querySelector : Doc -> DOMNode -> string -> option DOMNode;
  appendChild : Doc -> DOMNode -> DOMNode -> Doc;
  createTextNode : Doc -> string -> Doc * DOMNode
}.

(* ===================================================================== *)
(** ** Data model *)
(* ===================================================================== *)

Section FromDom.
Context `{SA : SchemaAPI} `{DA : DomAPI}.

(** [boolean | "full"] *)
Inductive PreserveWS := PWFalse | PWTrue | PWFull.

(** The results of [getAttrs]: [false], [null]/[undefined], or attributes. *)
Inductive GetAttrsResult := GAFalse | GANull | GAAttrs (a : Attrs).

(** [getAttrs] receives an element for tag rules and a string for
    style rules. *)
Inductive GetAttrsArg := GAElement (d : Doc) (n : DOMNode) | GAString (s : string).

(** [skip] is declared boolean, but the parser also accepts a DOM node
    (see [addElement]). *)
Inductive SkipSpec := SkipBool (b : bool) | SkipNode (n : DOMNode).

Inductive ContentElement :=
| CESelector (s : string)
| CEElement (n : DOMNode)
| CEFunction (f : Doc -> DOMNode -> DOMNode).

Record ParseRule := {
  tag : option string;
  namespace : option string;
  style : option string;
  priority : option Z;
  consuming : option bool;
  context : option string;
  node : option string;
  mark : option string;
  clearMark : option (Mark -> bool);
  ignore : bool;
  closeParent : bool;
  skip : option SkipSpec;
  attrs : option Attrs;
  getAttrs : option (GetAttrsArg -> GetAttrsResult);
  contentElement : option ContentElement;
  getContent : option (Doc -> DOMNode -> Fragment);
  preserveWhitespace : option PreserveWS
}.

Definition setAttrs (r : ParseRule) (a : option Attrs) : ParseRule :=
  {| tag := tag r; namespace := namespace r; style := style r;
     priority := priority r; consuming := consuming r; context := context r;
     node := node r; mark := mark r; clearMark := clearMark r;
     ignore := ignore r; closeParent := closeParent r; skip := skip r;
     attrs := a; getAttrs := getAttrs r; contentElement := contentElement r;
     getContent := getContent r; preserveWhitespace := preserveWhitespace r |}.

Definition setMark (r : ParseRule) (m : option string) : ParseRule :=
  {| tag := tag r; namespace := namespace r; style := style r;
     priority := priority r; consuming := consuming r; context := context r;
     node := node r; mark := m; clearMark := clearMark r;
     ignore := ignore r; closeParent := closeParent r; skip := skip r;
     attrs := attrs r; getAttrs := getAttrs r; contentElement := contentElement r;
     getContent := getContent r; preserveWhitespace := preserveWhitespace r |}.

Definition setNode (r : ParseRule) (n : option string) : ParseRule :=
  {| tag := tag r; namespace := namespace r; style := style r;
     priority := priority r; consuming := consuming r; context := context r;
     node := n; mark := mark r; clearMark := clearMark r;
     ignore := ignore r; closeParent := closeParent r; skip := skip r;
     attrs := attrs r; getAttrs := getAttrs r; contentElement := contentElement r;
     getContent := getContent r; preserveWhitespace := preserveWhitespace r |}.

(** [schema.nodes] and [schema.marks] are objects enumerated with
    [for ... in]; they are kept as association lists in enumeration
    order.  [nodeParseDOM] and [markParseDOM] are [spec.parseDOM] of a
    type. *)
Record Schema := {
  nodes : list (string * NodeType);
  marks : list (string * MarkType);
  topNodeType : NodeType;
  text : string -> Node;
  nodeParseDOM : NodeType -> option (list ParseRule);
  markParseDOM : MarkType -> option (list ParseRule)
}.

Fixpoint lookupName {A} (l : list (string * A)) (name : string) : option A :=
  match l with
  | [] => None
  | (k, v) :: r => if String.eqb k name then Some v else lookupName r name
  end.

(** An entry of [findPositions]: [{node, offset, pos?}]. *)
Record FindEntry := {
  fnode : DOMNode;
  foffset : Z;
  fpos : option Z
}.

Definition setPos (e : FindEntry) (p : Z) : FindEntry :=
  {| fnode := fnode e; foffset := foffset e; fpos := Some p |}.

Record ParseOptions := {
  o_preserveWhitespace : option PreserveWS;
  o_findPositions : option (list FindEntry);
  o_from : option Z;
  o_to : option Z;
  o_topNode : option Node;
  o_topMatch : option ContentMatch;
  o_context : option ResolvedPos;
  o_ruleFromNode : option (Doc -> DOMNode -> option ParseRule);
  o_topOpen : bool
}.

(** The parser.  Rule objects are shared and mutable ([matchTag] writes
    their [attrs]); [rules] holds them, and [tags] and [styles] refer to
    them by index, which stands for object identity. *)
Record DOMParser := {
  schema : Schema;
  rules : list ParseRule;
  tags : list nat;
  styles : list nat;
  normalizeLists : bool
}.

Definition setRules (p : DOMParser) (rs : list ParseRule) : DOMParser :=
  {| schema := schema p; rules := rs; tags := tags p; styles := styles p;
     normalizeLists := normalizeLists p |}.

(** A rule as [addElement] holds it: an object of the parser, or one
    made by [options.ruleFromNode]. *)
Inductive RuleRef := StoreRule (i : nat) | OwnRule (r : ParseRule).

(** One frame of the node-construction stack.  [nc_id] stands for the
    identity of the JavaScript object. *)
Record NodeContext := {
  nc_id : nat;
  nc_type : option NodeType;
  nc_attrs : option Attrs;
  nc_marks : list Mark;
  nc_pendingMarks : list Mark;
  nc_solid : bool;
  nc_options : Z;
  nc_match : option ContentMatch;
  nc_content : list Node;
  nc_activeMarks : list Mark;
  nc_stashMarks : list Mark
}.

Definition setMatch (c : NodeContext) (m : option ContentMatch) : NodeContext :=
  {| nc_id := nc_id c; nc_type := nc_type c; nc_attrs := nc_attrs c;
     nc_marks := nc_marks c; nc_pendingMarks := nc_pendingMarks c;
     nc_solid := nc_solid c; nc_options := nc_options c; nc_match := m;
     nc_content := nc_content c; nc_activeMarks := nc_activeMarks c;
     nc_stashMarks := nc_stashMarks c |}.

Definition setContent (c : NodeContext) (l : list Node) : NodeContext :=
  {| nc_id := nc_id c; nc_type := nc_type c; nc_attrs := nc_attrs c;
     nc_marks := nc_marks c; nc_pendingMarks := nc_pendingMarks c;
     nc_solid := nc_solid c; nc_options := nc_options c; nc_match := nc_match c;
     nc_content := l; nc_activeMarks := nc_activeMarks c;
     nc_stashMarks := nc_stashMarks c |}.

Definition setPending (c : NodeContext) (l : list Mark) : NodeContext :=
  {| nc_id := nc_id c; nc_type := nc_type c; nc_attrs := nc_attrs c;
     nc_marks := nc_marks c; nc_pendingMarks := l;
     nc_solid := nc_solid c; nc_options := nc_options c; nc_match := nc_match c;
     nc_content := nc_content c; nc_activeMarks := nc_activeMarks c;
     nc_stashMarks := nc_stashMarks c |}.

Definition setActive (c : NodeContext) (l : list Mark) : NodeContext :=
  {| nc_id := nc_id c; nc_type := nc_type c; nc_attrs := nc_attrs c;
     nc_marks := nc_marks c; nc_pendingMarks := nc_pendingMarks c;
     nc_solid := nc_solid c; nc_options := nc_options c; nc_match := nc_match c;
     nc_content := nc_content c; nc_activeMarks := l;
     nc_stashMarks := nc_stashMarks c |}.

Definition setStash (c : NodeContext) (l : list Mark) : NodeContext :=
  {| nc_id := nc_id c; nc_type := nc_type c; nc_attrs := nc_attrs c;
     nc_marks := nc_marks c; nc_pendingMarks := nc_pendingMarks c;
     nc_solid := nc_solid c; nc_options := nc_options c; nc_match := nc_match c;
     nc_content := nc_content c; nc_activeMarks := nc_activeMarks c;
     nc_stashMarks := l |}.

(** The state of one parse.  Besides the fields of the class
    [ParseContext] it carries what the parse can change outside of it:
    the parser with its rule objects and the input tree.  [nextId] is
    the supply of frame identities. *)
Record ParseContext := {
  parser : DOMParser;
  options : ParseOptions;
  isOpen : bool;
  open : Z;
  find : option (list FindEntry);
  needsBlock : bool;
  pnodes : list NodeContext;
  nextId : nat;
  doc : Doc
}.

Definition setParser (pc : ParseContext) (p : DOMParser) : ParseContext :=
  {| parser := p; options := options pc; isOpen := isOpen pc; open := open pc;
     find := find pc; needsBlock := needsBlock pc; pnodes := pnodes pc;
     nextId := nextId pc; doc := doc pc |}.

Definition setOpen (pc : ParseContext) (n : Z) : ParseContext :=
  {| parser := parser pc; options := options pc; isOpen := isOpen pc; open := n;
     find := find pc; needsBlock := needsBlock pc; pnodes := pnodes pc;
     nextId := nextId pc; doc := doc pc |}.

Definition setFind (pc : ParseContext) (f : option (list FindEntry)) : ParseContext :=
  {| parser := parser pc; options := options pc; isOpen := isOpen pc; open := open pc;
     find := f; needsBlock := needsBlock pc; pnodes := pnodes pc;
     nextId := nextId pc; doc := doc pc |}.

Definition setNeedsBlock (pc : ParseContext) (b : bool) : ParseContext :=
  {| parser := parser pc; options := options pc; isOpen := isOpen pc; open := open pc;
     find := find pc; needsBlock := b; pnodes := pnodes pc;
     nextId := nextId pc; doc := doc pc |}.

Definition setNodes (pc : ParseContext) (l : list NodeContext) : ParseContext :=
  {| parser := parser pc; options := options pc; isOpen := isOpen pc; open := open pc;
     find := find pc; needsBlock := needsBlock pc; pnodes := l;
     nextId := nextId pc; doc := doc pc |}.

Definition setNextId (pc : ParseContext) (n : nat) : ParseContext :=
  {| parser := parser pc; options := options pc; isOpen := isOpen pc; open := open pc;
     find := find pc; needsBlock := needsBlock pc; pnodes := pnodes pc;
     nextId := n; doc := doc pc |}.

Definition setDoc (pc : ParseContext) (d : Doc) : ParseContext :=
  {| parser := parser pc; options := options pc; isOpen := isOpen pc; open := open pc;
     find := find pc; needsBlock := needsBlock pc; pnodes := pnodes pc;
     nextId := nextId pc; doc := d |}.

(** *** Computations of the parser

    A method of [ParseContext] either returns with a new state, throws
    (a [TypeError] on [undefined], as JavaScript raises it), or has not
    returned within the given number of steps. *)
Inductive Res (A : Type) :=
| Done (a : A) (pc : ParseContext)
| Throw
| Timeout.
Arguments Done {A} a pc.
Arguments Throw {A}.
Arguments Timeout {A}.

Definition M (A : Type) : Type := ParseContext -> Res A.

Definition ret {A} (a : A) : M A := fun pc => Done a pc.
Definition bind {A B} (m : M A) (k : A -> M B) : M B :=
  fun pc => match m pc with
            | Done a pc' => k a pc'
            | Throw => Throw
            | Timeout => Timeout
            end.
Definition throw {A} : M A := fun _ => Throw.
Definition timeout {A} : M A := fun _ => Timeout.
Definition get : M ParseContext := fun pc => Done pc pc.
Definition put (pc : ParseContext) : M unit := fun _ => Done tt pc.
Definition modify (f : ParseContext -> ParseContext) : M unit :=
  fun pc => Done tt (f pc).
Definition when (b : bool) (m : M unit) : M unit := if b then m else ret tt.
(** Reading a property of a value that may be [undefined]. *)
Definition defined {A} (o : option A) : M A :=
  match o with Some a => ret a | None => throw end.

End FromDom.

Arguments Done {SA DA A} a pc.
Arguments Throw {SA DA A}.
Arguments Timeout {SA DA A}.

Declare Scope parse_scope.
Delimit Scope parse_scope with parse.
Notation "x <- m ;; k" := (bind m (fun x => k))
  (at level 100, m at next level, right associativity) : parse_scope.
Notation "m ;;; k" := (bind m (fun _ => k))
  (at level 100, right associativity) : parse_scope.

Local Open Scope parse_scope.

(* ===================================================================== *)
(** ** The parser *)
(* ===================================================================== *)

Section Parser.
Context `{SA : SchemaAPI} `{DA : DomAPI}.

Definition blockTags : list string :=
  ["address"; "article"; "aside"; "blockquote"; "canvas";
   "dd"; "div"; "dl"; "fieldset"; "figcaption"; "figure";
   "footer"; "form"; "h1"; "h2"; "h3"; "h4"; "h5";
   "h6"; "header"; "hgroup"; "hr"; "li"; "noscript"; "ol";
   "output"; "p"; "pre"; "section"; "table"; "tfoot"; "ul"].

Definition ignoreTags : list string :=
  ["head"; "noscript"; "object"; "script"; "style"; "title"].

Definition listTags : list string := ["ol"; "ul"].

(** Using a bitfield for node context options *)
Definition OPT_PRESERVE_WS : Z := 1.
Definition OPT_PRESERVE_WS_FULL : Z := 2.
Definition OPT_OPEN_LEFT : Z := 4.

(** [x & flag] as a condition *)
Definition hasOpt (x flag : Z) : bool := negb (Z.land x flag =? 0).

Definition wsOptionsFor (type : option NodeType)
    (preserveWhitespace : option PreserveWS) (base : Z) : Z :=
  match preserveWhitespace with
  | Some pw =>
      Z.lor (match pw with PWFalse => 0 | _ => OPT_PRESERVE_WS end)
            (match pw with PWFull => OPT_PRESERVE_WS_FULL | _ => 0 end)
  | None =>
      if match type with
         | Some t => String.eqb (nt_whitespace t) "pre"
         | None => false
         end
      then Z.lor OPT_PRESERVE_WS OPT_PRESERVE_WS_FULL
      else Z.land base (Z.lnot OPT_OPEN_LEFT)
  end.

(** *** Helper functions at the end of the file *)

Definition findSameMarkInSet (m : Mark) (set : list Mark) : option Mark :=
  List.find (fun x => mark_eq m x) set.

Definition seenState (m : ContentMatch) (seen : list ContentMatch) : bool :=
  existsb (fun x => bool_decide (x = m)) seen.

(** The closure [scan] of [markMayApply]; [seen] is shared by all
    calls.  The search visits a state once, so [n] above the number of
    states is never used up. *)
Fixpoint scan (n : nat) (nodeType : NodeType) (seen : list ContentMatch)
    (m : ContentMatch) : bool * list ContentMatch :=
  match n with
  | O => (false, seen)
  | S k =>
      (fix edges (es : list (NodeType * ContentMatch))
                 (seen : list ContentMatch) : bool * list ContentMatch :=
         match es with
         | [] => (false, seen)
         | (type, next) :: rest =>
             if bool_decide (type = nodeType) then (true, seen)
             else if negb (seenState next seen) then
               let '(b, seen') := scan k nodeType seen next in
               if b then (true, seen') else edges rest seen'
             else edges rest seen
         end) (cm_edges m) (seen ++ [m])
  end.

(** Used when finding a mark at the top level of a fragment parse.
    [nodes] is [nodeType.schema.nodes]. *)
Definition markMayApply (nodes : list (string * NodeType))
    (markType : MarkType) (nodeType : NodeType) : bool :=
  existsb (fun entry : string * NodeType =>
             let parent := snd entry in
             if negb (nt_allowsMarkType parent markType) then false
             else fst (scan (S (length cm_states)) nodeType []
                            (nt_contentMatch parent)))
          nodes.

(** Tokenize a style attribute into property/value pairs. *)
Fixpoint parseStylesFrom (n : nat) (s : string) : list string :=
  match n with
  | O => []
  | S k =>
      match JS.styleDeclAt s with
      | Some (name, value, rest) => name :: JS.trim value :: parseStylesFrom k rest
      | None =>
          match s with
          | String _ r => parseStylesFrom k r
          | EmptyString => []
          end
      end
  end.
Definition parseStyles (style : string) : list string :=
  parseStylesFrom (S (String.length style)) style.

(** [copy] makes a new object with the same properties. *)
Definition copy (r : ParseRule) : ParseRule := r.

(** Kludge to work around directly nested list nodes; [n] bounds the
    iterations of the loop. *)
Fixpoint normalizeListFrom (n : nat) (d : Doc) (child prevItem : option DOMNode) : option Doc :=
  match n with
  | O => None
  | S k =>
      match child with
      | None => Some d
      | Some c =>
          let name := if nodeType d c =? 1
                      then Some (JS.toLowerCase (nodeName d c)) else None in
          if (JS.truthy name && JS.mem (default "" name) listTags)%bool then
            match prevItem with
            | Some p =>
                let d' := appendChild d p c in
                normalizeListFrom k d' (nextSibling d' p) prevItem
            | None => normalizeListFrom k d (nextSibling d c) None
            end
          else if bool_decide (name = Some "li")
               then normalizeListFrom k d (nextSibling d c) (Some c)
          else if JS.truthy name
               then normalizeListFrom k d (nextSibling d c) None
          else normalizeListFrom k d (nextSibling d c) prevItem
      end
  end.
Definition normalizeList (n : nat) (d : Doc) (dom : DOMNode) : option Doc :=
  normalizeListFrom n d (firstChild d dom) None.

(** *** class NodeContext *)

Definition Mark_none : list Mark := [].

(** The constructor; [None] when [type!] is read on [null]. *)
Definition newNodeContext (id : nat) (type : option NodeType)
    (attrs : option Attrs) (marks pendingMarks : list Mark) (solid : bool)
    (match_ : option ContentMatch) (options : Z) : option NodeContext :=
  let mk m :=
    {| nc_id := id; nc_type := type; nc_attrs := attrs; nc_marks := marks;
       nc_pendingMarks := pendingMarks; nc_solid := solid;
       nc_options := options; nc_match := m; nc_content := [];
       nc_activeMarks := Mark_none; nc_stashMarks := [] |} in
  match match_ with
  | Some m => Some (mk (Some m))
  | None =>
      if hasOpt options OPT_OPEN_LEFT then Some (mk None)
      else match type with
           | Some t => Some (mk (Some (nt_contentMatch t)))
           | None => None
           end
  end.

End Parser.

Module NodeContext.
Section NodeContext.
Context `{SA : SchemaAPI} `{DA : DomAPI}.

(** Returns the route (or [null]) and the frame, whose [match] it may
    set; [None] when [null.findWrapping] is called. *)
Definition findWrapping (cx : NodeContext) (node : Node)
    : option (option (list NodeType) * NodeContext) :=
  match nc_match cx with
  | Some m => Some (cm_findWrapping m (node_type node), cx)
  | None =>
      match nc_type cx with
      | None => Some (Some [], cx)
      | Some t =>
          match cm_fillBefore (nt_contentMatch t) (frag_from [node]) false with
          | Some fill =>
              match cm_matchFragment (nt_contentMatch t) fill with
              | Some m => Some (cm_findWrapping m (node_type node),
                                setMatch cx (Some m))
              | None => None
              end
          | None =>
              let start := nt_contentMatch t in
              match cm_findWrapping start (node_type node) with
              | Some wrap => Some (Some wrap, setMatch cx (Some start))
              | None => Some (None, cx)
              end
          end
      end
  end.

(** Strip trailing whitespace *)
Definition stripTrailing (content : list Node) : list Node :=
  match List.last (map Some content) None with
  | Some last =>
      if node_isText last then
        match node_text last with
        | Some t =>
            let kept := JS.dropTrailingSpace t in
            if String.eqb kept t then content
            else if JS.isEmpty kept then removelast content
            else removelast content ++ [node_withText last kept]
        | None => content
        end
      else content
  | None => content
  end.

(** Returns the node or fragment and the frame with its stripped
    content; [None] when [fillBefore] gives [null]. *)
Definition finish (cx : NodeContext) (openEnd : bool)
    : option ((Node + Fragment) * NodeContext) :=
  let content1 :=
    if negb (hasOpt (nc_options cx) OPT_PRESERVE_WS)
    then stripTrailing (nc_content cx) else nc_content cx in
  let cx1 := setContent cx content1 in
  let content := frag_from content1 in
  let filled :=
    match nc_match cx with
    | Some m =>
        if negb openEnd then
          match cm_fillBefore m frag_empty true with
          | Some f => Some (frag_append content f)
          | None => None
          end
        else Some content
    | None => Some content
    end in
  match filled with
  | Some content' =>
      match nc_type cx with
      | Some t => Some (inl (nt_create t (nc_attrs cx) (Some content')
                                       (Some (nc_marks cx))), cx1)
      | None => Some (inr content', cx1)
      end
  | None => None
  end.

(** Removes and returns the last stashed mark equal to [mark]. *)
Fixpoint popFromStashMark (mark : Mark) (stash : list Mark)
    : option (Mark * list Mark) :=
  match stash with
  | [] => None
  | x :: r =>
      match popFromStashMark mark r with
      | Some (m, r') => Some (m, x :: r')
      | None => if mark_eq mark x then Some (x, r) else None
      end
  end.

Definition mayApply (nodes : list (string * NodeType)) (cx : NodeContext)
    (nextType : NodeType) (mark : Mark) : bool :=
  match nc_type cx with
  | Some t => nt_allowsMarkType t (mark_type mark)
  | None => markMayApply nodes (mark_type mark) nextType
  end.

Definition applyPendingStep (nodes : list (string * NodeType))
    (nextType : NodeType) (cx : NodeContext) (mark : Mark) : NodeContext :=
  if (mayApply nodes cx nextType mark &&
      negb (isInSet mark (nc_activeMarks cx)))%bool
  then setPending (setActive cx (addToSet mark (nc_activeMarks cx)))
                  (removeFromSet mark (nc_pendingMarks cx))
  else cx.

(** The loop runs over the array that [pendingMarks] held on entry. *)
Definition applyPending (nodes : list (string * NodeType))
    (cx : NodeContext) (nextType : NodeType) : NodeContext :=
  fold_left (applyPendingStep nodes nextType) (nc_pendingMarks cx) cx.

Definition inlineContext (cx : NodeContext) (d : Doc) (node : DOMNode) : bool :=
  match nc_type cx with
  | Some t => nt_inlineContent t
  | None =>
      match nc_content cx with
      | first :: _ => node_isInline first
      | [] =>
          match parentNode d node with
          | Some p => negb (JS.mem (JS.toLowerCase (nodeName d p)) blockTags)
          | None => false
          end
      end
  end.

End NodeContext.
End NodeContext.

(* ===================================================================== *)
(** ** class ParseContext: the stack of frames *)
(* ===================================================================== *)

Section Stack.
Context `{SA : SchemaAPI} `{DA : DomAPI}.

(** [nodes[i]]: [undefined] outside the array. *)
Definition nodeAt (l : list NodeContext) (i : Z) : option NodeContext :=
  if i <? 0 then None else l !! Z.to_nat i.

(** The frame [nodes[i]] after a method has changed its fields. *)
Definition putNode (l : list NodeContext) (i : Z) (cx : NodeContext)
    : list NodeContext :=
  if i <? 0 then l else <[Z.to_nat i := cx]> l.

(** The constructor of [ParseContext]. *)
Definition newParseContext (parser : DOMParser) (options : ParseOptions)
    (isOpen : bool) (d : Doc) : option ParseContext :=
  let topOptions :=
    Z.lor (wsOptionsFor None (o_preserveWhitespace options) 0)
          (if isOpen then OPT_OPEN_LEFT else 0) in
  let topContext :=
    match o_topNode options with
    | Some topNode =>
        newNodeContext 0 (Some (node_type topNode)) (Some (node_attrs topNode))
          Mark_none Mark_none true
          (Some (default (nt_contentMatch (node_type topNode)) (o_topMatch options)))
          topOptions
    | None =>
        if isOpen
        then newNodeContext 0 None None Mark_none Mark_none true None topOptions
        else newNodeContext 0 (Some (topNodeType (schema parser))) None
               Mark_none Mark_none true None topOptions
    end in
  match topContext with
  | Some cx =>
      Some {| parser := parser; options := options; isOpen := isOpen;
              open := 0; find := o_findPositions options; needsBlock := false;
              pnodes := [cx]; nextId := 1; doc := d |}
  | None => None
  end.

(** [get top()] *)
Definition top (pc : ParseContext) : option NodeContext :=
  nodeAt (pnodes pc) (open pc).

(** [this.top] where a property of it is read next. *)
Definition getTop : M NodeContext := fun pc => defined (top pc) pc.

Definition setTop (cx : NodeContext) : M unit :=
  modify (fun pc => setNodes pc (putNode (pnodes pc) (open pc) cx)).

(** The loop of [closeExtra]: [cnt] frames, from index [i] down. *)
Fixpoint closeFrom (cnt : nat) (i : Z) (openEnd : bool)
    (l : list NodeContext) : option (list NodeContext) :=
  match cnt with
  | O => Some l
  | S k =>
      match nodeAt l (i - 1), nodeAt l i with
      | Some par, Some child =>
          match NodeContext.finish child openEnd with
          | Some (inl n, child') =>
              closeFrom k (i - 1) openEnd
                (putNode (putNode l i child') (i - 1)
                         (setContent par (nc_content par ++ [n])))
          | Some (inr _, _) =>
              (* a frame above the first always has a type *)
              None
          | None => None
          end
      | _, _ => None
      end
  end.

(** Make sure all nodes above this.open are finished and added to
    their parents *)
Definition closeExtra (openEnd : bool) : M unit := fun pc =>
  let i := Z.of_nat (length (pnodes pc)) - 1 in
  if i >? open pc then
    match closeFrom (Z.to_nat (i - open pc)) i openEnd (pnodes pc) with
    | Some l => Done tt (setNodes pc (take (Z.to_nat (open pc + 1)) l))
    | None => Throw
    end
  else Done tt pc.

(** [sync(to)]; [to] is a frame, given by its identity, or [undefined]. *)
Fixpoint syncFrom (cnt : nat) (i : Z) (l : list NodeContext)
    (to : option nat) : option Z :=
  match cnt with
  | O => None
  | S k =>
      if bool_decide (option_map nc_id (nodeAt l i) = to) then Some i
      else syncFrom k (i - 1) l to
  end.

Definition sync (to : option nat) : M bool := fun pc =>
  match syncFrom (Z.to_nat (open pc + 1)) (open pc) (pnodes pc) to with
  | Some i => Done true (setOpen pc i)
  | None => Done false pc
  end.

Definition contentSize (content : list Node) : Z :=
  fold_right (fun n acc => acc + node_nodeSize n) 0 content.

Fixpoint posFrom (cnt : nat) (i : Z) (l : list NodeContext) (pos : Z)
    : option Z :=
  match cnt with
  | O => Some pos
  | S k =>
      match nodeAt l i with
      | Some cx =>
          posFrom k (i - 1) l
            (pos + contentSize (nc_content cx) + (if i =? 0 then 0 else 1))
      | None => None
      end
  end.

(** [get currentPos()] *)
Definition currentPos : M Z :=
  closeExtra false ;;;
  pc <- get ;;
  defined (posFrom (Z.to_nat (open pc + 1)) (open pc) (pnodes pc) 0).

(** *** Position tracking *)

(** The loop shared by the four [find...] methods: every entry that
    [hit] selects gets the position that [value] computes. *)
Fixpoint updateEntries (hit : Doc -> FindEntry -> bool)
    (value : FindEntry -> M Z) (l : list FindEntry) : M (list FindEntry) :=
  match l with
  | [] => ret []
  | e :: r =>
      pc <- get ;;
      e' <- (if hit (doc pc) e
             then (p <- value e ;; ret (setPos e p))
             else ret e) ;;
      r' <- updateEntries hit value r ;;
      ret (e' :: r')
  end.

Definition withFind (hit : Doc -> FindEntry -> bool)
    (value : FindEntry -> M Z) : M unit :=
  pc <- get ;;
  match find pc with
  | Some l =>
      l' <- updateEntries hit value l ;;
      modify (fun pc => setFind pc (Some l'))
  | None => ret tt
  end.

Definition isNull {A} (o : option A) : bool :=
  match o with None => true | Some _ => false end.

Definition findAtPoint (parent : DOMNode) (offset : Z) : M unit :=
  withFind (fun _ e => bool_decide (fnode e = parent) && (foffset e =? offset))%bool
           (fun _ => currentPos).

Definition findInside (parent : DOMNode) : M unit :=
  withFind (fun d e => isNull (fpos e) && (nodeType d parent =? 1) &&
                       contains d parent (fnode e))%bool
           (fun _ => currentPos).

Definition findAround (parent content : DOMNode) (before : bool) : M unit :=
  if bool_decide (parent = content) then ret tt else
  withFind (fun d e => isNull (fpos e) && (nodeType d parent =? 1) &&
                       contains d parent (fnode e) &&
                       hasOpt (compareDocumentPosition d content (fnode e))
                              (if before then 2 else 4))%bool
           (fun _ => currentPos).

Definition findInText (textNode : DOMNode) : M unit :=
  withFind (fun _ e => bool_decide (fnode e = textNode))
           (fun e =>
              p <- currentPos ;;
              pc <- get ;;
              v <- defined (nodeValue (doc pc) textNode) ;;
              ret (p - (JS.len v - foffset e))).

(** *** Determines whether the given context string matches this context. *)

Definition typeMatches (t : NodeType) (part : string) : bool :=
  (String.eqb (nt_name t) part || JS.mem part (nt_groups t))%bool.

Section MatchesContext.
Variable pc : ParseContext.

Definition useRoot : bool :=
  (negb (isOpen pc) &&
   match o_context (options pc) with
   | None => true
   | Some option =>
       bool_decide (option_map nc_type (nodeAt (pnodes pc) 0)
                    = Some (Some (rp_parentType option)))
   end)%bool.

Definition minDepth : Z :=
  - (match o_context (options pc) with
     | Some option => rp_depth option + 1
     | None => 0
     end) + (if useRoot then 0 else 1).

(** The type [next] that a path segment is compared with at [depth];
    the outer [None] is the [TypeError] of [nodes[depth].type]. *)
Definition typeAtDepth (depth : Z) : option (option NodeType) :=
  if ((depth >? 0) || ((depth =? 0) && useRoot))%bool then
    match nodeAt (pnodes pc) depth with
    | Some cx => Some (nc_type cx)
    | None => None
    end
  else
    match o_context (options pc) with
    | Some option =>
        if depth >=? minDepth
        then Some (Some (rp_nodeType option (depth - minDepth)))
        else Some None
    | None => Some None
    end.

(** The closure [match(i, depth)] with [n = i + 1]. *)
Fixpoint matchPath (parts : list string) (n : nat) (depth : Z) : option bool :=
  match n with
  | O => Some true
  | S i =>
      let part := nth i parts EmptyString in
      if JS.isEmpty part then
        if (bool_decide (i = (length parts - 1)%nat) || bool_decide (i = O))%bool
        then matchPath parts i depth
        else
          (fix tryDepths (cnt : nat) (d : Z) : option bool :=
             match cnt with
             | O => Some false
             | S c =>
                 match matchPath parts i d with
                 | Some true => Some true
                 | Some false => tryDepths c (d - 1)
                 | None => None
                 end
             end) (Z.to_nat (depth - minDepth + 1)) depth
      else
        match typeAtDepth depth with
        | Some (Some next) =>
            if typeMatches next part then matchPath parts i (depth - 1)
            else Some false
        | Some None => Some false
        | None => None
        end
  end.

(** The part of [matchesContext] behind the test for alternatives. *)
Definition matchesPath (context : string) : option bool :=
  let parts := JS.splitChar 47 context in
  matchPath parts (length parts) (open pc).

(** [Array.prototype.some] *)
Fixpoint some (f : string -> option bool) (l : list string) : option bool :=
  match l with
  | [] => Some false
  | x :: r =>
      match f x with
      | Some true => Some true
      | Some false => some f r
      | None => None
      end
  end.

(** The alternatives that [split] returns contain no bar, so the
    recursive calls of [some] go to the path matcher. *)
Definition matchesContextPure (context : string) : option bool :=
  if JS.hasChar 124 context
  then some matchesPath (JS.splitPipe context)
  else matchesPath context.
End MatchesContext.

Definition matchesContext (context : string) : M bool :=
  pc <- get ;; defined (matchesContextPure pc context).

End Stack.

(* ===================================================================== *)
(** ** class DOMParser: the rule store *)
(* ===================================================================== *)

Section Rules.
Context `{SA : SchemaAPI} `{DA : DomAPI}.

(** [array.indexOf(x)] *)
Fixpoint indexOf (x : nat) (l : list nat) : Z :=
  match l with
  | [] => -1
  | y :: r =>
      if bool_decide (y = x) then 0
      else let k := indexOf x r in if k <? 0 then -1 else k + 1
  end.

(** Where the scan of [matchTag] and [matchStyle] starts. *)
Definition startAfter (after : option nat) (l : list nat) : nat :=
  match after with
  | Some a => Z.to_nat (indexOf a l + 1)
  | None => O
  end.

Definition ruleAt (pc : ParseContext) (i : nat) : option ParseRule :=
  rules (parser pc) !! i.

(** [rule.attrs = result || undefined] on the rule object [i]. *)
Definition writeAttrs (i : nat) (a : option Attrs) : M unit :=
  modify (fun pc =>
    setParser pc
      (setRules (parser pc)
         (alter (fun r => setAttrs r a) i (rules (parser pc))))).

(** The part of [matchTag] and [matchStyle] that runs [getAttrs]:
    [None] stands for [continue]. *)
Definition runGetAttrs (i : nat) (rule : ParseRule) (arg : GetAttrsArg)
    : M (option nat) :=
  match getAttrs rule with
  | Some f =>
      match f arg with
      | GAFalse => ret None
      | GANull => writeAttrs i None ;;; ret (Some i)
      | GAAttrs a => writeAttrs i (Some a) ;;; ret (Some i)
      end
  | None => ret (Some i)
  end.

Definition contextOk (rule : ParseRule) : M bool :=
  if negb (JS.truthy (context rule)) then ret true
  else matchesContext (default "" (context rule)).

Definition namespaceOk (d : Doc) (dom : DOMNode) (rule : ParseRule) : bool :=
  match namespace rule with
  | None => true
  | Some ns => bool_decide (namespaceURI d dom = Some ns)
  end.

Fixpoint matchTagFrom (cands : list nat) (dom : DOMNode) : M (option nat) :=
  match cands with
  | [] => ret None
  | i :: rest =>
      pc <- get ;;
      rule <- defined (ruleAt pc i) ;;
      ok <- (if (matches (doc pc) dom (default "" (tag rule)) &&
                 namespaceOk (doc pc) dom rule)%bool
             then contextOk rule else ret false) ;;
      if ok : bool then
        r <- runGetAttrs i rule (GAElement (doc pc) dom) ;;
        match r with
        | Some j => ret (Some j)
        | None => matchTagFrom rest dom
        end
      else matchTagFrom rest dom
  end.

Definition matchTag (dom : DOMNode) (after : option nat) : M (option nat) :=
  pc <- get ;;
  matchTagFrom (drop (startAfter after (tags (parser pc))) (tags (parser pc))) dom.

(** The test of [matchStyle] that makes the loop [continue], without
    its middle disjunct on the context. *)
Definition propMismatch (style prop : string) : bool :=
  negb (String.prefix prop style).

Definition valueMismatch (style prop value : string) : bool :=
  ((JS.len style >? JS.len prop) &&
   (negb (match String.get (String.length prop) style with
          | Some c => JS.isChar 61 c
          | None => false
          end) ||
    negb (String.eqb (JS.sliceFrom (S (String.length prop)) style) value)))%bool.

Fixpoint matchStyleFrom (cands : list nat) (prop value : string)
    : M (option nat) :=
  match cands with
  | [] => ret None
  | i :: rest =>
      pc <- get ;;
      rule <- defined (ruleAt pc i) ;;
      let style := default "" (style rule) in
      skip <- (if propMismatch style prop then ret true
               else
                 cx <- contextOk rule ;;
                 if negb cx then ret true
                 else ret (valueMismatch style prop value)) ;;
      if skip : bool then matchStyleFrom rest prop value
      else
        r <- runGetAttrs i rule (GAString value) ;;
        match r with
        | Some j => ret (Some j)
        | None => matchStyleFrom rest prop value
        end
  end.

Definition matchStyle (prop value : string) (after : option nat)
    : M (option nat) :=
  pc <- get ;;
  matchStyleFrom (drop (startAfter after (styles (parser pc)))
                       (styles (parser pc))) prop value.

(** *** [schemaRules] *)

Definition priorityOf (r : ParseRule) : Z := default 50 (priority r).

(** The function [insert] of [schemaRules]: [rule] goes in front of
    the first rule of lower priority. *)
Fixpoint insert (rule : ParseRule) (result : list ParseRule) : list ParseRule :=
  match result with
  | [] => [rule]
  | next :: rest =>
      if priorityOf next <? priorityOf rule then rule :: next :: rest
      else next :: insert rule rest
  end.

Definition truthyFn {A : Type} (o : option A) : bool :=
  match o with Some _ => true | None => false end.

(** The rule a mark declares, as it ends up in the list: the copy is
    inserted first and then completed, which changes the object that
    the list holds. *)
Definition markRule (name : string) (rule : ParseRule) : ParseRule :=
  let rule := copy rule in
  if negb (JS.truthy (mark rule) || ignore rule || truthyFn (clearMark rule))%bool
  then setMark rule (Some name) else rule.

Definition nodeRule (name : string) (rule : ParseRule) : ParseRule :=
  let rule := copy rule in
  if negb (JS.truthy (node rule) || ignore rule || JS.truthy (mark rule))%bool
  then setNode rule (Some name) else rule.

(** [rules.forEach(rule => insert(...))] *)
Definition insertAll (complete : ParseRule -> ParseRule)
    (rules : option (list ParseRule)) (result : list ParseRule)
    : list ParseRule :=
  match rules with
  | Some l => fold_left (fun acc rule => insert (complete rule) acc) l result
  | None => result
  end.

Definition schemaRules (schema : Schema) : list ParseRule :=
  let result :=
    fold_left (fun acc entry =>
                 insertAll (markRule (fst entry)) (markParseDOM schema (snd entry)) acc)
              (marks schema) [] in
  fold_left (fun acc entry =>
               insertAll (nodeRule (fst entry)) (nodeParseDOM schema (snd entry)) acc)
            (nodes schema) result.

(** *** The constructor *)

(** The indices of the rules that [test] selects. *)
Fixpoint selectFrom (test : ParseRule -> bool) (i : nat) (l : list ParseRule)
    : list nat :=
  match l with
  | [] => []
  | r :: rest =>
      if test r then i :: selectFrom test (S i) rest
      else selectFrom test (S i) rest
  end.

(** Is [r] a list rule whose node type can contain itself?  [None]
    when the schema has no node of that name. *)
Definition selfNesting (schema : Schema) (r : ParseRule) : option bool :=
  if (negb (JS.isListSelector (default "" (tag r))) || negb (JS.truthy (node r)))%bool
  then Some false
  else match lookupName (nodes schema) (default "" (node r)) with
       | Some n => Some (truthyFn (cm_matchType (nt_contentMatch n) n))
       | None => None
       end.

Definition newDOMParser (schema : Schema) (rules : list ParseRule)
    : option DOMParser :=
  let tags := selectFrom (fun r => JS.truthy (tag r)) O rules in
  let styles :=
    selectFrom (fun r => negb (JS.truthy (tag r)) && JS.truthy (style r))%bool
               O rules in
    match
      (fix anySelf (l : list nat) : option bool :=
         match l with
         | [] => Some false
         | i :: rest =>
             match rules !! i with
             | Some r =>
                 match selfNesting schema r with
                 | Some true => Some true
                 | Some false => anySelf rest
                 | None => None
                 end
             | None => None
             end
         end) tags
    with
    | Some b =>
        Some {| schema := schema; rules := rules; tags := tags;
                styles := styles; normalizeLists := negb b |}
    | None => None
    end.

(** [fromSchema]; [cached] is [schema.cached.domParser]. *)
Definition fromSchema (cached : option DOMParser) (schema : Schema)
    : option (DOMParser * option DOMParser) :=
  match cached with
  | Some p => Some (p, cached)
  | None =>
      match newDOMParser schema (schemaRules schema) with
      | Some p => Some (p, Some p)
      | None => None
      end
  end.

End Rules.

(* ===================================================================== *)
(** ** class ParseContext: placing nodes and marks *)
(* ===================================================================== *)

Section Placement.
Context `{SA : SchemaAPI} `{DA : DomAPI}.

Definition schemaNodes (pc : ParseContext) : list (string * NodeType) :=
  nodes (schema (parser pc)).

(** Open a node of the given type *)
Definition enterInner (type : NodeType) (attrs : option Attrs) (solid : bool)
    (preserveWS : option PreserveWS) : M unit :=
  closeExtra false ;;;
  top0 <- getTop ;;
  pc <- get ;;
  let top1 := NodeContext.applyPending (schemaNodes pc) top0 type in
  let top2 :=
    setMatch top1 (match nc_match top1 with
                   | Some m => cm_matchType m type
                   | None => None
                   end) in
  setTop top2 ;;;
  let options0 := wsOptionsFor (Some type) preserveWS (nc_options top2) in
  let options1 :=
    if (hasOpt (nc_options top2) OPT_OPEN_LEFT &&
        (length (nc_content top2) =? 0)%nat)%bool
    then Z.lor options0 OPT_OPEN_LEFT else options0 in
  cx <- defined (newNodeContext (nextId pc) (Some type) attrs
                   (nc_activeMarks top2) (nc_pendingMarks top2) solid None
                   options1) ;;
  modify (fun pc =>
    setOpen (setNextId (setNodes pc (pnodes pc ++ [cx])) (S (nextId pc)))
            (open pc + 1)).

(** The state of the loop of [findPlace]: the route and the frame
    [sync] that gave it. *)
Definition Route : Type := option (list NodeType * option nat).

Fixpoint findPlaceFrom (cnt : nat) (depth : Z) (node : Node) (route : Route)
    : M Route :=
  match cnt with
  | O => ret route
  | S k =>
      pc <- get ;;
      cx <- defined (nodeAt (pnodes pc) depth) ;;
      r <- defined (NodeContext.findWrapping cx node) ;;
      let '(found, cx') := r in
      modify (fun pc => setNodes pc (putNode (pnodes pc) depth cx')) ;;;
      let better :=
        match found, route with
        | Some f, None => true
        | Some f, Some (old, _) => (length f <? length old)%nat
        | None, _ => false
        end in
      let route' :=
        if better then option_map (fun f => (f, Some (nc_id cx))) found
        else route in
      if (better && match found with
                    | Some f => (length f =? 0)%nat
                    | None => false
                    end)%bool
      then ret route'
      else if nc_solid cx then ret route'
      else findPlaceFrom k (depth - 1) node route'
  end.

Fixpoint enterAll (route : list NodeType) : M unit :=
  match route with
  | [] => ret tt
  | t :: rest => enterInner t None false None ;;; enterAll rest
  end.

(** Try to find a way to fit the given node type into the current
    context. *)
Definition findPlace (node : Node) : M bool :=
  pc <- get ;;
  r <- findPlaceFrom (Z.to_nat (open pc + 1)) (open pc) node None ;;
  match r with
  | None => ret false
  | Some (route, to) =>
      sync to ;;;
      enterAll route ;;;
      ret true
  end.

Definition textblockFromContext (pc : ParseContext) : option NodeType :=
  let usable (t : NodeType) :=
    (nt_isTextblock t && truthyFn (nt_defaultAttrs t))%bool in
  let fromContext :=
    match o_context (options pc) with
    | Some cx =>
        (fix down (cnt : nat) (d : Z) : option NodeType :=
           match cnt with
           | O => None
           | S k =>
               match rp_defaultTypeAfter cx d with
               | Some deflt => if usable deflt then Some deflt else down k (d - 1)
               | None => down k (d - 1)
               end
           end) (Z.to_nat (rp_depth cx + 1)) (rp_depth cx)
    | None => None
    end in
  match fromContext with
  | Some t => Some t
  | None => option_map snd (List.find (fun e => usable (snd e)) (schemaNodes pc))
  end.

(** The marks a node gets in [insertNode]. *)
Definition marksFor (top : NodeContext) (node : Node) : list Mark :=
  fold_left (fun marks m =>
               if match nc_type top with
                  | Some t => nt_allowsMarkType t (mark_type m)
                  | None => true
                  end
               then addToSet m marks else marks)
            (node_marks node) (nc_activeMarks top).

(** Try to insert the given node, adjusting the context when needed. *)
Definition insertNode (node : Node) : M bool :=
  pc <- get ;;
  (if (node_isInline node && needsBlock pc)%bool then
     t <- getTop ;;
     if isNull (nc_type t) then
       match textblockFromContext pc with
       | Some block => enterInner block None false None
       | None => ret tt
       end
     else ret tt
   else ret tt) ;;;
  ok <- findPlace node ;;
  if ok : bool then
    closeExtra false ;;;
    top0 <- getTop ;;
    pc <- get ;;
    let top1 := NodeContext.applyPending (schemaNodes pc) top0 (node_type node) in
    let top2 :=
      match nc_match top1 with
      | Some m => setMatch top1 (cm_matchType m (node_type node))
      | None => top1
      end in
    let marks := marksFor top2 node in
    setTop (setContent top2 (nc_content top2 ++ [node_mark node marks])) ;;;
    ret true
  else ret false.

(** Try to start a node of the given type, adjusting the context when
    necessary. *)
Definition enter (type : NodeType) (attrs : option Attrs)
    (preserveWS : option PreserveWS) : M bool :=
  ok <- findPlace (nt_create type attrs None None) ;;
  (if ok : bool then enterInner type attrs true preserveWS else ret tt) ;;;
  ret ok.

(** [ParseContext.finish]; the result is a node or a fragment. *)
Definition finish : M (Node + Fragment) :=
  modify (fun pc => setOpen pc 0) ;;;
  pc <- get ;;
  closeExtra (isOpen pc) ;;;
  pc <- get ;;
  root <- defined (nodeAt (pnodes pc) 0) ;;
  r <- defined (NodeContext.finish root (isOpen pc || o_topOpen (options pc))) ;;
  modify (fun pc => setNodes pc (putNode (pnodes pc) 0 (snd r))) ;;;
  ret (fst r).

(** *** Pending marks *)

Definition addPendingMark (mark : Mark) : M unit :=
  t <- getTop ;;
  let t1 :=
    match findSameMarkInSet mark (nc_pendingMarks t) with
    | Some found => setStash t (nc_stashMarks t ++ [found])
    | None => t
    end in
  setTop (setPending t1 (addToSet mark (nc_pendingMarks t1))).

(** [array.lastIndexOf(mark) > -1]: the same object is in the array. *)
Definition hasMark (mark : Mark) (l : list Mark) : bool :=
  existsb (fun x => bool_decide (x = mark)) l.

(** What [removePendingMark] does to one frame. *)
Definition removeFromLevel (mark : Mark) (level : NodeContext) : NodeContext :=
  if hasMark mark (nc_pendingMarks level) then
    setPending level (removeFromSet mark (nc_pendingMarks level))
  else
    let level1 := setActive level (removeFromSet mark (nc_activeMarks level)) in
    match NodeContext.popFromStashMark mark (nc_stashMarks level1) with
    | Some (stashMark, rest) =>
        let level2 := setStash level1 rest in
        if match nc_type level2 with
           | Some t => nt_allowsMarkType t (mark_type stashMark)
           | None => false
           end
        then setActive level2 (addToSet stashMark (nc_activeMarks level2))
        else level2
    | None => level1
    end.

Fixpoint removePendingFrom (cnt : nat) (depth : Z) (mark : Mark)
    (upto : option nat) : M unit :=
  match cnt with
  | O => ret tt
  | S k =>
      pc <- get ;;
      level <- defined (nodeAt (pnodes pc) depth) ;;
      modify (fun pc =>
        setNodes pc (putNode (pnodes pc) depth (removeFromLevel mark level))) ;;;
      if bool_decide (Some (nc_id level) = upto) then ret tt
      else removePendingFrom k (depth - 1) mark upto
  end.

Definition removePendingMark (mark : Mark) (upto : option nat) : M unit :=
  pc <- get ;;
  removePendingFrom (Z.to_nat (open pc + 1)) (open pc) mark upto.

End Placement.

(* ===================================================================== *)
(** ** class ParseContext: walking the input tree *)
(* ===================================================================== *)

Section Walker.
Context `{SA : SchemaAPI} `{DA : DomAPI}.

Definition schemaText (pc : ParseContext) (s : string) : Node :=
  text (schema (parser pc)) s.

(** The text that [addTextNode] inserts for [value]. *)
Definition normalizedText (pc : ParseContext) (top : NodeContext)
    (dom : DOMNode) (value : string) : string :=
  if negb (hasOpt (nc_options top) OPT_PRESERVE_WS) then
    let value := JS.collapseSpace value in
    if (JS.startsWithSpace value &&
        (open pc =? Z.of_nat (length (pnodes pc)) - 1))%bool then
      let nodeBefore := List.last (map Some (nc_content top)) None in
      let domNodeBefore := previousSibling (doc pc) dom in
      if match nodeBefore with
         | None => true
         | Some nb =>
             (match domNodeBefore with
              | Some b => String.eqb (nodeName (doc pc) b) "BR"
              | None => false
              end ||
              (node_isText nb &&
               match node_text nb with
               | Some t => JS.endsWithSpace t
               | None => false
               end))%bool
         end
      then JS.slice1 value else value
    else value
  else if negb (hasOpt (nc_options top) OPT_PRESERVE_WS_FULL) then
    JS.newlinesToSpaces value
  else JS.normalizeNewlines value.

Definition addTextNode (dom : DOMNode) : M unit :=
  pc <- get ;;
  value <- defined (nodeValue (doc pc) dom) ;;
  top <- getTop ;;
  if (hasOpt (nc_options top) OPT_PRESERVE_WS_FULL ||
      NodeContext.inlineContext top (doc pc) dom ||
      JS.hasNonSpace value)%bool
  then
    let value := normalizedText pc top dom value in
    (if negb (JS.isEmpty value)
     then (insertNode (schemaText pc value) ;;; ret tt)
     else ret tt) ;;;
    findInText dom
  else findInside dom.

(** Called for leaf DOM nodes that would otherwise be ignored *)
Definition leafFallback (dom : DOMNode) : M unit :=
  pc <- get ;;
  if String.eqb (nodeName (doc pc) dom) "BR" then
    t <- getTop ;;
    if match nc_type t with
       | Some ty => nt_inlineContent ty
       | None => false
       end
    then
      let '(d', textNode) :=
        createTextNode (doc pc) (String (ascii_of_N 10) EmptyString) in
      modify (fun pc => setDoc pc d') ;;;
      addTextNode textNode
    else ret tt
  else ret tt.

(** Called for ignored nodes *)
Definition ignoreFallback (dom : DOMNode) : M unit :=
  pc <- get ;;
  (* Ignored BR nodes should at least create an inline context *)
  if String.eqb (nodeName (doc pc) dom) "BR" then
    t <- getTop ;;
    if match nc_type t with
       | Some ty => negb (nt_inlineContent ty)
       | None => true
       end
    then (findPlace (schemaText pc "-") ;;; ret tt)
    else ret tt
  else ret tt.

(** [obj[key]] for a key that may be [undefined] *)
Definition propKey (o : option string) : string := default "undefined" o.

Definition MarkSets : Type := list Mark * list Mark.

(** The inner loop of [readStyles] for one property; [None] is the
    result [null]. *)
Fixpoint readStyleLoop (n : nat) (prop value : string) (after : option nat)
    (acc : MarkSets) : M (option MarkSets) :=
  match n with
  | O => timeout
  | S k =>
      r <- matchStyle prop value after ;;
      match r with
      | None => ret (Some acc)
      | Some i =>
          pc <- get ;;
          rule <- defined (ruleAt pc i) ;;
          if ignore rule then ret None else
          acc' <- match clearMark rule with
                  | Some clear =>
                      t <- getTop ;;
                      ret (fst acc,
                           fold_left (fun remove m =>
                                        if clear m then addToSet m remove
                                        else remove)
                                     (nc_pendingMarks t) (snd acc))
                  | None =>
                      mt <- defined (lookupName (marks (schema (parser pc)))
                                                (propKey (mark rule))) ;;
                      ret (addToSet (mt_create mt (attrs rule)) (fst acc),
                           snd acc)
                  end ;;
          if bool_decide (consuming rule = Some false)
          then readStyleLoop k prop value (Some i) acc'
          else ret (Some acc')
      end
  end.

(** Run any style parser associated with the node's styles.  [styles]
    holds a property and its value in turn, as [parseStyles] makes
    it; a list of odd length does not come from there. *)
Fixpoint readStylesFrom (n : nat) (styles : list string) (acc : MarkSets)
    : M (option MarkSets) :=
  match styles with
  | [] => ret (Some acc)
  | prop :: value :: rest =>
      r <- readStyleLoop n prop value None acc ;;
      match r with
      | None => ret None
      | Some acc' => readStylesFrom n rest acc'
      end
  | [_] => throw
  end.

Definition readStyles (n : nat) (styles : list string) : M (option MarkSets) :=
  readStylesFrom n styles (Mark_none, Mark_none).

Fixpoint forEachM {A} (f : A -> M unit) (l : list A) : M unit :=
  match l with
  | [] => ret tt
  | x :: r => f x ;;; forEachM f r
  end.

Definition deref (pc : ParseContext) (r : RuleRef) : option ParseRule :=
  match r with
  | StoreRule i => ruleAt pc i
  | OwnRule rule => Some rule
  end.

Definition skipTruthy (s : option SkipSpec) : bool :=
  match s with
  | Some (SkipBool b) => b
  | Some (SkipNode _) => true
  | None => false
  end.

(** The four methods that call each other, for the recursive calls of
    a method, and the steps left for the loops. *)
Record Walk := {
  w_steps : nat;
  w_addDOM : DOMNode -> M unit;
  w_addElement : DOMNode -> option nat -> M unit;
  w_addAllFrom : DOMNode -> option DOMNode -> option DOMNode -> Z -> M unit
}.

Section Methods.
Variable W : Walk.

(** Add a DOM node to the content. *)
Definition addDOM (dom : DOMNode) : M unit :=
  pc <- get ;;
  if nodeType (doc pc) dom =? 3 then addTextNode dom
  else if nodeType (doc pc) dom =? 1 then
    let style := getAttribute (doc pc) dom "style" in
    if negb (JS.truthy style) then w_addElement W dom None
    else
      marks <- readStyles (w_steps W) (parseStyles (default "" style)) ;;
      match marks with
      | None => ret tt (* A style with ignore: true *)
      | Some (addMarks, removeMarks) =>
          pc <- get ;;
          let top := option_map nc_id (top pc) in
          forEachM (fun m => removePendingMark m top) removeMarks ;;;
          forEachM addPendingMark addMarks ;;;
          w_addElement W dom None ;;;
          forEachM (fun m => removePendingMark m top) addMarks ;;;
          forEachM addPendingMark removeMarks
      end
  else ret tt.

(** The loop of [addAll]: [dom] runs over the children up to [end_]. *)
Definition addAllFrom (parent : DOMNode) (dom end_ : option DOMNode)
    (index : Z) : M unit :=
  if bool_decide (dom = end_) then findAtPoint parent index
  else
    findAtPoint parent index ;;;
    d <- defined dom ;;
    w_addDOM W d ;;;
    pc <- get ;;
    w_addAllFrom W parent (nextSibling (doc pc) d) end_ (index + 1).

(** Add all child nodes between [startIndex] and [endIndex] (or the
    whole node, if not given). *)
Definition addAll (parent : DOMNode) (startIndex endIndex : option Z)
    : M unit :=
  pc <- get ;;
  let index := default 0 startIndex in
  let dom := if index =? 0 then firstChild (doc pc) parent
             else childNodes (doc pc) parent index in
  let end_ := match endIndex with
              | Some e => childNodes (doc pc) parent e
              | None => None
              end in
  addAllFrom parent dom end_ index.

Definition contentDOMOf (rule : ParseRule) (dom : DOMNode) : M DOMNode :=
  pc <- get ;;
  match contentElement rule with
  | Some (CESelector sel) => defined (querySelector (doc pc) dom sel)
  | Some (CEFunction f) => ret (f (doc pc) dom)
  | Some (CEElement e) => ret e
  | None => ret dom
  end.

(** Look up a handler for the given node and apply it. *)
Definition addElementByRule (dom : DOMNode) (rule : ParseRule)
    (continueAfter : option nat) : M unit :=
  pc <- get ;;
  entered <-
    (if JS.truthy (node rule) then
       nodeType <- defined (lookupName (schemaNodes pc)
                                       (default "" (node rule))) ;;
       if negb (nt_isLeaf nodeType) then
         sync <- enter nodeType (attrs rule) (preserveWhitespace rule) ;;
         ret (sync, Some nodeType, None)
       else
         ok <- insertNode (nt_create nodeType (attrs rule) None None) ;;
         (if ok : bool then ret tt else leafFallback dom) ;;;
         ret (false, Some nodeType, None)
     else
       markType <- defined (lookupName (marks (schema (parser pc)))
                                       (propKey (mark rule))) ;;
       let mark := mt_create markType (attrs rule) in
       addPendingMark mark ;;;
       ret (false, None, Some mark)) ;;
  let '(sync_, nodeType, mark) := entered in
  pc <- get ;;
  let startIn := option_map nc_id (top pc) in
  (if match nodeType with Some t => nt_isLeaf t | None => false end
   then findInside dom
   else
     match continueAfter with
     | Some after => w_addElement W dom (Some after)
     | None =>
         match getContent rule with
         | Some content =>
             findInside dom ;;;
             pc <- get ;;
             forEachM (fun n => insertNode n ;;; ret tt)
                      (frag_nodes (content (doc pc) dom))
         | None =>
             contentDOM <- contentDOMOf rule dom ;;
             findAround dom contentDOM true ;;;
             addAll contentDOM None None
         end
     end) ;;;
  (if sync_ : bool then
     found <- sync startIn ;;
     if found : bool then modify (fun pc => setOpen pc (open pc - 1))
     else ret tt
   else ret tt) ;;;
  match mark with
  | Some m => removePendingMark m startIn
  | None => ret tt
  end.

(** The branch of [addElement] for an element without a rule, or
    with a rule that has [skip] or [closeParent]: its children are
    added in place.  [name] is the tag name [addElement] computed. *)
Definition addTransparent (name : string) (dom : DOMNode) : M unit :=
  pc <- get ;;
  let oldNeedsBlock := needsBlock pc in
  if JS.mem name blockTags then
    top0 <- getTop ;;
    (if (match nc_content top0 with
         | first :: _ => node_isInline first
         | [] => false
         end && negb (open pc =? 0))%bool
     then modify (fun pc => setOpen pc (open pc - 1))
     else ret tt) ;;;
    top1 <- getTop ;;
    (if isNull (nc_type top1)
     then modify (fun pc => setNeedsBlock pc true)
     else ret tt) ;;;
    addAll dom None None ;;;
    sync (Some (nc_id top1)) ;;;
    modify (fun pc => setNeedsBlock pc oldNeedsBlock)
  else if isNull (firstChild (doc pc) dom) then leafFallback dom
  else
    addAll dom None None ;;;
    modify (fun pc => setNeedsBlock pc oldNeedsBlock).

(** Try to find a handler for the given tag and use that to parse.
    If none is found, the element's content nodes are added
    directly. *)
Definition addElement (dom : DOMNode) (matchAfter : option nat) : M unit :=
  pc <- get ;;
  let name := JS.toLowerCase (nodeName (doc pc) dom) in
  (if (JS.mem name listTags && normalizeLists (parser pc))%bool
   then d' <- (match normalizeList (w_steps W) (doc pc) dom with
               | Some d' => ret d'
               | None => timeout
               end) ;;
        modify (fun pc => setDoc pc d')
   else ret tt) ;;;
  pc <- get ;;
  found <-
    match match o_ruleFromNode (options pc) with
          | Some f => f (doc pc) dom
          | None => None
          end with
    | Some own => ret (Some (OwnRule own), None)
    | None =>
        ruleID <- matchTag dom matchAfter ;;
        ret (option_map StoreRule ruleID, ruleID)
    end ;;
  let '(ref, ruleID) := found in
  pc <- get ;;
  rule <- match ref with
          | Some r => (x <- defined (deref pc r) ;; ret (Some x))
          | None => ret None
          end ;;
  if match rule with
     | Some r => ignore r
     | None => JS.mem name ignoreTags
     end
  then findInside dom ;;; ignoreFallback dom
  else
    match rule with
    | Some r =>
        if (skipTruthy (skip r) || closeParent r)%bool
        then
          (if closeParent r
           then modify (fun pc => setOpen pc (Z.max 0 (open pc - 1)))
           else ret tt) ;;;
          pc <- get ;;
          let dom' :=
            if closeParent r then dom
            else match skip r with
                 | Some (SkipNode n) =>
                     if nodeType (doc pc) n =? 0 then dom else n
                 | _ => dom
                 end in
          addTransparent name dom'
        else
          addElementByRule dom r
            (if bool_decide (consuming r = Some false) then ruleID else None)
    | None => addTransparent name dom
    end.

End Methods.

(** The methods with their recursive calls tied together; a call
    uses up one of [fuel] steps. *)
Fixpoint walk (fuel : nat) : Walk :=
  match fuel with
  | O => {| w_steps := O;
            w_addDOM := fun _ => timeout;
            w_addElement := fun _ _ => timeout;
            w_addAllFrom := fun _ _ _ _ => timeout |}
  | S k =>
      let W := walk k in
      {| w_steps := S k;
         w_addDOM := addDOM W;
         w_addElement := addElement W;
         w_addAllFrom := addAllFrom W |}
  end.

(** [parse] and [parseSlice] share their first two statements: the
    result of [finish] is the node for [parse], and the fragment that
    [parseSlice] hands to [Slice.maxOpen]. *)
Definition parseWith (fuel : nat) (isOpen : bool) (parser : DOMParser)
    (d : Doc) (dom : DOMNode) (options : ParseOptions) : Res (Node + Fragment) :=
  match newParseContext parser options isOpen d with
  | Some context =>
      (addAll (walk fuel) dom (o_from options) (o_to options) ;;; finish) context
  | None => Throw
  end.

Definition parse (fuel : nat) := parseWith fuel false.
Definition parseSlice (fuel : nat) := parseWith fuel true.

End Walker.

(* ===================================================================== *)
(** ** A small schema and input tree, for concrete runs *)
(* ===================================================================== *)

Module Sample.

Local Set Warnings "-register-all".

Inductive SNodeType := TDoc | TBlockquote | TParagraph | TText | TBreak.
Inductive SMarkType := MStrong | MColor | MComment.

(** A mark object: [sm_ref] tells two objects with the same type and
    attributes apart.  The marks that [mt_create] makes all have the
    reference 0, so marks created with the same type and attributes
    are one object here. *)
Record SMark := {
  sm_ref : nat;
  sm_type : SMarkType;
  sm_attrs : option string
}.

Inductive SNode :=
| NElem (t : SNodeType) (a : option string) (content : list SNode) (marks : list SMark)
| NText (s : string) (marks : list SMark).

(** One state per content expression: [block*], [inline*] and the
    empty content of leaves. *)
Inductive SMatch := CBlocks | CInlines | CNone.

#[global] Instance SNodeType_eq : EqDecision SNodeType.
Proof. solve_decision. Defined.
#[global] Instance SMarkType_eq : EqDecision SMarkType.
Proof. solve_decision. Defined.
#[global] Instance SMark_eq : EqDecision SMark.
Proof. solve_decision. Defined.
#[global] Instance SMatch_eq : EqDecision SMatch.
Proof. solve_decision. Defined.

Definition isBlock (t : SNodeType) : bool :=
  match t with TBlockquote | TParagraph => true | _ => false end.
Definition isInlineType (t : SNodeType) : bool :=
  match t with TText | TBreak => true | _ => false end.

Definition contentOf (t : SNodeType) : SMatch :=
  match t with
  | TDoc | TBlockquote => CBlocks
  | TParagraph => CInlines
  | TText | TBreak => CNone
  end.

Definition accepts (m : SMatch) (t : SNodeType) : bool :=
  match m with
  | CBlocks => isBlock t
  | CInlines => isInlineType t
  | CNone => false
  end.

Definition sFindWrapping (m : SMatch) (t : SNodeType) : option (list SNodeType) :=
  if accepts m t then Some []
  else match m with
       | CBlocks => if isInlineType t then Some [TParagraph] else None
       | _ => None
       end.

Definition typeName (t : SNodeType) : string :=
  match t with
  | TDoc => "doc" | TBlockquote => "blockquote" | TParagraph => "paragraph"
  | TText => "text" | TBreak => "hard_break"
  end.

Definition groupsOf (t : SNodeType) : list string :=
  match t with
  | TBlockquote | TParagraph => ["block"]
  | TText | TBreak => ["inline"]
  | TDoc => []
  end.

Definition sMarkEq (a b : SMark) : bool :=
  bool_decide (sm_type a = sm_type b /\ sm_attrs a = sm_attrs b).

Definition sIsInSet (m : SMark) (set : list SMark) : bool := existsb (sMarkEq m) set.

Definition rank (t : SMarkType) : nat :=
  match t with MStrong => 0%nat | MColor => 1%nat | MComment => 2%nat end.

(** The mark types that a mark type excludes: its own type, unless
    the schema says otherwise.  [strong] and [color] keep that
    default; [comment] is declared with [excludes: ""], so that
    comments with different attributes can lie over each other. *)
Definition excludes (t other : SMarkType) : bool :=
  match t with
  | MComment => false
  | _ => bool_decide (t = other)
  end.

(** Modelled from the spec: the ordered, deduplicated mark collections
    of section 2 (file mark.ts is not part of this source), with the
    exclusion between mark types that the schema declares.  The loop
    of [addToSet] over the set: [None] is the return of the set as it
    is, for a set that holds an equal mark or a mark whose type
    excludes the new one; marks whose type the new mark excludes are
    left out of the copy; the new mark is placed in front of the first
    mark of a higher rank, or at the end. *)
Fixpoint addFrom (m : SMark) (placed : bool) (copy rest : list SMark)
    : option (list SMark) :=
  match rest with
  | [] => Some (if placed then copy else copy ++ [m])
  | other :: r =>
      if sMarkEq m other then None
      else if excludes (sm_type m) (sm_type other) then addFrom m placed copy r
      else if excludes (sm_type other) (sm_type m) then None
      else if (negb placed && (rank (sm_type m) <? rank (sm_type other))%nat)%bool
           then addFrom m true (copy ++ [m; other]) r
           else addFrom m placed (copy ++ [other]) r
  end.

Definition sAddToSet (m : SMark) (set : list SMark) : list SMark :=
  default set (addFrom m false [] set).

Fixpoint sRemoveFromSet (m : SMark) (set : list SMark) : list SMark :=
  match set with
  | [] => []
  | x :: r => if sMarkEq m x then r else x :: sRemoveFromSet m r
  end.

Fixpoint sNodeSize (n : SNode) : Z :=
  match n with
  | NText s _ => JS.len s
  | NElem t _ content _ =>
      if isInlineType t then 1
      else 2 + fold_right (fun c acc => acc + sNodeSize c) 0 content
  end.

Definition sNodeType (n : SNode) : SNodeType :=
  match n with NElem t _ _ _ => t | NText _ _ => TText end.

(** [Mark.sameSet] *)
Definition sameMarks (a b : list SMark) : bool :=
  ((length a =? length b)%nat &&
   forallb (fun p => sMarkEq (fst p) (snd p)) (combine a b))%bool.

(** A fragment keeps no two text nodes with the same marks next to
    each other: [Fragment.from] and [append] join them. *)
Fixpoint joinText (l : list SNode) : list SNode :=
  match l with
  | [] => []
  | NText s m :: r =>
      match joinText r with
      | NText s' m' :: r' =>
          if sameMarks m m' then NText (s ++ s') m :: r'
          else NText s m :: NText s' m' :: r'
      | r' => NText s m :: r'
      end
  | x :: r => x :: joinText r
  end.

#[global] Instance schemaAPI : SchemaAPI := {|
  Attrs := string;
  NodeType := SNodeType;
  MarkType := SMarkType;
  Mark := SMark;
  ContentMatch := SMatch;
  Node := SNode;
  Fragment := list SNode;
  ResolvedPos := list SNodeType;
  nt_name := typeName;
  nt_groups := groupsOf;
  nt_inlineContent := fun t => bool_decide (t = TParagraph);
  nt_isLeaf := isInlineType;
  nt_isTextblock := fun t => bool_decide (t = TParagraph);
  nt_defaultAttrs := fun _ => Some EmptyString;
  nt_whitespace := fun _ => "normal";
  nt_contentMatch := contentOf;
  nt_allowsMarkType := fun t _ => bool_decide (t = TParagraph);
  nt_create := fun t a c m => NElem t a (default [] c) (default [] m);
  mt_create := fun t a => {| sm_ref := 0; sm_type := t; sm_attrs := a |};
  mark_type := sm_type;
  mark_eq := sMarkEq;
  addToSet := sAddToSet;
  removeFromSet := sRemoveFromSet;
  isInSet := sIsInSet;
  cm_matchType := fun m t => if accepts m t then Some m else None;
  cm_matchFragment := fun m f =>
    if forallb (fun n => accepts m (sNodeType n)) f then Some m else None;
  cm_fillBefore := fun m f _ =>
    if forallb (fun n => accepts m (sNodeType n)) f then Some [] else None;
  cm_findWrapping := sFindWrapping;
  cm_edges := fun m =>
    match m with
    | CBlocks => [(TBlockquote, CBlocks); (TParagraph, CBlocks)]
    | CInlines => [(TText, CInlines); (TBreak, CInlines)]
    | CNone => []
    end;
  cm_states := [CBlocks; CInlines; CNone];
  node_type := sNodeType;
  node_attrs := fun n => match n with NElem _ (Some a) _ _ => a | _ => EmptyString end;
  node_marks := fun n => match n with NElem _ _ _ m => m | NText _ m => m end;
  node_isText := fun n => match n with NText _ _ => true | _ => false end;
  node_isInline := fun n => isInlineType (sNodeType n);
  node_text := fun n => match n with NText s _ => Some s | _ => None end;
  node_nodeSize := sNodeSize;
  node_mark := fun n m =>
    match n with NElem t a c _ => NElem t a c m | NText s _ => NText s m end;
  node_withText := fun n s =>
    match n with NText _ m => NText s m | _ => n end;
  frag_empty := [];
  frag_from := joinText;
  frag_append := fun a b => joinText (a ++ b);
  frag_nodes := fun f => f;
  rp_depth := fun p => Z.of_nat (length p) - 1;
  rp_nodeType := fun p d => nth (Z.to_nat d) p TDoc;
  rp_parentType := fun p => List.last p TDoc;
  rp_defaultTypeAfter := fun p d =>
    match contentOf (nth (Z.to_nat d) p TDoc) with
    | CBlocks => Some TParagraph
    | _ => None
    end
|}.

(** *** The input tree: an array of nodes that refer to each other by
    index, numbered in document order.  A node keeps its [nodeName]
    and, for the type selectors of [matches] and [querySelector], its
    local name in lower case. *)
Record DNode := {
  dn_type : Z;
  dn_name : string;
  dn_local : string;
  dn_value : option string;
  dn_parent : option nat;
  dn_children : list nat;
  dn_style : option string
}.

Definition dnode (d : list DNode) (n : nat) : DNode :=
  nth n d {| dn_type := 0; dn_name := ""; dn_local := ""; dn_value := None;
             dn_parent := None; dn_children := []; dn_style := None |}.

Definition elem (name : string) (parent : option nat) (children : list nat)
    (style : option string) : DNode :=
  {| dn_type := 1; dn_name := name; dn_local := JS.toLowerCase name;
     dn_value := None; dn_parent := parent; dn_children := children;
     dn_style := style |}.

Definition textNode (value : string) (parent : option nat) : DNode :=
  {| dn_type := 3; dn_name := "#text"; dn_local := "#text";
     dn_value := Some value; dn_parent := parent; dn_children := [];
     dn_style := None |}.

Fixpoint after (n : nat) (l : list nat) : option nat :=
  match l with
  | x :: r => if bool_decide (x = n) then head r else after n r
  | [] => None
  end.

Fixpoint before (n : nat) (l : list nat) : option nat :=
  match l with
  | x :: r =>
      match r with
      | y :: _ => if bool_decide (y = n) then Some x else before n r
      | [] => None
      end
  | [] => None
  end.

Definition siblings (d : list DNode) (n : nat) : list nat :=
  match dn_parent (dnode d n) with
  | Some p => dn_children (dnode d p)
  | None => []
  end.

Fixpoint insideFrom (fuel : nat) (d : list DNode) (a b : nat) : bool :=
  match fuel with
  | O => false
  | S k =>
      if bool_decide (a = b) then true
      else match dn_parent (dnode d b) with
           | Some p => insideFrom k d a p
           | None => false
           end
  end.
Definition inside (d : list DNode) (a b : nat) : bool :=
  insideFrom (S (length d)) d a b.

Definition setChildren (x : DNode) (l : list nat) : DNode :=
  {| dn_type := dn_type x; dn_name := dn_name x; dn_local := dn_local x;
     dn_value := dn_value x; dn_parent := dn_parent x; dn_children := l;
     dn_style := dn_style x |}.
Definition setParent (x : DNode) (p : option nat) : DNode :=
  {| dn_type := dn_type x; dn_name := dn_name x; dn_local := dn_local x;
     dn_value := dn_value x; dn_parent := p; dn_children := dn_children x;
     dn_style := dn_style x |}.

Definition sAppendChild (d : list DNode) (p c : nat) : list DNode :=
  let d1 :=
    match dn_parent (dnode d c) with
    | Some q =>
        alter (fun x => setChildren x
                 (List.filter (fun y => negb (bool_decide (y = c))) (dn_children x)))
              q d
    | None => d
    end in
  alter (fun x => setParent x (Some p))
        c (alter (fun x => setChildren x (dn_children x ++ [c])) p d1).

#[global] Instance domAPI : DomAPI := {|
  DOMNode := nat;
  Doc := list DNode;
  nodeType := fun d n => dn_type (dnode d n);
  nodeName := fun d n => dn_name (dnode d n);
  nodeValue := fun d n => dn_value (dnode d n);
  parentNode := fun d n => dn_parent (dnode d n);
  firstChild := fun d n => head (dn_children (dnode d n));
  nextSibling := fun d n => after n (siblings d n);
  previousSibling := fun d n => before n (siblings d n);
  childNodes := fun d n i =>
    if i <? 0 then None else dn_children (dnode d n) !! Z.to_nat i;
  getAttribute := fun d n name =>
    if String.eqb name "style" then dn_style (dnode d n) else None;
  namespaceURI := fun _ _ => None;
  matches := fun d n sel => String.eqb (dn_local (dnode d n)) sel;
  contains := inside;
  compareDocumentPosition := fun d a b =>
    if bool_decide (a = b) then 0
    else if inside d a b then 20
    else if inside d b a then 10
    else if (b <? a)%nat then 2 else 4;
  querySelector := fun d n sel =>
    List.find (fun k => negb (bool_decide (k = n)) && inside d n k &&
                        String.eqb (dn_local (dnode d k)) sel)%bool
              (seq 0 (length d));
  appendChild := sAppendChild;
  createTextNode := fun d s => (d ++ [textNode s None], length d)
|}.

Definition rule0 : ParseRule :=
  {| tag := None; namespace := None; style := None; priority := None;
     consuming := None; context := None; node := None; mark := None;
     clearMark := None; ignore := false; closeParent := false; skip := None;
     attrs := None; getAttrs := None; contentElement := None;
     getContent := None; preserveWhitespace := None |}.

Definition tagNode (t n : string) : ParseRule := setNode (
  {| tag := Some t; namespace := None; style := None; priority := None;
     consuming := None; context := None; node := None; mark := None;
     clearMark := None; ignore := false; closeParent := false; skip := None;
     attrs := None; getAttrs := None; contentElement := None;
     getContent := None; preserveWhitespace := None |}) (Some n).

Definition tagMark (t m : string) : ParseRule := setMark (
  {| tag := Some t; namespace := None; style := None; priority := None;
     consuming := None; context := None; node := None; mark := None;
     clearMark := None; ignore := false; closeParent := false; skip := None;
     attrs := None; getAttrs := None; contentElement := None;
     getContent := None; preserveWhitespace := None |}) (Some m).

(** A style rule for [color] whose attribute is the value of the
    property. *)
Definition colorRule : ParseRule :=
  {| tag := None; namespace := None; style := Some "color"; priority := None;
     consuming := None; context := None; node := None; mark := Some "color";
     clearMark := None; ignore := false; closeParent := false; skip := None;
     attrs := None;
     getAttrs := Some (fun arg => match arg with
                                  | GAString s => GAAttrs s
                                  | GAElement _ _ => GANull
                                  end);
     contentElement := None; getContent := None; preserveWhitespace := None |}.

Definition sampleSchema : Schema :=
  {| nodes := [("doc", TDoc); ("blockquote", TBlockquote);
               ("paragraph", TParagraph); ("text", TText);
               ("hard_break", TBreak)];
     marks := [("strong", MStrong); ("color", MColor); ("comment", MComment)];
     topNodeType := TDoc;
     text := fun s => NText s [];
     nodeParseDOM := fun t =>
       match t with
       | TBlockquote => Some [tagNode "blockquote" ""]
       | TParagraph => Some [tagNode "p" ""]
       | TBreak => Some [tagNode "br" ""]
       | _ => None
       end;
     markParseDOM := fun t =>
       match t with
       | MStrong => Some [tagMark "b" ""]
       | MColor => Some [colorRule]
       | MComment => None
       end |}.

Definition noOptions : ParseOptions :=
  {| o_preserveWhitespace := None; o_findPositions := None; o_from := None;
     o_to := None; o_topNode := None; o_topMatch := None; o_context := None;
     o_ruleFromNode := None; o_topOpen := false |}.

Definition withPositions (l : list FindEntry) : ParseOptions :=
  {| o_preserveWhitespace := None; o_findPositions := Some l; o_from := None;
     o_to := None; o_topNode := None; o_topMatch := None; o_context := None;
     o_ruleFromNode := None; o_topOpen := false |}.

(** *** States and inputs of the worked cases *)

(** The value a run returns, and the state it ends in ([otherwise]
    when it fails). *)
Definition resultOf {A} (r : Res A) : option A :=
  match r with
  | Done a _ => Some a
  | _ => None
  end.

Definition endState {A} (r : Res A) (otherwise : ParseContext) : ParseContext :=
  match r with
  | Done _ pc' => pc'
  | _ => otherwise
  end.

(** The state that a step leaves; the state itself when the step
    fails. *)
Definition stateAfter {A} (m : M A) (pc : ParseContext) : ParseContext :=
  endState (m pc) pc.

Definition parserOf (schema : Schema) (rules : list ParseRule) : DOMParser :=
  default {| schema := schema; rules := rules; tags := []; styles := [];
             normalizeLists := true |}
          (newDOMParser schema rules).

Definition contextOf (parser : DOMParser) (options : ParseOptions)
    (isOpen : bool) (d : list DNode) : ParseContext :=
  default {| parser := parser; options := options; isOpen := isOpen;
             open := 0; find := None; needsBlock := false; pnodes := [];
             nextId := 0; doc := d |}
          (newParseContext parser options isOpen d).

Definition sampleParser : DOMParser :=
  parserOf sampleSchema (schemaRules sampleSchema).

Definition withTopNode (n : SNode) : ParseOptions :=
  {| o_preserveWhitespace := None; o_findPositions := None; o_from := None;
     o_to := None; o_topNode := Some n; o_topMatch := None; o_context := None;
     o_ruleFromNode := None; o_topOpen := false |}.

Definition colorMark (value : string) : SMark :=
  {| sm_ref := 0; sm_type := MColor; sm_attrs := Some value |}.

(** A comment mark with its identifier. *)
Definition commentMark (id : string) : SMark :=
  {| sm_ref := 0; sm_type := MComment; sm_attrs := Some id |}.

(** The frame at a depth and the innermost open frame of a state
    ([noFrame] outside the stack). *)
Definition noFrame : NodeContext :=
  {| nc_id := 0; nc_type := None; nc_attrs := None; nc_marks := [];
     nc_pendingMarks := []; nc_solid := false; nc_options := 0;
     nc_match := None; nc_content := []; nc_activeMarks := [];
     nc_stashMarks := [] |}.

Definition frameAt (pc : ParseContext) (depth : Z) : NodeContext :=
  default noFrame (nodeAt (pnodes pc) depth).

Definition topFrame (pc : ParseContext) : NodeContext :=
  default noFrame (top pc).

(** An empty [div]. *)
Definition emptyDoc : list DNode := [elem "DIV" None [] None].

(** A parse of an empty [div] into a document. *)
Definition pcDoc : ParseContext := contextOf sampleParser noOptions false emptyDoc.

(** A parse with a [paragraph] as top node, the frame in which the
    marks of the mark cases are pushed. *)
Definition pcPara : ParseContext :=
  contextOf sampleParser (withTopNode (NElem TParagraph None [] [])) false emptyDoc.

(** Two [x] elements whose rule names one and the same element, node
    3, as its content element. *)
Definition sharedContentRule : ParseRule :=
  {| tag := Some "x"; namespace := None; style := None; priority := None;
     consuming := None; context := None; node := Some "blockquote";
     mark := None; clearMark := None; ignore := false; closeParent := false;
     skip := None; attrs := None; getAttrs := None;
     contentElement := Some (CEElement 3%nat); getContent := None;
     preserveWhitespace := None |}.

Definition sharedDoc : list DNode :=
  [ elem "DIV" None [1; 2]%nat None;
    elem "X" (Some 0%nat) [] None;
    elem "X" (Some 0%nat) [] None;
    elem "TEMPLATE" None [] None ].

Definition sharedEntry : FindEntry := {| fnode := 3%nat; foffset := 0; fpos := None |}.

Definition pcShared : ParseContext :=
  contextOf (parserOf sampleSchema [sharedContentRule])
            (withPositions [sharedEntry]) false sharedDoc.

(** The frames [doc], [blockquote], [paragraph] of a parse into a
    document, and [blockquote], [paragraph] of the parse of a slice
    whose top node is a blockquote. *)
Definition pcQuoted : ParseContext :=
  stateAfter (enterInner TBlockquote None true None ;;;
              enterInner TParagraph None true None) pcDoc.

Definition pcSliceQuoted : ParseContext :=
  stateAfter (enterInner TParagraph None true None)
             (contextOf sampleParser (withTopNode (NElem TBlockquote None [] []))
                        true emptyDoc).

(** The parse of a slice without a top node. *)
Definition pcSlice : ParseContext := contextOf sampleParser noOptions true emptyDoc.

(** A [br] that a rule ignores. *)
Definition ignoreBr : ParseRule :=
  {| tag := Some "br"; namespace := None; style := None; priority := None;
     consuming := None; context := None; node := None; mark := None;
     clearMark := None; ignore := true; closeParent := false; skip := None;
     attrs := None; getAttrs := None; contentElement := None;
     getContent := None; preserveWhitespace := None |}.

Definition brDoc : list DNode :=
  [ elem "DIV" None [1%nat] None; elem "BR" (Some 0%nat) [] None ].

Definition brParser : DOMParser := parserOf sampleSchema [ignoreBr].

Definition pcBr : ParseContext := contextOf brParser noOptions false brDoc.

(** A style rule that ignores elements with [display: none], next to
    the colour rule. *)
Definition hiddenRule : ParseRule :=
  {| tag := None; namespace := None; style := Some "display=none";
     priority := None; consuming := None; context := None; node := None;
     mark := None; clearMark := None; ignore := true; closeParent := false;
     skip := None; attrs := None; getAttrs := None; contentElement := None;
     getContent := None; preserveWhitespace := None |}.

Definition hiddenDoc : list DNode :=
  [ elem "DIV" None [1%nat] None;
    elem "SPAN" (Some 0%nat) [2%nat] (Some "color: red; display: none");
    textNode "x" (Some 1%nat) ].

Definition hiddenParser : DOMParser :=
  parserOf sampleSchema [markRule "color" colorRule; hiddenRule; tagNode "p" "paragraph"].

Definition pcHidden : ParseContext := contextOf hiddenParser noOptions false hiddenDoc.

(** The colour rule with [consuming: false]: the rules behind it are
    asked for the same property too. *)
Definition softColorRule : ParseRule :=
  {| tag := None; namespace := None; style := Some "color"; priority := None;
     consuming := Some false; context := None; node := None;
     mark := Some "color"; clearMark := None; ignore := false;
     closeParent := false; skip := None; attrs := None;
     getAttrs := Some (fun arg => match arg with
                                  | GAString s => GAAttrs s
                                  | GAElement _ _ => GANull
                                  end);
     contentElement := None; getContent := None; preserveWhitespace := None |}.

(** A style rule that ignores elements with a [color]. *)
Definition ignoreColor : ParseRule :=
  {| tag := None; namespace := None; style := Some "color"; priority := None;
     consuming := None; context := None; node := None; mark := None;
     clearMark := None; ignore := true; closeParent := false; skip := None;
     attrs := None; getAttrs := None; contentElement := None;
     getContent := None; preserveWhitespace := None |}.

(** [<div><span style="color: red">x</span></div>] *)
Definition paintedDoc : list DNode :=
  [ elem "DIV" None [1%nat] None;
    elem "SPAN" (Some 0%nat) [2%nat] (Some "color: red");
    textNode "x" (Some 1%nat) ].

(** The ignoring rule behind a colour rule that lets the scan go on,
    and behind one that ends it. *)
Definition chainParser : DOMParser :=
  parserOf sampleSchema [markRule "color" softColorRule; ignoreColor].

Definition pcChain : ParseContext := contextOf chainParser noOptions false paintedDoc.

Definition shadowParser : DOMParser :=
  parserOf sampleSchema [markRule "color" colorRule; ignoreColor].

Definition pcShadow : ParseContext := contextOf shadowParser noOptions false paintedDoc.

(** A blockquote that holds only blanks, and a position inside
    them. *)
Definition blankDoc : list DNode :=
  [ elem "DIV" None [1%nat] None;
    elem "BLOCKQUOTE" (Some 0%nat) [2%nat] None;
    textNode "   " (Some 1%nat) ].

Definition blankEntry : FindEntry := {| fnode := 2%nat; foffset := 1; fpos := None |}.

Definition pcBlank : ParseContext :=
  stateAfter (enterInner TBlockquote None true None)
             (contextOf sampleParser (withPositions [blankEntry]) false blankDoc).

(** A schema whose paragraph declares a rule of priority 30 before a
    rule of priority 70, both for the tag [p]. *)
Definition withPriority (r : ParseRule) (p : Z) : ParseRule :=
  {| tag := tag r; namespace := namespace r; style := style r;
     priority := Some p; consuming := consuming r; context := context r;
     node := node r; mark := mark r; clearMark := clearMark r;
     ignore := ignore r; closeParent := closeParent r; skip := skip r;
     attrs := attrs r; getAttrs := getAttrs r; contentElement := contentElement r;
     getContent := getContent r; preserveWhitespace := preserveWhitespace r |}.

Definition prioSchema : Schema :=
  {| nodes := [("doc", TDoc); ("paragraph", TParagraph); ("text", TText)];
     marks := [("strong", MStrong)];
     topNodeType := TDoc;
     text := fun s => NText s [];
     nodeParseDOM := fun t =>
       match t with
       | TParagraph => Some [withPriority (tagNode "p" "") 30;
                             withPriority (tagNode "p" "") 70]
       | _ => None
       end;
     markParseDOM := fun t =>
       match t with
       | MStrong => Some [tagMark "b" ""]
       | _ => None
       end |}.

(** A paragraph element for the two [p] rules of [prioSchema]. *)
Definition prioDoc : list DNode :=
  [ elem "DIV" None [1%nat] None; elem "P" (Some 0%nat) [] None ].

Definition prioParser : DOMParser := parserOf prioSchema (schemaRules prioSchema).

Definition pcPrio : ParseContext := contextOf prioParser noOptions false prioDoc.

(** A paragraph with a red [span] that holds a blue one:
    [<p><span style="color: red">a<span style="color: blue">b</span>c</span></p>]. *)
Definition colorDoc : list DNode :=
  [ elem "DIV" None [1%nat] None;
    elem "P" (Some 0%nat) [2%nat] None;
    elem "SPAN" (Some 1%nat) [3; 4; 6]%nat (Some "color: red");
    textNode "a" (Some 2%nat);
    elem "SPAN" (Some 2%nat) [5%nat] (Some "color: blue");
    textNode "b" (Some 4%nat);
    textNode "c" (Some 2%nat) ].

(** A [script] element with text in it. *)
Definition scriptDoc : list DNode :=
  [ elem "DIV" None [1%nat] None;
    elem "SCRIPT" (Some 0%nat) [2%nat] None;
    textNode "x" (Some 1%nat) ].

Definition pcScript : ParseContext :=
  contextOf sampleParser noOptions false scriptDoc.

(** *** States along the worked cases *)

(** [red] pushed, ["a"] inserted, [blue] pushed, ["b"] inserted,
    [blue] removed, ["c"] inserted. *)
Abbreviation pcPara1 :=
  (stateAfter (addPendingMark (SA := schemaAPI) (DA := domAPI) (colorMark "red"))
              pcPara)
  (only parsing).
Abbreviation pcPara2 :=
  (stateAfter (insertNode (SA := schemaAPI) (DA := domAPI) (NText "a" []))
              pcPara1)
  (only parsing).
Abbreviation pcPara3 :=
  (stateAfter (addPendingMark (SA := schemaAPI) (DA := domAPI) (colorMark "blue"))
              pcPara2)
  (only parsing).
Abbreviation pcPara4 :=
  (stateAfter (insertNode (SA := schemaAPI) (DA := domAPI) (NText "b" []))
              pcPara3)
  (only parsing).
Abbreviation pcPara5 :=
  (stateAfter (removePendingMark (SA := schemaAPI) (DA := domAPI)
                 (colorMark "blue") (Some (nc_id (topFrame pcPara))))
              pcPara4)
  (only parsing).
Abbreviation pcPara6 :=
  (stateAfter (insertNode (SA := schemaAPI) (DA := domAPI) (NText "c" []))
              pcPara5)
  (only parsing).

(** Comment 1 pushed, ["a"] inserted, comment 2 pushed, ["b"]
    inserted, comment 2 removed, ["c"] inserted. *)
Abbreviation pcNote1 :=
  (stateAfter (addPendingMark (SA := schemaAPI) (DA := domAPI) (commentMark "1"))
              pcPara)
  (only parsing).
Abbreviation pcNote2 :=
  (stateAfter (insertNode (SA := schemaAPI) (DA := domAPI) (NText "a" []))
              pcNote1)
  (only parsing).
Abbreviation pcNote3 :=
  (stateAfter (addPendingMark (SA := schemaAPI) (DA := domAPI) (commentMark "2"))
              pcNote2)
  (only parsing).
Abbreviation pcNote4 :=
  (stateAfter (insertNode (SA := schemaAPI) (DA := domAPI) (NText "b" []))
              pcNote3)
  (only parsing).
Abbreviation pcNote5 :=
  (stateAfter (removePendingMark (SA := schemaAPI) (DA := domAPI)
                 (commentMark "2") (Some (nc_id (topFrame pcPara))))
              pcNote4)
  (only parsing).
Abbreviation pcNote6 :=
  (stateAfter (insertNode (SA := schemaAPI) (DA := domAPI) (NText "c" []))
              pcNote5)
  (only parsing).

(** A round of the loop of [addAll] over the [div] with the two [x]
    elements, and the states after the first and the second round. *)
Definition sharedRound (index : Z) (child : nat) : M unit :=
  findAtPoint 0%nat index ;;; w_addDOM (walk 8) child.

Abbreviation pcShared1 := (stateAfter (sharedRound 0 1%nat) pcShared)
  (only parsing).
Abbreviation pcShared2 := (stateAfter (sharedRound 1 2%nat) pcShared1)
  (only parsing).

(** A paragraph opened in a document and at the start of a slice. *)
Abbreviation pcDoc0 :=
  (stateAfter (closeExtra (SA := schemaAPI) (DA := domAPI) false) pcDoc)
  (only parsing).
Abbreviation pcSlice1 :=
  (stateAfter (enterInner (SA := schemaAPI) (DA := domAPI)
                 TParagraph None false None)
              pcSlice)
  (only parsing).

(** The frames of [pcQuoted] with the [doc] frame made the open
    one. *)
Abbreviation pcQuoted0 :=
  (stateAfter (sync (SA := schemaAPI) (DA := domAPI) (Some 0%nat)) pcQuoted)
  (only parsing).

(** The colour rule matched for the value [red]. *)
Abbreviation pcDoc1 :=
  (stateAfter (matchStyle (SA := schemaAPI) (DA := domAPI) "color" "red" None)
              pcDoc)
  (only parsing).

(** The [span] of [paintedDoc] under [chainParser]: the colour rule
    matched, and the ignoring rule behind it. *)
Abbreviation pcChain1 :=
  (stateAfter (matchStyle (SA := schemaAPI) (DA := domAPI) "color" "red" None)
              pcChain)
  (only parsing).
Abbreviation pcChain2 :=
  (stateAfter (matchStyle (SA := schemaAPI) (DA := domAPI) "color" "red"
                 (Some 0%nat))
              pcChain1)
  (only parsing).

(** The same [span] under [shadowParser]: its colour read. *)
Abbreviation pcShadow1 :=
  (stateAfter (readStyles (SA := schemaAPI) (DA := domAPI) 8 ["color"; "red"])
              pcShadow)
  (only parsing).

(** The state in which the fallback for the [br] runs: its rule has
    been looked up and the positions inside it have been recorded. *)
Abbreviation pcBr0 :=
  (stateAfter (matchTag (SA := schemaAPI) (DA := domAPI) 1%nat None) pcBr)
  (only parsing).
Abbreviation pcBr1 :=
  (stateAfter (findInside (SA := schemaAPI) (DA := domAPI) 1%nat) pcBr0)
  (only parsing).

End Sample.

(* ===================================================================== *)
(** ** Notions used in the statements *)
(* ===================================================================== *)

Section Notions.
Context `{SA : SchemaAPI} `{DA : DomAPI}.

(** The rules a schema declares, in declaration order: those of the
    marks, then those of the nodes, each completed with the name of
    the declaring type. *)
Definition declaredRules (schema : Schema) : list ParseRule :=
  flat_map (fun entry =>
              map (markRule (fst entry))
                  (default [] (markParseDOM schema (snd entry))))
           (marks schema) ++
  flat_map (fun entry =>
              map (nodeRule (fst entry))
                  (default [] (nodeParseDOM schema (snd entry))))
           (nodes schema).

(** Higher priority first. *)
Definition before (a b : ParseRule) : Prop := priorityOf b <= priorityOf a.

Definition hasPriority (p : Z) (r : ParseRule) : bool := priorityOf r =? p.

Definition insertEach (l acc : list ParseRule) : list ParseRule :=
  fold_left (fun acc rule => insert rule acc) l acc.

(** The route that a frame offers for a node ([null] also when the
    call throws). *)
Definition routeOf (cx : NodeContext) (node : Node) : option (list NodeType) :=
  match NodeContext.findWrapping cx node with
  | Some (r, _) => r
  | None => None
  end.

(** The frames in the reach of a placement search: from [depth]
    outward, up to and including the first solid frame. *)
Fixpoint scanRange (cnt : nat) (depth : Z) (l : list NodeContext)
    : list (Z * NodeContext) :=
  match cnt with
  | O => []
  | S k =>
      match nodeAt l depth with
      | Some cx =>
          (depth, cx) :: (if nc_solid cx then [] else scanRange k (depth - 1) l)
      | None => []
      end
  end.

Definition scanned (pc : ParseContext) : list (Z * NodeContext) :=
  scanRange (Z.to_nat (open pc + 1)) (open pc) (pnodes pc).

(** [open] points into the stack, and the frames are distinct
    objects. *)
Definition WellFormed (pc : ParseContext) : Prop :=
  0 <= open pc < Z.of_nat (length (pnodes pc)) /\
  NoDup (map nc_id (pnodes pc)).

(** A frame whose type has the given name or belongs to the given
    group. *)
Definition frameMatches (cx : NodeContext) (part : string) : bool :=
  match nc_type cx with
  | Some t => typeMatches t part
  | None => false
  end.

(** The frame that [enterInner] pushes on top of [par], and [par] as
    it leaves it. *)
Definition enteredFrame (pc1 : ParseContext) (par : NodeContext)
    (type : NodeType) (attrs : option Attrs) (solid : bool)
    (preserveWS : option PreserveWS) : NodeContext * NodeContext :=
  let top1 := NodeContext.applyPending (schemaNodes pc1) par type in
  let top2 := setMatch top1 (match nc_match top1 with
                             | Some m => cm_matchType m type
                             | None => None
                             end) in
  let options0 := wsOptionsFor (Some type) preserveWS (nc_options top2) in
  let options1 :=
    if (hasOpt (nc_options top2) OPT_OPEN_LEFT &&
        (length (nc_content top2) =? 0)%nat)%bool
    then Z.lor options0 OPT_OPEN_LEFT else options0 in
  (top2,
   {| nc_id := nextId pc1; nc_type := Some type; nc_attrs := attrs;
      nc_marks := nc_activeMarks top2; nc_pendingMarks := nc_pendingMarks top2;
      nc_solid := solid; nc_options := options1;
      nc_match := if hasOpt options1 OPT_OPEN_LEFT then None
                  else Some (nt_contentMatch type);
      nc_content := []; nc_activeMarks := []; nc_stashMarks := [] |}).

(** The attributes a returned rule holds afterwards: the result of
    its [getAttrs], if it has one. *)
Definition attrsAfter (rule : ParseRule) (arg : GetAttrsArg) : option Attrs :=
  match getAttrs rule with
  | Some f => match f arg with GAAttrs a => Some a | _ => None end
  | None => attrs rule
  end.

(** The state in which rule object [i] has the attributes [a]. *)
Definition withAttrs (pc : ParseContext) (i : nat) (a : option Attrs)
    : ParseContext :=
  setParser pc (setRules (parser pc)
                  (alter (fun r => setAttrs r a) i (rules (parser pc)))).

(** The outcome of a scan of the rules: nothing is returned and
    nothing changes, or rule [i] is returned and its [attrs] alone may
    be written. *)
Definition scanOutcome (pc : ParseContext) (arg : GetAttrsArg)
    (r : option nat) (pc' : ParseContext) : Prop :=
  (r = None /\ pc' = pc) \/
  (exists i rule, r = Some i /\ ruleAt pc i = Some rule /\
                  pc' = withAttrs pc i (attrsAfter rule arg)).

(** [route] is the shortest route that the frames [seen] offer, from
    the innermost frame that offers one of that length; no route when
    no frame offers one. *)
Definition bestAmong (seen : list (Z * NodeContext)) (node : Node)
    (route : Route) : Prop :=
  match route with
  | None => forall d cx, In (d, cx) seen -> routeOf cx node = None
  | Some (r, to) =>
      exists d cx,
        In (d, cx) seen /\ to = Some (nc_id cx) /\ routeOf cx node = Some r /\
        forall d' cx' r',
          In (d', cx') seen -> routeOf cx' node = Some r' ->
          (length r <= length r')%nat /\ (d < d' -> (length r < length r')%nat)
  end.

(** Two stacks whose frames differ at most in their [match]. *)
Definition sameButMatch (l l' : list NodeContext) : Prop :=
  Forall2 (fun a b => b = setMatch a (nc_match b)) l l'.

(** Two frames that are the same object with the same type,
    attributes and solidity. *)
Definition sameShape (f f' : NodeContext) : Prop :=
  nc_id f' = nc_id f /\ nc_type f' = nc_type f /\
  nc_attrs f' = nc_attrs f /\ nc_solid f' = nc_solid f.

(** A node made by [type.create], as the closing of a frame does. *)
Definition created (n : Node) : Prop :=
  exists t a c m, n = nt_create t a c m.

(** Two states that differ at most in the [attrs] of rule objects. *)
Definition sameButAttrs (pc pc' : ParseContext) : Prop :=
  open pc' = open pc /\ pnodes pc' = pnodes pc /\ find pc' = find pc /\
  needsBlock pc' = needsBlock pc /\ doc pc' = doc pc /\
  options pc' = options pc /\ isOpen pc' = isOpen pc /\
  nextId pc' = nextId pc /\
  tags (parser pc') = tags (parser pc) /\
  styles (parser pc') = styles (parser pc) /\
  schema (parser pc') = schema (parser pc) /\
  normalizeLists (parser pc') = normalizeLists (parser pc) /\
  forall j rule, ruleAt pc j = Some rule ->
    exists a, ruleAt pc' j = Some (setAttrs rule a).

(** Every node that an open frame of [pc'] holds was made by closing
    a frame, or was held by the same frame in [pc]. *)
Definition contentFrom (pc pc' : ParseContext) : Prop :=
  forall j f' n,
    j <= open pc' -> nodeAt (pnodes pc') j = Some f' -> In n (nc_content f') ->
    created n \/ exists f, nodeAt (pnodes pc) j = Some f /\ In n (nc_content f).

(** How [addElement] comes by its rule: from [options.ruleFromNode],
    or else from [matchTag], which leaves the state [pc1]. *)
Definition resolvesTo (pc : ParseContext) (dom : DOMNode)
    (matchAfter : option nat) (rule : ParseRule) (pc1 : ParseContext) : Prop :=
  (exists f, o_ruleFromNode (options pc) = Some f /\
             f (doc pc) dom = Some rule /\ pc1 = pc) \/
  (match o_ruleFromNode (options pc) with
   | Some f => f (doc pc) dom = None
   | None => True
   end /\
   exists i, matchTag dom matchAfter pc = Done (Some i) pc1 /\
             ruleAt pc1 i = Some rule).

(** The identities of the frames come from [nextId]. *)
Definition FreshIds (pc : ParseContext) : Prop :=
  forall j f, nodeAt (pnodes pc) j = Some f -> (nc_id f < nextId pc)%nat.

(** A step that ends with the same frame open as before. *)
Definition staysInFrame (pc pc' : ParseContext) : Prop :=
  open pc' = open pc /\
  option_map nc_id (top pc') = option_map nc_id (top pc).

(** Nodes inserted one after the other into the frame that is open,
    each fitting there. *)
Inductive insertsInFrame : list Node -> ParseContext -> ParseContext -> Prop :=
| inserts_nil pc : insertsInFrame [] pc pc
| inserts_cons node rest pc pc1 pc2 :
    insertNode node pc = Done true pc1 ->
    staysInFrame pc pc1 ->
    insertsInFrame rest pc1 pc2 ->
    insertsInFrame (node :: rest) pc pc2.

(** A mark that a frame holds, pending or active. *)
Definition holdsMark (f : NodeContext) (a : Mark) : Prop :=
  isInSet a (nc_pendingMarks f) = true \/ isInSet a (nc_activeMarks f) = true.

(** No mark pushes [a] out of a set: a mark equal to [a] can be
    added to every set, and [a] is still in a set after any mark is
    added to it.  This is so for a mark whose type no mark type
    excludes, its own type included; a mark type excludes itself
    unless the schema declares it with [excludes: ""]. *)
Definition neverExcluded (a : Mark) : Prop :=
  (forall y s, mark_eq a y = true -> isInSet a (addToSet y s) = true) /\
  (forall m s, isInSet a s = true -> isInSet a (addToSet m s) = true).

(** The frame [id] is open; it has type [ty] and holds the mark [a]. *)
Definition openHolds (pc : ParseContext) (id : nat) (ty : NodeType)
    (a : Mark) : Prop :=
  FreshIds pc /\
  exists f, top pc = Some f /\ nc_id f = id /\ nc_type f = Some ty /\
            holdsMark f a.

(** What [readStyles] reads for a rule that it does not ignore is
    there: the open frame for a rule with [clearMark], the mark type
    that the rule names otherwise. *)
Definition marksReadable (pc : ParseContext) (rule : ParseRule) : Prop :=
  match clearMark rule with
  | Some _ => is_Some (top pc)
  | None => is_Some (lookupName (marks (schema (parser pc))) (propKey (mark rule)))
  end.

(** The rules that [readStyles] takes for a property and its value,
    one after the other: [matchStyle] is asked for a rule behind
    [after]; a rule without [ignore] and with [consuming: false] is
    read, and [matchStyle] is asked again behind it.
    [reachesIgnore prop value k after pc pc'] holds when the [k]-th
    rule so returned has [ignore]; [pc'] is the state then. *)
Inductive reachesIgnore (prop value : string)
    : nat -> option nat -> ParseContext -> ParseContext -> Prop :=
| reaches_here after pc i pc' rule :
    matchStyle prop value after pc = Done (Some i) pc' ->
    ruleAt pc' i = Some rule ->
    ignore rule = true ->
    reachesIgnore prop value 1 after pc pc'
| reaches_later k after pc i pc1 rule pc' :
    matchStyle prop value after pc = Done (Some i) pc1 ->
    ruleAt pc1 i = Some rule ->
    ignore rule = false ->
    consuming rule = Some false ->
    marksReadable pc1 rule ->
    reachesIgnore prop value k (Some i) pc1 pc' ->
    reachesIgnore prop value (S k) after pc pc'.

End Notions.

(* ===================================================================== *)
(** ** Notions used in the further statements *)
(* ===================================================================== *)

Section MoreNotions.
Context `{SA : SchemaAPI} `{DA : DomAPI}.

(** All characters of a string are in a class. *)
Fixpoint allChars (p : ascii -> bool) (s : string) : bool :=
  match s with
  | EmptyString => true
  | String c r => (p c && allChars p r)%bool
  end.

(** Property/value pairs laid out as [parseStyles] returns them. *)
Definition pairsOf (l : list (string * string)) : list string :=
  flat_map (fun nv => [fst nv; snd nv]) l.

(** Rule [i] passes the tests that [matchTag] makes for an element:
    the selector matches, the namespace is the rule's, the context
    fits, and [getAttrs] does not say [false]. *)
Definition tagRuleAccepts (pc : ParseContext) (dom : DOMNode) (i : nat) : Prop :=
  exists rule,
    ruleAt pc i = Some rule /\
    matches (doc pc) dom (default "" (tag rule)) = true /\
    namespaceOk (doc pc) dom rule = true /\
    contextOk rule pc = Done true pc /\
    forall f, getAttrs rule = Some f -> f (GAElement (doc pc) dom) <> GAFalse.

(** Rule [i] passes the tests that [matchStyle] makes for a property
    and its value: the rule's style is the property, or the property
    followed by [=] and the value; the context fits, and [getAttrs]
    does not say [false]. *)
Definition styleRuleAccepts (pc : ParseContext) (prop value : string)
    (i : nat) : Prop :=
  exists rule,
    ruleAt pc i = Some rule /\
    String.prefix prop (default "" (style rule)) = true /\
    ((String.length (default "" (style rule)) <= String.length prop)%nat \/
     default "" (style rule) = (prop ++ "=" ++ value)%string) /\
    contextOk rule pc = Done true pc /\
    forall f, getAttrs rule = Some f -> f (GAString value) <> GAFalse.

(** What [NodeContext.finish] does to the children [c] of a frame:
    nothing when whitespace is preserved or when the last child is not
    a text node that ends in whitespace; otherwise that text node loses
    its trailing whitespace, and goes altogether when nothing else is
    in it. *)
Definition trailingStripped (preserve : bool) (c c' : list Node) : Prop :=
  (c' = c /\
   (preserve = true \/
    forall init last t,
      c = init ++ [last] -> node_isText last = true ->
      node_text last = Some t -> JS.endsWithSpace t = false)) \/
  (preserve = false /\
   exists init last t,
     c = init ++ [last] /\ node_isText last = true /\
     node_text last = Some t /\ JS.endsWithSpace t = true /\
     ((JS.hasNonSpace t = false /\ c' = init) \/
      (exists kept ws,
          t = (kept ++ ws)%string /\ kept <> "" /\
          JS.endsWithSpace kept = false /\
          allChars JS.isHtmlSpace ws = true /\
          c' = init ++ [node_withText last kept]))).

(** Whitespace occurs in a string only as single spaces. *)
Fixpoint singleSpaced (s : string) : bool :=
  match s with
  | EmptyString => true
  | String c r =>
      if JS.isHtmlSpace c
      then (JS.isChar 32 c && negb (JS.startsWithSpace r) && singleSpaced r)%bool
      else singleSpaced r
  end.

(** The invariant of the stack of frames: [open] points into it, the
    frames are distinct objects, and their identities are below the
    next one to be given out. *)
Definition StackOk (pc : ParseContext) : Prop := WellFormed pc /\ FreshIds pc.

(** The size of all nodes that the frames of a stack hold. *)
Definition framesSize (l : list NodeContext) : Z :=
  fold_right (fun cx acc => contentSize (nc_content cx) + acc) 0 l.

End MoreNotions.

Section WalkNotions.
Context `{SA : SchemaAPI} `{DA : DomAPI}.

(** Two frames that are the same object: the fields that are set once,
    at construction, agree. *)
Definition sameFrame (f f' : NodeContext) : Prop :=
  nc_id f' = nc_id f /\ nc_type f' = nc_type f /\ nc_attrs f' = nc_attrs f /\
  nc_marks f' = nc_marks f /\ nc_solid f' = nc_solid f /\
  nc_options f' = nc_options f.

(** The root frames of two stacks are the same object. *)
Definition sameRoot (l l' : list NodeContext) : Prop :=
  exists root root',
    nodeAt l 0 = Some root /\ nodeAt l' 0 = Some root' /\ sameFrame root root'.

(** Two position lists with the same entries, up to the positions
    written to them. *)
Definition sameEntries (o o' : option (list FindEntry)) : Prop :=
  match o, o' with
  | Some l, Some l' =>
      Forall2 (fun e e' => fnode e' = fnode e /\ foffset e' = foffset e) l l'
  | None, None => True
  | _, _ => False
  end.

(** A step from [pc] to [pc'] that keeps the invariant of the stack,
    the root frame and the entries of the position list, and takes no
    identity back. *)
Definition walkKeeps (pc pc' : ParseContext) : Prop :=
  StackOk pc' /\ (nextId pc <= nextId pc')%nat /\
  isOpen pc' = isOpen pc /\ options pc' = options pc /\
  sameRoot (pnodes pc) (pnodes pc') /\
  sameEntries (find pc) (find pc').

(** A method that keeps them whenever it returns. *)
Definition Keeps {A} (m : M A) : Prop :=
  forall pc a pc', StackOk pc -> m pc = Done a pc' -> walkKeeps pc pc'.

Definition KeepsWalk (W : Walk) : Prop :=
  (forall dom, Keeps (w_addDOM W dom)) /\
  (forall dom after, Keeps (w_addElement W dom after)) /\
  (forall parent dom end_ index, Keeps (w_addAllFrom W parent dom end_ index)).

End WalkNotions.

(** Modelled from the spec: the mark sets of section 2, "ordered,
    deduplicated mark collections" with "add, remove, membership,
    equality" (file mark.ts is not part of this source).  A mark is
    equal to itself and equal marks have the same type; membership is
    membership of an equal mark; removing a mark leaves the marks that
    are not equal to it.  What adding a mark does to the other marks
    of a set is not fixed here: a schema may let a mark type exclude
    others, see [neverExcluded]. *)
Class MarkSetLaws `{SA : SchemaAPI} : Prop := {
  mark_eq_refl : forall a, mark_eq a a = true;
  inSet_remove_keeps : forall a m s,
    mark_eq m a = false -> isInSet a s = true ->
    isInSet a (removeFromSet m s) = true;
  inSet_elem : forall a s,
    isInSet a s = true -> exists x, In x s /\ mark_eq a x = true;
  inSet_eq : forall a x s,
    mark_eq a x = true -> isInSet x s = true -> isInSet a s = true;
  mark_eq_type : forall a b, mark_eq a b = true -> mark_type a = mark_type b
}.

(* ===================================================================== *)
(** ** Rule ordering of [schemaRules] *)
(* ===================================================================== *)

Section RuleOrder.
Context `{SA : SchemaAPI} `{DA : DomAPI}.

Lemma insertAll_insertEach complete rs acc :
  insertAll complete rs acc = insertEach (map complete (default [] rs)) acc.
Proof.
  unfold insertAll, insertEach. destruct rs as [l|]; simpl; [|reflexivity].
  revert acc. induction l as [|r l IH]; intros acc; simpl; [reflexivity|].
  apply IH.
Qed.

Lemma insertEach_app l1 l2 acc :
  insertEach (l1 ++ l2) acc = insertEach l2 (insertEach l1 acc).
Proof. unfold insertEach. apply fold_left_app. Qed.

Lemma fold_insertAll {T} (complete : string -> ParseRule -> ParseRule)
    (decl : T -> option (list ParseRule)) (entries : list (string * T)) acc :
  fold_left (fun acc entry =>
               insertAll (complete (fst entry)) (decl (snd entry)) acc)
            entries acc
  = insertEach (flat_map (fun entry =>
                            map (complete (fst entry))
                                (default [] (decl (snd entry)))) entries) acc.
Proof.
  revert acc. induction entries as [|e es IH]; intros acc; simpl; [reflexivity|].
  rewrite IH, insertAll_insertEach, insertEach_app. reflexivity.
Qed.

Lemma schemaRules_insertEach schema :
  schemaRules schema = insertEach (declaredRules schema) [].
Proof.
  unfold schemaRules, declaredRules.
  rewrite !fold_insertAll, insertEach_app. reflexivity.
Qed.

Lemma insert_perm r l : Permutation (insert r l) (r :: l).
Proof.
  induction l as [|x l IH]; simpl; [reflexivity|].
  destruct (priorityOf x <? priorityOf r); [reflexivity|].
  rewrite IH. apply perm_swap.
Qed.

Lemma insert_HdRel r x l :
  priorityOf r <= priorityOf x -> HdRel before x l -> HdRel before x (insert r l).
Proof.
  intros Hrx Hl. destruct l as [|y l]; simpl.
  - constructor. exact Hrx.
  - inversion Hl; subst.
    destruct (priorityOf y <? priorityOf r); constructor; assumption.
Qed.

Lemma insert_sorted r l : Sorted before l -> Sorted before (insert r l).
Proof.
  induction 1 as [|x l Hs IH Hd]; simpl.
  - repeat constructor.
  - destruct (priorityOf x <? priorityOf r) eqn:E.
    + constructor; [constructor; assumption|].
      constructor. unfold before. apply Z.ltb_lt in E. lia.
    + constructor; [exact IH|].
      apply insert_HdRel; [|exact Hd]. apply Z.ltb_ge in E. exact E.
Qed.

Instance before_trans : Transitive before.
Proof. unfold before. intros a b c ? ?. lia. Qed.

(** In a sorted list, the new rule lands behind the rules of its own
    priority. *)
Lemma insert_filter p r l :
  Sorted before l ->
  List.filter (hasPriority p) (insert r l)
  = List.filter (hasPriority p) l ++ (if hasPriority p r then [r] else []).
Proof.
  intros Hs. apply Sorted_StronglySorted in Hs; [|apply before_trans].
  induction Hs as [|x l Hs IH Hall]; simpl.
  - destruct (hasPriority p r); reflexivity.
  - destruct (priorityOf x <? priorityOf r) eqn:E.
    + apply Z.ltb_lt in E. simpl.
      destruct (hasPriority p r) eqn:Hr.
      * unfold hasPriority in Hr. apply Z.eqb_eq in Hr. subst p.
        assert (Hx : hasPriority (priorityOf r) x = false)
          by (unfold hasPriority; apply Z.eqb_neq; lia).
        rewrite Hx.
        assert (Hl : List.filter (hasPriority (priorityOf r)) l = []).
        { clear IH Hs. induction l as [|y l IHl]; simpl; [reflexivity|].
          inversion Hall as [|? ? Hy Hall']; subst.
          unfold before in Hy.
          assert (Hy' : hasPriority (priorityOf r) y = false)
            by (unfold hasPriority; apply Z.eqb_neq; lia).
          rewrite Hy'. apply IHl. exact Hall'. }
        rewrite Hl. reflexivity.
      * rewrite app_nil_r. reflexivity.
    + simpl. rewrite IH. destruct (hasPriority p x); reflexivity.
Qed.

Lemma insertEach_sorted l acc :
  Sorted before acc -> Sorted before (insertEach l acc).
Proof.
  revert acc. induction l as [|r l IH]; intros acc H; simpl; [exact H|].
  apply IH, insert_sorted, H.
Qed.

Lemma insertEach_perm l acc : Permutation (insertEach l acc) (acc ++ l).
Proof.
  revert acc. induction l as [|r l IH]; intros acc; simpl.
  - rewrite app_nil_r. reflexivity.
  - rewrite IH, insert_perm. simpl. apply Permutation_middle.
Qed.

Lemma insertEach_filter p l acc :
  Sorted before acc ->
  List.filter (hasPriority p) (insertEach l acc)
  = List.filter (hasPriority p) acc ++ List.filter (hasPriority p) l.
Proof.
  revert acc. induction l as [|r l IH]; intros acc H; simpl.
  - rewrite app_nil_r. reflexivity.
  - rewrite IH by (apply insert_sorted, H).
    rewrite insert_filter by exact H.
    rewrite <- app_assoc. destruct (hasPriority p r); reflexivity.
Qed.

(** In a list sorted by descending priority, a rule of higher
    priority stands at a smaller index. *)
Lemma sorted_index (l : list ParseRule) i j r1 r2 :
  StronglySorted before l ->
  l !! i = Some r1 -> l !! j = Some r2 ->
  priorityOf r2 < priorityOf r1 -> (i < j)%nat.
Proof.
  intros Hs. revert i j. induction Hs as [|x l Hs IH Hall]; intros i j Hi Hj Hlt.
  - discriminate.
  - destruct i as [|i], j as [|j]; simpl in *.
    + assert (r1 = r2) by congruence. subst. lia.
    + lia.
    + exfalso. assert (x = r2) by congruence. subst x.
      rewrite Forall_forall in Hall.
      assert (Hin : r1 ∈ l) by (eapply list_elem_of_lookup_2; exact Hi).
      specialize (Hall _ Hin). unfold before in Hall. lia.
    + apply ->Nat.succ_lt_mono. eapply IH; eassumption.
Qed.

(** The tag rules keep their order in [tags]: an index is listed
    there before every larger one. *)
Lemma selectFrom_lookup test k (l : list ParseRule) i :
  In i (selectFrom test k l) <->
  (k <= i)%nat /\ exists r, l !! (i - k)%nat = Some r /\ test r = true.
Proof.
  revert k. induction l as [|x l IH]; intros k; simpl.
  - split; [intros []|]. intros [_ (r & Hr & _)]. discriminate.
  - assert (Hstep : In i (selectFrom test (S k) l) <->
                    (k < i)%nat /\ exists r, l !! (i - S k)%nat = Some r /\ test r = true).
    { rewrite IH. reflexivity. }
    destruct (test x) eqn:Hx; simpl; rewrite Hstep; split.
    + intros [->|[Hlt (r & Hr & Ht)]].
      * split; [lia|]. exists x. rewrite Nat.sub_diag. auto.
      * split; [lia|]. exists r. split; [|exact Ht].
        replace (i - k)%nat with (S (i - S k)) by lia. exact Hr.
    + intros [Hle (r & Hr & Ht)].
      destruct (decide (i = k)) as [->|Hne]; [left; reflexivity|right].
      split; [lia|]. exists r. split; [|exact Ht].
      replace (i - k)%nat with (S (i - S k)) in Hr by lia. exact Hr.
    + intros [Hlt (r & Hr & Ht)].
      split; [lia|]. exists r. split; [|exact Ht].
      replace (i - k)%nat with (S (i - S k)) by lia. exact Hr.
    + intros [Hle (r & Hr & Ht)].
      destruct (decide (i = k)) as [->|Hne].
      * rewrite Nat.sub_diag in Hr. simpl in Hr. congruence.
      * split; [lia|]. exists r. split; [|exact Ht].
        replace (i - k)%nat with (S (i - S k)) in Hr by lia. exact Hr.
Qed.

Lemma selectFrom_order test k (l : list ParseRule) i j :
  In i (selectFrom test k l) -> In j (selectFrom test k l) -> (i < j)%nat ->
  exists l1 l2 l3, selectFrom test k l = l1 ++ i :: l2 ++ j :: l3.
Proof.
  revert k. induction l as [|x l IH]; intros k Hi Hj Hlt; simpl in *; [contradiction|].
  assert (Hgt : forall n, In n (selectFrom test (S k) l) -> (k < n)%nat).
  { intros n Hn. apply selectFrom_lookup in Hn. lia. }
  destruct (test x).
  - destruct Hi as [<-|Hi], Hj as [<-|Hj].
    + lia.
    + apply in_split in Hj as (l2 & l3 & ->).
      exists [], l2, l3. reflexivity.
    + apply Hgt in Hi. lia.
    + destruct (IH _ Hi Hj Hlt) as (l1 & l2 & l3 & ->).
      exists (k :: l1), l2, l3. reflexivity.
  - apply IH; assumption.
Qed.

End RuleOrder.

Section RuleOrderTheorem.
Context `{SA : SchemaAPI} `{DA : DomAPI}.

Lemma newDOMParser_tags schema rs parser :
  newDOMParser schema rs = Some parser ->
  rules parser = rs /\
  tags parser = selectFrom (fun r => JS.truthy (tag r)) O rs.
Proof.
  unfold newDOMParser. intros H.
  match type of H with
  | match ?x with _ => _ end = _ => destruct x; [|discriminate]
  end.
  injection H as <-. split; reflexivity.
Qed.

(** C4.  The rule list of a schema is the declared rules (marks
    first, then nodes, each in declaration order) stably sorted by
    descending priority, a missing priority counting as 50: it is a
    permutation of the declared rules, sorted by descending priority,
    and the rules of any one priority keep their declared order.  So a
    rule of priority 70 stands at a smaller index than a rule of
    priority 30, whatever their declaration order, and [tags], which
    [matchTag] scans from the left, lists the smaller index first. *)
Theorem schemaRules_priority_order (schema : Schema) :
  Permutation (schemaRules schema) (declaredRules schema) /\
  StronglySorted before (schemaRules schema) /\
  (forall p,
      List.filter (hasPriority p) (schemaRules schema)
      = List.filter (hasPriority p) (declaredRules schema)) /\
  (forall i j r1 r2,
      schemaRules schema !! i = Some r1 ->
      schemaRules schema !! j = Some r2 ->
      priority r1 = Some 70 -> priority r2 = Some 30 ->
      (i < j)%nat) /\
  (forall parser i j,
      newDOMParser schema (schemaRules schema) = Some parser ->
      In i (tags parser) -> In j (tags parser) -> (i < j)%nat ->
      exists l1 l2 l3, tags parser = l1 ++ i :: l2 ++ j :: l3).
Proof.
  assert (Hsorted : Sorted before (schemaRules schema)).
  { rewrite schemaRules_insertEach. apply insertEach_sorted. constructor. }
  assert (Hstrong : StronglySorted before (schemaRules schema)).
  { apply Sorted_StronglySorted; [apply before_trans|exact Hsorted]. }
  split; [|split; [|split; [|split]]].
  - rewrite schemaRules_insertEach. apply (insertEach_perm _ []).
  - exact Hstrong.
  - intros p. rewrite schemaRules_insertEach.
    rewrite insertEach_filter by constructor. reflexivity.
  - intros i j r1 r2 Hi Hj H1 H2.
    eapply sorted_index; [exact Hstrong|exact Hi|exact Hj|].
    unfold priorityOf. rewrite H1, H2. simpl. lia.
  - intros parser i j Hp Hi Hj Hlt.
    apply newDOMParser_tags in Hp as [_ Ht]. rewrite Ht in *.
    apply selectFrom_order; assumption.
Qed.

End RuleOrderTheorem.

(* ===================================================================== *)
(** ** The stack: [closeExtra] and [enterInner] *)
(* ===================================================================== *)

Section StackFacts.
Context `{SA : SchemaAPI} `{DA : DomAPI}.

Lemma putNode_length l i cx : length (putNode l i cx) = length l.
Proof. unfold putNode. destruct (i <? 0); [reflexivity|apply length_insert]. Qed.

Lemma nodeAt_Some l i cx :
  nodeAt l i = Some cx -> 0 <= i /\ (Z.to_nat i < length l)%nat.
Proof.
  unfold nodeAt. destruct (i <? 0) eqn:E; [discriminate|].
  intros H. apply Z.ltb_ge in E. split; [exact E|].
  eapply lookup_lt_Some. exact H.
Qed.

Lemma nodeAt_putNode_eq l i cx :
  0 <= i -> (Z.to_nat i < length l)%nat -> nodeAt (putNode l i cx) i = Some cx.
Proof.
  intros H1 H2. unfold nodeAt, putNode.
  destruct (i <? 0) eqn:E; [apply Z.ltb_lt in E; lia|].
  apply list_lookup_insert_eq. exact H2.
Qed.

Lemma nodeAt_putNode_ne l i j cx :
  i <> j -> nodeAt (putNode l i cx) j = nodeAt l j.
Proof.
  intros Hne. unfold nodeAt, putNode.
  destruct (j <? 0) eqn:Ej; [reflexivity|].
  destruct (i <? 0) eqn:Ei; [reflexivity|].
  apply list_lookup_insert_ne.
  apply Z.ltb_ge in Ei, Ej. intros Heq. apply Hne. lia.
Qed.

Lemma nodeAt_app_l l l' i :
  (Z.to_nat i < length l)%nat -> nodeAt (l ++ l') i = nodeAt l i.
Proof.
  intros H. unfold nodeAt. destruct (i <? 0); [reflexivity|].
  apply lookup_app_l. exact H.
Qed.

Lemma nodeAt_app_last l cx :
  nodeAt (l ++ [cx]) (Z.of_nat (length l)) = Some cx.
Proof.
  unfold nodeAt.
  destruct (Z.of_nat (length l) <? 0) eqn:E; [apply Z.ltb_lt in E; lia|].
  rewrite Nat2Z.id. rewrite lookup_app_r by lia.
  rewrite Nat.sub_diag. reflexivity.
Qed.

Lemma closeFrom_length cnt i b l l' :
  closeFrom cnt i b l = Some l' -> length l' = length l.
Proof.
  revert i l. induction cnt as [|k IH]; intros i l H; simpl in H.
  - congruence.
  - destruct (nodeAt l (i - 1)) as [par|]; [|discriminate].
    destruct (nodeAt l i) as [child|]; [|discriminate].
    destruct (NodeContext.finish child b) as [[[n|f] child']|]; try discriminate.
    apply IH in H. rewrite H, !putNode_length. reflexivity.
Qed.

(** What [closeExtra] leaves alone, and that [open] points at the
    last frame afterwards. *)
Lemma closeExtra_frame b pc pc1 :
  closeExtra b pc = Done tt pc1 ->
  open pc1 = open pc /\ parser pc1 = parser pc /\ options pc1 = options pc /\
  isOpen pc1 = isOpen pc /\ find pc1 = find pc /\
  needsBlock pc1 = needsBlock pc /\ nextId pc1 = nextId pc /\ doc pc1 = doc pc.
Proof.
  unfold closeExtra. intros H.
  destruct (Z.of_nat (length (pnodes pc)) - 1 >? open pc) eqn:E.
  - destruct (closeFrom _ _ _ _) as [l|] eqn:Hc; [|discriminate].
    injection H as <-. simpl. repeat split; reflexivity.
  - injection H as <-. repeat split; reflexivity.
Qed.

Lemma closeExtra_top_last b pc pc1 par :
  closeExtra b pc = Done tt pc1 -> top pc1 = Some par ->
  Z.of_nat (length (pnodes pc1)) = open pc1 + 1.
Proof.
  intros Hc Ht. unfold top in Ht. apply nodeAt_Some in Ht as [H0 Hlt].
  unfold closeExtra in Hc.
  destruct (Z.of_nat (length (pnodes pc)) - 1 >? open pc) eqn:E.
  - destruct (closeFrom _ _ _ _) as [l|] eqn:Hcl; [|discriminate].
    injection Hc as <-. simpl in *. rewrite length_take in *. lia.
  - injection Hc as <-.
    assert (Hle := Zgt_cases (Z.of_nat (length (pnodes pc)) - 1) (open pc)).
    rewrite E in Hle. lia.
Qed.

Lemma newNodeContext_inner id t a ms ps solid o :
  exists cx,
    newNodeContext id (Some t) a ms ps solid None o = Some cx /\
    nc_id cx = id /\ nc_type cx = Some t /\ nc_attrs cx = a /\
    nc_marks cx = ms /\ nc_pendingMarks cx = ps /\ nc_solid cx = solid /\
    nc_options cx = o /\ nc_content cx = [] /\
    nc_activeMarks cx = [] /\ nc_stashMarks cx = [] /\
    nc_match cx = if hasOpt o OPT_OPEN_LEFT then None
                  else Some (nt_contentMatch t).
Proof.
  unfold newNodeContext. destruct (hasOpt o OPT_OPEN_LEFT);
    eexists; (split; [reflexivity|]); simpl; repeat split; reflexivity.
Qed.

Lemma applyPendingStep_frame ns t cx m :
  let cx' := NodeContext.applyPendingStep ns t cx m in
  nc_id cx' = nc_id cx /\ nc_type cx' = nc_type cx /\
  nc_attrs cx' = nc_attrs cx /\ nc_marks cx' = nc_marks cx /\
  nc_solid cx' = nc_solid cx /\ nc_options cx' = nc_options cx /\
  nc_match cx' = nc_match cx /\ nc_content cx' = nc_content cx /\
  nc_stashMarks cx' = nc_stashMarks cx.
Proof.
  unfold NodeContext.applyPendingStep.
  destruct (_ && _)%bool; simpl; repeat split; reflexivity.
Qed.

(** [applyPending] only moves marks from pending to active. *)
Lemma applyPending_frame ns cx t :
  let cx' := NodeContext.applyPending ns cx t in
  nc_id cx' = nc_id cx /\ nc_type cx' = nc_type cx /\
  nc_attrs cx' = nc_attrs cx /\ nc_marks cx' = nc_marks cx /\
  nc_solid cx' = nc_solid cx /\ nc_options cx' = nc_options cx /\
  nc_match cx' = nc_match cx /\ nc_content cx' = nc_content cx /\
  nc_stashMarks cx' = nc_stashMarks cx.
Proof.
  unfold NodeContext.applyPending.
  generalize (nc_pendingMarks cx) as l. intros l. revert cx.
  induction l as [|m l IH]; intros cx; simpl.
  - repeat split; reflexivity.
  - specialize (IH (NodeContext.applyPendingStep ns t cx m)). simpl in IH.
    pose proof (applyPendingStep_frame ns t cx m) as Hs. simpl in Hs.
    destruct IH as (A1 & A2 & A3 & A4 & A5 & A6 & A7 & A8 & A9).
    destruct Hs as (B1 & B2 & B3 & B4 & B5 & B6 & B7 & B8 & B9).
    repeat split; congruence.
Qed.

Lemma enterInner_unfold type attrs solid ws pc pc1 par :
  closeExtra false pc = Done tt pc1 -> top pc1 = Some par ->
  enterInner type attrs solid ws pc =
  let '(top2, cx) := enteredFrame pc1 par type attrs solid ws in
  Done tt (setOpen (setNextId
                      (setNodes pc1 (putNode (pnodes pc1) (open pc1) top2 ++ [cx]))
                      (S (nextId pc1)))
                   (open pc1 + 1)).
Proof.
  intros Hc Ht. unfold enterInner, bind at 1. rewrite Hc.
  unfold bind at 1, getTop. rewrite Ht. simpl defined. unfold ret at 1.
  unfold bind at 1, get. unfold bind at 1, setTop, modify.
  unfold enteredFrame. simpl.
  unfold bind at 1.
  unfold newNodeContext.
  destruct (hasOpt _ OPT_OPEN_LEFT) eqn:E; simpl; rewrite ?E; reflexivity.
Qed.

End StackFacts.

(* ===================================================================== *)
(** ** Whitespace options of a new frame *)
(* ===================================================================== *)

Section OpenLeft.
Context `{SA : SchemaAPI} `{DA : DomAPI}.

Lemma clear_open_left base :
  Z.land (Z.land base (Z.lnot OPT_OPEN_LEFT)) OPT_OPEN_LEFT = 0.
Proof.
  rewrite <- Z.land_assoc.
  replace (Z.land (Z.lnot OPT_OPEN_LEFT) OPT_OPEN_LEFT) with 0 by reflexivity.
  apply Z.land_0_r.
Qed.

Lemma set_open_left x :
  Z.land x OPT_OPEN_LEFT = 0 ->
  Z.land (Z.lor x OPT_OPEN_LEFT) OPT_OPEN_LEFT = OPT_OPEN_LEFT.
Proof.
  intros H. rewrite Z.land_lor_distr_l, H. reflexivity.
Qed.

(** Inherited options never carry open-left out of [wsOptionsFor]. *)
Lemma wsOptionsFor_inherited type base :
  match type with
  | Some t => String.eqb (nt_whitespace t) "pre" = false
  | None => True
  end ->
  wsOptionsFor type None base = Z.land base (Z.lnot OPT_OPEN_LEFT) /\
  hasOpt (wsOptionsFor type None base) OPT_OPEN_LEFT = false.
Proof.
  intros H. unfold wsOptionsFor, hasOpt.
  destruct type as [t|]; [rewrite H|]; rewrite clear_open_left; split; reflexivity.
Qed.

(** C8 (amended).  When a frame is opened by [enterInner] and takes
    its whitespace options by inheritance (no per-call or per-rule
    option, node type not [whitespace: pre]), the inherited options
    that [wsOptionsFor] returns have the open-left bit cleared, and
    [enterInner] then sets the bit on the new frame exactly when the
    parent frame has open-left and has no content yet. *)
Theorem enterInner_open_left type attrs solid pc pc1 par :
  closeExtra false pc = Done tt pc1 ->
  top pc1 = Some par ->
  String.eqb (nt_whitespace type) "pre" = false ->
  exists pc' child,
    enterInner type attrs solid None pc = Done tt pc' /\
    top pc' = Some child /\
    hasOpt (wsOptionsFor (Some type) None (nc_options par)) OPT_OPEN_LEFT = false /\
    nc_options child =
      Z.lor (Z.land (nc_options par) (Z.lnot OPT_OPEN_LEFT))
            (if (hasOpt (nc_options par) OPT_OPEN_LEFT &&
                 (length (nc_content par) =? 0)%nat)%bool
             then OPT_OPEN_LEFT else 0) /\
    hasOpt (nc_options child) OPT_OPEN_LEFT =
      (hasOpt (nc_options par) OPT_OPEN_LEFT &&
       (length (nc_content par) =? 0)%nat)%bool.
Proof.
  intros Hc Ht Hpre.
  pose proof (closeExtra_top_last _ _ _ _ Hc Ht) as Hlen.
  pose proof Ht as Ht'. unfold top in Ht'. apply nodeAt_Some in Ht' as [H0 Hlt].
  rewrite (enterInner_unfold _ _ _ _ _ _ _ Hc Ht).
  pose proof (applyPending_frame (schemaNodes pc1) par type) as Hf.
  simpl in Hf. destruct Hf as (_ & _ & _ & _ & _ & Hopt & _ & Hcont & _).
  destruct (wsOptionsFor_inherited (Some type) (nc_options par) Hpre) as [Hws Hclr].
  destruct (enteredFrame pc1 par type attrs solid None) as [top2 cx] eqn:Hfr.
  unfold enteredFrame in Hfr. injection Hfr as Htop2 Hcx.
  assert (Hco : nc_options cx =
                if (hasOpt (nc_options par) OPT_OPEN_LEFT &&
                    (length (nc_content par) =? 0)%nat)%bool
                then Z.lor (Z.land (nc_options par) (Z.lnot OPT_OPEN_LEFT))
                           OPT_OPEN_LEFT
                else Z.land (nc_options par) (Z.lnot OPT_OPEN_LEFT)).
  { rewrite <- Hcx. cbn [nc_options nc_content setMatch].
    rewrite Hopt, Hcont, Hpre. reflexivity. }
  exists (setOpen (setNextId
                     (setNodes pc1 (putNode (pnodes pc1) (open pc1) top2 ++ [cx]))
                     (S (nextId pc1))) (open pc1 + 1)), cx.
  split; [reflexivity|]. split; [|split; [exact Hclr|]].
  - unfold top. cbn [pnodes open setOpen setNextId setNodes].
    replace (open pc1 + 1) with
      (Z.of_nat (length (putNode (pnodes pc1) (open pc1) top2)))
      by (rewrite putNode_length; lia).
    apply nodeAt_app_last.
  - rewrite Hco.
    destruct (hasOpt (nc_options par) OPT_OPEN_LEFT &&
              (length (nc_content par) =? 0)%nat)%bool.
    + split; [reflexivity|]. unfold hasOpt.
      rewrite set_open_left by apply clear_open_left. reflexivity.
    + split; [rewrite Z.lor_0_r; reflexivity|]. unfold hasOpt.
      rewrite clear_open_left. reflexivity.
Qed.

End OpenLeft.

(* ===================================================================== *)
(** ** Context-path matching *)
(* ===================================================================== *)

Section ContextPath.
Context `{SA : SchemaAPI} `{DA : DomAPI}.

Lemma useRoot_closed pc :
  isOpen pc = false -> o_context (options pc) = None -> useRoot pc = true.
Proof. intros H1 H2. unfold useRoot. rewrite H1, H2. reflexivity. Qed.

Lemma typeAtDepth_closed pc depth :
  isOpen pc = false -> o_context (options pc) = None ->
  typeAtDepth pc depth =
  if depth >=? 0 then option_map nc_type (nodeAt (pnodes pc) depth)
  else Some None.
Proof.
  intros H1 H2. unfold typeAtDepth.
  rewrite (useRoot_closed pc H1 H2), H2, andb_true_r.
  destruct (depth >? 0) eqn:E1, (depth =? 0) eqn:E2, (depth >=? 0) eqn:E3;
    simpl; try reflexivity; try (destruct (nodeAt _ _); reflexivity); exfalso.
  - apply Z.eqb_eq in E2. subst. discriminate.
  - assert (H := Zgt_cases depth 0). rewrite E1 in H.
    assert (H' := Zge_cases depth 0). rewrite E3 in H'. lia.
  - apply Z.eqb_eq in E2. subst. discriminate.
  - assert (H := Zgt_cases depth 0). rewrite E1 in H.
    assert (H' := Zge_cases depth 0). rewrite E3 in H'.
    apply Z.eqb_neq in E2. lia.
Qed.

(** C7 (amended).  In a parse that is not an open-fragment parse and
    has no external context, a rule with context
    ["blockquote/paragraph/"] matches exactly when the innermost open
    frame has type name or group [paragraph] and the frame below it
    has type name or group [blockquote]; it does not match when the
    innermost open frame is the root. *)
Theorem matchesContext_blockquote_paragraph pc :
  isOpen pc = false ->
  o_context (options pc) = None ->
  (matchesContextPure pc "blockquote/paragraph/" = Some true <->
   exists inner outer,
     nodeAt (pnodes pc) (open pc) = Some inner /\
     nodeAt (pnodes pc) (open pc - 1) = Some outer /\
     frameMatches inner "paragraph" = true /\
     frameMatches outer "blockquote" = true) /\
  (open pc = 0 -> matchesContextPure pc "blockquote/paragraph/" <> Some true).
Proof.
  intros H1 H2.
  assert (Heq : matchesContextPure pc "blockquote/paragraph/" =
                match typeAtDepth pc (open pc) with
                | Some (Some next) =>
                    if typeMatches next "paragraph" then
                      match typeAtDepth pc (open pc - 1) with
                      | Some (Some next') =>
                          if typeMatches next' "blockquote" then Some true
                          else Some false
                      | Some None => Some false
                      | None => None
                      end
                    else Some false
                | Some None => Some false
                | None => None
                end) by reflexivity.
  rewrite Heq, !typeAtDepth_closed by assumption.
  assert (Hiff :
    match
      (if open pc >=? 0 then option_map nc_type (nodeAt (pnodes pc) (open pc))
       else Some None)
    with
    | Some (Some next) =>
        if typeMatches next "paragraph" then
          match
            (if open pc - 1 >=? 0
             then option_map nc_type (nodeAt (pnodes pc) (open pc - 1))
             else Some None)
          with
          | Some (Some next') =>
              if typeMatches next' "blockquote" then Some true else Some false
          | Some None => Some false
          | None => None
          end
        else Some false
    | Some None => Some false
    | None => None
    end = Some true <->
    exists inner outer,
      nodeAt (pnodes pc) (open pc) = Some inner /\
      nodeAt (pnodes pc) (open pc - 1) = Some outer /\
      frameMatches inner "paragraph" = true /\
      frameMatches outer "blockquote" = true).
  { unfold frameMatches. split.
    - destruct (open pc >=? 0); [|discriminate].
      destruct (nodeAt (pnodes pc) (open pc)) as [inner|]; [|discriminate].
      simpl. destruct (nc_type inner) as [t|] eqn:Et; [|discriminate].
      destruct (typeMatches t "paragraph") eqn:Em; [|discriminate].
      destruct (open pc - 1 >=? 0); [|discriminate].
      destruct (nodeAt (pnodes pc) (open pc - 1)) as [outer|]; [|discriminate].
      simpl. destruct (nc_type outer) as [t'|] eqn:Et'; [|discriminate].
      destruct (typeMatches t' "blockquote") eqn:Em'; [|discriminate].
      intros _. exists inner, outer. rewrite Et, Et'. auto.
    - intros (inner & outer & Hi & Ho & Hmi & Hmo).
      pose proof (nodeAt_Some _ _ _ Hi) as [Hge _].
      pose proof (nodeAt_Some _ _ _ Ho) as [Hge' _].
      rewrite Hi, Ho.
      destruct (open pc >=? 0) eqn:E;
        [|assert (H := Zge_cases (open pc) 0); rewrite E in H; lia].
      destruct (open pc - 1 >=? 0) eqn:E';
        [|assert (H := Zge_cases (open pc - 1) 0); rewrite E' in H; lia].
      simpl. destruct (nc_type inner); [|discriminate]. rewrite Hmi.
      destruct (nc_type outer); [|discriminate]. rewrite Hmo. reflexivity. }
  split; [exact Hiff|].
  intros H0 Hm. apply Hiff in Hm as (inner & outer & _ & Ho & _).
  apply nodeAt_Some in Ho. lia.
Qed.

End ContextPath.

(* ===================================================================== *)
(** ** What matching writes to the rule store *)
(* ===================================================================== *)

Section RuleStore.
Context `{SA : SchemaAPI} `{DA : DomAPI}.

Lemma setAttrs_same rule : setAttrs rule (attrs rule) = rule.
Proof. destruct rule; reflexivity. Qed.

Lemma withAttrs_same pc i rule :
  ruleAt pc i = Some rule -> withAttrs pc i (attrs rule) = pc.
Proof.
  unfold ruleAt, withAttrs. intros H.
  assert (Ha : alter (fun r => setAttrs r (attrs rule)) i (rules (parser pc))
               = rules (parser pc)).
  { apply list_eq. intros j. destruct (decide (i = j)) as [->|Hne].
    - rewrite list_lookup_alter_eq, H. simpl. rewrite setAttrs_same. reflexivity.
    - rewrite list_lookup_alter_ne by exact Hne. reflexivity. }
  rewrite Ha. destruct pc as [p ? ? ? ? ? ? ? ?]. destruct p. reflexivity.
Qed.

Lemma matchesContext_state ctx pc b pc' :
  matchesContext ctx pc = Done b pc' -> pc' = pc.
Proof.
  unfold matchesContext, bind, get, defined.
  destruct (matchesContextPure pc ctx); [|discriminate].
  unfold ret. congruence.
Qed.

Lemma contextOk_state rule pc b pc' :
  contextOk rule pc = Done b pc' -> pc' = pc.
Proof.
  unfold contextOk. destruct (negb _).
  - unfold ret. congruence.
  - apply matchesContext_state.
Qed.

Lemma runGetAttrs_spec i rule arg pc r pc' :
  ruleAt pc i = Some rule ->
  runGetAttrs i rule arg pc = Done r pc' ->
  (r = None /\ pc' = pc) \/
  (r = Some i /\ pc' = withAttrs pc i (attrsAfter rule arg)).
Proof.
  intros Hr. unfold runGetAttrs, attrsAfter.
  destruct (getAttrs rule) as [f|].
  - destruct (f arg); unfold bind, writeAttrs, modify, ret; simpl; intros H;
      injection H as <- <-; auto.
  - unfold ret. intros H. injection H as <- <-. right.
    rewrite (withAttrs_same _ _ _ Hr). auto.
Qed.

Lemma matchTagFrom_outcome cands dom pc r pc' :
  matchTagFrom cands dom pc = Done r pc' ->
  scanOutcome pc (GAElement (doc pc) dom) r pc'.
Proof.
  revert pc. induction cands as [|i rest IH]; intros pc H; simpl in H.
  - unfold ret in H. injection H as <- <-. left. auto.
  - unfold bind at 1, get in H. unfold bind at 1, defined in H.
    destruct (ruleAt pc i) as [rule|] eqn:Hr; [|discriminate].
    unfold ret at 1 in H. unfold bind at 1 in H.
    destruct ((if (matches (doc pc) dom (default "" (tag rule)) &&
                   namespaceOk (doc pc) dom rule)%bool
               then contextOk rule else ret false) pc) as [ok pc1| |] eqn:Hok;
      try discriminate.
    assert (pc1 = pc) as ->.
    { destruct (_ && _)%bool.
      - eapply contextOk_state. exact Hok.
      - unfold ret in Hok. congruence. }
    destruct ok; [|apply IH; exact H].
    unfold bind at 1 in H.
    destruct (runGetAttrs i rule (GAElement (doc pc) dom) pc) as [r1 pc2| |] eqn:Hg;
      try discriminate.
    destruct (runGetAttrs_spec _ _ _ _ _ _ Hr Hg) as [[-> ->]|[-> ->]].
    + apply IH. exact H.
    + unfold ret in H. injection H as <- <-. right. exists i, rule. auto.
Qed.

Lemma matchStyleFrom_outcome cands prop value pc r pc' :
  matchStyleFrom cands prop value pc = Done r pc' ->
  scanOutcome pc (GAString value) r pc'.
Proof.
  revert pc. induction cands as [|i rest IH]; intros pc H; simpl in H.
  - unfold ret in H. injection H as <- <-. left. auto.
  - unfold bind at 1, get in H. unfold bind at 1, defined in H.
    destruct (ruleAt pc i) as [rule|] eqn:Hr; [|discriminate].
    unfold ret at 1 in H. unfold bind at 1 in H.
    match type of H with
    | match ?m pc with _ => _ end = _ =>
        destruct (m pc) as [sk pc1| |] eqn:Hsk; try discriminate
    end.
    assert (pc1 = pc) as ->.
    { destruct (propMismatch _ _); [unfold ret in Hsk; congruence|].
      unfold bind in Hsk.
      destruct (contextOk rule pc) as [cx pc2| |] eqn:Hc; try discriminate.
      apply contextOk_state in Hc. subst pc2.
      destruct (negb cx); unfold ret in Hsk; congruence. }
    destruct sk; [apply IH; exact H|].
    unfold bind at 1 in H.
    destruct (runGetAttrs i rule (GAString value) pc) as [r1 pc2| |] eqn:Hg;
      try discriminate.
    destruct (runGetAttrs_spec _ _ _ _ _ _ Hr Hg) as [[-> ->]|[-> ->]].
    + apply IH. exact H.
    + unfold ret in H. injection H as <- <-. right. exists i, rule. auto.
Qed.

(** What an outcome means rule by rule. *)
Lemma scanOutcome_rules pc arg r pc' :
  scanOutcome pc arg r pc' ->
  (open pc' = open pc /\ pnodes pc' = pnodes pc /\ find pc' = find pc /\
   needsBlock pc' = needsBlock pc /\ doc pc' = doc pc /\
   options pc' = options pc /\ isOpen pc' = isOpen pc /\
   nextId pc' = nextId pc) /\
  (tags (parser pc') = tags (parser pc) /\
   styles (parser pc') = styles (parser pc) /\
   schema (parser pc') = schema (parser pc) /\
   normalizeLists (parser pc') = normalizeLists (parser pc)) /\
  (forall j rule, ruleAt pc j = Some rule ->
     exists a, ruleAt pc' j = Some (setAttrs rule a)) /\
  (forall j, r <> Some j -> ruleAt pc' j = ruleAt pc j) /\
  (forall i rule, r = Some i -> ruleAt pc i = Some rule ->
     ruleAt pc' i = Some (setAttrs rule (attrsAfter rule arg))).
Proof.
  intros [[-> ->]|(i & rule & -> & Hr & ->)].
  - repeat split; try reflexivity.
    + intros j rule Hj. exists (attrs rule). rewrite setAttrs_same. exact Hj.
    + intros i rule Hi. discriminate.
  - unfold withAttrs, ruleAt in *. simpl.
    repeat split; try reflexivity.
    + intros j rule' Hj. destruct (decide (i = j)) as [->|Hne].
      * exists (attrsAfter rule arg).
        rewrite list_lookup_alter_eq, Hj. reflexivity.
      * exists (attrs rule'). rewrite list_lookup_alter_ne by exact Hne.
        rewrite setAttrs_same. exact Hj.
    + intros j Hne. apply list_lookup_alter_ne. congruence.
    + intros i' rule' [= <-] Hi. rewrite list_lookup_alter_eq, Hi.
      assert (rule' = rule) as -> by congruence. reflexivity.
Qed.

Lemma matchTag_outcome dom after pc r pc' :
  matchTag dom after pc = Done r pc' ->
  scanOutcome pc (GAElement (doc pc) dom) r pc'.
Proof. unfold matchTag, bind, get. apply matchTagFrom_outcome. Qed.

Lemma matchStyle_outcome prop value after pc r pc' :
  matchStyle prop value after pc = Done r pc' ->
  scanOutcome pc (GAString value) r pc'.
Proof. unfold matchStyle, bind, get. apply matchStyleFrom_outcome. Qed.

(** C3 (amended).  [matchTag] and [matchStyle] change nothing but the
    [attrs] field of the rule they return: the parse state and the
    lists [tags] and [styles] are untouched, every rule keeps all its
    fields except [attrs], every rule other than the returned one is
    unchanged, and the returned rule, when it has a [getAttrs]
    function, gets the result of that call written to its [attrs]
    field ([undefined] for [null]). *)
Theorem match_writes_attrs_only (scan : M (option nat)) (arg : GetAttrsArg)
    pc r pc' :
  (exists dom after,
      scan = matchTag dom after /\ arg = GAElement (doc pc) dom) \/
  (exists prop value after,
      scan = matchStyle prop value after /\ arg = GAString value) ->
  scan pc = Done r pc' ->
  (open pc' = open pc /\ pnodes pc' = pnodes pc /\ find pc' = find pc /\
   needsBlock pc' = needsBlock pc /\ doc pc' = doc pc /\
   options pc' = options pc /\ isOpen pc' = isOpen pc /\
   nextId pc' = nextId pc) /\
  (tags (parser pc') = tags (parser pc) /\
   styles (parser pc') = styles (parser pc) /\
   schema (parser pc') = schema (parser pc) /\
   normalizeLists (parser pc') = normalizeLists (parser pc)) /\
  (forall j rule, ruleAt pc j = Some rule ->
     exists a, ruleAt pc' j = Some (setAttrs rule a)) /\
  (forall j, r <> Some j -> ruleAt pc' j = ruleAt pc j) /\
  (forall i rule, r = Some i -> ruleAt pc i = Some rule ->
     ruleAt pc' i = Some (setAttrs rule (attrsAfter rule arg))).
Proof.
  intros Hscan Hrun. apply scanOutcome_rules.
  destruct Hscan as [(dom & after & -> & ->)|(prop & value & after & -> & ->)].
  - eapply matchTag_outcome. exact Hrun.
  - eapply matchStyle_outcome. exact Hrun.
Qed.

End RuleStore.

(* ===================================================================== *)
(** ** Placement search *)
(* ===================================================================== *)

Section FindPlace.
Context `{SA : SchemaAPI} `{DA : DomAPI}.

Lemma setMatch_same cx : setMatch cx (nc_match cx) = cx.
Proof. destruct cx; reflexivity. Qed.

Lemma findWrapping_frame cx node r cx' :
  NodeContext.findWrapping cx node = Some (r, cx') ->
  cx' = setMatch cx (nc_match cx').
Proof.
  unfold NodeContext.findWrapping. intros H.
  destruct (nc_match cx) as [m|] eqn:Em.
  - injection H as _ <-. rewrite setMatch_same. reflexivity.
  - destruct (nc_type cx) as [t|].
    + destruct (cm_fillBefore _ _ _).
      * destruct (cm_matchFragment _ _); [|discriminate].
        injection H as _ <-. reflexivity.
      * destruct (cm_findWrapping _ _); injection H as _ <-;
          [reflexivity|rewrite setMatch_same; reflexivity].
    + injection H as _ <-. rewrite setMatch_same. reflexivity.
Qed.

Lemma sameButMatch_refl l : sameButMatch l l.
Proof.
  unfold sameButMatch. induction l; constructor; [|assumption].
  symmetry. apply setMatch_same.
Qed.

Lemma sameButMatch_trans l1 l2 l3 :
  sameButMatch l1 l2 -> sameButMatch l2 l3 -> sameButMatch l1 l3.
Proof.
  unfold sameButMatch. intros H12. revert l3.
  induction H12 as [|a b l1 l2 Hab H12 IH]; intros l3 H23;
    inversion H23 as [|b' c l2' l3' Hbc H23']; subst.
  - constructor.
  - constructor; [|apply IH; assumption].
    rewrite Hbc. rewrite Hab at 1. destruct a; reflexivity.
Qed.

Lemma sameButMatch_putNode l i cx cx' :
  nodeAt l i = Some cx -> cx' = setMatch cx (nc_match cx') ->
  sameButMatch l (putNode l i cx').
Proof.
  unfold nodeAt, putNode, sameButMatch.
  destruct (i <? 0); [discriminate|].
  generalize (Z.to_nat i) as n. clear i. intros n. revert n.
  induction l as [|a l IH]; intros n Hn Hcx; [discriminate|].
  destruct n as [|n]; simpl in *.
  - injection Hn as ->. constructor; [exact Hcx|apply sameButMatch_refl].
  - constructor; [symmetry; apply setMatch_same|apply IH; assumption].
Qed.

Lemma sameButMatch_ids l l' : sameButMatch l l' -> map nc_id l' = map nc_id l.
Proof.
  induction 1 as [|a b l l' Hab H IH]; simpl; [reflexivity|].
  rewrite IH, Hab. reflexivity.
Qed.

Lemma sameButMatch_nodeAt l l' i cx :
  sameButMatch l l' -> nodeAt l i = Some cx ->
  exists cx', nodeAt l' i = Some cx' /\ cx' = setMatch cx (nc_match cx').
Proof.
  unfold nodeAt. destruct (i <? 0); [discriminate|].
  intros H. revert i. generalize dependent cx.
  induction H as [|a b l l' Hab H IH]; intros cx i Hi.
  - destruct (Z.to_nat i); discriminate.
  - destruct (Z.to_nat i) as [|n] eqn:En; simpl in *.
    + injection Hi as <-. eauto.
    + specialize (IH cx (Z.of_nat n)). rewrite Nat2Z.id in IH. apply IH. exact Hi.
Qed.

Lemma sameButMatch_length l l' : sameButMatch l l' -> length l' = length l.
Proof. intros H. symmetry. eapply Forall2_length. exact H. Qed.

Lemma scanRange_In cnt depth l d cx :
  In (d, cx) (scanRange cnt depth l) ->
  nodeAt l d = Some cx /\ depth - Z.of_nat cnt < d <= depth.
Proof.
  revert depth. induction cnt as [|k IH]; intros depth H; simpl in H; [contradiction|].
  destruct (nodeAt l depth) as [c|] eqn:E; [|contradiction].
  destruct H as [H|H].
  - injection H as <- <-. split; [exact E|lia].
  - destruct (nc_solid c); [contradiction|].
    apply IH in H as [H1 H2]. split; [exact H1|lia].
Qed.

Lemma scanRange_putNode cnt depth l i x :
  depth < i -> scanRange cnt depth (putNode l i x) = scanRange cnt depth l.
Proof.
  revert depth. induction cnt as [|k IH]; intros depth Hlt; simpl; [reflexivity|].
  rewrite nodeAt_putNode_ne by lia.
  destruct (nodeAt l depth) as [c|]; [|reflexivity].
  destruct (nc_solid c); [reflexivity|]. rewrite IH by lia. reflexivity.
Qed.

(** One more frame seen: the step of the loop of [findPlace]. *)
Lemma bestAmong_step seen node route depth cx :
  bestAmong seen node route ->
  (forall d c, In (d, c) seen -> depth < d) ->
  bestAmong (seen ++ [(depth, cx)]) node
    (if match routeOf cx node, route with
        | Some f, None => true
        | Some f, Some (old, _) => (length f <? length old)%nat
        | None, _ => false
        end
     then option_map (fun f => (f, Some (nc_id cx))) (routeOf cx node)
     else route).
Proof.
  intros Hbest Hdeep.
  destruct (routeOf cx node) as [f|] eqn:Ef.
  - destruct route as [[old to]|].
    + destruct (length f <? length old)%nat eqn:El; simpl.
      * apply Nat.ltb_lt in El.
        destruct Hbest as (d0 & c0 & Hin0 & _ & _ & Hmin).
        exists depth, cx. split; [apply in_app_iff; right; left; reflexivity|].
        split; [reflexivity|]. split; [exact Ef|].
        intros d' c' r' Hin Hr. apply in_app_iff in Hin as [Hin|[Hin|[]]].
        -- destruct (Hmin _ _ _ Hin Hr) as [Hle _]. split; lia.
        -- injection Hin as <- <-. rewrite Ef in Hr. injection Hr as <-.
           split; lia.
      * apply Nat.ltb_ge in El.
        destruct Hbest as (d0 & c0 & Hin0 & Hto & Hr0 & Hmin).
        exists d0, c0. split; [apply in_app_iff; left; exact Hin0|].
        split; [exact Hto|]. split; [exact Hr0|].
        intros d' c' r' Hin Hr. apply in_app_iff in Hin as [Hin|[Hin|[]]].
        -- apply (Hmin _ _ _ Hin Hr).
        -- injection Hin as <- <-. rewrite Ef in Hr. injection Hr as <-.
           split; [exact El|]. intros Hlt. apply Hdeep in Hin0. lia.
    + simpl. exists depth, cx.
      split; [apply in_app_iff; right; left; reflexivity|].
      split; [reflexivity|]. split; [exact Ef|].
      intros d' c' r' Hin Hr. apply in_app_iff in Hin as [Hin|[Hin|[]]].
      * rewrite (Hbest _ _ Hin) in Hr. discriminate.
      * injection Hin as <- <-. rewrite Ef in Hr. injection Hr as <-. split; lia.
  - destruct route as [[old to]|]; simpl.
    + destruct Hbest as (d0 & c0 & Hin0 & Hto & Hr0 & Hmin).
      exists d0, c0. split; [apply in_app_iff; left; exact Hin0|].
      split; [exact Hto|]. split; [exact Hr0|].
      intros d' c' r' Hin Hr. apply in_app_iff in Hin as [Hin|[Hin|[]]].
      * apply (Hmin _ _ _ Hin Hr).
      * injection Hin as <- <-. rewrite Ef in Hr. discriminate.
    + intros d c Hin. apply in_app_iff in Hin as [Hin|[Hin|[]]].
      * apply (Hbest _ _ Hin).
      * injection Hin as <- <-. exact Ef.
Qed.

(** An empty route stays the best one, whatever lies further out. *)
Lemma bestAmong_empty seen node to depth cx rest :
  bestAmong (seen ++ [(depth, cx)]) node (Some ([], to)) ->
  (forall d c, In (d, c) seen -> depth < d) ->
  (forall d c, In (d, c) rest -> d < depth) ->
  bestAmong (seen ++ (depth, cx) :: rest) node (Some ([], to)).
Proof.
  intros (d0 & c0 & Hin0 & Hto & Hr0 & Hmin) Hdeep Hrest.
  exists d0, c0.
  split. { apply in_app_iff in Hin0 as [H|[H|[]]]; apply in_app_iff;
           [left|right; left]; assumption. }
  split; [exact Hto|]. split; [exact Hr0|].
  intros d' c' r' Hin Hr.
  apply in_app_iff in Hin as [Hin|[Hin|Hin]].
  - apply (Hmin d' c' r'); [apply in_app_iff; left; exact Hin|exact Hr].
  - apply (Hmin d' c' r'); [apply in_app_iff; right; left; exact Hin|exact Hr].
  - simpl. split; [lia|]. intros Hlt. apply Hrest in Hin.
    apply in_app_iff in Hin0 as [H|[H|[]]].
    + apply Hdeep in H. lia.
    + injection H as <- <-. lia.
Qed.

(** The loop of [findPlace] returns the best route of the frames in
    its reach, and changes nothing but the [match] of frames. *)
Lemma findPlaceFrom_best cnt depth node route pc seen route' pc' :
  bestAmong seen node route ->
  (forall d c, In (d, c) seen -> depth < d) ->
  findPlaceFrom cnt depth node route pc = Done route' pc' ->
  bestAmong (seen ++ scanRange cnt depth (pnodes pc)) node route' /\
  sameButMatch (pnodes pc) (pnodes pc') /\
  pc' = setNodes pc (pnodes pc') /\
  (forall i, (forall c, ~ In (i, c) (scanRange cnt depth (pnodes pc))) ->
             nodeAt (pnodes pc') i = nodeAt (pnodes pc) i).
Proof.
  revert depth route pc seen.
  induction cnt as [|k IH]; intros depth route pc seen Hbest Hdeep H; simpl in H.
  - unfold ret in H. injection H as <- <-. simpl. rewrite app_nil_r.
    split; [exact Hbest|]. split; [apply sameButMatch_refl|].
    split; [destruct pc; reflexivity|]. reflexivity.
  - unfold bind at 1, get in H. unfold bind at 1, defined in H.
    destruct (nodeAt (pnodes pc) depth) as [cx|] eqn:Ecx; [|discriminate].
    unfold ret at 1 in H. unfold bind at 1, defined in H.
    destruct (NodeContext.findWrapping cx node) as [[found cx']|] eqn:Efw;
      [|discriminate].
    unfold ret at 1 in H. unfold bind at 1, modify in H.
    assert (Hroute : routeOf cx node = found) by (unfold routeOf; rewrite Efw; reflexivity).
    pose proof (bestAmong_step seen node route depth cx Hbest Hdeep) as Hstep.
    rewrite Hroute in Hstep.
    pose proof (sameButMatch_putNode _ _ _ _ Ecx (findWrapping_frame _ _ _ _ Efw))
      as Hsame.
    set (pc1 := setNodes pc (putNode (pnodes pc) depth cx')) in *.
    set (better := match found, route with
                   | Some f, None => true
                   | Some f, Some (old, _) => (length f <? length old)%nat
                   | None, _ => false
                   end) in *.
    set (route1 := if better
                   then option_map (fun f => (f, Some (nc_id cx))) found
                   else route) in *.
    simpl scanRange. rewrite Ecx.
    assert (Hrest : forall d c,
               In (d, c) (if nc_solid cx then []
                          else scanRange k (depth - 1) (pnodes pc)) ->
               d < depth).
    { intros d c Hin. destruct (nc_solid cx); [contradiction|].
      apply scanRange_In in Hin. lia. }
    destruct (better && match found with
                        | Some f => (length f =? 0)%nat
                        | None => false
                        end)%bool eqn:Estop.
    + unfold ret in H. injection H as <- <-.
      assert (Hkeep : forall i,
                 (forall c, ~ In (i, c)
                    ((depth, cx) :: (if nc_solid cx then []
                                     else scanRange k (depth - 1) (pnodes pc)))) ->
                 nodeAt (pnodes pc1) i = nodeAt (pnodes pc) i).
      { intros i Hi. unfold pc1. simpl. apply nodeAt_putNode_ne.
        intros ->. apply (Hi cx). left. reflexivity. }
      split; [|split; [exact Hsame|split; [reflexivity|exact Hkeep]]].
      apply andb_true_iff in Estop as [Hb Hz].
      destruct found as [f|]; [|discriminate].
      apply Nat.eqb_eq in Hz. destruct f; [|discriminate].
      unfold route1 in *. rewrite Hb in *. simpl in *.
      apply bestAmong_empty; assumption.
    + destruct (nc_solid cx) eqn:Esolid.
      * unfold ret in H. injection H as <- <-.
        split; [exact Hstep|]. split; [exact Hsame|]. split; [reflexivity|].
        intros i Hi. unfold pc1. simpl. apply nodeAt_putNode_ne.
        intros ->. apply (Hi cx). left. reflexivity.
      * assert (Hdeep1 : forall d c, In (d, c) (seen ++ [(depth, cx)]) -> depth - 1 < d).
        { intros d c Hin. apply in_app_iff in Hin as [Hin|[Hin|[]]].
          - apply Hdeep in Hin. lia.
          - injection Hin as <- <-. lia. }
        destruct (IH _ _ _ _ Hstep Hdeep1 H) as (Hb & Hs & Hpc & Hk).
        unfold pc1 in Hb, Hs, Hpc, Hk. simpl in Hb, Hs, Hpc, Hk.
        rewrite scanRange_putNode in Hb, Hk by lia.
        rewrite <- app_assoc in Hb. simpl in Hb.
        split; [exact Hb|]. split; [|split].
        -- eapply sameButMatch_trans; eassumption.
        -- rewrite Hpc. reflexivity.
        -- intros i Hi. rewrite Hk.
           ++ apply nodeAt_putNode_ne. intros ->. apply (Hi cx). left. reflexivity.
           ++ intros c Hin. apply (Hi c). right. exact Hin.
Qed.

(** [sync] finds a frame of the stack by its identity. *)
Lemma syncFrom_find l to d cnt i :
  (forall j, d < j <= i -> option_map nc_id (nodeAt l j) <> to) ->
  option_map nc_id (nodeAt l d) = to ->
  d <= i -> (Z.to_nat (i - d) < cnt)%nat ->
  syncFrom cnt i l to = Some d.
Proof.
  revert i. induction cnt as [|k IH]; intros i Hne Heq Hle Hcnt; [lia|].
  simpl. destruct (decide (i = d)) as [->|Hid].
  - rewrite bool_decide_eq_true_2 by exact Heq. reflexivity.
  - rewrite bool_decide_eq_false_2 by (apply Hne; lia).
    apply IH; [intros j Hj; apply Hne; lia|exact Heq|lia|lia].
Qed.

Lemma nodeAt_id_inj l i j a b :
  NoDup (map nc_id l) -> nodeAt l i = Some a -> nodeAt l j = Some b ->
  nc_id a = nc_id b -> i = j.
Proof.
  intros Hnd Hi Hj Hid.
  pose proof (nodeAt_Some _ _ _ Hi) as [Hi0 _].
  pose proof (nodeAt_Some _ _ _ Hj) as [Hj0 _].
  unfold nodeAt in Hi, Hj.
  destruct (i <? 0); [discriminate|]. destruct (j <? 0); [discriminate|].
  assert (Z.to_nat i = Z.to_nat j); [|lia].
  eapply NoDup_lookup; [exact Hnd| |].
  - rewrite list_lookup_fmap, Hi. reflexivity.
  - rewrite list_lookup_fmap, Hj. simpl. rewrite Hid. reflexivity.
Qed.

Lemma sync_finds pc l1 d cx :
  WellFormed pc -> sameButMatch (pnodes pc) l1 ->
  nodeAt (pnodes pc) d = Some cx -> d <= open pc ->
  sync (Some (nc_id cx)) (setNodes pc l1) = Done true (setOpen (setNodes pc l1) d).
Proof.
  intros [Hopen Hnd] Hsame Hd Hle.
  unfold sync. cbn [open pnodes setNodes].
  pose proof (nodeAt_Some _ _ _ Hd) as [Hd0 _].
  rewrite (syncFrom_find l1 (Some (nc_id cx)) d); [reflexivity| | |exact Hle|lia].
  - intros j Hj Heq.
    destruct (nodeAt l1 j) as [b|] eqn:Ej; [|discriminate].
    simpl in Heq. injection Heq as Heq.
    destruct (sameButMatch_nodeAt _ _ _ _ Hsame Hd) as (cx' & Hcx' & Ecx').
    assert (Hnd1 : NoDup (map nc_id l1))
      by (rewrite (sameButMatch_ids _ _ Hsame); exact Hnd).
    assert (j = d); [|lia].
    eapply (nodeAt_id_inj l1); [exact Hnd1|exact Ej|exact Hcx'|].
    rewrite Heq, Ecx'. destruct cx; reflexivity.
  - destruct (sameButMatch_nodeAt _ _ _ _ Hsame Hd) as (cx' & Hcx' & Ecx').
    rewrite Hcx'. simpl. rewrite Ecx'. destruct cx; reflexivity.
Qed.

(** *** The frames that [enterInner] and [closeExtra] leave in place *)

Lemma sameShape_refl f : sameShape f f.
Proof. unfold sameShape. auto. Qed.

Lemma sameShape_trans f g h : sameShape f g -> sameShape g h -> sameShape f h.
Proof. unfold sameShape. intros (A & B & C & D) (A' & B' & C' & D').
       repeat split; congruence. Qed.

Lemma finish_shape child b r child' :
  NodeContext.finish child b = Some (r, child') -> sameShape child child'.
Proof.
  unfold NodeContext.finish. intros H.
  match type of H with
  | match ?x with _ => _ end = _ => destruct x; [|discriminate]
  end.
  destruct (nc_type child); injection H as _ <-; unfold sameShape; simpl; auto.
Qed.

Lemma closeFrom_shape cnt i b l l' :
  closeFrom cnt i b l = Some l' ->
  forall j f, nodeAt l j = Some f ->
    exists f', nodeAt l' j = Some f' /\ sameShape f f' /\
               (j < i - Z.of_nat cnt -> f' = f).
Proof.
  revert i l. induction cnt as [|k IH]; intros i l H j f Hj; simpl in H.
  - injection H as <-. exists f. split; [exact Hj|]. split; [apply sameShape_refl|auto].
  - destruct (nodeAt l (i - 1)) as [par|] eqn:Ep; [|discriminate].
    destruct (nodeAt l i) as [child|] eqn:Ec; [|discriminate].
    destruct (NodeContext.finish child b) as [[[n|fr] child']|] eqn:Ef; try discriminate.
    set (l1 := putNode (putNode l i child') (i - 1)
                       (setContent par (nc_content par ++ [n]))) in *.
    assert (Hl1 : exists f1, nodeAt l1 j = Some f1 /\ sameShape f f1 /\
                             (j < i - 1 -> f1 = f)).
    { pose proof (nodeAt_Some _ _ _ Ep) as [Hp0 Hpl].
      pose proof (nodeAt_Some _ _ _ Ec) as [Hc0 Hcl].
      destruct (decide (j = i - 1)) as [->|Hn1].
      - exists (setContent par (nc_content par ++ [n])). unfold l1.
        rewrite nodeAt_putNode_eq by (rewrite ?putNode_length; lia).
        split; [reflexivity|]. split; [|lia].
        assert (f = par) as -> by congruence. unfold sameShape. simpl. auto.
      - unfold l1. rewrite nodeAt_putNode_ne by congruence.
        destruct (decide (j = i)) as [->|Hn2].
        + exists child'. rewrite nodeAt_putNode_eq by lia.
          split; [reflexivity|]. split; [|lia].
          assert (f = child) as -> by congruence.
          eapply finish_shape. exact Ef.
        + exists f. rewrite nodeAt_putNode_ne by congruence.
          split; [exact Hj|]. split; [apply sameShape_refl|auto]. }
    destruct Hl1 as (f1 & Hf1 & Hs1 & He1).
    destruct (IH _ _ H j f1 Hf1) as (f' & Hf' & Hs' & He').
    exists f'. split; [exact Hf'|]. split; [eapply sameShape_trans; eassumption|].
    intros Hlt. rewrite He' by lia. apply He1. lia.
Qed.

Lemma closeExtra_shape b pc pc1 :
  closeExtra b pc = Done tt pc1 ->
  forall j f, j <= open pc -> nodeAt (pnodes pc) j = Some f ->
    exists f', nodeAt (pnodes pc1) j = Some f' /\ sameShape f f' /\
               (j < open pc -> f' = f).
Proof.
  unfold closeExtra. intros H j f Hle Hj.
  destruct (Z.of_nat (length (pnodes pc)) - 1 >? open pc) eqn:E.
  - destruct (closeFrom _ _ _ _) as [l|] eqn:Hc; [|discriminate].
    injection H as <-. simpl.
    destruct (closeFrom_shape _ _ _ _ _ Hc j f Hj) as (f' & Hf' & Hs & He).
    exists f'. split; [|split; [exact Hs|]].
    + pose proof (nodeAt_Some _ _ _ Hf') as [H0 Hl].
      unfold nodeAt in *. destruct (j <? 0); [discriminate|].
      rewrite lookup_take_lt by lia. exact Hf'.
    + intros Hlt. apply He.
      assert (Hgt := Zgt_cases (Z.of_nat (length (pnodes pc)) - 1) (open pc)).
      rewrite E in Hgt. lia.
  - injection H as <-. exists f. split; [exact Hj|].
    split; [apply sameShape_refl|auto].
Qed.

Lemma enterInner_inv type attrs solid ws pc pc' :
  enterInner type attrs solid ws pc = Done tt pc' ->
  exists pc1 par,
    closeExtra false pc = Done tt pc1 /\ top pc1 = Some par /\
    pc' = setOpen (setNextId
                     (setNodes pc1
                        (putNode (pnodes pc1) (open pc1)
                                 (fst (enteredFrame pc1 par type attrs solid ws))
                         ++ [snd (enteredFrame pc1 par type attrs solid ws)]))
                     (S (nextId pc1)))
                  (open pc1 + 1).
Proof.
  intros H.
  destruct (closeExtra false pc) as [[] pc1| |] eqn:Hc;
    try (unfold enterInner, bind at 1 in H; rewrite Hc in H; discriminate).
  destruct (top pc1) as [par|] eqn:Ht.
  - rewrite (enterInner_unfold _ _ _ _ _ _ _ Hc Ht) in H.
    exists pc1, par. split; [reflexivity|]. split; [exact Ht|].
    destruct (enteredFrame pc1 par type attrs solid ws). simpl.
    injection H as <-. reflexivity.
  - unfold enterInner, bind at 1 in H. rewrite Hc in H.
    unfold bind at 1, getTop in H. rewrite Ht in H. discriminate.
Qed.

(** The stack after [enterInner]: one more frame, of the given type,
    on top of the frame that was open. *)
Lemma enterInner_frames type attrs solid ws pc pc' :
  enterInner type attrs solid ws pc = Done tt pc' ->
  0 <= open pc /\ open pc' = open pc + 1 /\
  Z.of_nat (length (pnodes pc')) = open pc' + 1 /\
  (exists f, nodeAt (pnodes pc') (open pc') = Some f /\
             nc_type f = Some type /\ nc_solid f = solid /\ nc_attrs f = attrs) /\
  (forall j f, j <= open pc -> nodeAt (pnodes pc) j = Some f ->
     exists f', nodeAt (pnodes pc') j = Some f' /\ sameShape f f' /\
                (j < open pc -> f' = f)).
Proof.
  intros H. apply enterInner_inv in H as (pc1 & par & Hc & Ht & ->).
  pose proof (closeExtra_top_last _ _ _ _ Hc Ht) as Hlen.
  pose proof (closeExtra_frame _ _ _ Hc) as (Ho & _).
  pose proof Ht as Ht'. unfold top in Ht'. apply nodeAt_Some in Ht' as [H0 Hlt].
  cbn [open pnodes setOpen setNextId setNodes].
  split; [lia|]. split; [lia|]. split.
  { rewrite length_app, putNode_length. simpl. lia. }
  split.
  - eexists. split.
    + replace (open pc1 + 1) with
        (Z.of_nat (length (putNode (pnodes pc1) (open pc1)
                     (fst (enteredFrame pc1 par type attrs solid ws)))))
        by (rewrite putNode_length; lia).
      apply nodeAt_app_last.
    + unfold enteredFrame. simpl. auto.
  - intros j f Hle Hj.
    destruct (closeExtra_shape _ _ _ Hc j f Hle Hj) as (f1 & Hf1 & Hs1 & He1).
    pose proof (nodeAt_Some _ _ _ Hf1) as [Hj0 Hjl].
    rewrite nodeAt_app_l by (rewrite putNode_length; exact Hjl).
    destruct (decide (j = open pc1)) as [->|Hne].
    + rewrite nodeAt_putNode_eq by lia.
      eexists. split; [reflexivity|]. split; [|lia].
      assert (f1 = par) as -> by (unfold top in Ht; congruence).
      eapply sameShape_trans; [exact Hs1|].
      unfold enteredFrame, sameShape. cbn [fst nc_id nc_type nc_attrs nc_solid setMatch].
      pose proof (applyPending_frame (schemaNodes pc1) par type) as Hf.
      simpl in Hf. destruct Hf as (A & B & C & _ & D & _). auto.
    + rewrite nodeAt_putNode_ne by congruence.
      exists f1. split; [exact Hf1|]. split; [exact Hs1|].
      intros Hl. apply He1. exact Hl.
Qed.

(** The stack after the wrappers of a route have been entered. *)
Lemma enterAll_frames route pc pc' :
  enterAll route pc = Done tt pc' ->
  open pc' = open pc + Z.of_nat (length route) /\
  ((route = [] /\ pc' = pc) \/
   (route <> [] /\ Z.of_nat (length (pnodes pc')) = open pc' + 1)) /\
  (forall i t, route !! i = Some t ->
     exists f, nodeAt (pnodes pc') (open pc + 1 + Z.of_nat i) = Some f /\
               nc_type f = Some t /\ nc_solid f = false /\ nc_attrs f = None) /\
  (forall j f, j <= open pc -> nodeAt (pnodes pc) j = Some f ->
     exists f', nodeAt (pnodes pc') j = Some f' /\ sameShape f f' /\
                (j < open pc -> f' = f)).
Proof.
  revert pc. induction route as [|t rest IH]; intros pc H; simpl in H.
  - unfold ret in H. injection H as <-. simpl.
    split; [lia|]. split; [left; auto|]. split; [intros i t Hi; discriminate|].
    intros j f _ Hj. exists f. split; [exact Hj|]. split; [apply sameShape_refl|auto].
  - unfold bind in H.
    destruct (enterInner t None false None pc) as [[] pc1| |] eqn:He; try discriminate.
    apply enterInner_frames in He
      as (H0 & Ho & Hlen & (f0 & Hf0 & Ht0 & Hs0 & Ha0) & Hkeep).
    apply IH in H as (Ho' & Hlen' & Hnew & Hkeep').
    split; [simpl; lia|]. split.
    { right. split; [discriminate|].
      destruct Hlen' as [[_ ->]|[_ Hl]]; [exact Hlen|exact Hl]. }
    split.
    + intros i t' Hi. destruct i as [|i]; simpl in Hi.
      * injection Hi as <-.
        destruct (Hkeep' (open pc1) f0 ltac:(lia) Hf0)
          as (f' & Hf' & (_ & Hty & Hat & Hso) & _).
        exists f'. replace (open pc + 1 + Z.of_nat 0) with (open pc1) by lia.
        split; [exact Hf'|]. repeat split; congruence.
      * destruct (Hnew i t' Hi) as (f & Hf & Hp).
        exists f. split; [|exact Hp].
        replace (open pc + 1 + Z.of_nat (S i)) with (open pc1 + 1 + Z.of_nat i) by lia.
        exact Hf.
    + intros j f Hle Hj.
      destruct (Hkeep j f Hle Hj) as (f1 & Hf1 & Hs1 & He1).
      destruct (Hkeep' j f1 ltac:(lia) Hf1) as (f' & Hf' & Hs' & He').
      exists f'. split; [exact Hf'|]. split; [eapply sameShape_trans; eassumption|].
      intros Hlt. rewrite He' by lia. apply He1. exact Hlt.
Qed.

Lemma scanRange_contiguous cnt depth l d cx j :
  In (d, cx) (scanRange cnt depth l) -> d <= j <= depth ->
  exists c, In (j, c) (scanRange cnt depth l).
Proof.
  revert depth. induction cnt as [|k IH]; intros depth H Hj; simpl in *; [contradiction|].
  destruct (nodeAt l depth) as [c0|] eqn:E; [|contradiction].
  destruct (decide (j = depth)) as [->|Hne].
  - exists c0. left. reflexivity.
  - destruct H as [H|H].
    + injection H as <- <-. lia.
    + destruct (nc_solid c0); [contradiction|].
      destruct (IH _ H ltac:(lia)) as (c & Hc). exists c. right. exact Hc.
Qed.

(** When no frame in reach offers a route, the loop runs to its end. *)
Lemma findPlaceFrom_none cnt depth node pc :
  (forall d cx, In (d, cx) (scanRange cnt depth (pnodes pc)) ->
     exists cx', NodeContext.findWrapping cx node = Some (None, cx')) ->
  (forall j, depth - Z.of_nat cnt < j <= depth ->
     exists cx, nodeAt (pnodes pc) j = Some cx) ->
  exists pc', findPlaceFrom cnt depth node None pc = Done None pc'.
Proof.
  revert depth pc. induction cnt as [|k IH]; intros depth pc Hnone Hex; simpl.
  - eexists. reflexivity.
  - destruct (Hex depth ltac:(lia)) as (cx & Ecx).
    unfold bind at 1, get. unfold bind at 1, defined. rewrite Ecx.
    unfold ret at 1. unfold bind at 1, defined.
    simpl in Hnone. rewrite Ecx in Hnone.
    destruct (Hnone depth cx ltac:(left; reflexivity)) as (cx' & Efw).
    rewrite Efw. unfold ret at 1. unfold bind at 1, modify. simpl.
    destruct (nc_solid cx) eqn:Es; [eexists; reflexivity|].
    apply IH.
    + intros d c Hin. simpl in Hin. rewrite scanRange_putNode in Hin by lia.
      apply (Hnone d c). right. exact Hin.
    + intros j Hj. simpl. rewrite nodeAt_putNode_ne by lia. apply Hex. lia.
Qed.

(** C5.  [findPlace] looks at the frames from the innermost open
    frame outward, up to and including the first solid frame
    ([scanned]), and takes from each the route of [findWrapping].  It
    returns [false] exactly when none of these frames offers a route;
    otherwise it picks the shortest route, from the innermost frame
    among those that offer one of that length, makes that frame the
    open one and pushes on top of it one new non-solid frame for each
    wrapper type of the route, in order.  Frames that lie outside the
    scanned range are left as they were.  When no scanned frame offers
    a route (and none throws), the call returns, with [false]. *)
Theorem findPlace_search pc node :
  WellFormed pc ->
  (forall b pc',
      findPlace node pc = Done b pc' ->
      (b = false <->
       forall d cx, In (d, cx) (scanned pc) -> routeOf cx node = None) /\
      (b = false ->
       open pc' = open pc /\ sameButMatch (pnodes pc) (pnodes pc')) /\
      (b = true ->
       exists d cx r,
         In (d, cx) (scanned pc) /\ routeOf cx node = Some r /\
         (forall d' cx' r',
             In (d', cx') (scanned pc) -> routeOf cx' node = Some r' ->
             (length r <= length r')%nat /\
             (d < d' -> (length r < length r')%nat)) /\
         open pc' = d + Z.of_nat (length r) /\
         (exists f, nodeAt (pnodes pc') d = Some f /\ sameShape cx f) /\
         (forall i t, r !! i = Some t ->
             exists f, nodeAt (pnodes pc') (d + 1 + Z.of_nat i) = Some f /\
                       nc_type f = Some t /\ nc_solid f = false /\
                       nc_attrs f = None)) /\
      (forall i, i <= open pc -> (forall c, ~ In (i, c) (scanned pc)) ->
                 nodeAt (pnodes pc') i = nodeAt (pnodes pc) i)) /\
  ((forall d cx, In (d, cx) (scanned pc) ->
       exists cx', NodeContext.findWrapping cx node = Some (None, cx')) ->
   exists pc', findPlace node pc = Done false pc').
Proof.
  intros Hwf. pose proof Hwf as [Hopen Hnd]. split.
  - intros b pc' H. unfold findPlace, bind at 1, get in H. unfold bind at 1 in H.
    destruct (findPlaceFrom _ _ _ _ _) as [route pc1| |] eqn:Hloop; try discriminate.
    assert (Hstart : bestAmong [] node None) by (intros ? ? []).
    destruct (findPlaceFrom_best _ _ _ _ _ [] _ _
                Hstart ltac:(intros ? ? []) Hloop)
      as (Hbest & Hsame & Hpc1 & Hkeep).
    simpl in Hbest. fold (scanned pc) in Hbest, Hkeep.
    destruct route as [[r to]|].
    + (* a route was found *)
      destruct Hbest as (d & cx & Hin & -> & Hr & Hmin).
      pose proof Hin as Hin'. apply scanRange_In in Hin' as [Hd Hrange].
      rewrite Hpc1 in H.
      unfold bind at 1 in H.
      rewrite (sync_finds pc (pnodes pc1) d cx Hwf Hsame Hd ltac:(lia)) in H.
      unfold bind at 1 in H.
      destruct (enterAll r _) as [[] pc2| |] eqn:He; try discriminate.
      unfold ret in H. injection H as <- <-.
      apply enterAll_frames in He as (Ho & _ & Hnew & Hold).
      cbn [open pnodes setOpen setNodes] in Ho, Hnew, Hold.
      split.
      { split; [discriminate|]. intros Hall. rewrite (Hall _ _ Hin) in Hr. discriminate. }
      split; [discriminate|]. split.
      * intros _. exists d, cx, r.
        split; [exact Hin|]. split; [exact Hr|]. split; [exact Hmin|].
        split; [exact Ho|]. split; [|exact Hnew].
        destruct (sameButMatch_nodeAt _ _ _ _ Hsame Hd) as (cx1 & Hcx1 & Ecx1).
        destruct (Hold d cx1 ltac:(lia) Hcx1) as (f & Hf & Hs & _).
        exists f. split; [exact Hf|].
        eapply sameShape_trans; [|exact Hs].
        rewrite Ecx1. unfold sameShape. simpl. auto.
      * intros i Hi Hout.
        assert (Hlt : i < d).
        { destruct (Z_lt_le_dec i d) as [?|Hge]; [assumption|exfalso].
          destruct (scanRange_contiguous _ _ _ _ _ i Hin ltac:(lia)) as (c & Hc).
          apply (Hout c Hc). }
        rewrite <- (Hkeep i Hout).
        destruct (nodeAt (pnodes pc1) i) as [g|] eqn:Eg.
        -- destruct (Hold i g ltac:(lia) Eg) as (g' & Hg' & _ & Heq).
           rewrite Hg', Heq by exact Hlt. reflexivity.
        -- apply (f_equal (fun p => nodeAt (pnodes p) i)) in Hpc1. simpl in Hpc1.
           destruct (nodeAt (pnodes pc2) i) as [g|] eqn:Eg2; [|reflexivity].
           exfalso.
           pose proof (nodeAt_Some _ _ _ Eg2) as [Hi0 _].
           assert (Hlen : (Z.to_nat i < length (pnodes pc1))%nat).
           { rewrite (sameButMatch_length _ _ Hsame). lia. }
           unfold nodeAt in Eg. destruct (i <? 0) eqn:E0; [apply Z.ltb_lt in E0; lia|].
           apply lookup_ge_None in Eg. lia.
    + (* no route *)
      unfold ret in H. injection H as <- <-.
      split; [split; [intros _; exact Hbest|reflexivity]|].
      split.
      { intros _. rewrite Hpc1. simpl. split; [reflexivity|exact Hsame]. }
      split; [discriminate|].
      intros i _ Hout. apply Hkeep. exact Hout.
  - intros Hnone. unfold findPlace, bind at 1, get. unfold bind at 1.
    destruct (findPlaceFrom_none (Z.to_nat (open pc + 1)) (open pc) node pc)
      as (pc1 & Hloop).
    + exact Hnone.
    + intros j Hj.
      destruct (pnodes pc !! Z.to_nat j) as [cx|] eqn:E.
      * exists cx. unfold nodeAt.
        destruct (j <? 0) eqn:E0; [apply Z.ltb_lt in E0; lia|exact E].
      * apply lookup_ge_None in E. lia.
    + rewrite Hloop. eexists. reflexivity.
Qed.

End FindPlace.

(* ===================================================================== *)
(** ** Text nodes of whitespace *)
(* ===================================================================== *)

Section BlankText.
Context `{SA : SchemaAPI} `{DA : DomAPI}.

Lemma updateEntries_nohit hit value l pc :
  (forall e, In e l -> hit (doc pc) e = false) ->
  updateEntries hit value l pc = Done l pc.
Proof.
  induction l as [|e l IH]; intros Hno; simpl; [reflexivity|].
  unfold bind at 1, get. rewrite (Hno e) by (left; reflexivity).
  unfold bind at 1, ret at 1. unfold bind at 1.
  rewrite IH by (intros e' He'; apply Hno; right; exact He').
  reflexivity.
Qed.

Lemma setFind_same pc : setFind pc (find pc) = pc.
Proof. destruct pc; reflexivity. Qed.

Lemma withFind_nohit hit value pc :
  (forall e, hit (doc pc) e = false) -> withFind hit value pc = Done tt pc.
Proof.
  intros Hno. unfold withFind, bind at 1, get.
  destruct (find pc) as [l|] eqn:E; [|reflexivity].
  unfold bind. rewrite updateEntries_nohit by (intros; apply Hno).
  unfold modify. rewrite <- E, setFind_same. reflexivity.
Qed.

(** [findInside] does nothing for a node that is not an element. *)
Lemma findInside_not_element parent pc :
  nodeType (doc pc) parent <> 1 -> findInside parent pc = Done tt pc.
Proof.
  intros Hne. apply withFind_nohit. intros e.
  apply Z.eqb_neq in Hne. rewrite Hne, andb_false_r. reflexivity.
Qed.

(** C6.  A text node of whitespace only, met while the innermost
    frame neither preserves whitespace fully nor is an inline context,
    is discarded: [addTextNode] returns with the whole state as it
    was, so no text node is added to any frame.  The position list is
    part of that state: the call [findInside] that the method makes
    for the text node writes nothing, because [findInside] handles
    elements only, and an entry that lies inside the text node and has
    no position yet has none afterwards. *)
Theorem blank_text_discarded dom pc value t :
  nodeType (doc pc) dom = 3 ->
  nodeValue (doc pc) dom = Some value ->
  JS.hasNonSpace value = false ->
  top pc = Some t ->
  hasOpt (nc_options t) OPT_PRESERVE_WS_FULL = false ->
  NodeContext.inlineContext t (doc pc) dom = false ->
  addTextNode dom pc = Done tt pc /\
  forall pc' l e,
    addTextNode dom pc = Done tt pc' -> find pc = Some l -> In e l ->
    fnode e = dom -> fpos e = None ->
    pnodes pc' = pnodes pc /\ find pc' = Some l.
Proof.
  intros Hty Hval Hblank Htop Hfull Hinline.
  assert (Hrun : addTextNode dom pc = Done tt pc);
    [|split; [exact Hrun|];
      intros pc' l e Hrun' Hl _ _ _; rewrite Hrun in Hrun';
      injection Hrun' as <-; auto].
  unfold addTextNode, bind at 1, get. unfold bind at 1, defined. rewrite Hval.
  unfold ret at 1. unfold bind at 1, getTop. rewrite Htop. simpl defined.
  unfold ret at 1. rewrite Hfull, Hinline, Hblank. simpl.
  apply findInside_not_element. rewrite Hty. discriminate.
Qed.

End BlankText.

(* ===================================================================== *)
(** ** What a placement search adds to the frames *)
(* ===================================================================== *)

Section Content.
Context `{SA : SchemaAPI} `{DA : DomAPI}.

Lemma finish_created child b n child' :
  NodeContext.finish child b = Some (inl n, child') -> created n.
Proof.
  unfold NodeContext.finish. intros H.
  match type of H with
  | match ?x with _ => _ end = _ => destruct x; [|discriminate]
  end.
  destruct (nc_type child); [|discriminate].
  injection H as <- _. unfold created. eauto.
Qed.

Lemma closeFrom_content cnt i b l l' :
  closeFrom cnt i b l = Some l' ->
  forall j f' n,
    j <= i - Z.of_nat cnt -> nodeAt l' j = Some f' -> In n (nc_content f') ->
    created n \/ exists f, nodeAt l j = Some f /\ In n (nc_content f).
Proof.
  revert i l. induction cnt as [|k IH]; intros i l H j f' n Hj Hf' Hn; simpl in H.
  - injection H as <-. right. eauto.
  - destruct (nodeAt l (i - 1)) as [par|] eqn:Ep; [|discriminate].
    destruct (nodeAt l i) as [child|] eqn:Ec; [|discriminate].
    destruct (NodeContext.finish child b) as [[[m|fr] child']|] eqn:Ef; try discriminate.
    destruct (IH _ _ H j f' n ltac:(lia) Hf' Hn) as [Hc|(f1 & Hf1 & Hn1)]; [left; exact Hc|].
    pose proof (nodeAt_Some _ _ _ Ep) as [Hp0 Hpl].
    destruct (decide (j = i - 1)) as [->|Hne].
    + rewrite nodeAt_putNode_eq in Hf1 by (rewrite ?putNode_length; lia).
      injection Hf1 as <-. simpl in Hn1. apply in_app_iff in Hn1 as [Hn1|[<-|[]]].
      * right. eauto.
      * left. eapply finish_created. exact Ef.
    + rewrite nodeAt_putNode_ne in Hf1 by congruence.
      rewrite nodeAt_putNode_ne in Hf1 by lia.
      right. eauto.
Qed.

Lemma closeExtra_content b pc pc1 :
  closeExtra b pc = Done tt pc1 -> contentFrom pc pc1.
Proof.
  unfold closeExtra, contentFrom. intros H j f' n Hj Hf' Hn.
  destruct (Z.of_nat (length (pnodes pc)) - 1 >? open pc) eqn:E.
  - destruct (closeFrom _ _ _ _) as [l|] eqn:Hc; [|discriminate].
    injection H as <-. simpl in *.
    assert (Hgt := Zgt_cases (Z.of_nat (length (pnodes pc)) - 1) (open pc)).
    rewrite E in Hgt.
    pose proof (nodeAt_Some _ _ _ Hf') as [Hj0 Hjl].
    rewrite length_take in Hjl.
    assert (Hl : nodeAt l j = Some f').
    { unfold nodeAt in *. destruct (j <? 0); [discriminate|].
      rewrite lookup_take_lt in Hf' by lia. exact Hf'. }
    eapply (closeFrom_content _ _ _ _ _ Hc j f' n); [lia|exact Hl|exact Hn].
  - injection H as <-. right. eauto.
Qed.

Lemma applyPending_content ns cx t :
  nc_content (NodeContext.applyPending ns cx t) = nc_content cx.
Proof. apply (applyPending_frame ns cx t). Qed.

Lemma enterInner_content type attrs solid ws pc pc' :
  enterInner type attrs solid ws pc = Done tt pc' -> contentFrom pc pc'.
Proof.
  intros H. apply enterInner_inv in H as (pc1 & par & Hc & Ht & ->).
  pose proof (closeExtra_top_last _ _ _ _ Hc Ht) as Hlen.
  pose proof (closeExtra_content _ _ _ Hc) as Hcont.
  pose proof Ht as Ht'. unfold top in Ht'. apply nodeAt_Some in Ht' as [H0 Hlt].
  unfold contentFrom. cbn [open pnodes setOpen setNextId setNodes].
  intros j f' n Hj Hf' Hn.
  destruct (decide (j = open pc1 + 1)) as [->|Hne].
  - replace (open pc1 + 1) with
      (Z.of_nat (length (putNode (pnodes pc1) (open pc1)
                   (fst (enteredFrame pc1 par type attrs solid ws))))) in Hf'
      by (rewrite putNode_length; lia).
    rewrite nodeAt_app_last in Hf'. injection Hf' as <-.
    unfold enteredFrame in Hn. simpl in Hn. contradiction.
  - pose proof (nodeAt_Some _ _ _ Hf') as [Hj0 _].
    rewrite nodeAt_app_l in Hf' by (rewrite putNode_length; lia).
    destruct (decide (j = open pc1)) as [->|Hne'].
    + rewrite nodeAt_putNode_eq in Hf' by lia. injection Hf' as <-.
      unfold enteredFrame in Hn. cbn [fst nc_content setMatch] in Hn.
      rewrite applyPending_content in Hn.
      apply (Hcont (open pc1) par n); [lia|exact Ht|exact Hn].
    + rewrite nodeAt_putNode_ne in Hf' by congruence.
      apply (Hcont j f' n); [lia|exact Hf'|exact Hn].
Qed.

Lemma enterAll_content route pc pc' :
  enterAll route pc = Done tt pc' -> contentFrom pc pc'.
Proof.
  revert pc. induction route as [|t rest IH]; intros pc H; simpl in H.
  - unfold ret in H. injection H as <-. intros j f' n _ Hf' Hn. right. eauto.
  - unfold bind in H.
    destruct (enterInner t None false None pc) as [[] pc1| |] eqn:He; try discriminate.
    pose proof (enterInner_content _ _ _ _ _ _ He) as H1.
    pose proof (enterInner_frames _ _ _ _ _ _ He) as (_ & _ & Hlen & _).
    pose proof (IH _ H) as H2.
    intros j f' n Hj Hf' Hn.
    destruct (H2 j f' n Hj Hf' Hn) as [Hc|(f1 & Hf1 & Hn1)]; [left; exact Hc|].
    pose proof (nodeAt_Some _ _ _ Hf1) as [Hj0 Hjl].
    apply (H1 j f1 n); [lia|exact Hf1|exact Hn1].
Qed.

(** A placement search puts nothing into the frames but the nodes of
    the frames it closes; in particular not the node it is called
    with. *)
Lemma findPlace_content node pc b pc' :
  WellFormed pc -> findPlace node pc = Done b pc' -> contentFrom pc pc'.
Proof.
  intros Hwf H. unfold findPlace, bind at 1, get in H. unfold bind at 1 in H.
  destruct (findPlaceFrom _ _ _ _ _) as [route pc1| |] eqn:Hloop; try discriminate.
  assert (Hstart : bestAmong [] node None) by (intros ? ? []).
  destruct (findPlaceFrom_best _ _ _ _ _ [] _ _
              Hstart ltac:(intros ? ? []) Hloop)
    as (Hbest & Hsame & Hpc1 & _).
  assert (Hscan : forall j f' n,
             nodeAt (pnodes pc1) j = Some f' -> In n (nc_content f') ->
             exists f, nodeAt (pnodes pc) j = Some f /\ In n (nc_content f)).
  { intros j f' n Hf' Hn.
    destruct (nodeAt (pnodes pc) j) as [f|] eqn:Ef.
    - destruct (sameButMatch_nodeAt _ _ _ _ Hsame Ef) as (f1 & Hf1 & E1).
      assert (f1 = f') as -> by congruence.
      exists f. split; [reflexivity|]. rewrite E1 in Hn. exact Hn.
    - exfalso. pose proof (nodeAt_Some _ _ _ Hf') as [Hj0 Hjl].
      rewrite (sameButMatch_length _ _ Hsame) in Hjl.
      unfold nodeAt in Ef. destruct (j <? 0) eqn:E0; [apply Z.ltb_lt in E0; lia|].
      apply lookup_ge_None in Ef. lia. }
  destruct route as [[r to]|].
  - destruct Hbest as (d & cx & Hin & -> & Hr & Hmin).
    simpl in Hin. apply scanRange_In in Hin as [Hd Hrange].
    rewrite Hpc1 in H. unfold bind at 1 in H.
    rewrite (sync_finds pc (pnodes pc1) d cx Hwf Hsame Hd ltac:(lia)) in H.
    unfold bind at 1 in H.
    destruct (enterAll r _) as [[] pc2| |] eqn:He; try discriminate.
    unfold ret in H. injection H as _ <-.
    apply enterAll_content in He.
    intros j f' n Hj Hf' Hn.
    destruct (He j f' n Hj Hf' Hn) as [Hc|(f1 & Hf1 & Hn1)]; [left; exact Hc|].
    right. apply (Hscan j f1 n); assumption.
  - unfold ret in H. injection H as _ <-.
    intros j f' n _ Hf' Hn. right. apply (Hscan j f' n); assumption.
Qed.

End Content.

(* ===================================================================== *)
(** ** Ignored line breaks *)
(* ===================================================================== *)

Section IgnoredBreak.
Context `{SA : SchemaAPI} `{DA : DomAPI}.

Lemma currentPos_doc pc p pc' : currentPos pc = Done p pc' -> doc pc' = doc pc.
Proof.
  unfold currentPos, bind at 1. intros H.
  destruct (closeExtra false pc) as [[] pc1| |] eqn:Hc; try discriminate.
  unfold bind, get, defined in H.
  destruct (posFrom _ _ _ _); [|discriminate].
  unfold ret in H. injection H as _ <-.
  apply (closeExtra_frame _ _ _ Hc).
Qed.

Lemma updateEntries_doc hit value l pc l' pc' :
  (forall e pc p pc1, value e pc = Done p pc1 -> doc pc1 = doc pc) ->
  updateEntries hit value l pc = Done l' pc' -> doc pc' = doc pc.
Proof.
  intros Hv. revert pc l'. induction l as [|e l IH]; intros pc l' H; simpl in H.
  - unfold ret in H. injection H as _ <-. reflexivity.
  - unfold bind at 1, get in H. unfold bind at 1 in H.
    match type of H with
    | match ?m pc with _ => _ end = _ =>
        destruct (m pc) as [e1 pc1| |] eqn:He; try discriminate
    end.
    assert (Hd1 : doc pc1 = doc pc).
    { destruct (hit (doc pc) e).
      - unfold bind in He. destruct (value e pc) as [p pc2| |] eqn:Hp; try discriminate.
        unfold ret in He. injection He as _ <-. eapply Hv. exact Hp.
      - unfold ret in He. injection He as _ <-. reflexivity. }
    unfold bind at 1 in H.
    destruct (updateEntries hit value l pc1) as [l1 pc2| |] eqn:Hu; try discriminate.
    unfold ret in H. injection H as _ <-.
    rewrite (IH _ _ Hu). exact Hd1.
Qed.

Lemma withFind_doc hit value pc pc' :
  (forall e pc p pc1, value e pc = Done p pc1 -> doc pc1 = doc pc) ->
  withFind hit value pc = Done tt pc' -> doc pc' = doc pc.
Proof.
  intros Hv. unfold withFind, bind at 1, get.
  destruct (find pc) as [l|]; [|unfold ret; congruence].
  unfold bind. destruct (updateEntries hit value l pc) as [l1 pc1| |] eqn:Hu;
    try discriminate.
  unfold modify. intros H. injection H as <-. simpl.
  eapply updateEntries_doc; eassumption.
Qed.

Lemma findInside_doc parent pc pc' :
  findInside parent pc = Done tt pc' -> doc pc' = doc pc.
Proof.
  apply withFind_doc. intros e pc0 p pc1. apply currentPos_doc.
Qed.

Lemma resolvesTo_doc pc dom after rule pc1 :
  resolvesTo pc dom after rule pc1 -> doc pc1 = doc pc /\ options pc1 = options pc.
Proof.
  intros [(f & _ & _ & ->)|(_ & i & Hm & _)]; [auto|].
  destruct (scanOutcome_rules _ _ _ _ (matchTag_outcome _ _ _ _ _ Hm))
    as ((_ & _ & _ & _ & Hd & Ho & _) & _).
  auto.
Qed.

End IgnoredBreak.

Section IgnoredBreakTheorem.
Context `{SA : SchemaAPI} `{DA : DomAPI}.

Lemma ignoreFallback_probe dom pc t :
  nodeName (doc pc) dom = "BR" ->
  top pc = Some t ->
  match nc_type t with
  | Some ty => nt_inlineContent ty = false
  | None => True
  end ->
  ignoreFallback dom pc = (findPlace (schemaText pc "-") ;;; ret tt) pc.
Proof.
  intros Hname Htop Hinl.
  unfold ignoreFallback, bind at 1, get. rewrite Hname.
  replace ("BR" =? "BR")%string with true by reflexivity.
  unfold bind at 1, getTop. rewrite Htop. simpl defined. unfold ret at 1.
  destruct (nc_type t) as [ty|]; [rewrite Hinl|]; reflexivity.
Qed.

(** C9 (amended).  For a BR element that is ignored (its rule, from
    [ruleFromNode] or [matchTag], has [ignore]) while the current
    frame has no type or a type without inline content, [addElement]
    records the positions inside the element and then only searches a
    place for a text node ["-"] with [findPlace]: the wrapper frames
    that this search opens establish the inline context, but the text
    node itself is not inserted -- every node that a frame holds
    afterwards was held by it before or was made by closing a
    frame. *)
Theorem ignored_br_probes_only W dom after pc rule pc1 pc2 t :
  nodeName (doc pc) dom = "BR" ->
  resolvesTo pc dom after rule pc1 ->
  ignore rule = true ->
  findInside dom pc1 = Done tt pc2 ->
  top pc2 = Some t ->
  match nc_type t with
  | Some ty => nt_inlineContent ty = false
  | None => True
  end ->
  WellFormed pc2 ->
  addElement W dom after pc = (findPlace (schemaText pc2 "-") ;;; ret tt) pc2 /\
  forall pc', addElement W dom after pc = Done tt pc' -> contentFrom pc2 pc'.
Proof.
  intros Hname Hres Hign Hfind Htop Hinl Hwf.
  pose proof (resolvesTo_doc _ _ _ _ _ Hres) as [Hd1 Ho1].
  pose proof (findInside_doc _ _ _ Hfind) as Hd2.
  assert (Hprobe : (findInside dom ;;; ignoreFallback dom) pc1
                   = (findPlace (schemaText pc2 "-") ;;; ret tt) pc2).
  { unfold bind at 1. rewrite Hfind.
    apply (ignoreFallback_probe dom pc2 t); [|exact Htop|exact Hinl].
    rewrite Hd2, Hd1. exact Hname. }
  assert (Heq : addElement W dom after pc
                = (findPlace (schemaText pc2 "-") ;;; ret tt) pc2).
  { rewrite <- Hprobe.
    unfold addElement, bind at 1, get. rewrite Hname.
    replace (JS.mem (JS.toLowerCase "BR") listTags) with false by reflexivity.
    cbn [andb]. unfold bind at 1, ret at 1. unfold bind at 1, get.
    destruct Hres as [(f & Hf & Hfr & ->)|(Hnone & i & Hm & Hr)].
    - rewrite Hf, Hfr. unfold bind at 1, ret at 1.
      unfold bind at 1. unfold bind at 1. simpl. unfold ret at 1.
      rewrite Hign. reflexivity.
    - assert (Hno : match o_ruleFromNode (options pc) with
                    | Some f => f (doc pc) dom
                    | None => None
                    end = None).
      { destruct (o_ruleFromNode (options pc)); [exact Hnone|reflexivity]. }
      rewrite Hno. unfold bind at 1. unfold bind at 1. rewrite Hm.
      unfold ret at 1. simpl option_map. cbv iota beta.
      unfold bind at 1. unfold bind at 1. unfold bind at 1.
      simpl deref. rewrite Hr. simpl defined. unfold ret at 1. unfold ret at 1.
      rewrite Hign. reflexivity. }
  split; [exact Heq|].
  intros pc' H. rewrite Heq in H. unfold bind in H.
  destruct (findPlace (schemaText pc2 "-") pc2) as [b pc3| |] eqn:Hp; try discriminate.
  unfold ret in H. injection H as <-.
  eapply findPlace_content; eassumption.
Qed.

End IgnoredBreakTheorem.

(* ===================================================================== *)
(** ** Styles with an ignore rule *)
(* ===================================================================== *)

Section StyleIgnore.
Context `{SA : SchemaAPI} `{DA : DomAPI}.

(** Induction over a list two elements at a time. *)
Lemma pairs_ind {A} (P : list A -> Prop) :
  P [] -> (forall x, P [x]) -> (forall x y l, P l -> P (x :: y :: l)) ->
  forall l, P l.
Proof.
  intros H0 H1 H2 l.
  assert (H : P l /\ forall x, P (x :: l)); [|apply H].
  induction l as [|a l [IH1 IH2]]; split; auto.
Qed.

Lemma sameButAttrs_refl pc : sameButAttrs pc pc.
Proof.
  unfold sameButAttrs. repeat split; try reflexivity.
  intros j rule Hj. exists (attrs rule). rewrite setAttrs_same. exact Hj.
Qed.

Lemma sameButAttrs_trans pc1 pc2 pc3 :
  sameButAttrs pc1 pc2 -> sameButAttrs pc2 pc3 -> sameButAttrs pc1 pc3.
Proof.
  unfold sameButAttrs.
  intros (A1 & A2 & A3 & A4 & A5 & A6 & A7 & A8 & A9 & A10 & A11 & A12 & A13)
         (B1 & B2 & B3 & B4 & B5 & B6 & B7 & B8 & B9 & B10 & B11 & B12 & B13).
  repeat split; try congruence.
  intros j rule Hj. destruct (A13 j rule Hj) as (a & Ha).
  destruct (B13 j _ Ha) as (a' & Ha'). exists a'. exact Ha'.
Qed.

Lemma scanOutcome_sameButAttrs pc arg r pc' :
  scanOutcome pc arg r pc' -> sameButAttrs pc pc'.
Proof.
  intros H. apply scanOutcome_rules in H
    as ((A1 & A2 & A3 & A4 & A5 & A6 & A7 & A8) & (B1 & B2 & B3 & B4) & C & _).
  unfold sameButAttrs. repeat split; assumption.
Qed.

Lemma matchStyle_sameButAttrs prop value after pc r pc' :
  matchStyle prop value after pc = Done r pc' -> sameButAttrs pc pc'.
Proof.
  intros H. apply (scanOutcome_sameButAttrs pc (GAString value) r).
  revert H. unfold matchStyle, bind, get. apply matchStyleFrom_outcome.
Qed.

Lemma readStyleLoop_sameButAttrs n prop value after acc pc r pc' :
  readStyleLoop n prop value after acc pc = Done r pc' -> sameButAttrs pc pc'.
Proof.
  revert after acc pc. induction n as [|k IH]; intros after acc pc H; simpl in H;
    [discriminate|].
  unfold bind at 1 in H.
  destruct (matchStyle prop value after pc) as [m pc1| |] eqn:Hm; try discriminate.
  apply matchStyle_sameButAttrs in Hm.
  destruct m as [i|]; [|unfold ret in H; injection H as _ <-; exact Hm].
  unfold bind at 1, get in H. unfold bind at 1, defined in H.
  destruct (ruleAt pc1 i) as [rule|]; [|discriminate].
  unfold ret at 1 in H.
  destruct (ignore rule); [unfold ret in H; injection H as _ <-; exact Hm|].
  unfold bind at 1 in H.
  match type of H with
  | match ?m pc1 with _ => _ end = _ =>
      destruct (m pc1) as [acc' pc2| |] eqn:Hacc; try discriminate
  end.
  assert (pc2 = pc1) as ->.
  { destruct (clearMark rule).
    - unfold bind, getTop, defined in Hacc.
      destruct (top pc1); [|discriminate].
      unfold ret in Hacc. congruence.
    - unfold bind, defined in Hacc.
      destruct (lookupName _ _); [|discriminate].
      unfold ret in Hacc. congruence. }
  destruct (bool_decide (consuming rule = Some false)).
  - eapply sameButAttrs_trans; [exact Hm|]. eapply IH. exact H.
  - unfold ret in H. injection H as _ <-. exact Hm.
Qed.

Lemma readStylesFrom_sameButAttrs n styles acc pc r pc' :
  readStylesFrom n styles acc pc = Done r pc' -> sameButAttrs pc pc'.
Proof.
  revert acc pc.
  induction styles as [|prop|prop value rest IH] using pairs_ind;
    intros acc pc H; simpl in H.
  - unfold ret in H. injection H as _ <-. apply sameButAttrs_refl.
  - discriminate.
  - unfold bind at 1 in H.
    destruct (readStyleLoop n prop value None acc pc) as [r1 pc1| |] eqn:Hl;
      try discriminate.
    apply readStyleLoop_sameButAttrs in Hl.
    destruct r1 as [acc'|].
    + eapply sameButAttrs_trans; [exact Hl|].
      eapply IH. exact H.
    + unfold ret in H. injection H as _ <-. exact Hl.
Qed.

(** Reading the declarations in front of a pair, then the rest. *)
Lemma readStylesFrom_app n pre rest acc pc acc' pcA :
  readStylesFrom n pre acc pc = Done (Some acc') pcA ->
  readStylesFrom n (pre ++ rest) acc pc = readStylesFrom n rest acc' pcA.
Proof.
  revert acc pc.
  induction pre as [|prop|prop value pre' IH] using pairs_ind;
    intros acc pc H; simpl in H.
  - unfold ret in H. injection H as <- <-. reflexivity.
  - discriminate.
  - simpl. unfold bind at 1 in H. unfold bind at 1.
    destruct (readStyleLoop n prop value None acc pc) as [r1 pc1| |] eqn:Hl;
      try discriminate.
    destruct r1 as [acc1|]; [|unfold ret in H; discriminate].
    apply IH. exact H.
Qed.

Lemma readStyleLoop_reaches prop value k after pc pc' :
  reachesIgnore prop value k after pc pc' ->
  forall n acc, (k <= n)%nat ->
    readStyleLoop n prop value after acc pc = Done None pc'.
Proof.
  induction 1 as [after pc i pc' rule Hm Hr Hi
                 |k after pc i pc1 rule pc' Hm Hr Hi Hc Hread _ IH];
    intros n acc Hn; (destruct n as [|n]; [lia|]); cbn [readStyleLoop].
  - unfold bind at 1. rewrite Hm.
    unfold bind at 1, get. unfold bind at 1, defined. rewrite Hr.
    unfold ret at 1. rewrite Hi. reflexivity.
  - unfold bind at 1. rewrite Hm.
    unfold bind at 1, get. unfold bind at 1, defined. rewrite Hr.
    unfold ret at 1. rewrite Hi.
    unfold marksReadable in Hread. unfold bind at 1.
    destruct (clearMark rule) as [clear|].
    + destruct Hread as [t Ht]. unfold bind at 1, getTop. rewrite Ht.
      cbn [defined]. unfold ret at 1 2.
      rewrite Hc, bool_decide_eq_true_2 by reflexivity.
      apply IH. lia.
    + destruct Hread as [mt Hmt]. unfold bind at 1, defined. rewrite Hmt.
      unfold ret at 1 2.
      rewrite Hc, bool_decide_eq_true_2 by reflexivity.
      apply IH. lia.
Qed.

Lemma readStyleLoop_null prop value : forall n after acc pc pc',
  readStyleLoop n prop value after acc pc = Done None pc' ->
  exists k, (k <= n)%nat /\ reachesIgnore prop value k after pc pc'.
Proof.
  induction n as [|n IH]; intros after acc pc pc' H; cbn [readStyleLoop] in H;
    [discriminate|].
  unfold bind at 1 in H.
  destruct (matchStyle prop value after pc) as [r pc1| |] eqn:Hm; try discriminate.
  destruct r as [i|]; [|discriminate].
  unfold bind at 1, get in H. unfold bind at 1, defined in H.
  destruct (ruleAt pc1 i) as [rule|] eqn:Hr; [|discriminate].
  unfold ret at 1 in H.
  destruct (ignore rule) eqn:Hi.
  - injection H as <-. exists 1%nat. split; [lia|].
    eapply reaches_here; eassumption.
  - unfold bind at 1 in H.
    assert (Hstep : marksReadable pc1 rule /\
              exists acc', (if bool_decide (consuming rule = Some false)
                            then readStyleLoop n prop value (Some i) acc'
                            else ret (Some acc')) pc1 = Done None pc').
    { unfold marksReadable. destruct (clearMark rule) as [clear|].
      - unfold bind at 1, getTop in H.
        destruct (top pc1) as [t|]; [|discriminate].
        cbn [defined] in H. unfold ret at 1 2 in H. eauto.
      - unfold bind at 1, defined in H.
        destruct (lookupName _ _) as [mt|]; [|discriminate].
        unfold ret at 1 2 in H. eauto. }
    destruct Hstep as (Hread & acc' & H').
    destruct (bool_decide (consuming rule = Some false)) eqn:Hc;
      [|discriminate].
    apply bool_decide_eq_true in Hc.
    destruct (IH _ _ _ _ H') as (k & Hk & Hreach).
    exists (S k). split; [lia|]. eapply reaches_later; eassumption.
Qed.

Lemma readStylesFrom_null n : forall styles acc0 pc pc',
  readStylesFrom n styles acc0 pc = Done None pc' ->
  exists pre prop value post acc pcA k,
    styles = pre ++ prop :: value :: post /\
    readStylesFrom n pre acc0 pc = Done (Some acc) pcA /\
    (k <= n)%nat /\
    reachesIgnore prop value k None pcA pc'.
Proof.
  intros styles.
  induction styles as [|prop|prop value rest IH] using pairs_ind;
    intros acc0 pc pc' H; simpl in H; try discriminate.
  unfold bind at 1 in H.
  destruct (readStyleLoop n prop value None acc0 pc) as [r pc1| |] eqn:Hl;
    try discriminate.
  destruct r as [acc1|].
  - destruct (IH _ _ _ H) as (pre & p & v & post & acc & pcA & k & E & Hpre & Hk & Hr).
    exists (prop :: value :: pre), p, v, post, acc, pcA, k.
    split; [rewrite E; reflexivity|]. split; [|auto].
    simpl. unfold bind at 1. rewrite Hl. exact Hpre.
  - unfold ret in H. injection H as <-.
    destruct (readStyleLoop_null _ _ _ _ _ _ _ Hl) as (k & Hk & Hr).
    exists [], prop, value, rest, acc0, pc, k.
    split; [reflexivity|]. split; [reflexivity|]. auto.
Qed.

(** C10 (amended).  The element is skipped exactly when [readStyles]
    reaches a rule with [ignore]: reading the pairs of the style
    attribute in order, for one of them the rule that [matchStyle]
    returns first, or the rule it returns behind rules with
    [consuming: false] that were read for the same pair, has
    [ignore].  Then [readStyles] returns [null] and [addDOM] returns
    at once: the frames, the position list and the input tree are as
    before, so neither marks nor content of the element or of its
    children reach the output; only [attrs] fields of rules that
    matched on the way may have been written. *)
Theorem style_ignore_skips_element W dom pc style pc' :
  nodeType (doc pc) dom = 1 ->
  getAttribute (doc pc) dom "style" = Some style ->
  JS.isEmpty style = false ->
  ((exists pre prop value post acc pcA k,
       parseStyles style = pre ++ prop :: value :: post /\
       readStyles (w_steps W) pre pc = Done (Some acc) pcA /\
       (k <= w_steps W)%nat /\
       reachesIgnore prop value k None pcA pc')
   <-> readStyles (w_steps W) (parseStyles style) pc = Done None pc') /\
  (readStyles (w_steps W) (parseStyles style) pc = Done None pc' ->
   addDOM W dom pc = Done tt pc' /\ sameButAttrs pc pc').
Proof.
  intros Hty Hattr Hne. split; [split|].
  - intros (pre & prop & value & post & acc & pcA & k & Hparse & Hpre & Hk & Hr).
    unfold readStyles in *. rewrite Hparse.
    rewrite (readStylesFrom_app _ _ _ _ _ _ _ Hpre).
    cbn [readStylesFrom]. unfold bind at 1.
    rewrite (readStyleLoop_reaches _ _ _ _ _ _ Hr _ acc Hk). reflexivity.
  - intros H. unfold readStyles in *. apply readStylesFrom_null in H.
    exact H.
  - intros Hread. split.
    + unfold addDOM, bind at 1, get. rewrite Hty.
      replace (1 =? 3) with false by reflexivity.
      replace (1 =? 1) with true by reflexivity.
      rewrite Hattr. unfold JS.truthy. rewrite Hne. cbn [negb].
      change (default "" (Some style)) with style.
      unfold bind at 1. rewrite Hread. reflexivity.
    + eapply readStylesFrom_sameButAttrs. exact Hread.
Qed.

End StyleIgnore.

(* ===================================================================== *)
(** ** Writing positions *)
(* ===================================================================== *)

Section Positions.
Context `{SA : SchemaAPI} `{DA : DomAPI}.

(** The loop of the [find...] methods writes the entries that [hit]
    selects, and no others. *)
Lemma updateEntries_written hit value l pc l' pc' :
  (forall e pc p pc1, value e pc = Done p pc1 -> doc pc1 = doc pc) ->
  updateEntries hit value l pc = Done l' pc' ->
  Forall2 (fun e e' => if hit (doc pc) e then exists p, e' = setPos e p
                       else e' = e) l l'.
Proof.
  intros Hv. revert pc l' pc'.
  induction l as [|e l IH]; intros pc l' pc' H; simpl in H.
  - unfold ret in H. injection H as <- _. constructor.
  - unfold bind at 1, get in H. unfold bind at 1 in H.
    match type of H with
    | match ?m pc with _ => _ end = _ =>
        destruct (m pc) as [e1 pc1| |] eqn:He; try discriminate
    end.
    unfold bind at 1 in H.
    destruct (updateEntries hit value l pc1) as [l1 pc2| |] eqn:Hu; try discriminate.
    unfold ret in H. injection H as <- <-.
    assert (Hd1 : doc pc1 = doc pc /\
                  (if hit (doc pc) e then exists p, e1 = setPos e p else e1 = e)).
    { destruct (hit (doc pc) e).
      - unfold bind in He. destruct (value e pc) as [p pc3| |] eqn:Hp; try discriminate.
        unfold ret in He. injection He as <- <-.
        split; [eapply Hv; exact Hp|eauto].
      - unfold ret in He. injection He as <- <-. auto. }
    destruct Hd1 as [Hd1 He1].
    constructor; [exact He1|].
    rewrite <- Hd1. eapply IH. exact Hu.
Qed.

Lemma withFind_written hit value pc pc' l l' :
  (forall e pc p pc1, value e pc = Done p pc1 -> doc pc1 = doc pc) ->
  withFind hit value pc = Done tt pc' ->
  find pc = Some l -> find pc' = Some l' ->
  Forall2 (fun e e' => if hit (doc pc) e then exists p, e' = setPos e p
                       else e' = e) l l'.
Proof.
  intros Hv H Hl Hl'. unfold withFind, bind at 1, get in H. rewrite Hl in H.
  unfold bind in H.
  destruct (updateEntries hit value l pc) as [l1 pc1| |] eqn:Hu; try discriminate.
  unfold modify in H. injection H as <-. simpl in Hl'. injection Hl' as <-.
  eapply updateEntries_written; eassumption.
Qed.

Lemma findInText_value_doc textNode (e : FindEntry) pc p pc1 :
  (p <- currentPos ;;
   pc <- get ;;
   v <- defined (nodeValue (doc pc) textNode) ;;
   ret (p - (JS.len v - foffset e))) pc = Done p pc1 ->
  doc pc1 = doc pc.
Proof.
  unfold bind at 1. intros H.
  destruct (currentPos pc) as [q pc2| |] eqn:Hq; try discriminate.
  apply currentPos_doc in Hq.
  unfold bind, get, defined in H.
  destruct (nodeValue (doc pc2) textNode); [|discriminate].
  unfold ret in H. injection H as _ <-. exact Hq.
Qed.


End Positions.

(* ===================================================================== *)
(** ** Pending marks *)
(* ===================================================================== *)

Section FrameSteps.
Context `{SA : SchemaAPI} `{DA : DomAPI}.

Lemma setContent_same cx : setContent cx (nc_content cx) = cx.
Proof. destruct cx; reflexivity. Qed.

Lemma nodeAt_Forall2_r (R : NodeContext -> NodeContext -> Prop) l l' j f' :
  Forall2 R l l' -> nodeAt l' j = Some f' ->
  exists f, nodeAt l j = Some f /\ R f f'.
Proof.
  unfold nodeAt. destruct (j <? 0); [discriminate|].
  intros HF Hj. eapply Forall2_lookup_r; eassumption.
Qed.

Lemma Forall2_putNode (R : NodeContext -> NodeContext -> Prop) l i cx cx' :
  (forall f, R f f) -> nodeAt l i = Some cx -> R cx cx' ->
  Forall2 R l (putNode l i cx').
Proof.
  intros Hrefl. unfold nodeAt, putNode. destruct (i <? 0); [discriminate|].
  generalize (Z.to_nat i) as n. clear i. intros n. revert n.
  induction l as [|a l IH]; intros n Hn Hcx; [discriminate|].
  destruct n as [|n]; simpl in *.
  - injection Hn as ->. constructor; [exact Hcx|].
    clear -Hrefl. induction l; constructor; auto.
  - constructor; [apply Hrefl|apply IH; assumption].
Qed.

(** [closeExtra] changes nothing of a frame but its content. *)
Lemma closeFrom_sameButContent cnt i b l l' :
  closeFrom cnt i b l = Some l' ->
  Forall2 (fun f f' => f' = setContent f (nc_content f')) l l'.
Proof.
  assert (Hrefl : forall f : NodeContext, f = setContent f (nc_content f))
    by (intros f; symmetry; apply setContent_same).
  assert (Htrans : forall l1 l2 l3 : list NodeContext,
             Forall2 (fun f f' => f' = setContent f (nc_content f')) l1 l2 ->
             Forall2 (fun f f' => f' = setContent f (nc_content f')) l2 l3 ->
             Forall2 (fun f f' => f' = setContent f (nc_content f')) l1 l3).
  { intros l1 l2 l3 H12. revert l3.
    induction H12 as [|a c l1 l2 Hab H12 IH]; intros l3 H23;
      inversion H23 as [|c' d l2' l3' Hbc H23']; subst; constructor.
    - rewrite Hbc. rewrite Hab at 1. destruct a; reflexivity.
    - apply IH. assumption. }
  revert i l. induction cnt as [|k IH]; intros i l H; simpl in H.
  - injection H as <-. clear -Hrefl. induction l; constructor; auto.
  - destruct (nodeAt l (i - 1)) as [par|] eqn:Ep; [|discriminate].
    destruct (nodeAt l i) as [child|] eqn:Ec; [|discriminate].
    destruct (NodeContext.finish child b) as [[[n|fr] child']|] eqn:Ef; try discriminate.
    eapply Htrans; [|apply (IH _ _ H)].
    eapply Htrans.
    + apply (Forall2_putNode _ l i child child'); [exact Hrefl|exact Ec|].
      unfold NodeContext.finish in Ef.
      match type of Ef with
      | match ?x with _ => _ end = _ => destruct x; [|discriminate]
      end.
      destruct (nc_type child); injection Ef as _ <-; reflexivity.
    + pose proof (nodeAt_Some _ _ _ Ep) as [Hp0 Hpl].
      pose proof (nodeAt_Some _ _ _ Ec) as [Hc0 Hcl].
      apply (Forall2_putNode _ _ (i - 1) par); [exact Hrefl| |reflexivity].
      rewrite nodeAt_putNode_ne by lia. exact Ep.
Qed.

Lemma closeExtra_nodes b pc pc1 j f' :
  closeExtra b pc = Done tt pc1 -> nodeAt (pnodes pc1) j = Some f' ->
  exists f, nodeAt (pnodes pc) j = Some f /\ f' = setContent f (nc_content f').
Proof.
  unfold closeExtra. intros H Hj.
  destruct (Z.of_nat (length (pnodes pc)) - 1 >? open pc) eqn:E.
  - destruct (closeFrom _ _ _ _) as [l|] eqn:Hc; [|discriminate].
    injection H as <-. simpl in Hj.
    apply closeFrom_sameButContent in Hc.
    apply (nodeAt_Forall2_r _ _ _ j f' Hc).
    unfold nodeAt in *. destruct (j <? 0); [discriminate|].
    apply lookup_take_Some in Hj as [Hj _]. exact Hj.
  - injection H as <-. exists f'. split; [exact Hj|].
    symmetry. apply setContent_same.
Qed.

Lemma sync_result to pc b pc' :
  sync to pc = Done b pc' ->
  exists d, pc' = setOpen pc d /\ (d = open pc \/ 0 <= d <= open pc).
Proof.
  unfold sync. intros H.
  destruct (syncFrom _ _ _ _) as [d|] eqn:Hs.
  - injection H as _ <-. exists d. split; [reflexivity|].
    assert (Hr : forall cnt i l d, syncFrom cnt i l to = Some d ->
                                   i - Z.of_nat cnt < d <= i).
    { clear. intros cnt. induction cnt as [|k IH]; intros i l d H; simpl in H;
        [discriminate|].
      destruct (bool_decide _); [injection H as <-; lia|].
      apply IH in H. lia. }
    apply Hr in Hs. right. lia.
  - injection H as _ <-. exists (open pc). split; [destruct pc; reflexivity|auto].
Qed.

(** The frame on top after wrappers have been entered is a new one. *)
Lemma enterAll_top_new route pc pc' :
  route <> [] -> enterAll route pc = Done tt pc' ->
  (nextId pc <= nextId pc')%nat /\
  exists f, top pc' = Some f /\ (nextId pc <= nc_id f < nextId pc')%nat.
Proof.
  revert pc. induction route as [|t rest IH]; intros pc Hne H; [congruence|].
  simpl in H. unfold bind in H.
  destruct (enterInner t None false None pc) as [[] pc1| |] eqn:He; try discriminate.
  pose proof He as He'.
  apply enterInner_inv in He' as (pc0 & par & Hc & Ht & Hpc1).
  pose proof (closeExtra_frame _ _ _ Hc) as (_ & _ & _ & _ & _ & _ & Hid & _).
  pose proof (closeExtra_top_last _ _ _ _ Hc Ht) as Hlen.
  assert (Hn1 : nextId pc1 = S (nextId pc)) by (rewrite Hpc1; simpl; lia).
  assert (Htop1 : exists f, top pc1 = Some f /\ nc_id f = nextId pc).
  { rewrite Hpc1. unfold top. cbn [open pnodes setOpen setNextId setNodes].
    eexists. split.
    - replace (open pc0 + 1) with
        (Z.of_nat (length (putNode (pnodes pc0) (open pc0)
                     (fst (enteredFrame pc0 par t None false None)))))
        by (rewrite putNode_length; lia).
      apply nodeAt_app_last.
    - unfold enteredFrame. simpl. exact Hid. }
  destruct rest as [|t' rest'].
  - simpl in H. unfold ret in H. injection H as <-.
    split; [lia|]. destruct Htop1 as (f & Hf & Hi). exists f. split; [exact Hf|lia].
  - destruct (IH pc1 ltac:(discriminate) H) as (Hle & f & Hf & Hi).
    split; [lia|]. exists f. split; [exact Hf|lia].
Qed.

End FrameSteps.

Section InsertInFrame.
Context `{SA : SchemaAPI} `{DA : DomAPI}.

(** The steps of a placement search that succeeds. *)
Lemma findPlace_inv node pc pcP :
  findPlace node pc = Done true pcP ->
  exists l1 r d,
    sameButMatch (pnodes pc) l1 /\
    (d = open pc \/ 0 <= d <= open pc) /\
    enterAll r (setOpen (setNodes pc l1) d) = Done tt pcP.
Proof.
  intros H. unfold findPlace, bind at 1, get in H. unfold bind at 1 in H.
  destruct (findPlaceFrom _ _ _ _ _) as [route pc1| |] eqn:Hloop; try discriminate.
  assert (Hstart : bestAmong [] node None) by (intros ? ? []).
  destruct (findPlaceFrom_best _ _ _ _ _ [] _ _
              Hstart ltac:(intros ? ? []) Hloop)
    as (_ & Hsame & Hpc1 & _).
  destruct route as [[r to]|]; [|unfold ret in H; discriminate].
  unfold bind at 1 in H.
  destruct (sync to pc1) as [b pcY| |] eqn:Hs; try discriminate.
  apply sync_result in Hs as (d & -> & Hd).
  unfold bind at 1 in H.
  destruct (enterAll r _) as [[] pcE| |] eqn:He; try discriminate.
  unfold ret in H. injection H as <-.
  exists (pnodes pc1), r, d. split; [exact Hsame|].
  rewrite Hpc1 in Hd, He. simpl in Hd. split; [exact Hd|exact He].
Qed.

Lemma marksFor_setMatch g m node : marksFor (setMatch g m) node = marksFor g node.
Proof. reflexivity. Qed.

(** A node inserted into the open frame: the frame's pending marks are
    applied, and the node is appended with the marks that are active
    then. *)
Lemma insertNode_in_frame node pc pc' t ty :
  FreshIds pc -> top pc = Some t -> nc_type t = Some ty ->
  insertNode node pc = Done true pc' -> staysInFrame pc pc' ->
  exists base t' c,
    (nc_id base = nc_id t /\ nc_type base = nc_type t /\
     nc_pendingMarks base = nc_pendingMarks t /\
     nc_activeMarks base = nc_activeMarks t /\
     nc_stashMarks base = nc_stashMarks t) /\
    top pc' = Some t' /\
    (nc_id t' = nc_id t /\ nc_type t' = nc_type t /\
     nc_pendingMarks t' =
       nc_pendingMarks (NodeContext.applyPending (schemaNodes pc) base (node_type node)) /\
     nc_activeMarks t' =
       nc_activeMarks (NodeContext.applyPending (schemaNodes pc) base (node_type node)) /\
     nc_stashMarks t' = nc_stashMarks base) /\
    nc_content t' =
      c ++ [node_mark node
              (marksFor (NodeContext.applyPending (schemaNodes pc) base (node_type node))
                        node)] /\
    FreshIds pc' /\ schemaNodes pc' = schemaNodes pc.
Proof.
  intros Hfresh Htop Hty H [Hopen Hid].
  unfold insertNode, bind at 1, get in H.
  assert (Hpre : (if (node_isInline node && needsBlock pc)%bool
                  then t0 <- getTop ;;
                       if isNull (nc_type t0)
                       then match textblockFromContext pc with
                            | Some block => enterInner block None false None
                            | None => ret tt
                            end
                       else ret tt
                  else ret tt) pc = Done tt pc).
  { destruct (_ && _)%bool; [|reflexivity].
    unfold bind, getTop. rewrite Htop. simpl. rewrite Hty. reflexivity. }
  unfold bind at 1 in H. rewrite Hpre in H. clear Hpre.
  unfold bind at 1 in H.
  destruct (findPlace node pc) as [ok pcP| |] eqn:Hfp; try discriminate.
  destruct ok; [|unfold ret in H; discriminate].
  apply findPlace_inv in Hfp as (l1 & r & d & Hsame & Hd & He).
  unfold bind at 1 in H.
  destruct (closeExtra false pcP) as [[] pcC| |] eqn:Hc; try discriminate.
  unfold bind at 1, getTop in H.
  destruct (top pcC) as [top0|] eqn:Htop0; [|discriminate].
  simpl defined in H. unfold ret at 1 in H.
  unfold bind at 1, get in H. unfold bind at 1, setTop, modify in H.
  unfold ret in H. injection H as <-.
  pose proof (closeExtra_frame _ _ _ Hc)
    as (HoC & HpC & _ & _ & _ & _ & HnC & _).
  pose proof Htop0 as Htop0'. unfold top in Htop0'.
  pose proof (nodeAt_Some _ _ _ Htop0') as [H0 Hlt].
  destruct (closeExtra_nodes _ _ _ _ _ Hc Htop0') as (f0 & Hf0 & Ef0).
  (* the frame on top of the result *)
  set (g0 := NodeContext.applyPending (schemaNodes pcC) top0 (node_type node)) in *.
  set (g1 := match nc_match g0 with
             | Some m => setMatch g0 (cm_matchType m (node_type node))
             | None => g0
             end) in *.
  assert (Hg1 : nc_id g1 = nc_id g0 /\ nc_type g1 = nc_type g0 /\
                nc_pendingMarks g1 = nc_pendingMarks g0 /\
                nc_activeMarks g1 = nc_activeMarks g0 /\
                nc_stashMarks g1 = nc_stashMarks g0 /\
                nc_content g1 = nc_content g0 /\
                marksFor g1 node = marksFor g0 node).
  { unfold g1. destruct (nc_match g0); simpl; repeat split; reflexivity. }
  destruct Hg1 as (G1 & G2 & G3 & G4 & G5 & G6 & G7).
  pose proof (applyPending_frame (schemaNodes pcC) top0 (node_type node)) as Hap.
  simpl in Hap. fold g0 in Hap.
  destruct Hap as (A1 & A2 & _ & _ & _ & _ & _ & A8 & A9).
  cbn [open pnodes setNodes] in Hopen, Hid.
  unfold top in Hid. cbn [open pnodes setNodes] in Hid.
  rewrite nodeAt_putNode_eq in Hid by lia.
  fold (top pc) in Hid. rewrite Htop in Hid. simpl in Hid.
  injection Hid as Hid. rewrite G1, A1 in Hid.
  (* no wrapper was entered *)
  assert (Hr : r = []).
  { destruct r as [|t0 r']; [reflexivity|exfalso].
    destruct (enterAll_top_new (t0 :: r') _ _ ltac:(discriminate) He)
      as (_ & f & Hf & Hfid).
    cbn [nextId setOpen setNodes] in Hfid.
    assert (f0 = f).
    { unfold top in Hf. rewrite <- HoC in Hf. congruence. }
    subst f0. rewrite Ef0 in Hid. simpl in Hid.
    pose proof (Hfresh _ _ Htop) as Hlt'. unfold top in Htop. lia. }
  subst r. simpl in He. unfold ret in He. injection He as <-.
  cbn [open pnodes setOpen setNodes nextId parser] in *.
  assert (d = open pc) as -> by lia.
  unfold sameButMatch in Hsame.
  destruct (nodeAt_Forall2_r _ _ _ _ _ Hsame Hf0) as (t0 & Ht0 & Et0).
  rewrite HoC in Ht0.
  assert (t0 = t) as -> by (unfold top in Htop; congruence).
  assert (Hbase : nc_id top0 = nc_id t /\ nc_type top0 = nc_type t /\
                  nc_pendingMarks top0 = nc_pendingMarks t /\
                  nc_activeMarks top0 = nc_activeMarks t /\
                  nc_stashMarks top0 = nc_stashMarks t).
  { rewrite Ef0, Et0. simpl. repeat split; reflexivity. }
  assert (Hns : schemaNodes pcC = schemaNodes pc).
  { unfold schemaNodes. rewrite HpC. reflexivity. }
  exists top0, (setContent g1 (nc_content g1 ++ [node_mark node (marksFor g1 node)])),
         (nc_content g1).
  split; [exact Hbase|]. split.
  { unfold top. cbn [open pnodes setNodes]. apply nodeAt_putNode_eq; lia. }
  destruct Hbase as (B1 & B2 & B3 & B4 & B5).
  split.
  { cbn [nc_id nc_type nc_pendingMarks nc_activeMarks nc_stashMarks setContent].
    rewrite G1, G2, G3, G4, G5, A1, A2, A9. rewrite <- Hns. fold g0.
    repeat split; congruence. }
  split.
  { cbn [nc_content setContent]. rewrite G7. rewrite <- Hns. reflexivity. }
  split; [|unfold schemaNodes; cbn [parser setNodes]; rewrite HpC; reflexivity].
  intros j f' Hj. cbn [pnodes setNodes nextId] in *.
  rewrite HnC. cbn [nextId setOpen setNodes].
  destruct (decide (j = open pcC)) as [->|Hne].
  - rewrite nodeAt_putNode_eq in Hj by lia. injection Hj as <-.
    cbn [nc_id setContent]. rewrite G1, A1, B1.
    apply (Hfresh _ _ Htop).
  - rewrite nodeAt_putNode_ne in Hj by congruence.
    destruct (closeExtra_nodes _ _ _ _ _ Hc Hj) as (f1 & Hf1 & Ef1).
    cbn [pnodes setOpen setNodes] in Hf1.
    destruct (nodeAt_Forall2_r _ _ _ _ _ Hsame Hf1) as (f2 & Hf2 & Ef2).
    rewrite Ef1, Ef2. simpl. apply (Hfresh _ _ Hf2).
Qed.

End InsertInFrame.

Section MarkRestoration.
Context `{SA : SchemaAPI} `{DA : DomAPI} `{ML : !MarkSetLaws}.

Lemma applyPendingStep_type ns t g y :
  nc_type (NodeContext.applyPendingStep ns t g y) = nc_type g.
Proof. apply (applyPendingStep_frame ns t g y). Qed.

Lemma mayApply_congr ns g g' t a x :
  nc_type g' = nc_type g -> mark_type x = mark_type a ->
  NodeContext.mayApply ns g' t x = NodeContext.mayApply ns g t a.
Proof. unfold NodeContext.mayApply. intros -> ->. reflexivity. Qed.

Lemma fold_promotes ns t a l g :
  neverExcluded a ->
  NodeContext.mayApply ns g t a = true ->
  (isInSet a (nc_activeMarks g) = true \/
   exists x, In x l /\ mark_eq a x = true) ->
  isInSet a (nc_activeMarks
               (fold_left (NodeContext.applyPendingStep ns t) l g)) = true.
Proof.
  intros [Hadd Hkeep].
  revert g. induction l as [|y l IH]; intros g Hgate Hin; simpl.
  - destruct Hin as [Hin|(x & [] & _)]. exact Hin.
  - apply IH.
    + rewrite <- Hgate. apply mayApply_congr; [apply applyPendingStep_type|reflexivity].
    + unfold NodeContext.applyPendingStep.
      destruct Hin as [Hact|(x & [<-|Hx] & Hex)].
      * left. destruct (_ && _)%bool; simpl; [|exact Hact].
        apply Hkeep. exact Hact.
      * assert (Hg : NodeContext.mayApply ns g t y = true).
        { rewrite <- Hgate. apply mayApply_congr; [reflexivity|].
          symmetry. apply mark_eq_type. exact Hex. }
        rewrite Hg. left.
        destruct (isInSet y (nc_activeMarks g)) eqn:Ey; simpl.
        -- eapply inSet_eq; eassumption.
        -- apply Hadd. exact Hex.
      * destruct (_ && _)%bool; simpl.
        -- destruct (decide (isInSet a (nc_activeMarks g) = true)) as [Ha|_].
           ++ left. apply Hkeep. exact Ha.
           ++ right. eauto.
        -- right. eauto.
Qed.

(** [applyPending] makes a mark active that the frame holds, that may
    apply there and that no mark pushes out. *)
Lemma applyPending_promotes ns f t a :
  neverExcluded a ->
  NodeContext.mayApply ns f t a = true -> holdsMark f a ->
  isInSet a (nc_activeMarks (NodeContext.applyPending ns f t)) = true.
Proof.
  intros Hex Hgate [Hp|Ha]; unfold NodeContext.applyPending;
    apply fold_promotes; auto.
  right. apply inSet_elem. exact Hp.
Qed.

Lemma marksFor_keeps top node a :
  neverExcluded a ->
  isInSet a (nc_activeMarks top) = true -> isInSet a (marksFor top node) = true.
Proof.
  intros [_ Hkeep]. unfold marksFor. generalize (nc_activeMarks top) as s.
  induction (node_marks node) as [|m l IH]; intros s Hs; simpl; [exact Hs|].
  apply IH. destruct (match nc_type top with Some _ => _ | None => _ end);
    [apply Hkeep|]; exact Hs.
Qed.

Lemma removeFromLevel_keeps m f a :
  neverExcluded a ->
  mark_eq m a = false -> holdsMark f a -> holdsMark (removeFromLevel m f) a.
Proof.
  intros [_ Hkeep] Hne Hh. unfold removeFromLevel, holdsMark in *.
  destruct (hasMark m (nc_pendingMarks f)); simpl.
  - destruct Hh as [Hp|Ha]; [left; apply inSet_remove_keeps; assumption|right; exact Ha].
  - destruct (NodeContext.popFromStashMark m _) as [[sm rest]|]; simpl.
    + destruct (match nc_type f with Some _ => _ | None => _ end); simpl;
        (destruct Hh as [Hp|Ha]; [left; exact Hp|right]).
      * apply Hkeep. apply inSet_remove_keeps; assumption.
      * apply inSet_remove_keeps; assumption.
    + destruct Hh as [Hp|Ha]; [left; exact Hp|right].
      apply inSet_remove_keeps; assumption.
Qed.

Lemma removeFromLevel_shape m f :
  nc_id (removeFromLevel m f) = nc_id f /\
  nc_type (removeFromLevel m f) = nc_type f.
Proof.
  unfold removeFromLevel.
  destruct (hasMark m (nc_pendingMarks f)); simpl; [auto|].
  destruct (NodeContext.popFromStashMark m _) as [[sm rest]|]; simpl; [|auto].
  destruct (match nc_type f with Some _ => _ | None => _ end); simpl; auto.
Qed.

Lemma FreshIds_putNode pc i f x :
  FreshIds pc -> nodeAt (pnodes pc) i = Some f -> nc_id x = nc_id f ->
  FreshIds (setNodes pc (putNode (pnodes pc) i x)).
Proof.
  intros Hf Hi Hid j g Hj. cbn [pnodes nextId setNodes] in *.
  pose proof (nodeAt_Some _ _ _ Hi) as [H0 Hl].
  destruct (decide (i = j)) as [->|Hne].
  - rewrite nodeAt_putNode_eq in Hj by assumption. injection Hj as <-.
    rewrite Hid. eapply Hf. exact Hi.
  - rewrite nodeAt_putNode_ne in Hj by exact Hne. eapply Hf. exact Hj.
Qed.

Lemma addPendingMark_top m pc pc' f :
  FreshIds pc -> top pc = Some f -> addPendingMark m pc = Done tt pc' ->
  FreshIds pc' /\
  exists f', top pc' = Some f' /\ nc_id f' = nc_id f /\
             nc_type f' = nc_type f /\
             (neverExcluded m -> holdsMark f' m) /\
             forall a, neverExcluded a -> holdsMark f a -> holdsMark f' a.
Proof.
  intros Hfresh Htop H. unfold addPendingMark, bind, getTop in H.
  rewrite Htop in H. simpl in H. unfold setTop, modify in H. injection H as <-.
  pose proof Htop as Htop'. unfold top in Htop'.
  pose proof (nodeAt_Some _ _ _ Htop') as [H0 Hl].
  split.
  - eapply FreshIds_putNode; [exact Hfresh|exact Htop'|].
    destruct (findSameMarkInSet m (nc_pendingMarks f)); reflexivity.
  - eexists. split; [unfold top; simpl; apply nodeAt_putNode_eq; assumption|].
    destruct (findSameMarkInSet m (nc_pendingMarks f)); simpl;
      (split; [reflexivity|]; split; [reflexivity|]; split;
       [intros [Hadd _]; left; simpl; apply Hadd, mark_eq_refl|];
       intros a [_ Hkeep] [Hp|Ha]; [left; simpl; apply Hkeep; exact Hp
                                   |right; exact Ha]).
Qed.

Lemma removePendingMark_top m pc pc' f :
  FreshIds pc -> top pc = Some f ->
  removePendingMark m (Some (nc_id f)) pc = Done tt pc' ->
  FreshIds pc' /\
  exists f', top pc' = Some f' /\ nc_id f' = nc_id f /\
             nc_type f' = nc_type f /\
             forall a, neverExcluded a -> mark_eq m a = false ->
                       holdsMark f a -> holdsMark f' a.
Proof.
  intros Hfresh Htop H. unfold removePendingMark, bind at 1, get in H.
  pose proof Htop as Htop'. unfold top in Htop'.
  pose proof (nodeAt_Some _ _ _ Htop') as [H0 Hl].
  destruct (Z.to_nat (open pc + 1)) as [|k] eqn:Ek; [lia|].
  simpl in H. unfold bind at 1, get in H. unfold bind at 1, defined in H.
  rewrite Htop' in H. unfold ret at 1 in H. unfold bind at 1, modify in H.
  rewrite bool_decide_eq_true_2 in H by reflexivity.
  unfold ret in H. injection H as <-.
  destruct (removeFromLevel_shape m f) as [Hid Hty].
  split.
  - eapply FreshIds_putNode; [exact Hfresh|exact Htop'|exact Hid].
  - exists (removeFromLevel m f).
    split; [unfold top; simpl; apply nodeAt_putNode_eq; assumption|].
    split; [exact Hid|]. split; [exact Hty|].
    intros a Hex Hne Hh. apply removeFromLevel_keeps; assumption.
Qed.

Lemma insertNode_holds node pc pc' id ty a :
  neverExcluded a ->
  nt_allowsMarkType ty (mark_type a) = true ->
  openHolds pc id ty a ->
  insertNode node pc = Done true pc' -> staysInFrame pc pc' ->
  openHolds pc' id ty a /\
  exists t' c marks,
    top pc' = Some t' /\ nc_content t' = c ++ [node_mark node marks] /\
    isInSet a marks = true /\ isInSet a (nc_activeMarks t') = true.
Proof.
  intros Hex Hallow (Hfresh & f & Htop & Hid & Hty & Hh) Hins Hstay.
  destruct (insertNode_in_frame _ _ _ _ _ Hfresh Htop Hty Hins Hstay)
    as (base & t' & c & (B1 & B2 & B3 & B4 & B5) & Htop' &
        (T1 & T2 & T3 & T4 & T5) & Hc & Hfresh' & _).
  assert (Hact : isInSet a (nc_activeMarks
                   (NodeContext.applyPending (schemaNodes pc) base (node_type node)))
                 = true).
  { apply applyPending_promotes; [exact Hex| |].
    - unfold NodeContext.mayApply. rewrite B2, Hty. exact Hallow.
    - unfold holdsMark. rewrite B3, B4. exact Hh. }
  split.
  - split; [exact Hfresh'|]. exists t'. split; [exact Htop'|].
    split; [congruence|]. split; [congruence|].
    right. rewrite T4. exact Hact.
  - eexists t', c, _. split; [exact Htop'|]. split; [exact Hc|].
    split; [apply marksFor_keeps; assumption|rewrite T4; exact Hact].
Qed.

Lemma insertsInFrame_holds nodes pc pc' id ty a :
  neverExcluded a ->
  nt_allowsMarkType ty (mark_type a) = true ->
  insertsInFrame nodes pc pc' -> openHolds pc id ty a -> openHolds pc' id ty a.
Proof.
  intros Hex Hallow H. induction H as [pc|node rest pc pc1 pc2 Hins Hstay _ IH];
    intros Hh; [exact Hh|].
  apply IH. eapply insertNode_holds; eassumption.
Qed.


End MarkRestoration.

(* ===================================================================== *)
(** ** The sample schema: laws of its mark sets, checks of states *)
(* ===================================================================== *)

Section SampleFacts.

Lemma sMarkEq_refl a : Sample.sMarkEq a a = true.
Proof. apply bool_decide_eq_true. auto. Qed.

Lemma sMarkEq_sym a b : Sample.sMarkEq a b = Sample.sMarkEq b a.
Proof. unfold Sample.sMarkEq. apply bool_decide_ext. intuition congruence. Qed.

Lemma sMarkEq_trans a b c :
  Sample.sMarkEq a b = true -> Sample.sMarkEq b c = true ->
  Sample.sMarkEq a c = true.
Proof.
  unfold Sample.sMarkEq. rewrite !bool_decide_eq_true.
  intros [-> ->] [-> ->]. auto.
Qed.

Lemma addFrom_keeps m : forall rest placed copy l x,
  Sample.addFrom m placed copy rest = Some l ->
  In x copy \/
  (In x rest /\ Sample.excludes (Sample.sm_type m) (Sample.sm_type x) = false) ->
  In x l.
Proof.
  induction rest as [|other r IH]; intros placed copy l x H Hx; simpl in H.
  - injection H as <-. destruct Hx as [Hx|[[] _]].
    destruct placed; [exact Hx|apply in_or_app; auto].
  - destruct (Sample.sMarkEq m other); [discriminate|].
    destruct (Sample.excludes (Sample.sm_type m) (Sample.sm_type other)) eqn:Ex.
    + apply (IH _ _ _ _ H). destruct Hx as [Hx|[[<-|Hx] Hn]]; auto.
      rewrite Ex in Hn. discriminate.
    + destruct (Sample.excludes (Sample.sm_type other) (Sample.sm_type m));
        [discriminate|].
      destruct (negb placed && _)%bool; apply (IH _ _ _ _ H);
        (destruct Hx as [Hx|[[<-|Hx] Hn]];
         [left; apply in_or_app; auto
         |left; apply in_or_app; right; simpl; auto
         |right; auto]).
Qed.

Lemma addFrom_placed m : forall rest placed copy l,
  Sample.addFrom m placed copy rest = Some l ->
  (placed = true -> In m copy) -> In m l.
Proof.
  induction rest as [|other r IH]; intros placed copy l H Hp; simpl in H.
  - injection H as <-. destruct placed; [auto|apply in_or_app; simpl; auto].
  - destruct (Sample.sMarkEq m other); [discriminate|].
    destruct (Sample.excludes (Sample.sm_type m) (Sample.sm_type other));
      [apply (IH _ _ _ H Hp)|].
    destruct (Sample.excludes (Sample.sm_type other) (Sample.sm_type m));
      [discriminate|].
    destruct (negb placed && _)%bool; apply (IH _ _ _ H); intros E.
    + apply in_or_app. right. simpl. auto.
    + apply in_or_app. auto.
Qed.

Lemma addFrom_None m : forall rest placed copy,
  Sample.addFrom m placed copy rest = None ->
  exists other, In other rest /\
    (Sample.sMarkEq m other = true \/
     Sample.excludes (Sample.sm_type other) (Sample.sm_type m) = true).
Proof.
  induction rest as [|other r IH]; intros placed copy H; simpl in H;
    [destruct placed; discriminate|].
  destruct (Sample.sMarkEq m other) eqn:Eq; [exists other; simpl; auto|].
  destruct (Sample.excludes (Sample.sm_type m) (Sample.sm_type other)).
  { destruct (IH _ _ H) as (o & Ho & Hc). exists o. simpl. auto. }
  destruct (Sample.excludes (Sample.sm_type other) (Sample.sm_type m)) eqn:Ex;
    [exists other; simpl; auto|].
  destruct (negb placed && _)%bool;
    destruct (IH _ _ H) as (o & Ho & Hc); exists o; simpl; auto.
Qed.

Lemma sIsInSet_In a x s :
  In x s -> Sample.sMarkEq a x = true -> Sample.sIsInSet a s = true.
Proof. intros Hx He. apply existsb_exists. eauto. Qed.

Lemma excludes_comment t : Sample.excludes t Sample.MComment = false.
Proof. destruct t; reflexivity. Qed.

(** No mark pushes a comment out of a set. *)
Lemma comment_neverExcluded (a : Sample.SMark) :
  Sample.sm_type a = Sample.MComment ->
  neverExcluded (SA := Sample.schemaAPI) a.
Proof.
  intros Hty. split.
  - intros y s Hay. cbn. unfold Sample.sAddToSet.
    assert (Hy : Sample.sm_type y = Sample.MComment).
    { unfold mark_eq in Hay. cbn in Hay.
      unfold Sample.sMarkEq in Hay. apply bool_decide_eq_true in Hay as [E _].
      congruence. }
    destruct (Sample.addFrom y false [] s) as [l|] eqn:E; cbn [default].
    + apply (sIsInSet_In a y); [|exact Hay].
      eapply addFrom_placed; [exact E|discriminate].
    + apply addFrom_None in E as (o & Ho & [Heq|Hx]).
      * apply (sIsInSet_In a o); [exact Ho|].
        eapply sMarkEq_trans; eassumption.
      * rewrite Hy, excludes_comment in Hx. discriminate.
  - intros m s Hs. cbn in *. unfold Sample.sAddToSet.
    destruct (Sample.addFrom m false [] s) as [l|] eqn:E; cbn [default];
      [|exact Hs].
    apply existsb_exists in Hs as (x & Hx & Hax).
    apply (sIsInSet_In a x); [|exact Hax].
    eapply addFrom_keeps; [exact E|]. right. split; [exact Hx|].
    assert (Sample.sm_type x = Sample.MComment) as ->.
    { unfold Sample.sMarkEq in Hax. apply bool_decide_eq_true in Hax as [E' _].
      congruence. }
    apply excludes_comment.
Qed.

Lemma sRemoveFromSet_member a m s :
  Sample.sMarkEq m a = false -> Sample.sIsInSet a s = true ->
  Sample.sIsInSet a (Sample.sRemoveFromSet m s) = true.
Proof.
  intros Hne. induction s as [|x r IH]; simpl; [auto|].
  intros H. destruct (Sample.sMarkEq m x) eqn:Emx.
  - destruct (Sample.sMarkEq a x) eqn:Eax; [|exact H].
    rewrite sMarkEq_sym in Eax.
    rewrite (sMarkEq_trans _ _ _ Emx Eax) in Hne. discriminate.
  - simpl. destruct (Sample.sMarkEq a x); [reflexivity|]. apply IH. exact H.
Qed.

Lemma sIsInSet_elem a s :
  Sample.sIsInSet a s = true -> exists x, In x s /\ Sample.sMarkEq a x = true.
Proof. apply existsb_exists. Qed.

Lemma sIsInSet_eq a x s :
  Sample.sMarkEq a x = true -> Sample.sIsInSet x s = true ->
  Sample.sIsInSet a s = true.
Proof.
  intros Hax H. apply existsb_exists in H as (y & Hy & Hxy).
  apply existsb_exists. exists y. split; [exact Hy|].
  eapply sMarkEq_trans; eassumption.
Qed.

Lemma sMarkEq_type a b :
  Sample.sMarkEq a b = true -> Sample.sm_type a = Sample.sm_type b.
Proof. unfold Sample.sMarkEq. rewrite bool_decide_eq_true. tauto. Qed.

#[global] Instance sampleMarkLaws : MarkSetLaws (SA := Sample.schemaAPI) :=
  {| mark_eq_refl := sMarkEq_refl;
     inSet_remove_keeps := sRemoveFromSet_member;
     inSet_elem := sIsInSet_elem;
     inSet_eq := sIsInSet_eq;
     mark_eq_type := sMarkEq_type |}.

End SampleFacts.

Section Checks.
Context `{SA : SchemaAPI} `{DA : DomAPI}.

Lemma FreshIds_check pc :
  forallb (fun f => (nc_id f <? nextId pc)%nat) (pnodes pc) = true ->
  FreshIds pc.
Proof.
  intros H j f Hj. unfold nodeAt in Hj.
  destruct (j <? 0); [discriminate|].
  rewrite forallb_forall in H.
  apply Nat.ltb_lt. apply H. eapply list_elem_of_In, list_elem_of_lookup_2. exact Hj.
Qed.

Lemma WellFormed_check pc :
  ((0 <=? open pc) && (open pc <? Z.of_nat (length (pnodes pc))) &&
   bool_decide (NoDup (map nc_id (pnodes pc))))%bool = true ->
  WellFormed pc.
Proof.
  rewrite !andb_true_iff, bool_decide_eq_true, Z.leb_le, Z.ltb_lt.
  intros [[H1 H2] H3]. split; [split|]; assumption.
Qed.

End Checks.

Lemma endState_run {A} (r : Res A) (a : A) (otherwise : ParseContext) :
  Sample.resultOf r = Some a -> r = Done a (Sample.endState r otherwise).
Proof. destruct r; simpl; intros H; try discriminate. injection H as <-. reflexivity. Qed.

Lemma stateAfter_run {A} (m : M A) (pc : ParseContext) (a : A) :
  Sample.resultOf (m pc) = Some a -> m pc = Done a (Sample.stateAfter m pc).
Proof. apply endState_run. Qed.


(* ===================================================================== *)
(** ** Whitespace options *)
(* ===================================================================== *)

Section WhitespaceBits.
Context `{SA : SchemaAPI}.

Lemma hasOpt_bit x n :
  0 <= n -> hasOpt x (2 ^ n) = Z.testbit x n.
Proof.
  intros Hn. unfold hasOpt.
  destruct (Z.testbit x n) eqn:E.
  - apply negb_true_iff, Z.eqb_neq. intros H.
    assert (Z.testbit (Z.land x (2 ^ n)) n = true).
    { rewrite Z.land_spec, E, Z.pow2_bits_true by lia. reflexivity. }
    rewrite H, Z.bits_0 in H0. discriminate.
  - apply negb_false_iff, Z.eqb_eq. apply Z.bits_inj'. intros k Hk.
    rewrite Z.land_spec, Z.bits_0.
    destruct (Z.eq_dec k n) as [->|Hne].
    + rewrite E. reflexivity.
    + rewrite Z.pow2_bits_false by lia. apply andb_false_r.
Qed.

Lemma hasOpt_preserve x : hasOpt x OPT_PRESERVE_WS = Z.testbit x 0.
Proof. apply (hasOpt_bit x 0). lia. Qed.

Lemma hasOpt_full x : hasOpt x OPT_PRESERVE_WS_FULL = Z.testbit x 1.
Proof. apply (hasOpt_bit x 1). lia. Qed.

Lemma hasOpt_open_left x : hasOpt x OPT_OPEN_LEFT = Z.testbit x 2.
Proof. apply (hasOpt_bit x 2). lia. Qed.

(** X1.  The options that [wsOptionsFor] returns never carry the
    open-left bit.  An explicit [preserveWhitespace] option decides
    alone, whatever the node type and the inherited options are:
    [false] clears both whitespace bits, [true] sets the preserve bit
    only, ["full"] sets both.  Without the option a node type with
    [whitespace: "pre"] sets both bits.  In every case the full bit
    comes with the preserve bit if it does so in the inherited
    options. *)
Theorem wsOptionsFor_bits (type : option NodeType) (pw : option PreserveWS)
    (base : Z) :
  hasOpt (wsOptionsFor type pw base) OPT_OPEN_LEFT = false /\
  (forall p, pw = Some p ->
     hasOpt (wsOptionsFor type pw base) OPT_PRESERVE_WS
     = match p with PWFalse => false | _ => true end /\
     hasOpt (wsOptionsFor type pw base) OPT_PRESERVE_WS_FULL
     = match p with PWFull => true | _ => false end) /\
  (forall t, pw = None -> type = Some t -> nt_whitespace t = "pre" ->
     hasOpt (wsOptionsFor type pw base) OPT_PRESERVE_WS = true /\
     hasOpt (wsOptionsFor type pw base) OPT_PRESERVE_WS_FULL = true) /\
  ((hasOpt base OPT_PRESERVE_WS_FULL = true ->
    hasOpt base OPT_PRESERVE_WS = true) ->
   hasOpt (wsOptionsFor type pw base) OPT_PRESERVE_WS_FULL = true ->
   hasOpt (wsOptionsFor type pw base) OPT_PRESERVE_WS = true).
Proof.
  rewrite !hasOpt_open_left, !hasOpt_preserve, !hasOpt_full.
  unfold wsOptionsFor.
  split; [|split; [|split]].
  - destruct pw as [[]|]; try reflexivity.
    destruct (match type with Some t => _ | None => _ end); [reflexivity|].
    rewrite Z.land_spec. change (Z.lnot OPT_OPEN_LEFT) with (-5).
    replace (Z.testbit (-5) 2) with false by reflexivity. apply andb_false_r.
  - intros p ->. destruct p; split; reflexivity.
  - intros t -> -> Hpre. rewrite Hpre. split; reflexivity.
  - intros Hbase. destruct pw as [[]|]; try (intros; reflexivity || discriminate).
    destruct (match type with Some t => _ | None => _ end); [reflexivity|].
    rewrite !Z.land_spec. change (Z.lnot OPT_OPEN_LEFT) with (-5).
    replace (Z.testbit (-5) 1) with true by reflexivity.
    replace (Z.testbit (-5) 0) with true by reflexivity.
    rewrite !andb_true_r. exact Hbase.
Qed.

End WhitespaceBits.

(* ===================================================================== *)
(** ** Style declarations *)
(* ===================================================================== *)

Section StylePairs.

Lemma spanWhile_all p s a b :
  JS.spanWhile p s = (a, b) -> allChars p a = true /\ s = (a ++ b)%string.
Proof.
  revert a b. induction s as [|c r IH]; simpl; intros a b H.
  - injection H as <- <-. auto.
  - destruct (p c) eqn:Ec.
    + destruct (JS.spanWhile p r) as [a' b'] eqn:E.
      injection H as <- <-. destruct (IH _ _ eq_refl) as [Ha ->].
      simpl. rewrite Ec, Ha. auto.
    + injection H as <- <-. auto.
Qed.

Lemma styleDeclAt_name s name value rest :
  JS.styleDeclAt s = Some (name, value, rest) ->
  name <> "" /\ allChars JS.isWordOrDash name = true /\ value <> "".
Proof.
  unfold JS.styleDeclAt.
  destruct (JS.spanWhile JS.isWordOrDash (JS.skipSpace s)) as [n s2] eqn:E1.
  destruct (JS.isEmpty n) eqn:En; [discriminate|].
  destruct (JS.skipSpace s2) as [|c s4]; [discriminate|].
  destruct (JS.isChar 58 c); [|discriminate].
  destruct (JS.spanWhile _ (JS.skipSpace s4)) as [v r] eqn:E2.
  destruct (JS.isEmpty v) eqn:Ev.
  - destruct (JS.lastSkipped s4); [|discriminate].
    intros H. injection H as <- <- <-.
    apply spanWhile_all in E1 as [Ha _].
    split; [intros ->; discriminate|]. split; [exact Ha|discriminate].
  - intros H. injection H as <- <- <-.
    apply spanWhile_all in E1 as [Ha _].
    split; [intros ->; discriminate|]. split; [exact Ha|].
    intros ->. discriminate.
Qed.

Lemma parseStylesFrom_pairs n s :
  exists pairs,
    parseStylesFrom n s = pairsOf pairs /\
    Forall (fun nv => fst nv <> "" /\ allChars JS.isWordOrDash (fst nv) = true)
           pairs.
Proof.
  revert s. induction n as [|k IH]; intros s; simpl.
  - exists []. split; [reflexivity|constructor].
  - destruct (JS.styleDeclAt s) as [[[name value] rest]|] eqn:E.
    + destruct (IH rest) as (pairs & -> & Hall).
      exists ((name, JS.trim value) :: pairs). split; [reflexivity|].
      constructor; [|exact Hall].
      apply styleDeclAt_name in E as (H1 & H2 & _). auto.
    + destruct s as [|c r]; [exists []; split; [reflexivity|constructor]|].
      apply IH.
Qed.

(** X2.  [parseStyles] returns its result as a flat list of
    property/value pairs: the list has even length, and every entry at
    an even index is a property name, a non-empty word of letters,
    digits, [_] and [-].  So the loop of [readStyles], which reads
    [styles[i]] and [styles[i + 1]] in steps of two, always finds a
    name with a value behind it. *)
Theorem parseStyles_pairs (style : string) :
  exists pairs,
    parseStyles style = pairsOf pairs /\
    Nat.even (length (parseStyles style)) = true /\
    Forall (fun nv => fst nv <> "" /\ allChars JS.isWordOrDash (fst nv) = true)
           pairs.
Proof.
  unfold parseStyles.
  destruct (parseStylesFrom_pairs (S (String.length style)) style)
    as (pairs & Heq & Hall).
  exists pairs. split; [exact Heq|]. split; [|exact Hall].
  rewrite Heq. clear. induction pairs as [|p l IH]; [reflexivity|exact IH].
Qed.

End StylePairs.

(* ===================================================================== *)
(** ** Pending marks and the stash *)
(* ===================================================================== *)

Section Stash.
Context `{SA : SchemaAPI} `{DA : DomAPI}.

Lemma popFromStashMark_none mark stash :
  NodeContext.popFromStashMark mark stash = None <->
  forall y, In y stash -> mark_eq mark y = false.
Proof.
  induction stash as [|x r IH]; simpl.
  - split; [intros _ y []|reflexivity].
  - destruct (NodeContext.popFromStashMark mark r) as [[m r']|].
    + split; [discriminate|]. intros H.
      assert (Hr : forall y, In y r -> mark_eq mark y = false) by auto.
      apply IH in Hr. discriminate.
    + destruct (mark_eq mark x) eqn:E.
      * split; [discriminate|]. intros H. rewrite (H x) in E by auto. discriminate.
      * split; [|reflexivity]. intros _ y [<-|Hy]; [exact E|].
        apply IH; [reflexivity|exact Hy].
Qed.

(** X3.  [popFromStashMark] takes the last stashed mark that is equal
    to the given one: the mark it returns is equal to the given mark,
    no mark behind it in the stash is, and the stash that is left is the
    old one without that one entry, in the same order.  It returns
    nothing exactly when no stashed mark is equal to the given one. *)
Theorem popFromStashMark_last (mark : Mark) (stash : list Mark) :
  (forall found rest,
      NodeContext.popFromStashMark mark stash = Some (found, rest) ->
      exists l1 l2,
        stash = l1 ++ found :: l2 /\ rest = l1 ++ l2 /\
        mark_eq mark found = true /\
        forall y, In y l2 -> mark_eq mark y = false) /\
  (NodeContext.popFromStashMark mark stash = None <->
   forall y, In y stash -> mark_eq mark y = false).
Proof.
  split; [|apply popFromStashMark_none].
  induction stash as [|x r IH]; simpl; intros found rest H; [discriminate|].
  destruct (NodeContext.popFromStashMark mark r) as [[m r']|] eqn:E.
  - injection H as <- <-.
    destruct (IH _ _ eq_refl) as (l1 & l2 & -> & -> & Heq & Hlast).
    exists (x :: l1), l2. auto.
  - destruct (mark_eq mark x) eqn:Ex; [|discriminate].
    injection H as <- <-. exists [], r. repeat split; auto.
    apply popFromStashMark_none. exact E.
Qed.

Lemma findSameMarkInSet_first m set :
  match findSameMarkInSet m set with
  | Some found =>
      exists l1 l2, set = l1 ++ found :: l2 /\ mark_eq m found = true /\
                    forall y, In y l1 -> mark_eq m y = false
  | None => forall y, In y set -> mark_eq m y = false
  end.
Proof.
  unfold findSameMarkInSet. induction set as [|x r IH]; simpl.
  - intros y [].
  - destruct (mark_eq m x) eqn:E.
    + exists [], r. repeat split; auto. intros y [].
    + destruct (List.find _ r) as [found|].
      * destruct IH as (l1 & l2 & -> & Heq & Hfirst).
        exists (x :: l1), l2. repeat split; auto.
        intros y [<-|Hy]; auto.
      * intros y [<-|Hy]; auto.
Qed.

(** X4.  [addPendingMark] changes the innermost open frame only, and
    of that frame only the pending marks and the stash: the mark is
    added to the pending marks, and the first pending mark equal to it,
    if there is one, is put at the end of the stash; without an equal
    pending mark the stash stays as it is.  The active marks, the
    content and all other frames are untouched. *)
Theorem addPendingMark_effect (mark : Mark) pc (t : NodeContext) :
  top pc = Some t ->
  exists t',
    addPendingMark mark pc
    = Done tt (setNodes pc (putNode (pnodes pc) (open pc) t')) /\
    nc_pendingMarks t' = addToSet mark (nc_pendingMarks t) /\
    t' = setPending (setStash t (nc_stashMarks t')) (nc_pendingMarks t') /\
    match findSameMarkInSet mark (nc_pendingMarks t) with
    | Some found =>
        nc_stashMarks t' = nc_stashMarks t ++ [found] /\
        exists l1 l2, nc_pendingMarks t = l1 ++ found :: l2 /\
                      mark_eq mark found = true /\
                      forall y, In y l1 -> mark_eq mark y = false
    | None =>
        nc_stashMarks t' = nc_stashMarks t /\
        forall y, In y (nc_pendingMarks t) -> mark_eq mark y = false
    end.
Proof.
  intros Htop. unfold addPendingMark, bind, getTop. rewrite Htop. simpl.
  unfold setTop, modify.
  pose proof (findSameMarkInSet_first mark (nc_pendingMarks t)) as Hfirst.
  eexists. split; [reflexivity|].
  destruct (findSameMarkInSet mark (nc_pendingMarks t)) as [found|]; simpl.
  - split; [reflexivity|]. split; [reflexivity|]. split; [reflexivity|exact Hfirst].
  - split; [reflexivity|]. split; [destruct t; reflexivity|].
    split; [reflexivity|exact Hfirst].
Qed.

End Stash.

Section RemovePending.
Context `{SA : SchemaAPI} `{DA : DomAPI}.

Lemma removePendingFrom_levels cnt mark upto : forall depth pc,
  depth = Z.of_nat cnt - 1 ->
  depth < Z.of_nat (length (pnodes pc)) ->
  exists stop pc',
    removePendingFrom cnt depth mark upto pc = Done tt pc' /\
    open pc' = open pc /\
    length (pnodes pc') = length (pnodes pc) /\
    0 <= stop /\ (stop <= depth \/ (cnt = O /\ stop = 0)) /\
    (forall j f, nodeAt (pnodes pc) j = Some f ->
       nodeAt (pnodes pc') j
       = Some (if ((stop <=? j) && (j <=? depth))%bool
               then removeFromLevel mark f else f)) /\
    (forall j f, stop < j <= depth -> nodeAt (pnodes pc) j = Some f ->
       Some (nc_id f) <> upto) /\
    (stop = 0 \/
     exists f, nodeAt (pnodes pc) stop = Some f /\ Some (nc_id f) = upto).
Proof.
  induction cnt as [|k IH]; intros depth pc Hd Hlen.
  - exists 0, pc. simpl. unfold ret.
    split; [reflexivity|]. split; [reflexivity|]. split; [reflexivity|].
    split; [lia|]. split; [right; auto|]. split; [|split; [|left; reflexivity]].
    2:{ intros j f Hj. lia. }
    intros j f Hj. rewrite Hj. pose proof (nodeAt_Some _ _ _ Hj) as [Hj0 _].
    replace (j <=? depth) with false by (symmetry; apply Z.leb_gt; lia).
    rewrite andb_false_r. reflexivity.
  - assert (H0 : 0 <= depth) by lia.
    destruct (nodeAt (pnodes pc) depth) as [level|] eqn:Hlevel.
    2:{ unfold nodeAt in Hlevel.
        destruct (depth <? 0) eqn:E; [apply Z.ltb_lt in E; lia|].
        apply lookup_ge_None in Hlevel. lia. }
    cbn [removePendingFrom]. unfold bind at 1, get. unfold bind at 1, defined.
    rewrite Hlevel. unfold ret at 1. unfold bind at 1, modify.
    set (pc1 := setNodes pc (putNode (pnodes pc) depth (removeFromLevel mark level))).
    assert (Hlen1 : length (pnodes pc1) = length (pnodes pc))
      by (apply putNode_length).
    assert (Hat1 : forall j f, nodeAt (pnodes pc) j = Some f ->
               nodeAt (pnodes pc1) j
               = Some (if j =? depth then removeFromLevel mark f else f)).
    { intros j f Hj. unfold pc1. cbn [pnodes setNodes].
      destruct (Z.eqb_spec j depth) as [->|Hne].
      - rewrite nodeAt_putNode_eq by (try lia; apply nodeAt_Some in Hj; lia).
        congruence.
      - rewrite nodeAt_putNode_ne by congruence. exact Hj. }
    destruct (bool_decide (Some (nc_id level) = upto)) eqn:Eup.
    + apply bool_decide_eq_true in Eup.
      exists depth, pc1. unfold ret.
      split; [reflexivity|]. split; [reflexivity|]. split; [exact Hlen1|].
      split; [exact H0|]. split; [left; lia|]. split; [|split].
      * intros j f Hj. rewrite (Hat1 j f Hj).
        destruct (Z.eqb_spec j depth) as [->|Hne].
        -- rewrite Z.leb_refl. reflexivity.
        -- destruct (depth <=? j) eqn:E1, (j <=? depth) eqn:E2; try reflexivity.
           apply Z.leb_le in E1, E2. lia.
      * intros j f Hj. lia.
      * right. exists level. auto.
    + apply bool_decide_eq_false in Eup.
      destruct (IH (depth - 1) pc1 ltac:(lia) ltac:(lia))
        as (stop & pc' & Hrun & Hopen & Hl & Hs0 & Hs1 & Hat & Hno & Hstop).
      exists stop, pc'. split; [exact Hrun|]. split; [exact Hopen|].
      split; [congruence|]. split; [exact Hs0|]. split; [lia|].
      split; [|split].
      * intros j f Hj. rewrite (Hat j _ (Hat1 j f Hj)).
        destruct (Z.eqb_spec j depth) as [->|Hne].
        -- replace (depth <=? depth - 1) with false
             by (symmetry; apply Z.leb_gt; lia).
           rewrite andb_false_r, Z.leb_refl, andb_true_r.
           replace (stop <=? depth) with true by (symmetry; apply Z.leb_le; lia).
           reflexivity.
        -- destruct (stop <=? j) eqn:E1; [|reflexivity]. cbn [andb].
           destruct (j <=? depth - 1) eqn:E2, (j <=? depth) eqn:E3;
             try reflexivity; apply Z.leb_le in E1;
             [apply Z.leb_le in E2; apply Z.leb_gt in E3; lia
             |apply Z.leb_gt in E2; apply Z.leb_le in E3; lia].
      * intros j f Hj Hf. destruct (Z.eq_dec j depth) as [->|Hne].
        -- congruence.
        -- apply (Hno j f); [lia|].
           rewrite (Hat1 j f Hf).
           destruct (Z.eqb_spec j depth); [contradiction|reflexivity].
      * destruct Hstop as [->|(f & Hf & Hid)]; [left; reflexivity|].
        destruct Hs1 as [Hs1|[_ Hs]]; [|left; exact Hs].
        right. destruct (nodeAt (pnodes pc) stop) as [g|] eqn:Hg.
        -- rewrite (Hat1 stop g Hg) in Hf.
           destruct (Z.eqb_spec stop depth); [lia|].
           exists g. split; [reflexivity|congruence].
        -- apply nodeAt_Some in Hf. unfold nodeAt in Hg.
           destruct (stop <? 0) eqn:E; [apply Z.ltb_lt in E; lia|].
           apply lookup_ge_None in Hg. lia.
Qed.

(** X5.  [removePendingMark] walks from the innermost open frame
    outward and stops at the frame [upto]: the frames from the open one
    down to the first frame that is [upto] get the mark removed (from
    the pending marks, or else from the active marks with a stashed
    equal mark put back), the frames below it and the frames above the
    open one are left untouched, and no frame is added or dropped.
    When no frame on the way is [upto], all frames down to the root
    are treated.  The call always returns. *)
Theorem removePendingMark_levels (mark : Mark) (upto : option nat) pc :
  0 <= open pc < Z.of_nat (length (pnodes pc)) ->
  exists stop pc',
    removePendingMark mark upto pc = Done tt pc' /\
    open pc' = open pc /\
    length (pnodes pc') = length (pnodes pc) /\
    0 <= stop <= open pc /\
    (forall j f, nodeAt (pnodes pc) j = Some f ->
       nodeAt (pnodes pc') j
       = Some (if ((stop <=? j) && (j <=? open pc))%bool
               then removeFromLevel mark f else f)) /\
    (forall j f, stop < j <= open pc -> nodeAt (pnodes pc) j = Some f ->
       Some (nc_id f) <> upto) /\
    (stop = 0 \/
     exists f, nodeAt (pnodes pc) stop = Some f /\ Some (nc_id f) = upto).
Proof.
  intros Hopen. unfold removePendingMark, bind, get.
  destruct (removePendingFrom_levels (Z.to_nat (open pc + 1)) mark upto
              (open pc) pc ltac:(lia) ltac:(lia))
    as (stop & pc' & Hrun & Ho & Hl & Hs0 & Hs1 & Hat & Hno & Hstop).
  exists stop, pc'. split; [exact Hrun|]. split; [exact Ho|].
  split; [exact Hl|]. split; [lia|]. auto.
Qed.

End RemovePending.

(* ===================================================================== *)
(** ** The first rule that matches *)
(* ===================================================================== *)

Section FirstMatch.
Context `{SA : SchemaAPI} `{DA : DomAPI}.

Lemma contextOk_value rule pc b pc' :
  contextOk rule pc = Done b pc' -> contextOk rule pc = Done b pc.
Proof. intros H. rewrite H. f_equal. eapply contextOk_state. exact H. Qed.

Lemma matchTagFrom_first cands dom pc r pc' :
  matchTagFrom cands dom pc = Done r pc' ->
  match r with
  | Some i =>
      exists l1 l2,
        cands = l1 ++ i :: l2 /\ tagRuleAccepts pc dom i /\
        forall j, In j l1 -> ~ tagRuleAccepts pc dom j
  | None => pc' = pc /\ forall j, In j cands -> ~ tagRuleAccepts pc dom j
  end.
Proof.
  induction cands as [|i rest IH]; intros H; simpl in H.
  - unfold ret in H. injection H as <- <-. split; [reflexivity|intros j []].
  - unfold bind at 1, get in H. unfold bind at 1, defined in H.
    destruct (ruleAt pc i) as [rule|] eqn:Hr; [|discriminate].
    unfold ret at 1 in H. unfold bind at 1 in H.
    assert (Hskip : ~ tagRuleAccepts pc dom i ->
              matchTagFrom rest dom pc = Done r pc' ->
              match r with
              | Some i0 =>
                  exists l1 l2,
                    i :: rest = l1 ++ i0 :: l2 /\ tagRuleAccepts pc dom i0 /\
                    forall j, In j l1 -> ~ tagRuleAccepts pc dom j
              | None => pc' = pc /\
                        forall j, In j (i :: rest) -> ~ tagRuleAccepts pc dom j
              end).
    { intros Hno Hrest. specialize (IH Hrest). destruct r as [i0|].
      - destruct IH as (l1 & l2 & -> & Hacc & Hfirst).
        exists (i :: l1), l2. split; [reflexivity|]. split; [exact Hacc|].
        intros j [<-|Hj]; auto.
      - destruct IH as [-> Hall]. split; [reflexivity|].
        intros j [<-|Hj]; auto. }
    destruct (matches (doc pc) dom (default "" (tag rule)) &&
              namespaceOk (doc pc) dom rule)%bool eqn:Etest.
    2:{ unfold ret at 1 in H. apply Hskip; [|exact H].
        intros (rule' & Hr' & Hm & Hn & _).
        assert (rule' = rule) by congruence. subst rule'.
        rewrite Hm, Hn in Etest. discriminate. }
    destruct (contextOk rule pc) as [ok pc1| |] eqn:Hok; try discriminate.
    pose proof (contextOk_state _ _ _ _ Hok) as ->.
    destruct ok.
    2:{ apply Hskip; [|exact H].
        intros (rule' & Hr' & _ & _ & Hc & _).
        assert (rule' = rule) by congruence. subst rule'. congruence. }
    unfold bind at 1 in H.
    destruct (runGetAttrs i rule (GAElement (doc pc) dom) pc)
      as [r1 pc2| |] eqn:Hg; try discriminate.
    unfold runGetAttrs in Hg.
    apply andb_true_iff in Etest as [Hm Hn].
    assert (Haccept : (forall f, getAttrs rule = Some f ->
                         f (GAElement (doc pc) dom) <> GAFalse) ->
                      tagRuleAccepts pc dom i).
    { intros Hf. exists rule. auto. }
    destruct (getAttrs rule) as [f|] eqn:Ef.
    + destruct (f (GAElement (doc pc) dom)) eqn:Efa.
      * unfold ret in Hg. injection Hg as <- <-.
        apply Hskip; [|exact H].
        intros (rule' & Hr' & _ & _ & _ & Hf).
        assert (rule' = rule) by congruence. subst rule'.
        apply (Hf f Ef). exact Efa.
      * unfold bind, writeAttrs, modify, ret in Hg. injection Hg as <- <-.
        unfold ret in H. injection H as <- <-.
        exists [], rest. split; [reflexivity|]. split; [|intros j []].
        apply Haccept. intros f' [= <-]. congruence.
      * unfold bind, writeAttrs, modify, ret in Hg. injection Hg as <- <-.
        unfold ret in H. injection H as <- <-.
        exists [], rest. split; [reflexivity|]. split; [|intros j []].
        apply Haccept. intros f' [= <-]. congruence.
    + unfold ret in Hg. injection Hg as <- <-.
      unfold ret in H. injection H as <- <-.
      exists [], rest. split; [reflexivity|]. split; [|intros j []].
      apply Haccept. intros f' [=].
Qed.

(** X6.  [matchTag] returns the first rule, in the order of [tags] and
    behind the rule [after] if one is given, that passes all its tests
    for the element: its selector matches, its namespace is the
    element's if it names one, its context fits, and its [getAttrs]
    does not return [false].  It returns nothing, and leaves the state
    as it is, exactly when no such rule passes. *)
Theorem matchTag_first (dom : DOMNode) (after : option nat) pc r pc' :
  matchTag dom after pc = Done r pc' ->
  match r with
  | Some i =>
      exists l1 l2,
        drop (startAfter after (tags (parser pc))) (tags (parser pc))
        = l1 ++ i :: l2 /\
        tagRuleAccepts pc dom i /\
        forall j, In j l1 -> ~ tagRuleAccepts pc dom j
  | None =>
      pc' = pc /\
      forall j,
        In j (drop (startAfter after (tags (parser pc))) (tags (parser pc))) ->
        ~ tagRuleAccepts pc dom j
  end.
Proof.
  unfold matchTag, bind, get. apply matchTagFrom_first.
Qed.

Lemma prefix_length p s :
  String.prefix p s = true -> exists r, s = (p ++ r)%string.
Proof.
  revert s. induction p as [|c p IH]; intros s H.
  - exists s. reflexivity.
  - destruct s as [|d s]; simpl in H; [discriminate|].
    destruct (Ascii.ascii_dec c d) as [->|]; [|discriminate].
    destruct (IH s H) as (r & ->). exists r. reflexivity.
Qed.

Lemma get_append_length p r :
  String.get (String.length p) (p ++ r) =
  match r with String c _ => Some c | EmptyString => None end.
Proof. induction p as [|c p IH]; simpl; [destruct r; reflexivity|exact IH]. Qed.

Lemma sliceFrom_append p c r :
  JS.sliceFrom (S (String.length p)) (p ++ String c r) = r.
Proof. induction p as [|d p IH]; simpl; [reflexivity|exact IH]. Qed.

Lemma length_append_string (p r : string) :
  String.length (p ++ r) = (String.length p + String.length r)%nat.
Proof. induction p as [|c p IH]; simpl; [reflexivity|]. rewrite IH. reflexivity. Qed.

Lemma isChar_61 c : JS.isChar 61 c = true -> c = "="%char.
Proof.
  unfold JS.isChar, JS.code. intros H. apply N.eqb_eq in H.
  rewrite <- (ascii_N_embedding c), H. reflexivity.
Qed.

(** When a rule's style starts with the property, the value test of
    [matchStyle] lets it through exactly if the style is the property
    alone or the property, [=] and the value. *)
Lemma valueMismatch_false style prop value :
  String.prefix prop style = true ->
  (valueMismatch style prop value = false <->
   (String.length style <= String.length prop)%nat \/
   style = (prop ++ "=" ++ value)%string).
Proof.
  intros Hp. destruct (prefix_length _ _ Hp) as (r & ->).
  unfold valueMismatch, JS.len. rewrite get_append_length, length_append_string.
  destruct r as [|c r].
  - simpl. rewrite Nat.add_0_r.
    rewrite Z.gtb_ltb, Z.ltb_irrefl.
    split; [left; lia|reflexivity].
  - replace (Z.of_nat (String.length prop + String.length (String c r)) >?
             Z.of_nat (String.length prop))
      with true by (symmetry; rewrite Z.gtb_ltb; apply Z.ltb_lt; simpl; lia).
    rewrite sliceFrom_append. cbn [andb]. split.
    + intros H. right. apply orb_false_iff in H as [H1 H2].
      apply negb_false_iff in H1, H2.
      apply isChar_61 in H1. apply String.eqb_eq in H2. subst. reflexivity.
    + intros [Hl|Heq]; [simpl in Hl; lia|].
      assert (String c r = ("=" ++ value)%string) as Hr.
      { clear -Heq. induction prop as [|d p IH]; simpl in Heq; [exact Heq|].
        injection Heq as Heq. exact (IH Heq). }
      injection Hr as -> ->. rewrite String.eqb_refl. reflexivity.
Qed.

Lemma matchStyleFrom_first cands prop value pc r pc' :
  matchStyleFrom cands prop value pc = Done r pc' ->
  match r with
  | Some i =>
      exists l1 l2,
        cands = l1 ++ i :: l2 /\ styleRuleAccepts pc prop value i /\
        forall j, In j l1 -> ~ styleRuleAccepts pc prop value j
  | None => pc' = pc /\
            forall j, In j cands -> ~ styleRuleAccepts pc prop value j
  end.
Proof.
  induction cands as [|i rest IH]; intros H; simpl in H.
  - unfold ret in H. injection H as <- <-. split; [reflexivity|intros j []].
  - unfold bind at 1, get in H. unfold bind at 1, defined in H.
    destruct (ruleAt pc i) as [rule|] eqn:Hr; [|discriminate].
    unfold ret at 1 in H. unfold bind at 1 in H.
    assert (Hskip : ~ styleRuleAccepts pc prop value i ->
              matchStyleFrom rest prop value pc = Done r pc' ->
              match r with
              | Some i0 =>
                  exists l1 l2,
                    i :: rest = l1 ++ i0 :: l2 /\
                    styleRuleAccepts pc prop value i0 /\
                    forall j, In j l1 -> ~ styleRuleAccepts pc prop value j
              | None => pc' = pc /\
                        forall j, In j (i :: rest) ->
                                  ~ styleRuleAccepts pc prop value j
              end).
    { intros Hno Hrest. specialize (IH Hrest). destruct r as [i0|].
      - destruct IH as (l1 & l2 & -> & Hacc & Hfirst).
        exists (i :: l1), l2. split; [reflexivity|]. split; [exact Hacc|].
        intros j [<-|Hj]; auto.
      - destruct IH as [-> Hall]. split; [reflexivity|].
        intros j [<-|Hj]; auto. }
    unfold propMismatch in H.
    destruct (String.prefix prop (default "" (style rule))) eqn:Ep; cbn [negb] in H.
    2:{ unfold ret at 1 in H. apply Hskip; [|exact H].
        intros (rule' & Hr' & Hp & _).
        assert (rule' = rule) by congruence. subst rule'. congruence. }
    unfold bind at 1 in H.
    destruct (contextOk rule pc) as [ok pc1| |] eqn:Hok; try discriminate.
    pose proof (contextOk_state _ _ _ _ Hok) as ->.
    destruct ok; cbn [negb] in H.
    2:{ unfold ret at 1 in H. apply Hskip; [|exact H].
        intros (rule' & Hr' & _ & _ & Hc & _).
        assert (rule' = rule) by congruence. subst rule'. congruence. }
    unfold ret at 1 in H.
    destruct (valueMismatch (default "" (style rule)) prop value) eqn:Ev.
    { apply Hskip; [|exact H].
      intros (rule' & Hr' & _ & Hv & _).
      assert (rule' = rule) by congruence. subst rule'.
      apply (valueMismatch_false _ _ value Ep) in Hv. congruence. }
    apply (valueMismatch_false _ _ value Ep) in Ev.
    unfold bind at 1 in H.
    destruct (runGetAttrs i rule (GAString value) pc)
      as [r1 pc2| |] eqn:Hg; try discriminate.
    unfold runGetAttrs in Hg.
    assert (Haccept : (forall f, getAttrs rule = Some f ->
                         f (GAString value) <> GAFalse) ->
                      styleRuleAccepts pc prop value i).
    { intros Hf. exists rule. auto. }
    destruct (getAttrs rule) as [f|] eqn:Ef.
    + destruct (f (GAString value)) eqn:Efa.
      * unfold ret in Hg. injection Hg as <- <-.
        apply Hskip; [|exact H].
        intros (rule' & Hr' & _ & _ & _ & Hf).
        assert (rule' = rule) by congruence. subst rule'.
        apply (Hf f Ef). exact Efa.
      * unfold bind, writeAttrs, modify, ret in Hg. injection Hg as <- <-.
        unfold ret in H. injection H as <- <-.
        exists [], rest. split; [reflexivity|]. split; [|intros j []].
        apply Haccept. intros f' [= <-]. congruence.
      * unfold bind, writeAttrs, modify, ret in Hg. injection Hg as <- <-.
        unfold ret in H. injection H as <- <-.
        exists [], rest. split; [reflexivity|]. split; [|intros j []].
        apply Haccept. intros f' [= <-]. congruence.
    + unfold ret in Hg. injection Hg as <- <-.
      unfold ret in H. injection H as <- <-.
      exists [], rest. split; [reflexivity|]. split; [|intros j []].
      apply Haccept. intros f' [=].
Qed.

(** X7.  [matchStyle] returns the first rule, in the order of [styles]
    and behind the rule [after] if one is given, whose style is the
    property alone or the property followed by [=] and exactly the
    value, whose context fits and whose [getAttrs] does not return
    [false] for the value.  It returns nothing, and leaves the state as
    it is, exactly when no such rule passes. *)
Theorem matchStyle_first (prop value : string) (after : option nat) pc r pc' :
  matchStyle prop value after pc = Done r pc' ->
  match r with
  | Some i =>
      exists l1 l2,
        drop (startAfter after (styles (parser pc))) (styles (parser pc))
        = l1 ++ i :: l2 /\
        styleRuleAccepts pc prop value i /\
        forall j, In j l1 -> ~ styleRuleAccepts pc prop value j
  | None =>
      pc' = pc /\
      forall j,
        In j (drop (startAfter after (styles (parser pc))) (styles (parser pc))) ->
        ~ styleRuleAccepts pc prop value j
  end.
Proof.
  unfold matchStyle, bind, get. apply matchStyleFrom_first.
Qed.

End FirstMatch.

(* ===================================================================== *)
(** ** The index lists of the rule store *)
(* ===================================================================== *)

Section IndexLists.
Context `{SA : SchemaAPI} `{DA : DomAPI}.

Lemma selectFrom_sorted test k (l : list ParseRule) :
  StronglySorted lt (selectFrom test k l).
Proof.
  revert k. induction l as [|x l IH]; intros k; simpl; [constructor|].
  destruct (test x); [|apply IH].
  constructor; [apply IH|].
  apply Forall_forall. intros n Hn. apply list_elem_of_In in Hn.
  apply selectFrom_lookup in Hn. lia.
Qed.

Lemma newDOMParser_styles schema rs parser :
  newDOMParser schema rs = Some parser ->
  styles parser
  = selectFrom (fun r => negb (JS.truthy (tag r)) && JS.truthy (style r))%bool O rs.
Proof.
  unfold newDOMParser. intros H.
  match type of H with
  | match ?x with _ => _ end = _ => destruct x; [|discriminate]
  end.
  injection H as <-. reflexivity.
Qed.

(** X8.  The constructor of [DOMParser] files every rule under one of
    two index lists: [tags] holds, in ascending order, exactly the
    indices of the rules that have a tag, and [styles], in ascending
    order, exactly the indices of the rules that have a style and no
    tag.  No index is in both lists, and a rule with neither a tag nor
    a style is in none, so that neither [matchTag] nor [matchStyle] ever
    returns it. *)
Theorem newDOMParser_index_lists (schema : Schema) (rs : list ParseRule)
    (parser : DOMParser) :
  newDOMParser schema rs = Some parser ->
  rules parser = rs /\
  (forall i, In i (tags parser) <->
             exists r, rs !! i = Some r /\ JS.truthy (tag r) = true) /\
  (forall i, In i (styles parser) <->
             exists r, rs !! i = Some r /\ JS.truthy (tag r) = false /\
                       JS.truthy (style r) = true) /\
  StronglySorted lt (tags parser) /\
  StronglySorted lt (styles parser) /\
  (forall i, In i (tags parser) -> ~ In i (styles parser)).
Proof.
  intros H.
  destruct (newDOMParser_tags _ _ _ H) as [Hrules Htags].
  pose proof (newDOMParser_styles _ _ _ H) as Hstyles.
  assert (Ht : forall i, In i (tags parser) <->
                 exists r, rs !! i = Some r /\ JS.truthy (tag r) = true).
  { intros i. rewrite Htags, selectFrom_lookup, Nat.sub_0_r.
    split; [intros [_ Hr]; exact Hr|]. intros Hr. split; [lia|exact Hr]. }
  assert (Hs : forall i, In i (styles parser) <->
                 exists r, rs !! i = Some r /\ JS.truthy (tag r) = false /\
                           JS.truthy (style r) = true).
  { intros i. rewrite Hstyles, selectFrom_lookup, Nat.sub_0_r. split.
    - intros [_ (r & Hr & Htest)]. exists r.
      apply andb_true_iff in Htest as [H1 H2]. apply negb_true_iff in H1. auto.
    - intros (r & Hr & H1 & H2). split; [lia|]. exists r.
      rewrite H1, H2. auto. }
  split; [exact Hrules|]. split; [exact Ht|]. split; [exact Hs|].
  split; [rewrite Htags; apply selectFrom_sorted|].
  split; [rewrite Hstyles; apply selectFrom_sorted|].
  intros i Hi Hi'. apply Ht in Hi as (r & Hr & Htag).
  apply Hs in Hi' as (r' & Hr' & Htag' & _). congruence.
Qed.

Lemma indexOf_first a (l : list nat) :
  In a l ->
  exists l1 l2, l = l1 ++ a :: l2 /\ indexOf a l = Z.of_nat (length l1).
Proof.
  induction l as [|y r IH]; simpl; [intros []|].
  intros Hin. destruct (bool_decide (y = a)) eqn:E.
  - apply bool_decide_eq_true in E. subst y. exists [], r. auto.
  - apply bool_decide_eq_false in E.
    destruct Hin as [->|Hin]; [contradiction|].
    destruct (IH Hin) as (l1 & l2 & -> & Hidx).
    exists (y :: l1), l2. split; [reflexivity|].
    rewrite Hidx. destruct (Z.of_nat (length l1) <? 0) eqn:El.
    + apply Z.ltb_lt in El. lia.
    + simpl length. lia.
Qed.

Lemma indexOf_absent a (l : list nat) : ~ In a l -> indexOf a l = -1.
Proof.
  induction l as [|y r IH]; simpl; [reflexivity|].
  intros Hno. destruct (bool_decide (y = a)) eqn:E.
  - apply bool_decide_eq_true in E. exfalso. auto.
  - rewrite IH by auto. reflexivity.
Qed.

(** The candidates of a scan that starts behind rule [a]: the
    indices above [a], when the list is ascending and holds [a]; the
    whole list when it does not hold [a]. *)
Lemma startAfter_later (l : list nat) a i :
  StronglySorted lt l -> In a l ->
  In i (drop (startAfter (Some a) l) l) -> (a < i)%nat.
Proof.
  intros Hs Ha Hi. destruct (indexOf_first a l Ha) as (l1 & l2 & -> & Hidx).
  unfold startAfter in Hi. rewrite Hidx in Hi.
  replace (Z.to_nat (Z.of_nat (length l1) + 1)) with (length l1 + 1)%nat in Hi by lia.
  assert (Hd : drop (length l1 + 1) (l1 ++ a :: l2) = l2).
  { rewrite (cons_middle a l1 l2), app_assoc.
    replace (length l1 + 1)%nat with (length (l1 ++ [a]))
      by (rewrite length_app; reflexivity).
    apply drop_app_length. }
  rewrite Hd in Hi.
  assert (Hall : Forall (lt a) l2).
  { clear -Hs. induction l1 as [|y l1 IH]; simpl in Hs;
      apply StronglySorted_inv in Hs as [Hs Hall]; [exact Hall|exact (IH Hs)]. }
  rewrite Forall_forall in Hall. apply Hall. apply list_elem_of_In. exact Hi.
Qed.

(** X9.  A scan that continues behind a rule makes progress: when
    [matchTag] or [matchStyle] is asked for a rule after rule [a] of
    its index list, the rule it returns stands behind [a] in the rule
    list.  The chain of non-consuming rules that [addElementByRule]
    follows for one element therefore never comes back to a rule it has
    used. *)
Theorem match_after_later (dom : DOMNode) (prop value : string) (a : nat)
    pc i pc' :
  StronglySorted lt (tags (parser pc)) ->
  StronglySorted lt (styles (parser pc)) ->
  (In a (tags (parser pc)) ->
   matchTag dom (Some a) pc = Done (Some i) pc' -> (a < i)%nat) /\
  (In a (styles (parser pc)) ->
   matchStyle prop value (Some a) pc = Done (Some i) pc' -> (a < i)%nat).
Proof.
  intros Ht Hs. split; intros Ha Hrun.
  - unfold matchTag, bind, get in Hrun.
    apply matchTagFrom_first in Hrun as (l1 & l2 & Hd & _).
    apply (startAfter_later _ _ _ Ht Ha). rewrite Hd.
    apply in_or_app. right. left. reflexivity.
  - unfold matchStyle, bind, get in Hrun.
    apply matchStyleFrom_first in Hrun as (l1 & l2 & Hd & _).
    apply (startAfter_later _ _ _ Hs Ha). rewrite Hd.
    apply in_or_app. right. left. reflexivity.
Qed.

End IndexLists.

(* ===================================================================== *)
(** ** Closing the frames above the open one *)
(* ===================================================================== *)

Section Closing.
Context `{SA : SchemaAPI} `{DA : DomAPI}.

Lemma closeFrom_parent cnt : forall i b l l' par,
  (0 < cnt)%nat ->
  closeFrom cnt i b l = Some l' ->
  nodeAt l (i - Z.of_nat cnt) = Some par ->
  exists n, created n /\
            nodeAt l' (i - Z.of_nat cnt)
            = Some (setContent par (nc_content par ++ [n])).
Proof.
  induction cnt as [|k IH]; intros i b l l' par Hpos H Hpar; [lia|].
  cbn [closeFrom] in H.
  destruct (nodeAt l (i - 1)) as [par0|] eqn:Ep; [|discriminate].
  destruct (nodeAt l i) as [child|] eqn:Ec; [|discriminate].
  destruct (NodeContext.finish child b) as [[[n|fr] child']|] eqn:Ef;
    try discriminate.
  pose proof (nodeAt_Some _ _ _ Ep) as [Hp0 Hpl].
  pose proof (nodeAt_Some _ _ _ Ec) as [Hc0 Hcl].
  destruct k as [|k'].
  - simpl in H. injection H as <-.
    replace (i - Z.of_nat 1) with (i - 1) in * by lia.
    assert (par = par0) as -> by congruence.
    exists n. split; [eapply finish_created; exact Ef|].
    apply nodeAt_putNode_eq; rewrite ?putNode_length; lia.
  - replace (i - Z.of_nat (S (S k'))) with (i - 1 - Z.of_nat (S k')) in * by lia.
    apply (IH (i - 1) b _ l' par ltac:(lia) H).
    rewrite !nodeAt_putNode_ne by lia. exact Hpar.
Qed.

(** X10.  [closeExtra] finishes the frames above the open one and
    hands each to its parent: afterwards the stack ends with the open
    frame, [open] is as before, the frames below the open one are
    untouched, and the open frame has got exactly one more child, the
    node made from the frame above it, if there was a frame above it,
    and is untouched otherwise.  A second call changes nothing. *)
Theorem closeExtra_closes (openEnd : bool) pc pc' (t : NodeContext) :
  top pc = Some t ->
  closeExtra openEnd pc = Done tt pc' ->
  open pc' = open pc /\
  Z.of_nat (length (pnodes pc')) = open pc + 1 /\
  (forall j f, j < open pc -> nodeAt (pnodes pc) j = Some f ->
               nodeAt (pnodes pc') j = Some f) /\
  (if Z.of_nat (length (pnodes pc)) - 1 >? open pc
   then exists n, created n /\
                  top pc' = Some (setContent t (nc_content t ++ [n]))
   else pc' = pc) /\
  (forall openEnd', closeExtra openEnd' pc' = Done tt pc').
Proof.
  intros Htop H.
  pose proof Htop as Htop'. unfold top in Htop'.
  pose proof (nodeAt_Some _ _ _ Htop') as [H0 Hlt].
  assert (Hidem : forall pc0, Z.of_nat (length (pnodes pc0)) = open pc0 + 1 ->
                  forall b, closeExtra b pc0 = Done tt pc0).
  { intros pc0 Hl b. unfold closeExtra.
    replace (Z.of_nat (length (pnodes pc0)) - 1 >? open pc0) with false;
      [reflexivity|].
    symmetry. rewrite Z.gtb_ltb. apply Z.ltb_ge. lia. }
  unfold closeExtra in H.
  destruct (Z.of_nat (length (pnodes pc)) - 1 >? open pc) eqn:E.
  - destruct (closeFrom _ _ _ _) as [l|] eqn:Hc; [|discriminate].
    injection H as <-.
    assert (Hgt := Zgt_cases (Z.of_nat (length (pnodes pc)) - 1) (open pc)).
    rewrite E in Hgt.
    pose proof (closeFrom_length _ _ _ _ _ Hc) as Hlen.
    assert (Hl' : Z.of_nat (length (take (Z.to_nat (open pc + 1)) l))
                  = open pc + 1).
    { rewrite length_take. lia. }
    assert (Hat : forall j, j <= open pc ->
              nodeAt (take (Z.to_nat (open pc + 1)) l) j = nodeAt l j).
    { intros j Hj. unfold nodeAt. destruct (j <? 0) eqn:Ej; [reflexivity|].
      apply Z.ltb_ge in Ej. apply lookup_take_lt. lia. }
    cbn [open pnodes setNodes].
    split; [reflexivity|]. split; [exact Hl'|]. split; [|split].
    + intros j f Hj Hf. rewrite Hat by lia.
      destruct (closeFrom_shape _ _ _ _ _ Hc j f Hf) as (f' & Hf' & _ & He).
      rewrite Hf'. f_equal. apply He. lia.
    + destruct (closeFrom_parent
                  (Z.to_nat (Z.of_nat (length (pnodes pc)) - 1 - open pc))
                  (Z.of_nat (length (pnodes pc)) - 1) openEnd (pnodes pc) l t
                  ltac:(lia) Hc) as (n & Hn & Hp).
      { replace (Z.of_nat (length (pnodes pc)) - 1 -
                 Z.of_nat (Z.to_nat (Z.of_nat (length (pnodes pc)) - 1 - open pc)))
          with (open pc) by lia. exact Htop'. }
      replace (Z.of_nat (length (pnodes pc)) - 1 -
               Z.of_nat (Z.to_nat (Z.of_nat (length (pnodes pc)) - 1 - open pc)))
        with (open pc) in Hp by lia.
      exists n. split; [exact Hn|]. unfold top. cbn [open pnodes setNodes].
      rewrite Hat by lia. exact Hp.
    + apply Hidem. exact Hl'.
  - injection H as <-.
    assert (Hle := Zgt_cases (Z.of_nat (length (pnodes pc)) - 1) (open pc)).
    rewrite E in Hle.
    split; [reflexivity|]. split; [lia|]. split; [auto|].
    split; [reflexivity|]. apply Hidem. lia.
Qed.

End Closing.

Section Syncing.
Context `{SA : SchemaAPI} `{DA : DomAPI}.

Lemma syncFrom_innermost cnt : forall i l to,
  match syncFrom cnt i l to with
  | Some d =>
      i - Z.of_nat cnt < d <= i /\
      option_map nc_id (nodeAt l d) = to /\
      forall j, d < j <= i -> option_map nc_id (nodeAt l j) <> to
  | None =>
      forall j, i - Z.of_nat cnt < j <= i -> option_map nc_id (nodeAt l j) <> to
  end.
Proof.
  induction cnt as [|k IH]; intros i l to; cbn [syncFrom].
  - intros j Hj. lia.
  - destruct (bool_decide (option_map nc_id (nodeAt l i) = to)) eqn:E.
    + apply bool_decide_eq_true in E. split; [lia|]. split; [exact E|].
      intros j Hj. lia.
    + apply bool_decide_eq_false in E. specialize (IH (i - 1) l to).
      destruct (syncFrom k (i - 1) l to) as [d|].
      * destruct IH as (Hd & Hid & Hno). split; [lia|]. split; [exact Hid|].
        intros j Hj. destruct (Z.eq_dec j i) as [->|Hne]; [exact E|].
        apply Hno. lia.
      * intros j Hj. destruct (Z.eq_dec j i) as [->|Hne]; [exact E|].
        apply IH. lia.
Qed.

(** X11.  [sync] looks for the frame [to] among the open frames, from
    the innermost outward.  When it finds it, it makes the innermost
    such frame the open one (the frames above stay on the stack until
    they are closed) and returns [true]; when [to] is not among the
    open frames it returns [false] and changes nothing.  The frames
    themselves are never changed. *)
Theorem sync_innermost (to : option nat) pc :
  exists b pc',
    sync to pc = Done b pc' /\
    pnodes pc' = pnodes pc /\
    (b = true ->
     pc' = setOpen pc (open pc') /\
     0 <= open pc' <= open pc /\
     option_map nc_id (nodeAt (pnodes pc) (open pc')) = to /\
     forall j, open pc' < j <= open pc ->
               option_map nc_id (nodeAt (pnodes pc) j) <> to) /\
    (b = false ->
     pc' = pc /\
     forall j, 0 <= j <= open pc ->
               option_map nc_id (nodeAt (pnodes pc) j) <> to).
Proof.
  unfold sync.
  pose proof (syncFrom_innermost (Z.to_nat (open pc + 1)) (open pc)
                (pnodes pc) to) as Hs.
  destruct (syncFrom _ _ _ _) as [d|].
  - destruct Hs as (Hd & Hid & Hno).
    exists true, (setOpen pc d). split; [reflexivity|]. split; [reflexivity|].
    split; [|discriminate]. intros _. cbn [open setOpen].
    split; [reflexivity|]. split; [lia|]. auto.
  - exists false, pc. split; [reflexivity|]. split; [reflexivity|].
    split; [discriminate|]. intros _. split; [reflexivity|].
    intros j Hj. apply Hs. lia.
Qed.

End Syncing.

(* ===================================================================== *)
(** ** Opening a frame and adding a node *)
(* ===================================================================== *)

Section Entering.
Context `{SA : SchemaAPI} `{DA : DomAPI}.

(** X12.  [enterInner] pushes exactly one frame on top of the frame
    that is open once the frames above it have been closed.  The new
    frame is the last of the stack and the open one; it is a new
    object; it has the given type, attributes and solidity, no content,
    no active and no stashed marks; its own marks are the active marks
    of its parent and its pending marks the pending marks of its
    parent, both taken after the parent's pending marks have been
    applied for the new type.  The parent keeps its identity, type,
    attributes, content and stash, and the frames below it are
    untouched. *)
Theorem enterInner_pushes (type : NodeType) (attrs : option Attrs)
    (solid : bool) (ws : option PreserveWS) pc pc' :
  enterInner type attrs solid ws pc = Done tt pc' ->
  exists pc1 par0 par child,
    closeExtra false pc = Done tt pc1 /\ top pc1 = Some par0 /\
    open pc' = open pc + 1 /\
    Z.of_nat (length (pnodes pc')) = open pc' + 1 /\
    nextId pc' = S (nextId pc) /\
    nodeAt (pnodes pc') (open pc) = Some par /\
    top pc' = Some child /\
    nc_id child = nextId pc /\ nc_type child = Some type /\
    nc_attrs child = attrs /\ nc_solid child = solid /\
    nc_content child = [] /\ nc_activeMarks child = [] /\
    nc_stashMarks child = [] /\
    nc_marks child = nc_activeMarks par /\
    nc_pendingMarks child = nc_pendingMarks par /\
    nc_activeMarks par
    = nc_activeMarks (NodeContext.applyPending (schemaNodes pc) par0 type) /\
    nc_pendingMarks par
    = nc_pendingMarks (NodeContext.applyPending (schemaNodes pc) par0 type) /\
    nc_id par = nc_id par0 /\ nc_type par = nc_type par0 /\
    nc_attrs par = nc_attrs par0 /\ nc_content par = nc_content par0 /\
    nc_stashMarks par = nc_stashMarks par0 /\
    (forall j f, j < open pc -> nodeAt (pnodes pc) j = Some f ->
                 nodeAt (pnodes pc') j = Some f).
Proof.
  intros H. apply enterInner_inv in H as (pc1 & par0 & Hc & Ht & ->).
  pose proof (closeExtra_top_last _ _ _ _ Hc Ht) as Hlen.
  pose proof (closeExtra_frame _ _ _ Hc) as (Ho & Hparser & _ & _ & _ & _ & Hid & _).
  pose proof Ht as Ht'. unfold top in Ht'. apply nodeAt_Some in Ht' as [H0 Hlt].
  pose proof (applyPending_frame (schemaNodes pc1) par0 type) as Hf.
  cbn zeta in Hf. destruct Hf as (F1 & F2 & F3 & F4 & F5 & F6 & F7 & F8 & F9).
  assert (Hnodes : schemaNodes pc1 = schemaNodes pc)
    by (unfold schemaNodes; rewrite Hparser; reflexivity).
  exists pc1, par0, (fst (enteredFrame pc1 par0 type attrs solid ws)),
         (snd (enteredFrame pc1 par0 type attrs solid ws)).
  cbn [open pnodes nextId setOpen setNextId setNodes].
  split; [exact Hc|]. split; [exact Ht|]. split; [lia|].
  split; [rewrite length_app, putNode_length; simpl; lia|].
  split; [lia|]. split.
  { rewrite <- Ho. rewrite nodeAt_app_l by (rewrite putNode_length; lia).
    apply nodeAt_putNode_eq; lia. }
  split.
  { unfold top. cbn [open pnodes setOpen setNextId setNodes].
    replace (open pc1 + 1) with
      (Z.of_nat (length (putNode (pnodes pc1) (open pc1)
                   (fst (enteredFrame pc1 par0 type attrs solid ws)))))
      by (rewrite putNode_length; lia).
    apply nodeAt_app_last. }
  unfold enteredFrame.
  cbn [fst snd nc_id nc_type nc_attrs nc_solid nc_content nc_activeMarks
       nc_stashMarks nc_marks nc_pendingMarks setMatch].
  rewrite Hnodes in *.
  repeat (split; [first [reflexivity | assumption | lia]|]).
  intros j f Hj Hjf.
  destruct (closeExtra_shape _ _ _ Hc j f ltac:(lia) Hjf) as (f1 & Hf1 & _ & He1).
  rewrite (He1 Hj) in Hf1.
  pose proof (nodeAt_Some _ _ _ Hf1) as [Hj0 Hjl].
  rewrite nodeAt_app_l by (rewrite putNode_length; exact Hjl).
  rewrite nodeAt_putNode_ne by lia. exact Hf1.
Qed.

Lemma marksFor_allowed (t : NodeContext) (node : Node) :
  exists added,
    marksFor t node
    = fold_left (fun marks m => addToSet m marks) added (nc_activeMarks t) /\
    added = List.filter (fun m => match nc_type t with
                                  | Some ty => nt_allowsMarkType ty (mark_type m)
                                  | None => true
                                  end) (node_marks node).
Proof.
  eexists. split; [|reflexivity]. unfold marksFor.
  generalize (nc_activeMarks t) as s.
  induction (node_marks node) as [|m l IH]; intros s; simpl; [reflexivity|].
  destruct (match nc_type t with Some ty => _ | None => true end); simpl; apply IH.
Qed.

(** X13.  When [insertNode] returns [true], the node is the last
    child of the frame that is open afterwards, and nothing stands on
    the stack above that frame.  The node carries the active marks of
    the frame, with the marks of its own that the frame's type allows
    (all of them in a frame without a type) added to them; marks of the
    node that the type does not allow are dropped. *)
Theorem insertNode_appends (node : Node) pc pc' :
  insertNode node pc = Done true pc' ->
  exists t' before,
    top pc' = Some t' /\
    Z.of_nat (length (pnodes pc')) = open pc' + 1 /\
    nc_content t'
    = before ++
      [node_mark node
         (fold_left (fun marks m => addToSet m marks)
            (List.filter (fun m => match nc_type t' with
                                   | Some ty => nt_allowsMarkType ty (mark_type m)
                                   | None => true
                                   end) (node_marks node))
            (nc_activeMarks t'))].
Proof.
  unfold insertNode. intros H.
  unfold bind at 1, get in H. unfold bind at 1 in H.
  match type of H with
  | match ?m pc with _ => _ end = _ =>
      destruct (m pc) as [[] pc0| |]; try discriminate
  end.
  unfold bind at 1 in H.
  destruct (findPlace node pc0) as [ok pc1| |]; try discriminate.
  destruct ok; [|unfold ret in H; discriminate].
  unfold bind at 1 in H.
  destruct (closeExtra false pc1) as [[] pc2| |] eqn:Hc; try discriminate.
  unfold bind at 1, getTop in H.
  destruct (top pc2) as [top0|] eqn:Ht; [|discriminate].
  simpl defined in H. unfold ret at 1 in H.
  unfold bind at 1, get in H. unfold bind at 1, setTop, modify in H.
  unfold ret in H. injection H as <-.
  pose proof (closeExtra_top_last _ _ _ _ Hc Ht) as Hlen.
  pose proof Ht as Ht'. unfold top in Ht'. apply nodeAt_Some in Ht' as [H0 Hlt].
  set (top1 := NodeContext.applyPending (schemaNodes pc2) top0 (node_type node)).
  set (top2 := match nc_match top1 with
               | Some m => setMatch top1 (cm_matchType m (node_type node))
               | None => top1
               end).
  exists (setContent top2 (nc_content top2 ++ [node_mark node (marksFor top2 node)])),
         (nc_content top2).
  split.
  { unfold top. cbn [open pnodes setNodes]. apply nodeAt_putNode_eq; lia. }
  split.
  { cbn [open pnodes setNodes]. rewrite putNode_length. exact Hlen. }
  cbn [nc_content setContent nc_type nc_activeMarks]. do 2 f_equal.
  destruct (marksFor_allowed top2 node) as (added & -> & ->). reflexivity.
Qed.

End Entering.

(* ===================================================================== *)
(** ** Finishing a frame *)
(* ===================================================================== *)

Section Finishing.
Context `{SA : SchemaAPI} `{DA : DomAPI}.

Lemma dropTrailingSpace_split s :
  exists ws, s = (JS.dropTrailingSpace s ++ ws)%string /\
             allChars JS.isHtmlSpace ws = true.
Proof.
  induction s as [|c r (ws & Hr & Hws)]; simpl.
  - exists "". auto.
  - destruct (JS.isHtmlSpace c && JS.isEmpty (JS.dropTrailingSpace r))%bool eqn:E.
    + apply andb_true_iff in E as [Hc He].
      destruct (JS.dropTrailingSpace r); [|discriminate].
      exists (String c ws). change (r = ws) in Hr. subst r.
      split; [reflexivity|]. simpl. rewrite Hc, Hws. reflexivity.
    + exists ws. split; [|exact Hws].
      change (String c r = String c (JS.dropTrailingSpace r ++ ws)%string).
      f_equal. exact Hr.
Qed.

Lemma dropTrailingSpace_ends s :
  JS.endsWithSpace (JS.dropTrailingSpace s) = false.
Proof.
  induction s as [|c r IH]; simpl; [reflexivity|].
  destruct (JS.isHtmlSpace c) eqn:Ec; simpl.
  - destruct (JS.dropTrailingSpace r) as [|d r'] eqn:Er; simpl; [reflexivity|].
    exact IH.
  - destruct (JS.dropTrailingSpace r) as [|d r'] eqn:Er; simpl; [exact Ec|].
    exact IH.
Qed.

Lemma dropTrailingSpace_same s :
  JS.dropTrailingSpace s = s <-> JS.endsWithSpace s = false.
Proof.
  split.
  - intros <-. apply dropTrailingSpace_ends.
  - induction s as [|c r IH]; [reflexivity|].
    intros H. cbn [JS.dropTrailingSpace].
    destruct r as [|d r'].
    + simpl in *. rewrite H. reflexivity.
    + rewrite IH by exact H. cbn [JS.isEmpty]. rewrite andb_false_r. reflexivity.
Qed.

Lemma dropTrailingSpace_empty s :
  JS.isEmpty (JS.dropTrailingSpace s) = true <-> JS.hasNonSpace s = false.
Proof.
  induction s as [|c r IH]; simpl; [tauto|].
  destruct (JS.isHtmlSpace c); simpl.
  - destruct (JS.isEmpty (JS.dropTrailingSpace r)); simpl; rewrite <- IH; tauto.
  - split; discriminate.
Qed.

Lemma last_Some_split (l : list Node) x :
  List.last (map Some l) None = Some x -> l = removelast l ++ [x].
Proof.
  induction l as [|y r IH]; [discriminate|].
  destruct r as [|z r'].
  - simpl. intros [= ->]. reflexivity.
  - intros H. change (removelast (y :: z :: r')) with (y :: removelast (z :: r')).
    simpl app. f_equal. apply IH. exact H.
Qed.

Lemma last_None_nil (l : list Node) :
  List.last (map Some l) None = None -> l = [].
Proof.
  induction l as [|y r IH]; [reflexivity|].
  destruct r as [|z r']; [discriminate|]. intros H.
  specialize (IH H). discriminate.
Qed.

Lemma stripTrailing_stripped (c : list Node) :
  trailingStripped false c (NodeContext.stripTrailing c).
Proof.
  unfold NodeContext.stripTrailing.
  destruct (List.last (map Some c) None) as [last|] eqn:El.
  2:{ left. split; [reflexivity|]. right. intros init last t ->.
      apply last_None_nil in El. destruct init; discriminate. }
  apply last_Some_split in El.
  assert (Hlast : forall init last',
             c = init ++ [last'] -> init = removelast c /\ last' = last).
  { intros init last' Hc. rewrite El in Hc.
    apply app_inj_tail in Hc as [-> ->]. auto. }
  destruct (node_isText last) eqn:Etext.
  2:{ left. split; [reflexivity|]. right. intros init last' t Hc Ht.
      destruct (Hlast _ _ Hc) as [_ ->]. congruence. }
  destruct (node_text last) as [t|] eqn:Et.
  2:{ left. split; [reflexivity|]. right. intros init last' t Hc _ Ht.
      destruct (Hlast _ _ Hc) as [_ ->]. congruence. }
  destruct (String.eqb (JS.dropTrailingSpace t) t) eqn:Eeq.
  { apply String.eqb_eq, dropTrailingSpace_same in Eeq.
    left. split; [reflexivity|]. right. intros init last' t' Hc _ Ht.
    destruct (Hlast _ _ Hc) as [_ ->]. congruence. }
  apply String.eqb_neq in Eeq.
  assert (Hends : JS.endsWithSpace t = true).
  { destruct (JS.endsWithSpace t) eqn:E; [reflexivity|].
    apply dropTrailingSpace_same in E. contradiction. }
  right. split; [reflexivity|].
  exists (removelast c), last, t.
  split; [exact El|]. split; [exact Etext|]. split; [exact Et|].
  split; [exact Hends|].
  destruct (JS.isEmpty (JS.dropTrailingSpace t)) eqn:Eempty.
  - left. split; [apply dropTrailingSpace_empty; exact Eempty|reflexivity].
  - right. destruct (dropTrailingSpace_split t) as (ws & Hsplit & Hws).
    exists (JS.dropTrailingSpace t), ws.
    split; [exact Hsplit|].
    split; [intros Hk; rewrite Hk in Eempty; discriminate|].
    split; [apply dropTrailingSpace_ends|]. split; [exact Hws|reflexivity].
Qed.

(** X14.  [NodeContext.finish] builds the node of a frame from the
    frame's type, attributes and marks, or hands out the bare content
    for a frame without a type.  Before that it strips trailing
    whitespace from the last child if that is a text node, unless the
    frame preserves whitespace: the text loses the whitespace at its
    end, and a text of whitespace only is dropped; no other child is
    touched.  The content is completed with the filler that the content
    match asks for at the end, except for an open end or a frame without
    a content match; when no filler exists, the call fails. *)
Theorem finish_strips_and_fills (cx : NodeContext) (openEnd : bool) :
  let fill :=
    match nc_match cx with
    | Some m => if openEnd then Some None
                else option_map Some (cm_fillBefore m frag_empty true)
    | None => Some None
    end in
  match NodeContext.finish cx openEnd with
  | Some (r, cx') =>
      cx' = setContent cx (nc_content cx') /\
      trailingStripped (hasOpt (nc_options cx) OPT_PRESERVE_WS)
                       (nc_content cx) (nc_content cx') /\
      exists filler,
        fill = Some filler /\
        let content :=
          match filler with
          | Some f => frag_append (frag_from (nc_content cx')) f
          | None => frag_from (nc_content cx')
          end in
        r = match nc_type cx with
            | Some t => inl (nt_create t (nc_attrs cx) (Some content)
                                       (Some (nc_marks cx)))
            | None => inr content
            end
  | None => fill = None
  end.
Proof.
  unfold NodeContext.finish.
  assert (Hstrip : trailingStripped (hasOpt (nc_options cx) OPT_PRESERVE_WS)
                     (nc_content cx)
                     (if negb (hasOpt (nc_options cx) OPT_PRESERVE_WS)
                      then NodeContext.stripTrailing (nc_content cx)
                      else nc_content cx)).
  { destruct (hasOpt (nc_options cx) OPT_PRESERVE_WS); cbn [negb].
    - left. auto.
    - apply stripTrailing_stripped. }
  set (c1 := if negb (hasOpt (nc_options cx) OPT_PRESERVE_WS)
             then NodeContext.stripTrailing (nc_content cx)
             else nc_content cx) in *.
  destruct (nc_match cx) as [m|]; cbn zeta.
  - destruct openEnd; cbn [negb].
    + destruct (nc_type cx); cbn [nc_content setContent];
        (split; [reflexivity|]; split; [exact Hstrip|];
         exists None; split; reflexivity).
    + destruct (cm_fillBefore m frag_empty true) as [f|]; [|reflexivity].
      destruct (nc_type cx); cbn [nc_content setContent];
        (split; [reflexivity|]; split; [exact Hstrip|];
         exists (Some f); split; reflexivity).
  - destruct (nc_type cx); cbn [nc_content setContent];
      (split; [reflexivity|]; split; [exact Hstrip|];
       exists None; split; reflexivity).
Qed.

End Finishing.

(* ===================================================================== *)
(** ** The text of a text node *)
(* ===================================================================== *)

Section TextValue.
Context `{SA : SchemaAPI} `{DA : DomAPI}.

Lemma collapseFrom_single inrun s :
  singleSpaced (JS.collapseFrom inrun s) = true /\
  (inrun = true -> JS.startsWithSpace (JS.collapseFrom inrun s) = false) /\
  JS.hasNonSpace (JS.collapseFrom inrun s) = JS.hasNonSpace s.
Proof.
  revert inrun. induction s as [|c r IH]; intros inrun; simpl; [auto|].
  destruct (JS.isHtmlSpace c) eqn:Ec.
  - destruct (IH true) as (H1 & H2 & H3). destruct inrun.
    + auto.
    + simpl. rewrite (H2 eq_refl), H1. split; [reflexivity|].
      split; [discriminate|exact H3].
  - destruct (IH false) as (H1 & _ & H3). simpl. rewrite Ec.
    split; [exact H1|]. split; [reflexivity|reflexivity].
Qed.

Lemma singleSpaced_slice1 s : singleSpaced s = true -> singleSpaced (JS.slice1 s) = true.
Proof.
  destruct s as [|c r]; simpl; [auto|].
  destruct (JS.isHtmlSpace c); [|auto].
  intros H. apply andb_true_iff in H as [_ H]. exact H.
Qed.

Lemma hasNonSpace_slice1 s :
  JS.startsWithSpace s = true -> JS.hasNonSpace (JS.slice1 s) = JS.hasNonSpace s.
Proof. destruct s as [|c r]; simpl; [auto|]. intros ->. reflexivity. Qed.

Lemma string_length_ind (P : string -> Prop) :
  (forall s, (forall s', (String.length s' < String.length s)%nat -> P s') -> P s) ->
  forall s, P s.
Proof.
  intros Hstep.
  assert (H : forall n s, (String.length s < n)%nat -> P s).
  { induction n as [|n IH]; intros s Hs; [lia|].
    apply Hstep. intros s' Hs'. apply IH. lia. }
  intros s. apply (H (S (String.length s))). lia.
Qed.

Lemma newlinesToSpaces_none s :
  allChars (fun c => negb (JS.isChar 13 c || JS.isChar 10 c))
           (JS.newlinesToSpaces s) = true.
Proof.
  induction s as [s IH] using string_length_ind.
  destruct s as [|c r]; [reflexivity|]. cbn [JS.newlinesToSpaces].
  destruct (JS.isChar 13 c) eqn:E13.
  - destruct r as [|c2 r2]; [reflexivity|].
    destruct (JS.isChar 10 c2); cbn [allChars]; apply andb_true_iff;
      (split; [reflexivity|apply IH; simpl; lia]).
  - destruct (JS.isChar 10 c) eqn:E10; cbn [allChars]; apply andb_true_iff.
    + split; [reflexivity|apply IH; simpl; lia].
    + split; [rewrite E13, E10; reflexivity|apply IH; simpl; lia].
Qed.

Lemma normalizeNewlines_none s :
  allChars (fun c => negb (JS.isChar 13 c)) (JS.normalizeNewlines s) = true.
Proof.
  induction s as [s IH] using string_length_ind.
  destruct s as [|c r]; [reflexivity|]. cbn [JS.normalizeNewlines].
  destruct (JS.isChar 13 c) eqn:E13.
  - destruct r as [|c2 r2]; [reflexivity|].
    destruct (JS.isChar 10 c2); cbn [allChars]; apply andb_true_iff;
      (split; [reflexivity|apply IH; simpl; lia]).
  - cbn [allChars]. apply andb_true_iff.
    split; [rewrite E13; reflexivity|apply IH; simpl; lia].
Qed.

(** X15.  The text that [addTextNode] inserts for the value of a text
    node.  In a frame that does not preserve whitespace, every run of
    whitespace has become one space: the text holds no tab, newline or
    form feed and no two spaces in a row, and it has a visible
    character exactly if the value has one.  In a frame that preserves
    whitespace but not in full, the text holds no line break; in a
    frame that preserves it in full, no carriage return. *)
Theorem normalizedText_whitespace pc (top : NodeContext) (dom : DOMNode)
    (value : string) :
  let text := normalizedText pc top dom value in
  if negb (hasOpt (nc_options top) OPT_PRESERVE_WS) then
    singleSpaced text = true /\ JS.hasNonSpace text = JS.hasNonSpace value
  else if negb (hasOpt (nc_options top) OPT_PRESERVE_WS_FULL) then
    allChars (fun c => negb (JS.isChar 13 c || JS.isChar 10 c)) text = true
  else
    allChars (fun c => negb (JS.isChar 13 c)) text = true.
Proof.
  unfold normalizedText.
  destruct (negb (hasOpt (nc_options top) OPT_PRESERVE_WS)).
  - destruct (collapseFrom_single false value) as (H1 & _ & H3).
    fold (JS.collapseSpace value) in H1, H3.
    destruct (JS.startsWithSpace (JS.collapseSpace value)) eqn:Es; cbn [andb].
    + destruct (open pc =? Z.of_nat (length (pnodes pc)) - 1); [|auto].
      match goal with
      | |- context [if ?b then JS.slice1 _ else _] => destruct b
      end; [|auto].
      split; [apply singleSpaced_slice1; exact H1|].
      rewrite hasNonSpace_slice1 by exact Es. exact H3.
    + auto.
  - destruct (negb (hasOpt (nc_options top) OPT_PRESERVE_WS_FULL)).
    + apply newlinesToSpaces_none.
    + apply normalizeNewlines_none.
Qed.

End TextValue.

(* ===================================================================== *)
(** ** Parsing an element without children *)
(* ===================================================================== *)

Section Childless.
Context `{SA : SchemaAPI} `{DA : DomAPI}.

Lemma updateEntries_fixed hit (p : Z) l pc :
  currentPos pc = Done p pc ->
  updateEntries hit (fun _ => currentPos) l pc
  = Done (map (fun e => if hit (doc pc) e then setPos e p else e) l) pc.
Proof.
  intros Hcur. induction l as [|e l IH]; simpl; [reflexivity|].
  unfold bind at 1, get. unfold bind at 1.
  destruct (hit (doc pc) e).
  - unfold bind at 1. rewrite Hcur. unfold ret at 1.
    unfold bind at 1. rewrite IH. reflexivity.
  - unfold ret at 1. unfold bind at 1. rewrite IH. reflexivity.
Qed.

Lemma findAtPoint_fixed parent offset (p : Z) pc :
  currentPos pc = Done p pc ->
  findAtPoint parent offset pc
  = Done tt (setFind pc
               (option_map
                  (map (fun e => if (bool_decide (fnode e = parent) &&
                                     (foffset e =? offset))%bool
                                 then setPos e p else e))
                  (find pc))).
Proof.
  intros Hcur. unfold findAtPoint, withFind, bind at 1, get.
  destruct (find pc) as [l|] eqn:E.
  - unfold bind. rewrite (updateEntries_fixed _ p l pc Hcur). reflexivity.
  - simpl. rewrite <- E, setFind_same. reflexivity.
Qed.

(** X16.  An element without children parses to a node of the top
    node type with no attributes and no marks, whose content is what
    the content match of that type fills in for nothing (nothing at all
    with [topOpen]); a position asked for at offset 0 of the element is
    0.  When the top node type cannot be completed from nothing, the
    call throws.  No step of the walk is needed for this. *)
Theorem parse_childless (fuel : nat) (parser : DOMParser) (d : Doc)
    (dom : DOMNode) (opts : ParseOptions) :
  firstChild d dom = None ->
  o_from opts = None -> o_to opts = None ->
  o_topNode opts = None ->
  let T := topNodeType (schema parser) in
  let found :=
    option_map
      (map (fun e => if (bool_decide (fnode e = dom) && (foffset e =? 0))%bool
                     then setPos e 0 else e))
      (o_findPositions opts) in
  match (if o_topOpen opts then Some None
         else option_map Some (cm_fillBefore (nt_contentMatch T) frag_empty true))
  with
  | Some filler =>
      exists pc',
        parse fuel parser d dom opts
        = Done (inl (nt_create T None
                       (Some (match filler with
                              | Some f => frag_append (frag_from []) f
                              | None => frag_from []
                              end))
                       (Some []))) pc' /\
        find pc' = found
  | None => parse fuel parser d dom opts = Throw
  end.
Proof.
  intros Hfirst Hfrom Hto Htop T found.
  set (topOptions := Z.lor (wsOptionsFor None (o_preserveWhitespace opts) 0) 0).
  assert (Hleft : hasOpt topOptions OPT_OPEN_LEFT = false).
  { unfold topOptions. destruct (o_preserveWhitespace opts) as [[]|]; reflexivity. }
  set (root := {| nc_id := 0; nc_type := Some (topNodeType (schema parser));
                  nc_attrs := None; nc_marks := Mark_none;
                  nc_pendingMarks := Mark_none; nc_solid := true;
                  nc_options := topOptions;
                  nc_match := Some (nt_contentMatch (topNodeType (schema parser)));
                  nc_content := []; nc_activeMarks := Mark_none;
                  nc_stashMarks := [] |}).
  set (pc0 := {| parser := parser; options := opts; isOpen := false;
                 open := 0; find := o_findPositions opts;
                 needsBlock := false; pnodes := [root]; nextId := 1; doc := d |}).
  assert (Hrun : parse fuel parser d dom opts = finish (setFind pc0 found)).
  { unfold parse, parseWith, newParseContext. rewrite Htop. cbn [negb].
    fold topOptions. unfold newNodeContext. rewrite Hleft.
    fold root. fold pc0.
    assert (Hcur : currentPos pc0 = Done 0 pc0) by reflexivity.
    unfold bind at 1. unfold addAll, bind at 1, get. rewrite Hfrom, Hto.
    cbn [default]. replace (0 =? 0) with true by reflexivity.
    change (doc pc0) with d. rewrite Hfirst.
    unfold addAllFrom. rewrite bool_decide_eq_true_2 by reflexivity.
    rewrite (findAtPoint_fixed dom 0 0 pc0 Hcur). reflexivity. }
  rewrite Hrun.
  assert (Hfin : finish (setFind pc0 found)
                 = match NodeContext.finish root (o_topOpen opts) with
                   | Some (r, root') =>
                       Done r (setNodes (setOpen (setFind pc0 found) 0) [root'])
                   | None => Throw
                   end).
  { unfold finish, bind, modify, get, closeExtra, defined, ret.
    cbn [isOpen setOpen setFind pnodes open length options orb pc0].
    replace (Z.of_nat 1 - 1 >? 0) with false by reflexivity.
    cbn [isOpen setOpen setFind pnodes open length options orb pc0].
    change (nodeAt [root] 0) with (Some root). cbn iota beta.
    destruct (NodeContext.finish root (o_topOpen opts)) as [[r root']|];
      reflexivity. }
  rewrite Hfin. unfold NodeContext.finish.
  cbn [nc_options nc_content nc_match nc_type nc_attrs nc_marks root].
  replace (if negb (hasOpt topOptions OPT_PRESERVE_WS)
           then NodeContext.stripTrailing [] else [])
    with (@nil Node) by (destruct (negb _); reflexivity).
  fold T. destruct (o_topOpen opts); cbn [negb].
  - eexists. split; reflexivity.
  - destruct (cm_fillBefore (nt_contentMatch T) frag_empty true) as [f|];
      cbn [option_map]; [|reflexivity].
    eexists. split; reflexivity.
Qed.

End Childless.

(* ===================================================================== *)
(** ** Elements that are skipped *)
(* ===================================================================== *)

Section SkippedElements.
Context `{SA : SchemaAPI} `{DA : DomAPI}.

Lemma ignoreTags_name name :
  JS.mem name ignoreTags = true ->
  JS.mem name listTags = false /\ name <> "br".
Proof.
  unfold JS.mem, ignoreTags. cbn [existsb]. intros H.
  repeat (apply orb_true_iff in H as [H|H];
          [apply String.eqb_eq in H; subst name;
           split; [reflexivity|discriminate]|]).
  discriminate.
Qed.

Lemma ignoreFallback_other dom pc :
  JS.toLowerCase (nodeName (doc pc) dom) <> "br" ->
  ignoreFallback dom pc = Done tt pc.
Proof.
  intros Hne. unfold ignoreFallback, bind, get.
  destruct (String.eqb (nodeName (doc pc) dom) "BR") eqn:E; [|reflexivity].
  apply String.eqb_eq in E. rewrite E in Hne. exfalso. apply Hne. reflexivity.
Qed.

(** X17.  An element of the built-in ignore set ([head], [noscript],
    [object], [script], [style], [title]) for which neither
    [ruleFromNode] nor [matchTag] gives a rule is skipped with all that
    is in it: [addElement] only records the positions asked for inside
    the element, and without such positions it leaves the state exactly
    as it was.  Neither the walk over the children nor a fallback is
    started. *)
Theorem ignored_tag_skipped (W : Walk) (dom : DOMNode) (after : option nat) pc :
  JS.mem (JS.toLowerCase (nodeName (doc pc) dom)) ignoreTags = true ->
  match o_ruleFromNode (options pc) with
  | Some f => f (doc pc) dom = None
  | None => True
  end ->
  matchTag dom after pc = Done None pc ->
  addElement W dom after pc = findInside dom pc /\
  (find pc = None -> addElement W dom after pc = Done tt pc).
Proof.
  intros Hign Hown Hm.
  destruct (ignoreTags_name _ Hign) as [Hlist Hbr].
  assert (Heq : addElement W dom after pc = findInside dom pc).
  { unfold addElement, bind at 1, get. rewrite Hlist.
    cbn [andb]. unfold bind at 1, ret at 1. unfold bind at 1, get.
    assert (Hno : match o_ruleFromNode (options pc) with
                  | Some f => f (doc pc) dom
                  | None => None
                  end = None).
    { destruct (o_ruleFromNode (options pc)); [exact Hown|reflexivity]. }
    rewrite Hno. unfold bind at 1. unfold bind at 1. rewrite Hm.
    unfold ret at 1. simpl option_map. cbv iota beta.
    unfold bind at 1. unfold bind at 1. unfold ret at 1.
    rewrite Hign. unfold bind.
    destruct (findInside dom pc) as [[] pc2| |] eqn:Hf; try reflexivity.
    apply ignoreFallback_other.
    rewrite (findInside_doc _ _ _ Hf). exact Hbr. }
  split; [exact Heq|].
  intros Hfind. rewrite Heq. unfold findInside, withFind, bind, get.
  rewrite Hfind. reflexivity.
Qed.

End SkippedElements.

(* ===================================================================== *)
(** ** The invariant of the stack *)
(* ===================================================================== *)

Section StackInvariant.
Context `{SA : SchemaAPI} `{DA : DomAPI}.

Lemma FreshIds_Forall pc :
  FreshIds pc <-> Forall (fun i => (i < nextId pc)%nat) (map nc_id (pnodes pc)).
Proof.
  rewrite Forall_forall. split.
  - intros H i Hi. apply list_elem_of_In, in_map_iff in Hi as (f & <- & Hf).
    apply list_elem_of_In, list_elem_of_lookup_1 in Hf as (k & Hk).
    apply (H (Z.of_nat k) f). unfold nodeAt.
    destruct (Z.of_nat k <? 0) eqn:E; [apply Z.ltb_lt in E; lia|].
    rewrite Nat2Z.id. exact Hk.
  - intros H j f Hj. apply H. apply list_elem_of_In, in_map.
    unfold nodeAt in Hj. destruct (j <? 0); [discriminate|].
    apply list_elem_of_In. eapply list_elem_of_lookup_2. exact Hj.
Qed.

Lemma StackOk_ids pc :
  StackOk pc <->
  0 <= open pc < Z.of_nat (length (pnodes pc)) /\
  NoDup (map nc_id (pnodes pc)) /\
  Forall (fun i => (i < nextId pc)%nat) (map nc_id (pnodes pc)).
Proof. unfold StackOk, WellFormed. rewrite FreshIds_Forall. tauto. Qed.

Lemma ids_Forall2 (l l' : list NodeContext) :
  Forall2 (fun f f' => nc_id f' = nc_id f) l l' -> map nc_id l' = map nc_id l.
Proof. induction 1; simpl; congruence. Qed.

Lemma ids_putNode l i f x :
  nodeAt l i = Some f -> nc_id x = nc_id f ->
  map nc_id (putNode l i x) = map nc_id l.
Proof.
  intros Hi Hid. apply ids_Forall2.
  apply (Forall2_putNode (fun f f' => nc_id f' = nc_id f) l i f x);
    [reflexivity|exact Hi|exact Hid].
Qed.

(** A state with the same frames, by identity, is as good. *)
Lemma StackOk_same pc pc' :
  StackOk pc ->
  map nc_id (pnodes pc') = map nc_id (pnodes pc) ->
  (nextId pc <= nextId pc')%nat ->
  0 <= open pc' < Z.of_nat (length (pnodes pc)) ->
  StackOk pc'.
Proof.
  rewrite !StackOk_ids. intros (_ & Hnd & Hall) Hids Hnext Hopen.
  assert (Hlen : length (pnodes pc') = length (pnodes pc)).
  { rewrite <- (length_map nc_id), Hids, length_map. reflexivity. }
  rewrite Hids, Hlen. split; [exact Hopen|]. split; [exact Hnd|].
  eapply Forall_impl; [exact Hall|]. intros i Hi. simpl in Hi. lia.
Qed.

Lemma closeExtra_ids b pc pc' :
  0 <= open pc < Z.of_nat (length (pnodes pc)) ->
  closeExtra b pc = Done tt pc' ->
  map nc_id (pnodes pc')
  = take (Z.to_nat (open pc + 1)) (map nc_id (pnodes pc)) /\
  Z.of_nat (length (pnodes pc')) = open pc + 1.
Proof.
  intros Hopen H. unfold closeExtra in H.
  destruct (Z.of_nat (length (pnodes pc)) - 1 >? open pc) eqn:E.
  - destruct (closeFrom _ _ _ _) as [l|] eqn:Hc; [|discriminate].
    injection H as <-. cbn [pnodes setNodes].
    pose proof (closeFrom_length _ _ _ _ _ Hc) as Hlen.
    apply closeFrom_sameButContent in Hc.
    assert (Hids : map nc_id l = map nc_id (pnodes pc)).
    { apply ids_Forall2. eapply Forall2_impl; [exact Hc|].
      intros f f' ->. reflexivity. }
    split; [rewrite <- Hids; symmetry; apply firstn_map|].
    rewrite length_take. lia.
  - injection H as <-.
    assert (Hle := Zgt_cases (Z.of_nat (length (pnodes pc)) - 1) (open pc)).
    rewrite E in Hle. split; [|lia].
    rewrite take_ge; [reflexivity|]. rewrite length_map. lia.
Qed.

Lemma closeExtra_ok b pc pc' :
  StackOk pc -> closeExtra b pc = Done tt pc' -> StackOk pc'.
Proof.
  intros Hok H. pose proof Hok as Hok'.
  apply StackOk_ids in Hok' as (Hopen & Hnd & Hall).
  destruct (closeExtra_ids _ _ _ Hopen H) as [Hids Hlen].
  destruct (closeExtra_frame _ _ _ H) as (Ho & _ & _ & _ & _ & _ & Hn & _).
  apply StackOk_ids. rewrite Hids, Ho, Hn.
  split; [lia|]. split.
  - eapply sublist_NoDup; [exact Hnd|apply sublist_take].
  - apply Forall_take. exact Hall.
Qed.

Lemma enterInner_ok type attrs solid ws pc pc' :
  StackOk pc -> enterInner type attrs solid ws pc = Done tt pc' -> StackOk pc'.
Proof.
  intros Hok H. apply enterInner_inv in H as (pc1 & par & Hc & Ht & ->).
  pose proof (closeExtra_ok _ _ _ Hok Hc) as Hok1.
  apply StackOk_ids in Hok1 as (Hopen & Hnd & Hall).
  pose proof (closeExtra_top_last _ _ _ _ Hc Ht) as Hlen.
  pose proof (applyPending_frame (schemaNodes pc1) par type) as Hf.
  cbn zeta in Hf. destruct Hf as (F1 & _).
  apply StackOk_ids. cbn [open pnodes nextId setOpen setNextId setNodes].
  rewrite map_app, length_app, putNode_length.
  rewrite (ids_putNode _ _ par) by (try exact Ht; unfold enteredFrame; simpl; exact F1).
  unfold enteredFrame. cbn [snd map nc_id length].
  split; [lia|]. split.
  - apply NoDup_app. split; [exact Hnd|]. split; [|apply NoDup_singleton].
    intros i Hi Hi'. apply list_elem_of_singleton in Hi'. subst i.
    rewrite Forall_forall in Hall. specialize (Hall _ Hi). simpl in Hall. lia.
  - apply Forall_app. split.
    + eapply Forall_impl; [exact Hall|]. intros i Hi. simpl in Hi. lia.
    + constructor; [lia|constructor].
Qed.

Lemma enterAll_ok route : forall pc pc',
  StackOk pc -> enterAll route pc = Done tt pc' -> StackOk pc'.
Proof.
  induction route as [|t rest IH]; intros pc pc' Hok H; simpl in H.
  - unfold ret in H. injection H as <-. exact Hok.
  - unfold bind in H.
    destruct (enterInner t None false None pc) as [[] pc1| |] eqn:He;
      try discriminate.
    eapply IH; [|exact H]. eapply enterInner_ok; eassumption.
Qed.

Lemma sync_ok to pc b pc' :
  StackOk pc -> sync to pc = Done b pc' -> StackOk pc'.
Proof.
  intros Hok H. apply sync_result in H as (d & -> & Hd).
  pose proof Hok as Hok'. apply StackOk_ids in Hok' as (Hopen & _).
  apply (StackOk_same pc); [exact Hok|reflexivity|reflexivity|].
  cbn [open setOpen]. lia.
Qed.

Lemma setTop_ok pc (t x : NodeContext) :
  StackOk pc -> top pc = Some t -> nc_id x = nc_id t ->
  StackOk (setNodes pc (putNode (pnodes pc) (open pc) x)).
Proof.
  intros Hok Ht Hid. pose proof Hok as Hok'.
  apply StackOk_ids in Hok' as (Hopen & _).
  apply (StackOk_same pc); [exact Hok| |reflexivity|exact Hopen].
  cbn [pnodes setNodes]. apply (ids_putNode _ _ t); assumption.
Qed.

Lemma findPlace_ok node pc b pc' :
  StackOk pc -> findPlace node pc = Done b pc' -> StackOk pc'.
Proof.
  intros Hok H. unfold findPlace, bind at 1, get in H. unfold bind at 1 in H.
  destruct (findPlaceFrom _ _ _ _ _) as [route pc1| |] eqn:Hloop; try discriminate.
  assert (Hstart : bestAmong [] node None) by (intros ? ? []).
  destruct (findPlaceFrom_best _ _ _ _ _ [] _ _
              Hstart ltac:(intros ? ? []) Hloop)
    as (_ & Hsame & Hpc1 & _).
  assert (Hok1 : StackOk pc1).
  { pose proof Hok as Hok'. apply StackOk_ids in Hok' as (Hopen & _).
    apply (StackOk_same pc); [exact Hok| | |].
    - apply sameButMatch_ids. exact Hsame.
    - rewrite Hpc1. reflexivity.
    - rewrite Hpc1. exact Hopen. }
  destruct route as [[r to]|].
  - unfold bind at 1 in H.
    destruct (sync to pc1) as [b1 pc2| |] eqn:Hs; try discriminate.
    unfold bind at 1 in H.
    destruct (enterAll r pc2) as [[] pc3| |] eqn:He; try discriminate.
    unfold ret in H. injection H as <- <-.
    eapply enterAll_ok; [|exact He]. eapply sync_ok; eassumption.
  - unfold ret in H. injection H as <- <-. exact Hok1.
Qed.

Lemma StackOk_top pc : StackOk pc -> exists t, top pc = Some t.
Proof.
  intros Hok. apply StackOk_ids in Hok as (Hopen & _).
  unfold top, nodeAt. destruct (open pc <? 0) eqn:E; [apply Z.ltb_lt in E; lia|].
  apply lookup_lt_is_Some_2. lia.
Qed.

Lemma insertNode_ok node pc b pc' :
  StackOk pc -> insertNode node pc = Done b pc' -> StackOk pc'.
Proof.
  intros Hok H. unfold insertNode in H.
  unfold bind at 1, get in H. unfold bind at 1 in H.
  match type of H with
  | match ?m pc with _ => _ end = _ =>
      destruct (m pc) as [[] pc0| |] eqn:Hpre; try discriminate
  end.
  assert (Hok0 : StackOk pc0).
  { destruct (node_isInline node && needsBlock pc)%bool.
    - unfold bind, getTop in Hpre. destruct (top pc) as [t|]; [|discriminate].
      simpl in Hpre. destruct (isNull (nc_type t)).
      + destruct (textblockFromContext pc) as [block|].
        * eapply enterInner_ok; eassumption.
        * unfold ret in Hpre. injection Hpre as <-. exact Hok.
      + unfold ret in Hpre. injection Hpre as <-. exact Hok.
    - unfold ret in Hpre. injection Hpre as <-. exact Hok. }
  unfold bind at 1 in H.
  destruct (findPlace node pc0) as [ok pc1| |] eqn:Hp; try discriminate.
  pose proof (findPlace_ok _ _ _ _ Hok0 Hp) as Hok1.
  destruct ok; [|unfold ret in H; injection H as <- <-; exact Hok1].
  unfold bind at 1 in H.
  destruct (closeExtra false pc1) as [[] pc2| |] eqn:Hc; try discriminate.
  pose proof (closeExtra_ok _ _ _ Hok1 Hc) as Hok2.
  unfold bind at 1, getTop in H.
  destruct (top pc2) as [top0|] eqn:Ht; [|discriminate].
  simpl defined in H. unfold ret at 1 in H.
  unfold bind at 1, get in H. unfold bind at 1, setTop, modify in H.
  unfold ret in H. injection H as <- <-.
  apply (setTop_ok pc2 top0); [exact Hok2|exact Ht|].
  cbn [nc_id setContent].
  pose proof (applyPending_frame (schemaNodes pc2) top0 (node_type node)) as Hf.
  cbn zeta in Hf. destruct Hf as (F1 & _).
  destruct (nc_match _); exact F1.
Qed.

Lemma enter_ok type attrs ws pc b pc' :
  StackOk pc -> enter type attrs ws pc = Done b pc' -> StackOk pc'.
Proof.
  intros Hok H. unfold enter in H. unfold bind at 1 in H.
  destruct (findPlace _ pc) as [ok pc1| |] eqn:Hp; try discriminate.
  pose proof (findPlace_ok _ _ _ _ Hok Hp) as Hok1.
  unfold bind at 1 in H. destruct ok.
  - destruct (enterInner type attrs true ws pc1) as [[] pc2| |] eqn:He;
      try discriminate.
    unfold ret in H. injection H as <- <-. eapply enterInner_ok; eassumption.
  - unfold ret in H. injection H as <- <-. exact Hok1.
Qed.

Lemma removePendingFrom_ok cnt mark upto : forall depth pc pc',
  StackOk pc -> removePendingFrom cnt depth mark upto pc = Done tt pc' ->
  StackOk pc'.
Proof.
  induction cnt as [|k IH]; intros depth pc pc' Hok H; simpl in H.
  - unfold ret in H. injection H as <-. exact Hok.
  - unfold bind at 1, get in H. unfold bind at 1, defined in H.
    destruct (nodeAt (pnodes pc) depth) as [level|] eqn:Hl; [|discriminate].
    unfold ret at 1 in H. unfold bind at 1, modify in H.
    assert (Hok1 : StackOk (setNodes pc (putNode (pnodes pc) depth
                                           (removeFromLevel mark level)))).
    { pose proof Hok as Hok'. apply StackOk_ids in Hok' as (Hopen & _).
      apply (StackOk_same pc); [exact Hok| |reflexivity|exact Hopen].
      cbn [pnodes setNodes]. apply (ids_putNode _ _ level); [exact Hl|].
      apply removeFromLevel_shape. }
    destruct (bool_decide (Some (nc_id level) = upto)).
    + unfold ret in H. injection H as <-. exact Hok1.
    + eapply IH; eassumption.
Qed.

(** X18.  The constructor of [ParseContext] never fails.  The stack it
    starts with is the root frame alone, open, solid and without
    content or marks; the invariant of the stack holds.  The root frame
    is open to the left exactly in the parse of a slice; it has no type
    exactly in the parse of a slice without a top node, and no content
    match exactly in the parse of a slice without a [topNode] option. *)
Theorem newParseContext_root (parser : DOMParser) (opts : ParseOptions)
    (slice : bool) (d : Doc) :
  exists pc root,
    newParseContext parser opts slice d = Some pc /\
    pnodes pc = [root] /\ open pc = 0 /\ StackOk pc /\
    find pc = o_findPositions opts /\ needsBlock pc = false /\
    nc_solid root = true /\ nc_content root = [] /\
    nc_pendingMarks root = [] /\ nc_activeMarks root = [] /\
    hasOpt (nc_options root) OPT_OPEN_LEFT = slice /\
    nc_type root
    = match o_topNode opts with
      | Some n => Some (node_type n)
      | None => if slice then None else Some (topNodeType (schema parser))
      end /\
    nc_match root
    = match o_topNode opts with
      | Some n => Some (default (nt_contentMatch (node_type n)) (o_topMatch opts))
      | None => if slice then None
                else Some (nt_contentMatch (topNodeType (schema parser)))
      end.
Proof.
  unfold newParseContext.
  set (topOptions := Z.lor (wsOptionsFor None (o_preserveWhitespace opts) 0)
                           (if slice then OPT_OPEN_LEFT else 0)).
  assert (Hleft : hasOpt topOptions OPT_OPEN_LEFT = slice).
  { unfold topOptions.
    destruct (o_preserveWhitespace opts) as [[]|], slice; reflexivity. }
  assert (Hok : forall root,
             nc_id root = O ->
             StackOk {| parser := parser; options := opts; isOpen := slice;
                        open := 0; find := o_findPositions opts;
                        needsBlock := false; pnodes := [root]; nextId := 1;
                        doc := d |}).
  { intros root Hid. apply StackOk_ids. cbn [open pnodes nextId map length].
    rewrite Hid. split; [lia|]. split; [apply NoDup_singleton|].
    constructor; [lia|constructor]. }
  unfold newNodeContext. rewrite Hleft.
  destruct (o_topNode opts) as [n|].
  - eexists. eexists. split; [reflexivity|]. cbn.
    repeat (split; [first [reflexivity | exact Hleft | apply Hok; reflexivity]|]).
    reflexivity.
  - destruct slice.
    + eexists. eexists. split; [reflexivity|]. cbn.
      repeat (split; [first [reflexivity | exact Hleft | apply Hok; reflexivity]|]).
      reflexivity.
    + eexists. eexists. split; [reflexivity|]. cbn.
      repeat (split; [first [reflexivity | exact Hleft | apply Hok; reflexivity]|]).
      reflexivity.
Qed.

(** X19.  The invariant of the stack is kept by every operation that
    places nodes and marks: when [open] points into the stack, the
    frames are distinct objects and their identities are below the next
    one to be given out, then the same holds after [closeExtra],
    [sync], [enterInner], [findPlace], [insertNode], [enter],
    [addPendingMark] and [removePendingMark], whatever they return. *)
Theorem stack_invariant_kept pc :
  StackOk pc ->
  (forall b pc', closeExtra b pc = Done tt pc' -> StackOk pc') /\
  (forall to b pc', sync to pc = Done b pc' -> StackOk pc') /\
  (forall type attrs solid ws pc',
      enterInner type attrs solid ws pc = Done tt pc' -> StackOk pc') /\
  (forall node b pc', findPlace node pc = Done b pc' -> StackOk pc') /\
  (forall node b pc', insertNode node pc = Done b pc' -> StackOk pc') /\
  (forall type attrs ws b pc',
      enter type attrs ws pc = Done b pc' -> StackOk pc') /\
  (forall mark pc', addPendingMark mark pc = Done tt pc' -> StackOk pc') /\
  (forall mark upto pc',
      removePendingMark mark upto pc = Done tt pc' -> StackOk pc').
Proof.
  intros Hok.
  split; [intros b pc'; apply closeExtra_ok; exact Hok|].
  split; [intros to b pc'; apply sync_ok; exact Hok|].
  split; [intros type attrs solid ws pc'; apply enterInner_ok; exact Hok|].
  split; [intros node b pc'; apply findPlace_ok; exact Hok|].
  split; [intros node b pc'; apply insertNode_ok; exact Hok|].
  split; [intros type attrs ws b pc'; apply enter_ok; exact Hok|].
  split.
  - intros mark pc' H. unfold addPendingMark, bind, getTop in H.
    destruct (top pc) as [t|] eqn:Ht; [|discriminate].
    simpl in H. unfold setTop, modify in H. injection H as <-.
    apply (setTop_ok pc t); [exact Hok|exact Ht|].
    destruct (findSameMarkInSet mark (nc_pendingMarks t)); reflexivity.
  - intros mark upto pc' H. unfold removePendingMark, bind, get in H.
    eapply removePendingFrom_ok; eassumption.
Qed.

End StackInvariant.


(* ===================================================================== *)
(** ** The current position *)
(* ===================================================================== *)

Section Position.
Context `{SA : SchemaAPI} `{DA : DomAPI}.

Lemma framesSize_app (l1 l2 : list NodeContext) :
  framesSize (l1 ++ l2) = framesSize l1 + framesSize l2.
Proof.
  induction l1 as [|cx l1 IH]; simpl; [reflexivity|].
  unfold framesSize in *. simpl. rewrite IH. lia.
Qed.

Lemma posFrom_sum (l : list NodeContext) : forall cnt pos,
  (cnt <= length l)%nat ->
  posFrom cnt (Z.of_nat cnt - 1) l pos
  = Some (pos + framesSize (take cnt l) + Z.of_nat (pred cnt)).
Proof.
  induction cnt as [|k IH]; intros pos Hlen.
  - simpl. f_equal. unfold framesSize. simpl. lia.
  - cbn [posFrom].
    replace (Z.of_nat (S k) - 1) with (Z.of_nat k) by lia.
    destruct (lookup_lt_is_Some_2 l k ltac:(lia)) as [cx Hcx].
    assert (Hat : nodeAt l (Z.of_nat k) = Some cx).
    { unfold nodeAt. destruct (Z.of_nat k <? 0) eqn:E; [apply Z.ltb_lt in E; lia|].
      rewrite Nat2Z.id. exact Hcx. }
    rewrite Hat, IH by lia.
    rewrite (take_S_r l k cx Hcx), framesSize_app.
    f_equal. unfold framesSize at 3. cbn [fold_right].
    destruct k as [|k']; [simpl; lia|].
    destruct (Z.of_nat (S k') =? 0) eqn:E; [apply Z.eqb_eq in E; lia|].
    cbn [pred]. lia.
Qed.

(** X20.  Reading [currentPos] closes the frames above the open one,
    as [closeExtra] does, and changes nothing else.  The position is
    the number of open frames above the root plus the size of all
    nodes that the open frames hold after that.  Reading it again
    gives the same position and changes nothing. *)
Theorem currentPos_value pc pc1 :
  0 <= open pc < Z.of_nat (length (pnodes pc)) ->
  closeExtra false pc = Done tt pc1 ->
  currentPos pc = Done (open pc + framesSize (pnodes pc1)) pc1 /\
  currentPos pc1 = Done (open pc + framesSize (pnodes pc1)) pc1.
Proof.
  intros Hopen Hc.
  destruct (closeExtra_ids _ _ _ Hopen Hc) as [_ Hlen].
  destruct (closeExtra_frame _ _ _ Hc) as (Ho & _).
  assert (Hpos : posFrom (Z.to_nat (open pc1 + 1)) (open pc1) (pnodes pc1) 0
                 = Some (open pc + framesSize (pnodes pc1))).
  { pose proof (posFrom_sum (pnodes pc1) (length (pnodes pc1)) 0 (Nat.le_refl _))
      as H.
    rewrite firstn_all in H.
    replace (Z.to_nat (open pc1 + 1)) with (length (pnodes pc1)) by lia.
    replace (open pc1) with (Z.of_nat (length (pnodes pc1)) - 1) by lia.
    rewrite H. f_equal. lia. }
  assert (Hagain : closeExtra false pc1 = Done tt pc1).
  { unfold closeExtra.
    destruct (Z.of_nat (length (pnodes pc1)) - 1 >? open pc1) eqn:E; [|reflexivity].
    rewrite Z.gtb_ltb in E. apply Z.ltb_lt in E. lia. }
  split.
  - unfold currentPos, bind. rewrite Hc. unfold get, defined. rewrite Hpos.
    reflexivity.
  - unfold currentPos, bind. rewrite Hagain. unfold get, defined. rewrite Hpos.
    reflexivity.
Qed.

End Position.

(* ===================================================================== *)
(** ** The root frame along the walk *)
(* ===================================================================== *)

Section RootKept.
Context `{SA : SchemaAPI} `{DA : DomAPI}.

Lemma sameFrame_refl f : sameFrame f f.
Proof. unfold sameFrame. auto 7. Qed.

Lemma sameFrame_trans f g h : sameFrame f g -> sameFrame g h -> sameFrame f h.
Proof.
  unfold sameFrame. intros (A1 & A2 & A3 & A4 & A5 & A6) (B1 & B2 & B3 & B4 & B5 & B6).
  repeat split; congruence.
Qed.

Lemma StackOk_root pc : StackOk pc -> exists root, nodeAt (pnodes pc) 0 = Some root.
Proof.
  intros Hok. apply StackOk_ids in Hok as (Hopen & _).
  unfold nodeAt. simpl. apply lookup_lt_is_Some_2. lia.
Qed.

Lemma sameRoot_refl l root : nodeAt l 0 = Some root -> sameRoot l l.
Proof. intros H. exists root, root. auto using sameFrame_refl. Qed.

Lemma sameRoot_trans l1 l2 l3 : sameRoot l1 l2 -> sameRoot l2 l3 -> sameRoot l1 l3.
Proof.
  intros (a & b & Ha & Hb & Hab) (b' & c & Hb' & Hc & Hbc).
  rewrite Hb in Hb'. injection Hb' as <-.
  exists a, c. eauto using sameFrame_trans.
Qed.

Lemma sameRoot_putNode l i f x root :
  nodeAt l 0 = Some root -> nodeAt l i = Some f -> sameFrame f x ->
  sameRoot l (putNode l i x).
Proof.
  intros Hr Hi Hs. pose proof (nodeAt_Some _ _ _ Hi) as [H0 Hl].
  destruct (decide (i = 0)) as [->|Hne].
  - exists root, x. split; [exact Hr|]. split.
    + apply nodeAt_putNode_eq; lia.
    + rewrite Hr in Hi. injection Hi as <-. exact Hs.
  - exists root, root. split; [exact Hr|]. split; [|apply sameFrame_refl].
    rewrite nodeAt_putNode_ne by lia. exact Hr.
Qed.

Lemma sameRoot_Forall2 (l l' : list NodeContext) root :
  nodeAt l 0 = Some root -> Forall2 sameFrame l l' -> sameRoot l l'.
Proof.
  intros Hr H. destruct H as [|a b l l' Hab H]; [discriminate|].
  exists a, b. auto.
Qed.

Lemma nodeAt_0_take (l : list NodeContext) n :
  (0 < n)%nat -> nodeAt (take n l) 0 = nodeAt l 0.
Proof. intros Hn. destruct n; [lia|]. destruct l; reflexivity. Qed.

Lemma nodeAt_0_app (l l2 : list NodeContext) root :
  nodeAt l 0 = Some root -> nodeAt (l ++ l2) 0 = Some root.
Proof. destruct l; [discriminate|]. auto. Qed.

Lemma sameEntries_refl o : sameEntries o o.
Proof.
  destruct o as [l|]; simpl; [|exact I].
  induction l; constructor; auto.
Qed.

Lemma sameEntries_trans o1 o2 o3 :
  sameEntries o1 o2 -> sameEntries o2 o3 -> sameEntries o1 o3.
Proof.
  destruct o1 as [l1|], o2 as [l2|], o3 as [l3|]; simpl; try tauto.
  intros H12. revert l3.
  induction H12 as [|a b l1 l2 [A1 A2] H12 IH]; intros l3 H23;
    inversion H23 as [|b' c l2' l3' [B1 B2] H23']; subst; constructor.
  - split; congruence.
  - apply IH. assumption.
Qed.

Lemma sameEntries_eq o o' : o' = o -> sameEntries o o'.
Proof. intros ->. apply sameEntries_refl. Qed.

Lemma walkKeeps_refl pc : StackOk pc -> walkKeeps pc pc.
Proof.
  intros Hok. destruct (StackOk_root _ Hok) as [root Hr].
  split; [exact Hok|]. split; [lia|]. split; [reflexivity|]. split; [reflexivity|].
  split; [eapply sameRoot_refl; eassumption|apply sameEntries_refl].
Qed.

Lemma walkKeeps_trans pc1 pc2 pc3 :
  walkKeeps pc1 pc2 -> walkKeeps pc2 pc3 -> walkKeeps pc1 pc3.
Proof.
  intros (_ & N1 & O1 & P1 & R1 & F1) (S2 & N2 & O2 & P2 & R2 & F2).
  split; [exact S2|]. split; [lia|]. split; [congruence|]. split; [congruence|].
  split; [eapply sameRoot_trans; eassumption|eapply sameEntries_trans; eassumption].
Qed.

(** *** The combinators *)

Lemma Keeps_same {A} (m : M A) :
  (forall pc a pc', m pc = Done a pc' -> pc' = pc) -> Keeps m.
Proof. intros H pc a pc' Hok Hm. rewrite (H _ _ _ Hm). apply walkKeeps_refl, Hok. Qed.

Lemma Keeps_ret {A} (a : A) : Keeps (ret a).
Proof. apply Keeps_same. intros pc x pc' H. injection H as _ <-. reflexivity. Qed.

Lemma Keeps_get : Keeps get.
Proof. apply Keeps_same. intros pc x pc' H. injection H as _ <-. reflexivity. Qed.

Lemma Keeps_throw {A} : Keeps (@throw _ _ A).
Proof. intros pc a pc' _ H. discriminate. Qed.

Lemma Keeps_timeout {A} : Keeps (@timeout _ _ A).
Proof. intros pc a pc' _ H. discriminate. Qed.

Lemma Keeps_defined {A} (o : option A) : Keeps (defined o).
Proof. destruct o; [apply Keeps_ret|apply Keeps_throw]. Qed.

Lemma Keeps_getTop : Keeps getTop.
Proof.
  apply Keeps_same. intros pc x pc' H. unfold getTop in H.
  destruct (top pc); [|discriminate]. injection H as _ <-. reflexivity.
Qed.

Lemma Keeps_bind {A B} (m : M A) (k : A -> M B) :
  Keeps m -> (forall a, Keeps (k a)) -> Keeps (bind m k).
Proof.
  intros Hm Hk pc b pc' Hok H. unfold bind in H.
  destruct (m pc) as [a pc1| |] eqn:E; try discriminate.
  pose proof (Hm _ _ _ Hok E) as K1.
  eapply walkKeeps_trans; [exact K1|]. eapply Hk; [apply K1|exact H].
Qed.

(** A change of the state that leaves the stack, the identities and
    the options alone. *)
Lemma Keeps_modify (f : ParseContext -> ParseContext) :
  (forall pc, pnodes (f pc) = pnodes pc /\ open (f pc) = open pc /\
              nextId (f pc) = nextId pc /\ isOpen (f pc) = isOpen pc /\
              options (f pc) = options pc /\ find (f pc) = find pc) ->
  Keeps (modify f).
Proof.
  intros Hf pc a pc' Hok H. injection H as _ <-.
  destruct (Hf pc) as (E1 & E2 & E3 & E4 & E5 & E6).
  destruct (StackOk_root _ Hok) as [root Hr].
  split.
  - apply (StackOk_same pc); [exact Hok|rewrite E1; reflexivity|lia|].
    rewrite E2. apply StackOk_ids in Hok. tauto.
  - split; [lia|]. split; [exact E4|]. split; [exact E5|].
    split; [|apply sameEntries_eq, E6].
    rewrite E1. eapply sameRoot_refl; eassumption.
Qed.

(** Another frame made the open one. *)
Lemma walkKeeps_setOpen pc d :
  StackOk pc -> 0 <= d < Z.of_nat (length (pnodes pc)) ->
  walkKeeps pc (setOpen pc d).
Proof.
  intros Hok Hd. destruct (StackOk_root _ Hok) as [root Hr].
  split; [apply (StackOk_same pc); [exact Hok|reflexivity|reflexivity|exact Hd]|].
  split; [reflexivity|]. split; [reflexivity|]. split; [reflexivity|].
  split; [eapply sameRoot_refl; eassumption|apply sameEntries_refl].
Qed.

(** A frame replaced by the same object. *)
Lemma walkKeeps_putNode pc i f x :
  StackOk pc -> nodeAt (pnodes pc) i = Some f -> sameFrame f x ->
  walkKeeps pc (setNodes pc (putNode (pnodes pc) i x)).
Proof.
  intros Hok Hi Hs. destruct (StackOk_root _ Hok) as [root Hr].
  split.
  - pose proof Hok as Hok'. apply StackOk_ids in Hok' as (Hopen & _).
    apply (StackOk_same pc); [exact Hok| |reflexivity|exact Hopen].
    cbn [pnodes setNodes]. apply (ids_putNode _ _ f); [exact Hi|apply Hs].
  - split; [reflexivity|]. split; [reflexivity|]. split; [reflexivity|].
    split; [|apply sameEntries_refl].
    cbn [pnodes setNodes]. eapply sameRoot_putNode; eassumption.
Qed.

End RootKept.

Section PlacementKept.
Context `{SA : SchemaAPI} `{DA : DomAPI}.

Lemma sameFrame_setContent f c : sameFrame f (setContent f c).
Proof. unfold sameFrame. simpl. auto 7. Qed.

Lemma sameFrame_setMatch f m : sameFrame f (setMatch f m).
Proof. unfold sameFrame. simpl. auto 7. Qed.

Lemma sameFrame_setPending f l : sameFrame f (setPending f l).
Proof. unfold sameFrame. simpl. auto 7. Qed.

Lemma sameFrame_setActive f l : sameFrame f (setActive f l).
Proof. unfold sameFrame. simpl. auto 7. Qed.

Lemma sameFrame_setStash f l : sameFrame f (setStash f l).
Proof. unfold sameFrame. simpl. auto 7. Qed.

Lemma sameFrame_applyPending ns f t :
  sameFrame f (NodeContext.applyPending ns f t).
Proof.
  pose proof (applyPending_frame ns f t) as H. cbn zeta in H.
  destruct H as (A1 & A2 & A3 & A4 & A5 & A6 & _).
  unfold sameFrame. auto 7.
Qed.

Lemma sameFrame_removeFromLevel m f : sameFrame f (removeFromLevel m f).
Proof.
  unfold removeFromLevel.
  destruct (hasMark m (nc_pendingMarks f)); [apply sameFrame_setPending|].
  cbn zeta.
  destruct (NodeContext.popFromStashMark m _) as [[sm rest]|];
    [|apply sameFrame_setActive].
  destruct (match nc_type _ with Some _ => _ | None => _ end);
    unfold sameFrame; simpl; auto 7.
Qed.

Lemma Keeps_closeExtra b : Keeps (closeExtra b).
Proof.
  intros pc [] pc' Hok H.
  pose proof (closeExtra_ok _ _ _ Hok H) as Hok'.
  destruct (closeExtra_frame _ _ _ H) as (_ & _ & Ho & Hi & Hfi & _ & Hn & _).
  split; [exact Hok'|]. split; [lia|]. split; [exact Hi|]. split; [exact Ho|].
  split; [|apply sameEntries_eq, Hfi].
  destruct (StackOk_root _ Hok) as [root Hr].
  apply StackOk_ids in Hok as (Hopen & _).
  unfold closeExtra in H.
  destruct (Z.of_nat (length (pnodes pc)) - 1 >? open pc).
  - destruct (closeFrom _ _ _ _) as [l|] eqn:Hc; [|discriminate].
    injection H as <-. cbn [pnodes setNodes].
    apply closeFrom_sameButContent in Hc.
    assert (Hs : sameRoot (pnodes pc) l).
    { apply (sameRoot_Forall2 _ _ root Hr).
      eapply Forall2_impl; [exact Hc|].
      intros f f' ->. apply sameFrame_setContent. }
    destruct Hs as (r & r' & H1 & H2 & H3).
    exists r, r'. split; [exact H1|]. split; [|exact H3].
    rewrite nodeAt_0_take by lia. exact H2.
  - injection H as <-. eapply sameRoot_refl; eassumption.
Qed.

Lemma Keeps_sync to : Keeps (sync to).
Proof.
  intros pc b pc' Hok H. apply sync_result in H as (d & -> & Hd).
  apply walkKeeps_setOpen; [exact Hok|].
  apply StackOk_ids in Hok as (Hopen & _). lia.
Qed.

Lemma Keeps_enterInner type attrs solid ws : Keeps (enterInner type attrs solid ws).
Proof.
  intros pc [] pc' Hok H.
  pose proof (enterInner_ok _ _ _ _ _ _ Hok H) as Hok'.
  apply enterInner_inv in H as (pc1 & par & Hc & Ht & ->).
  destruct (Keeps_closeExtra false _ _ _ Hok Hc) as (Hok1 & N1 & O1 & P1 & R1 & F1).
  split; [exact Hok'|].
  cbn [nextId isOpen options pnodes find setOpen setNextId setNodes].
  split; [lia|]. split; [exact O1|]. split; [exact P1|]. split; [|exact F1].
  eapply sameRoot_trans; [exact R1|].
  destruct (StackOk_root _ Hok1) as [root Hr].
  assert (Hs : sameRoot (pnodes pc1)
                 (putNode (pnodes pc1) (open pc1)
                    (fst (enteredFrame pc1 par type attrs solid ws)))).
  { apply (sameRoot_putNode _ _ par _ root Hr Ht).
    unfold enteredFrame. cbn [fst].
    eapply sameFrame_trans; [apply sameFrame_applyPending|apply sameFrame_setMatch]. }
  destruct Hs as (r & r' & H1 & H2 & H3).
  exists r, r'. split; [exact H1|]. split; [|exact H3].
  apply nodeAt_0_app. exact H2.
Qed.

Lemma Keeps_enterAll route : Keeps (enterAll route).
Proof.
  induction route as [|t rest IH]; simpl.
  - apply Keeps_ret.
  - apply Keeps_bind; [apply Keeps_enterInner|intros _; exact IH].
Qed.

Lemma Keeps_findPlace node : Keeps (findPlace node).
Proof.
  intros pc b pc' Hok H. unfold findPlace, bind at 1, get in H.
  unfold bind at 1 in H.
  destruct (findPlaceFrom _ _ _ _ _) as [route pc1| |] eqn:Hloop; try discriminate.
  assert (Hstart : bestAmong [] node None) by (intros ? ? []).
  destruct (findPlaceFrom_best _ _ _ _ _ [] _ _
              Hstart ltac:(intros ? ? []) Hloop)
    as (_ & Hsame & Hpc1 & _).
  assert (K1 : walkKeeps pc pc1).
  { destruct (StackOk_root _ Hok) as [root Hr].
    split.
    - pose proof Hok as Hok'. apply StackOk_ids in Hok' as (Hopen & _).
      apply (StackOk_same pc); [exact Hok| | |].
      + apply sameButMatch_ids. exact Hsame.
      + rewrite Hpc1. reflexivity.
      + rewrite Hpc1. exact Hopen.
    - rewrite Hpc1 at 1 2 3 5. cbn [nextId isOpen options find setNodes].
      split; [reflexivity|]. split; [reflexivity|]. split; [reflexivity|].
      split; [|apply sameEntries_refl].
      apply (sameRoot_Forall2 _ _ root Hr).
      eapply Forall2_impl; [exact Hsame|].
      intros f f' ->. apply sameFrame_setMatch. }
  eapply walkKeeps_trans; [exact K1|].
  destruct route as [[r to]|].
  - assert (Hk : Keeps (sync to ;;; enterAll r ;;; ret true)).
    { apply Keeps_bind; [apply Keeps_sync|intros _].
      apply Keeps_bind; [apply Keeps_enterAll|intros _; apply Keeps_ret]. }
    eapply Hk; [apply K1|exact H].
  - eapply (Keeps_ret false); [apply K1|exact H].
Qed.

Lemma Keeps_insertNode node : Keeps (insertNode node).
Proof.
  unfold insertNode.
  apply Keeps_bind; [apply Keeps_get|intros pc0].
  apply Keeps_bind.
  { destruct (node_isInline node && needsBlock pc0)%bool; [|apply Keeps_ret].
    apply Keeps_bind; [apply Keeps_getTop|intros t].
    destruct (isNull (nc_type t)); [|apply Keeps_ret].
    destruct (textblockFromContext pc0); [apply Keeps_enterInner|apply Keeps_ret]. }
  intros _. apply Keeps_bind; [apply Keeps_findPlace|intros ok].
  destruct ok; [|apply Keeps_ret].
  apply Keeps_bind; [apply Keeps_closeExtra|intros _].
  intros pc b pc' Hok H.
  unfold bind at 1, getTop in H.
  destruct (top pc) as [top0|] eqn:Ht; [|discriminate].
  simpl defined in H. unfold ret at 1 in H.
  unfold bind at 1, get in H. unfold bind at 1, setTop, modify in H.
  unfold ret in H. injection H as _ <-.
  apply (walkKeeps_putNode pc (open pc) top0); [exact Hok|exact Ht|].
  eapply sameFrame_trans; [|apply sameFrame_setContent].
  eapply sameFrame_trans; [apply sameFrame_applyPending|].
  destruct (nc_match _); [apply sameFrame_setMatch|apply sameFrame_refl].
Qed.

Lemma Keeps_enter type attrs ws : Keeps (enter type attrs ws).
Proof.
  unfold enter.
  apply Keeps_bind; [apply Keeps_findPlace|intros ok].
  apply Keeps_bind; [|intros _; apply Keeps_ret].
  destruct ok; [apply Keeps_enterInner|apply Keeps_ret].
Qed.

Lemma Keeps_addPendingMark mark : Keeps (addPendingMark mark).
Proof.
  intros pc [] pc' Hok H. unfold addPendingMark, bind, getTop in H.
  destruct (top pc) as [t|] eqn:Ht; [|discriminate].
  simpl in H. unfold setTop, modify in H. injection H as <-.
  apply (walkKeeps_putNode pc (open pc) t); [exact Hok|exact Ht|].
  eapply sameFrame_trans; [|apply sameFrame_setPending].
  destruct (findSameMarkInSet mark (nc_pendingMarks t));
    [apply sameFrame_setStash|apply sameFrame_refl].
Qed.

Lemma Keeps_removePendingFrom cnt mark upto : forall depth,
  Keeps (removePendingFrom cnt depth mark upto).
Proof.
  induction cnt as [|k IH]; intros depth; simpl.
  - apply Keeps_ret.
  - intros pc [] pc' Hok H.
    unfold bind at 1, get in H. unfold bind at 1, defined in H.
    destruct (nodeAt (pnodes pc) depth) as [level|] eqn:Hl; [|discriminate].
    unfold ret at 1 in H. unfold bind at 1, modify in H.
    pose proof (walkKeeps_putNode pc depth level (removeFromLevel mark level)
                  Hok Hl (sameFrame_removeFromLevel mark level)) as K1.
    eapply walkKeeps_trans; [exact K1|].
    destruct (bool_decide (Some (nc_id level) = upto)).
    + eapply (Keeps_ret tt); [apply K1|exact H].
    + eapply IH; [apply K1|exact H].
Qed.

Lemma Keeps_removePendingMark mark upto : Keeps (removePendingMark mark upto).
Proof.
  unfold removePendingMark.
  apply Keeps_bind; [apply Keeps_get|intros pc0]. apply Keeps_removePendingFrom.
Qed.

End PlacementKept.

Section WalkKept.
Context `{SA : SchemaAPI} `{DA : DomAPI}.

Lemma Keeps_currentPos : Keeps currentPos.
Proof.
  unfold currentPos.
  apply Keeps_bind; [apply Keeps_closeExtra|intros _].
  apply Keeps_bind; [apply Keeps_get|intros pc0]. apply Keeps_defined.
Qed.

Lemma Keeps_updateEntries hit value l :
  (forall e, Keeps (value e)) -> Keeps (updateEntries hit value l).
Proof.
  intros Hv. induction l as [|e r IH]; simpl.
  - apply Keeps_ret.
  - apply Keeps_bind; [apply Keeps_get|intros pc0].
    apply Keeps_bind.
    { destruct (hit (doc pc0) e); [|apply Keeps_ret].
      apply Keeps_bind; [apply Hv|intros p; apply Keeps_ret]. }
    intros e'. apply Keeps_bind; [exact IH|intros r'; apply Keeps_ret].
Qed.

Lemma updateEntries_entries hit value l : forall pc l' pc',
  updateEntries hit value l pc = Done l' pc' ->
  Forall2 (fun e e' => fnode e' = fnode e /\ foffset e' = foffset e) l l'.
Proof.
  induction l as [|e l IH]; intros pc l' pc' H; simpl in H.
  - unfold ret in H. injection H as <- _. constructor.
  - unfold bind at 1, get in H. unfold bind at 1 in H.
    match type of H with
    | match ?m pc with _ => _ end = _ =>
        destruct (m pc) as [e1 pc1| |] eqn:He; try discriminate
    end.
    unfold bind at 1 in H.
    destruct (updateEntries hit value l pc1) as [l1 pc2| |] eqn:Hu;
      try discriminate.
    unfold ret in H. injection H as <- _.
    constructor; [|eapply IH; exact Hu].
    destruct (hit (doc pc) e).
    + unfold bind in He. destruct (value e pc) as [p pc3| |]; try discriminate.
      unfold ret in He. injection He as <- _. split; reflexivity.
    + unfold ret in He. injection He as <- _. split; reflexivity.
Qed.

Lemma Keeps_withFind hit value :
  (forall e, Keeps (value e)) -> Keeps (withFind hit value).
Proof.
  intros Hv pc [] pc' Hok H. unfold withFind, bind at 1, get in H.
  destruct (find pc) as [l|] eqn:Hl;
    [|injection H as <-; apply walkKeeps_refl, Hok].
  unfold bind in H.
  destruct (updateEntries hit value l pc) as [l1 pc1| |] eqn:Hu; try discriminate.
  unfold modify in H. injection H as <-.
  destruct (Keeps_updateEntries hit value l Hv _ _ _ Hok Hu)
    as (S1 & N1 & O1 & P1 & R1 & _).
  split.
  - apply (StackOk_same pc1); [exact S1|reflexivity|reflexivity|].
    apply StackOk_ids in S1. tauto.
  - cbn [nextId isOpen options pnodes find setFind].
    split; [exact N1|]. split; [exact O1|]. split; [exact P1|].
    split; [exact R1|]. rewrite Hl. eapply updateEntries_entries. exact Hu.
Qed.

Lemma Keeps_findAtPoint parent offset : Keeps (findAtPoint parent offset).
Proof. apply Keeps_withFind. intros _. apply Keeps_currentPos. Qed.

Lemma Keeps_findInside parent : Keeps (findInside parent).
Proof. apply Keeps_withFind. intros _. apply Keeps_currentPos. Qed.

Lemma Keeps_findAround parent content before :
  Keeps (findAround parent content before).
Proof.
  unfold findAround. destruct (bool_decide (parent = content)); [apply Keeps_ret|].
  apply Keeps_withFind. intros _. apply Keeps_currentPos.
Qed.

Lemma Keeps_findInText textNode : Keeps (findInText textNode).
Proof.
  apply Keeps_withFind. intros e.
  apply Keeps_bind; [apply Keeps_currentPos|intros p].
  apply Keeps_bind; [apply Keeps_get|intros pc0].
  apply Keeps_bind; [apply Keeps_defined|intros v; apply Keeps_ret].
Qed.

Lemma walkKeeps_sameButAttrs pc pc' :
  StackOk pc -> sameButAttrs pc pc' -> walkKeeps pc pc'.
Proof.
  intros Hok (E1 & E2 & E6 & _ & _ & E3 & E4 & E5 & _).
  destruct (StackOk_root _ Hok) as [root Hr].
  split.
  - apply (StackOk_same pc); [exact Hok|rewrite E2; reflexivity|lia|].
    rewrite E1. apply StackOk_ids in Hok. tauto.
  - split; [lia|]. split; [exact E4|]. split; [exact E3|].
    split; [|apply sameEntries_eq, E6].
    rewrite E2. eapply sameRoot_refl; eassumption.
Qed.

Lemma Keeps_matchTag dom after : Keeps (matchTag dom after).
Proof.
  intros pc r pc' Hok H. apply walkKeeps_sameButAttrs; [exact Hok|].
  eapply scanOutcome_sameButAttrs. eapply matchTag_outcome. exact H.
Qed.

Lemma Keeps_matchStyle prop value after : Keeps (matchStyle prop value after).
Proof.
  intros pc r pc' Hok H. apply walkKeeps_sameButAttrs; [exact Hok|].
  eapply scanOutcome_sameButAttrs. eapply matchStyle_outcome. exact H.
Qed.

Lemma Keeps_readStyleLoop n prop value : forall after acc,
  Keeps (readStyleLoop n prop value after acc).
Proof.
  induction n as [|k IH]; intros after acc; simpl.
  - apply Keeps_timeout.
  - apply Keeps_bind; [apply Keeps_matchStyle|intros r].
    destruct r as [i|]; [|apply Keeps_ret].
    apply Keeps_bind; [apply Keeps_get|intros pc0].
    apply Keeps_bind; [apply Keeps_defined|intros rule].
    destruct (ignore rule); [apply Keeps_ret|].
    apply Keeps_bind.
    { destruct (clearMark rule).
      - apply Keeps_bind; [apply Keeps_getTop|intros t; apply Keeps_ret].
      - apply Keeps_bind; [apply Keeps_defined|intros mt; apply Keeps_ret]. }
    intros acc'. destruct (bool_decide _); [apply IH|apply Keeps_ret].
Qed.

Lemma Keeps_readStylesFrom n : forall styles acc,
  Keeps (readStylesFrom n styles acc).
Proof.
  fix IH 1. intros styles acc. destruct styles as [|prop [|value rest]]; simpl.
  - apply Keeps_ret.
  - apply Keeps_throw.
  - apply Keeps_bind; [apply Keeps_readStyleLoop|intros r].
    destruct r; [apply IH|apply Keeps_ret].
Qed.

Lemma Keeps_readStyles n styles : Keeps (readStyles n styles).
Proof. apply Keeps_readStylesFrom. Qed.

Lemma Keeps_forEachM {A} (f : A -> M unit) (l : list A) :
  (forall x, Keeps (f x)) -> Keeps (forEachM f l).
Proof.
  intros Hf. induction l as [|x r IH]; simpl.
  - apply Keeps_ret.
  - apply Keeps_bind; [apply Hf|intros _; exact IH].
Qed.

Lemma Keeps_addTextNode dom : Keeps (addTextNode dom).
Proof.
  unfold addTextNode.
  apply Keeps_bind; [apply Keeps_get|intros pc0].
  apply Keeps_bind; [apply Keeps_defined|intros value].
  apply Keeps_bind; [apply Keeps_getTop|intros t].
  destruct (_ || _ || _)%bool; [|apply Keeps_findInside].
  cbn zeta. apply Keeps_bind; [|intros _; apply Keeps_findInText].
  destruct (negb _); [|apply Keeps_ret].
  apply Keeps_bind; [apply Keeps_insertNode|intros _; apply Keeps_ret].
Qed.

Lemma Keeps_leafFallback dom : Keeps (leafFallback dom).
Proof.
  unfold leafFallback.
  apply Keeps_bind; [apply Keeps_get|intros pc0].
  destruct (String.eqb _ _); [|apply Keeps_ret].
  apply Keeps_bind; [apply Keeps_getTop|intros t].
  destruct (match nc_type t with Some _ => _ | None => _ end); [|apply Keeps_ret].
  destruct (createTextNode _ _) as [d' textNode].
  apply Keeps_bind; [|intros _; apply Keeps_addTextNode].
  apply Keeps_modify. intros pc. repeat split; reflexivity.
Qed.

Lemma Keeps_ignoreFallback dom : Keeps (ignoreFallback dom).
Proof.
  unfold ignoreFallback.
  apply Keeps_bind; [apply Keeps_get|intros pc0].
  destruct (String.eqb _ _); [|apply Keeps_ret].
  apply Keeps_bind; [apply Keeps_getTop|intros t].
  destruct (match nc_type t with Some _ => _ | None => _ end); [|apply Keeps_ret].
  apply Keeps_bind; [apply Keeps_findPlace|intros _; apply Keeps_ret].
Qed.

End WalkKept.

Section MethodsKept.
Context `{SA : SchemaAPI} `{DA : DomAPI}.

Lemma walkKeeps_bind {A B} (m : M A) (k : A -> M B) pc b pc' :
  StackOk pc ->
  (forall a pc1, m pc = Done a pc1 -> walkKeeps pc pc1) ->
  (forall a, Keeps (k a)) ->
  bind m k pc = Done b pc' -> walkKeeps pc pc'.
Proof.
  intros Hok Hm Hk H. unfold bind in H.
  destruct (m pc) as [a pc1| |] eqn:E; try discriminate.
  pose proof (Hm _ _ eq_refl) as K1.
  eapply walkKeeps_trans; [exact K1|]. eapply Hk; [apply K1|exact H].
Qed.

Lemma NoDup_ids_ne (l : list NodeContext) i j a b :
  NoDup (map nc_id l) -> nodeAt l i = Some a -> nodeAt l j = Some b ->
  i <> j -> nc_id a <> nc_id b.
Proof.
  intros Hnd Hi Hj Hne Heq.
  pose proof (nodeAt_Some _ _ _ Hi) as [Hi0 _].
  pose proof (nodeAt_Some _ _ _ Hj) as [Hj0 _].
  unfold nodeAt in Hi, Hj.
  destruct (i <? 0) eqn:Ei; [discriminate|].
  destruct (j <? 0) eqn:Ej; [discriminate|].
  assert (H1 : map nc_id l !! Z.to_nat i = Some (nc_id a))
    by (rewrite list_lookup_fmap, Hi; reflexivity).
  assert (H2 : map nc_id l !! Z.to_nat j = Some (nc_id a))
    by (rewrite list_lookup_fmap, Hj, Heq; reflexivity).
  pose proof (NoDup_lookup _ _ _ _ Hnd H1 H2) as E. lia.
Qed.

Lemma sync_true_at to pc pc' :
  0 <= open pc -> sync to pc = Done true pc' ->
  pc' = setOpen pc (open pc') /\ 0 <= open pc' <= open pc /\
  option_map nc_id (nodeAt (pnodes pc) (open pc')) = to.
Proof.
  intros Hopen H. unfold sync in H.
  pose proof (syncFrom_innermost (Z.to_nat (open pc + 1)) (open pc) (pnodes pc) to)
    as Hs.
  destruct (syncFrom _ _ _ _) as [d|]; [|discriminate].
  injection H as <-. cbn [open setOpen]. destruct Hs as (Hd & Hid & _).
  split; [reflexivity|]. split; [lia|exact Hid].
Qed.

Lemma enter_true_open type attrs ws pc pc' :
  StackOk pc -> enter type attrs ws pc = Done true pc' -> 1 <= open pc'.
Proof.
  intros Hok H. unfold enter in H. unfold bind at 1 in H.
  destruct (findPlace _ pc) as [ok pc1| |] eqn:Hp; try discriminate.
  pose proof (Keeps_findPlace _ _ _ _ Hok Hp) as (Hok1 & _).
  unfold bind at 1 in H. destruct ok.
  - destruct (enterInner type attrs true ws pc1) as [[] pc2| |] eqn:He;
      try discriminate.
    unfold ret in H. injection H as <-.
    apply enterInner_inv in He as (pcc & par & Hc & _ & ->).
    destruct (closeExtra_frame _ _ _ Hc) as (Ho & _).
    cbn [open setOpen]. apply StackOk_ids in Hok1 as (Hopen & _). lia.
  - unfold ret in H. discriminate.
Qed.

Section WithWalk.
Variable W : Walk.
Hypothesis HW : KeepsWalk W.

Lemma Keeps_addDOM dom : Keeps (addDOM W dom).
Proof.
  destruct HW as (HD & HE & HA). unfold addDOM.
  apply Keeps_bind; [apply Keeps_get|intros pc0].
  destruct (_ =? 3); [apply Keeps_addTextNode|].
  destruct (_ =? 1); [|apply Keeps_ret].
  cbn zeta. destruct (negb _); [apply HE|].
  apply Keeps_bind; [apply Keeps_readStyles|intros marks].
  destruct marks as [[addMarks removeMarks]|]; [|apply Keeps_ret].
  apply Keeps_bind; [apply Keeps_get|intros pc1]. cbn zeta.
  apply Keeps_bind;
    [apply Keeps_forEachM; intros m; apply Keeps_removePendingMark|intros _].
  apply Keeps_bind;
    [apply Keeps_forEachM; intros m; apply Keeps_addPendingMark|intros _].
  apply Keeps_bind; [apply HE|intros _].
  apply Keeps_bind;
    [apply Keeps_forEachM; intros m; apply Keeps_removePendingMark|intros _].
  apply Keeps_forEachM; intros m; apply Keeps_addPendingMark.
Qed.

Lemma Keeps_addAllFrom parent dom end_ index :
  Keeps (addAllFrom W parent dom end_ index).
Proof.
  destruct HW as (HD & HE & HA). unfold addAllFrom.
  destruct (bool_decide _); [apply Keeps_findAtPoint|].
  apply Keeps_bind; [apply Keeps_findAtPoint|intros _].
  apply Keeps_bind; [apply Keeps_defined|intros d].
  apply Keeps_bind; [apply HD|intros _].
  apply Keeps_bind; [apply Keeps_get|intros pc0]. apply HA.
Qed.

Lemma Keeps_addAll parent startIndex endIndex :
  Keeps (addAll W parent startIndex endIndex).
Proof.
  unfold addAll.
  apply Keeps_bind; [apply Keeps_get|intros pc0]. apply Keeps_addAllFrom.
Qed.

Lemma Keeps_contentDOMOf rule dom : Keeps (contentDOMOf rule dom).
Proof.
  unfold contentDOMOf.
  apply Keeps_bind; [apply Keeps_get|intros pc0].
  destruct (contentElement rule) as [[sel|f|e]|];
    [apply Keeps_defined|apply Keeps_ret..].
Qed.

Lemma Keeps_setNeedsBlock b : Keeps (modify (fun pc => setNeedsBlock pc b)).
Proof. apply Keeps_modify. intros pc. repeat split; reflexivity. Qed.

Lemma Keeps_addTransparent name dom : Keeps (addTransparent W name dom).
Proof.
  intros pc a pc' Hok H. unfold addTransparent in H.
  unfold bind at 1, get in H. cbn zeta in H.
  destruct (JS.mem name blockTags).
  - unfold bind at 1, getTop in H.
    destruct (top pc) as [top0|] eqn:Ht; [|discriminate].
    simpl defined in H. unfold ret at 1 in H.
    revert H. apply walkKeeps_bind; [exact Hok| |].
    + intros [] pc1 H1.
      destruct (_ && negb (open pc =? 0))%bool eqn:E.
      * injection H1 as <-. apply andb_true_iff in E as [_ E].
        apply negb_true_iff, Z.eqb_neq in E.
        apply walkKeeps_setOpen; [exact Hok|].
        apply StackOk_ids in Hok as (Hopen & _). lia.
      * injection H1 as <-. apply walkKeeps_refl, Hok.
    + intros _. apply Keeps_bind; [apply Keeps_getTop|intros top1].
      apply Keeps_bind;
        [destruct (isNull _); [apply Keeps_setNeedsBlock|apply Keeps_ret]|intros _].
      apply Keeps_bind; [apply Keeps_addAll|intros _].
      apply Keeps_bind; [apply Keeps_sync|intros _]. apply Keeps_setNeedsBlock.
  - destruct (isNull _).
    + eapply Keeps_leafFallback; eassumption.
    + revert H. apply walkKeeps_bind; [exact Hok| |].
      * intros x pc1 H1. eapply Keeps_addAll; eassumption.
      * intros _. apply Keeps_setNeedsBlock.
Qed.

Lemma Keeps_addElementByRule dom rule continueAfter :
  Keeps (addElementByRule W dom rule continueAfter).
Proof.
  destruct HW as (HD & HE & HA).
  intros pc a pc' Hok H. unfold addElementByRule in H.
  unfold bind at 1, get in H. unfold bind at 1 in H.
  match type of H with
  | match ?e pc with _ => _ end = _ =>
      destruct (e pc) as [[[sync_ nodeType] mark] pcE| |] eqn:HEn;
        try discriminate
  end.
  assert (KE : walkKeeps pc pcE /\ (sync_ = true -> 1 <= open pcE)).
  { destruct (JS.truthy (node rule)).
    - unfold bind at 1 in HEn.
      destruct (defined _ pc) as [nt pc0| |] eqn:Hd; try discriminate.
      assert (pc0 = pc) as ->.
      { destruct (lookupName _ _); [|discriminate]. injection Hd as _ <-.
        reflexivity. }
      destruct (negb (nt_isLeaf nt)).
      + unfold bind at 1 in HEn.
        destruct (enter nt (attrs rule) (preserveWhitespace rule) pc)
          as [s pc1| |] eqn:Hen; try discriminate.
        unfold ret in HEn. injection HEn as <- _ _ <-.
        split; [eapply Keeps_enter; eassumption|].
        intros ->. eapply enter_true_open; eassumption.
      + split; [|intros Hs].
        * revert HEn. apply Keeps_bind; [apply Keeps_insertNode|intros ok| exact Hok].
          apply Keeps_bind; [|intros _; apply Keeps_ret].
          destruct ok; [apply Keeps_ret|apply Keeps_leafFallback].
        * unfold bind at 1 in HEn.
          destruct (insertNode _ pc) as [ok pc1| |]; try discriminate.
          unfold bind at 1 in HEn.
          destruct ((if ok then ret tt else leafFallback dom) pc1) as [[] pc2| |];
            try discriminate.
          unfold ret in HEn. injection HEn as <- _ _ _. discriminate.
    - split; [|intros Hs].
      + revert HEn. apply Keeps_bind; [apply Keeps_defined|intros mt|exact Hok].
        cbn zeta.
        apply Keeps_bind; [apply Keeps_addPendingMark|intros _; apply Keeps_ret].
      + unfold bind at 1 in HEn.
        destruct (defined _ pc) as [mt pc0| |]; try discriminate.
        cbn zeta in HEn. unfold bind at 1 in HEn.
        destruct (addPendingMark _ pc0) as [[] pc1| |]; try discriminate.
        unfold ret in HEn. injection HEn as <- _ _ _. discriminate. }
  destruct KE as [KE Hopen1].
  eapply walkKeeps_trans; [exact KE|].
  pose proof KE as (HokE & _).
  cbv beta iota in H. unfold bind at 1, get in H. cbn zeta in H.
  unfold bind at 1 in H.
  match type of H with
  | match ?e pcE with _ => _ end = _ =>
      destruct (e pcE) as [[] pcM| |] eqn:HM; try discriminate;
      assert (KM : walkKeeps pcE pcM)
  end.
  { revert HM. destruct (match nodeType with Some _ => _ | None => _ end).
    - apply Keeps_findInside, HokE.
    - destruct continueAfter as [after|]; [apply HE, HokE|].
      destruct (getContent rule) as [content|].
      + apply Keeps_bind; [apply Keeps_findInside|intros _|exact HokE].
        apply Keeps_bind; [apply Keeps_get|intros pc0].
        apply Keeps_forEachM. intros n.
        apply Keeps_bind; [apply Keeps_insertNode|intros _; apply Keeps_ret].
      + apply Keeps_bind; [apply Keeps_contentDOMOf|intros contentDOM|exact HokE].
        apply Keeps_bind; [apply Keeps_findAround|intros _].
        apply Keeps_addAll. }
  eapply walkKeeps_trans; [exact KM|].
  pose proof KM as (HokM & _ & _ & _ & RM & _).
  revert H. apply walkKeeps_bind; [exact HokM| |].
  - intros [] pcS HS. destruct sync_; [|injection HS as <-; apply walkKeeps_refl, HokM].
    unfold bind at 1 in HS.
    destruct (sync _ pcM) as [found pcY| |] eqn:Hsy; try discriminate.
    pose proof (Keeps_sync _ _ _ _ HokM Hsy) as KY.
    destruct found; [|injection HS as <-; exact KY].
    injection HS as <-.
    eapply walkKeeps_trans; [exact KY|].
    apply walkKeeps_setOpen; [apply KY|].
    pose proof HokM as HokM'. apply StackOk_ids in HokM' as (HoM & _).
    destruct (sync_true_at _ pcM _ (proj1 HoM) Hsy) as (EY & Hd & Hid).
    assert (Hlen : length (pnodes pcY) = length (pnodes pcM))
      by (rewrite EY; reflexivity).
    rewrite Hlen.
    assert (Hne : open pcY <> 0).
    { intros E0. rewrite E0 in Hid.
      destruct RM as (rootE & rootM & HrE & HrM & HsM).
      rewrite HrM in Hid. cbn [option_map] in Hid.
      specialize (Hopen1 eq_refl).
      pose proof HokE as HokE'. apply StackOk_ids in HokE' as (HoE & HndE & _).
      destruct (StackOk_top _ HokE) as [child Hchild].
      rewrite Hchild in Hid. cbn [option_map] in Hid. injection Hid as Hid.
      unfold top in Hchild.
      refine (NoDup_ids_ne _ _ _ _ _ HndE HrE Hchild _ _); [lia|].
      destruct HsM as (Eid & _). congruence. }
    lia.
  - intros _. destruct mark; [apply Keeps_removePendingMark|apply Keeps_ret].
Qed.

Lemma Keeps_addElement dom matchAfter : Keeps (addElement W dom matchAfter).
Proof.
  unfold addElement.
  apply Keeps_bind; [apply Keeps_get|intros pc0]. cbn zeta.
  apply Keeps_bind.
  { destruct (_ && _)%bool; [|apply Keeps_ret].
    apply Keeps_bind.
    - destruct (normalizeList _ _ _); [apply Keeps_ret|apply Keeps_timeout].
    - intros d'. apply Keeps_modify. intros pc. repeat split; reflexivity. }
  intros _. apply Keeps_bind; [apply Keeps_get|intros pc1].
  apply Keeps_bind.
  { destruct (match o_ruleFromNode (options pc1) with Some _ => _ | None => _ end).
    - apply Keeps_ret.
    - apply Keeps_bind; [apply Keeps_matchTag|intros ruleID; apply Keeps_ret]. }
  intros [ref ruleID].
  apply Keeps_bind; [apply Keeps_get|intros pc2].
  apply Keeps_bind.
  { destruct ref as [r|]; [|apply Keeps_ret].
    apply Keeps_bind; [apply Keeps_defined|intros x; apply Keeps_ret]. }
  intros rule.
  destruct (match rule with Some _ => _ | None => _ end).
  { apply Keeps_bind; [apply Keeps_findInside|intros _; apply Keeps_ignoreFallback]. }
  destruct rule as [r|]; [|apply Keeps_addTransparent].
  destruct (_ || _)%bool; [|apply Keeps_addElementByRule].
  apply Keeps_bind.
  { destruct (closeParent r); [|apply Keeps_ret].
    intros pc [] pc' Hok H. injection H as <-.
    apply walkKeeps_setOpen; [exact Hok|].
    apply StackOk_ids in Hok as (Hopen & _). lia. }
  intros _. apply Keeps_bind; [apply Keeps_get|intros pc3]. cbn zeta.
  apply Keeps_addTransparent.
Qed.

End WithWalk.

(** The methods of [walk fuel] keep the stack and its root. *)
Lemma KeepsWalk_walk fuel : KeepsWalk (walk fuel).
Proof.
  induction fuel as [|k IH]; cbn [walk].
  - split; [|split]; intros; apply Keeps_timeout.
  - cbn zeta. split; [|split]; cbn [w_addDOM w_addElement w_addAllFrom].
    + intros dom. apply Keeps_addDOM, IH.
    + intros dom after. apply Keeps_addElement, IH.
    + intros parent dom end_ index. apply Keeps_addAllFrom, IH.
Qed.


End MethodsKept.

Section WholeParse.
Context `{SA : SchemaAPI} `{DA : DomAPI}.

(** X21.  The walk over the input tree keeps the invariant of the
    stack, never replaces the root frame and never touches the entries
    of the position list but for their positions: whatever [addDOM],
    [addElement] and [addAll] do, with all the methods they call and
    to any depth, the stack afterwards satisfies the invariant, its
    root frame is the same object with the same type, attributes,
    marks, solidity and options, no frame identity is given out twice,
    [isOpen] and the options of the parse are as before, and the
    position list holds the same nodes and offsets in the same
    order. *)
Theorem walk_keeps_stack (fuel : nat) pc :
  StackOk pc ->
  (forall dom pc',
      addDOM (walk fuel) dom pc = Done tt pc' -> walkKeeps pc pc') /\
  (forall dom after pc',
      addElement (walk fuel) dom after pc = Done tt pc' -> walkKeeps pc pc') /\
  (forall parent startIndex endIndex pc',
      addAll (walk fuel) parent startIndex endIndex pc = Done tt pc' ->
      walkKeeps pc pc').
Proof.
  intros Hok. pose proof (KeepsWalk_walk fuel) as HW.
  split; [|split].
  - intros dom pc' H. eapply Keeps_addDOM; eassumption.
  - intros dom after pc' H. eapply Keeps_addElement; eassumption.
  - intros parent startIndex endIndex pc' H. eapply Keeps_addAll; eassumption.
Qed.

Lemma finish_result (cx : NodeContext) (openEnd : bool) r cx' :
  NodeContext.finish cx openEnd = Some (r, cx') ->
  match nc_type cx with
  | Some t => exists content,
      r = inl (nt_create t (nc_attrs cx) (Some content) (Some (nc_marks cx)))
  | None => exists content, r = inr content
  end.
Proof.
  unfold NodeContext.finish. cbn zeta.
  destruct (match nc_match cx with Some _ => _ | None => _ end) as [content|];
    [|discriminate].
  destruct (nc_type cx); intros H; injection H as <- _; eauto.
Qed.

Lemma newParseContext_start parser opts slice d pc :
  newParseContext parser opts slice d = Some pc ->
  StackOk pc /\ find pc = o_findPositions opts /\
  exists root,
    nodeAt (pnodes pc) 0 = Some root /\
    nc_marks root = Mark_none /\
    nc_type root
    = match o_topNode opts with
      | Some n => Some (node_type n)
      | None => if slice then None else Some (topNodeType (schema parser))
      end /\
    nc_attrs root
    = match o_topNode opts with
      | Some n => Some (node_attrs n)
      | None => None
      end.
Proof.
  unfold newParseContext. cbn zeta.
  destruct (match o_topNode opts with Some _ => _ | None => _ end) as [cx|] eqn:E;
    [|discriminate].
  intros H. injection H as <-.
  assert (Hcx : nc_id cx = O /\ nc_marks cx = Mark_none /\
                nc_type cx
                = match o_topNode opts with
                  | Some n => Some (node_type n)
                  | None => if slice then None
                            else Some (topNodeType (schema parser))
                  end /\
                nc_attrs cx
                = match o_topNode opts with
                  | Some n => Some (node_attrs n)
                  | None => None
                  end).
  { unfold newNodeContext in E. cbv zeta in E.
    destruct (o_topNode opts) as [n|]; [|destruct slice];
      cbv beta iota in E;
      try (destruct (hasOpt _ OPT_OPEN_LEFT) in E; try discriminate);
      injection E as <-; cbn; auto. }
  destruct Hcx as (Hid & Hm & Ht & Ha).
  split.
  - apply StackOk_ids. cbn [open pnodes nextId map length]. rewrite Hid.
    split; [lia|]. split; [apply NoDup_singleton|].
    constructor; [lia|constructor].
  - split; [reflexivity|]. exists cx. auto.
Qed.

Lemma parseWith_shape (fuel : nat) (slice : bool) (parser : DOMParser)
    (d : Doc) (dom : DOMNode) (opts : ParseOptions) r pc' :
  parseWith fuel slice parser d dom opts = Done r pc' ->
  match o_topNode opts with
  | Some n =>
      exists content,
        r = inl (nt_create (node_type n) (Some (node_attrs n)) (Some content)
                           (Some Mark_none))
  | None =>
      if slice then exists content, r = inr content
      else exists content,
             r = inl (nt_create (topNodeType (schema parser)) None (Some content)
                                (Some Mark_none))
  end /\
  sameEntries (o_findPositions opts) (find pc').
Proof.
  unfold parseWith. intros H.
  destruct (newParseContext parser opts slice d) as [pc0|] eqn:Hnew;
    [|discriminate].
  destruct (newParseContext_start _ _ _ _ _ Hnew)
    as (Hok0 & Hf0 & root0 & Hr0 & Hm0 & Ht0 & Ha0).
  unfold bind at 1 in H.
  destruct (addAll (walk fuel) dom (o_from opts) (o_to opts) pc0)
    as [[] pc1| |] eqn:Hwalk; try discriminate.
  pose proof (Keeps_addAll _ (KeepsWalk_walk fuel) _ _ _ _ _ _ Hok0 Hwalk) as K1.
  unfold finish in H. unfold bind at 1, modify in H.
  unfold bind at 1, get in H. unfold bind at 1 in H.
  destruct (closeExtra _ _) as [[] pc2| |] eqn:Hc; try discriminate.
  assert (KA : walkKeeps pc1 (setOpen pc1 0)).
  { apply walkKeeps_setOpen; [apply K1|].
    destruct K1 as (Hok1 & _). apply StackOk_ids in Hok1 as (Hopen & _). lia. }
  pose proof (Keeps_closeExtra _ _ _ _ (proj1 KA) Hc) as K2.
  pose proof (walkKeeps_trans _ _ _ K1 (walkKeeps_trans _ _ _ KA K2))
    as (_ & _ & _ & _ & (ra & rb & Hra & Hrb & Hs) & Hfind).
  rewrite Hf0 in Hfind.
  rewrite Hr0 in Hra. injection Hra as <-.
  unfold bind at 1, get in H. unfold bind at 1, defined in H.
  rewrite Hrb in H. unfold ret at 1 in H.
  unfold bind at 1 in H.
  destruct (NodeContext.finish rb _) as [[res rb']|] eqn:Hf; [|discriminate].
  cbn [defined] in H. unfold ret at 1 in H.
  unfold bind at 1, modify in H. unfold ret in H. injection H as <- <-.
  split; [|exact Hfind].
  apply finish_result in Hf. cbn [fst].
  destruct Hs as (_ & Ety & Eat & Ema & _).
  rewrite Ety, Eat, Ema, Ht0, Ha0, Hm0 in Hf.
  destruct (o_topNode opts) as [n|]; [exact Hf|].
  destruct slice; exact Hf.
Qed.

(** X22.  What a parse returns.  [parse] returns a node of the top
    node type: the type and the attributes of the [topNode] option, or
    else the top node type of the schema without attributes; the node
    has no marks.  [parseSlice] hands a fragment to [Slice.maxOpen]
    when no [topNode] is given; with a [topNode] option, what [finish]
    returns to it is a node of that type as well.  In both cases the
    position list holds afterwards the nodes and offsets that were
    asked for, in their order: only positions are written. *)
Theorem parse_result_shape (fuel : nat) (parser : DOMParser) (d : Doc)
    (dom : DOMNode) (opts : ParseOptions) r pc' :
  let T := match o_topNode opts with
           | Some n => node_type n
           | None => topNodeType (schema parser)
           end in
  let A := match o_topNode opts with
           | Some n => Some (node_attrs n)
           | None => None
           end in
  (parse fuel parser d dom opts = Done r pc' ->
   (exists content, r = inl (nt_create T A (Some content) (Some Mark_none))) /\
   sameEntries (o_findPositions opts) (find pc')) /\
  (parseSlice fuel parser d dom opts = Done r pc' ->
   match o_topNode opts with
   | Some _ =>
       exists content, r = inl (nt_create T A (Some content) (Some Mark_none))
   | None => exists content, r = inr content
   end /\
   sameEntries (o_findPositions opts) (find pc')).
Proof.
  cbv zeta. split; intros H; apply parseWith_shape in H;
    destruct (o_topNode opts); exact H.
Qed.

End WholeParse.

(* ===================================================================== *)
(** ** Context strings *)
(* ===================================================================== *)

Section ContextStrings.
Context `{SA : SchemaAPI} `{DA : DomAPI}.

Lemma typeAtDepth_defined pc depth :
  depth < Z.of_nat (length (pnodes pc)) ->
  exists t, typeAtDepth pc depth = Some t.
Proof.
  intros Hd. unfold typeAtDepth.
  destruct ((depth >? 0) || ((depth =? 0) && useRoot pc))%bool eqn:E.
  - assert (H0 : 0 <= depth).
    { apply orb_true_iff in E as [E|E].
      - rewrite Z.gtb_ltb in E. apply Z.ltb_lt in E. lia.
      - apply andb_true_iff in E as [E _]. apply Z.eqb_eq in E. lia. }
    unfold nodeAt. destruct (depth <? 0) eqn:E0; [apply Z.ltb_lt in E0; lia|].
    destruct (lookup_lt_is_Some_2 (pnodes pc) (Z.to_nat depth) ltac:(lia))
      as [cx ->].
    eauto.
  - destruct (o_context (options pc)); [|eauto].
    destruct (depth >=? minDepth pc); eauto.
Qed.

Lemma matchPath_defined pc parts : forall n depth,
  depth < Z.of_nat (length (pnodes pc)) ->
  exists b, matchPath pc parts n depth = Some b.
Proof.
  induction n as [|i IH]; intros depth Hd; cbn [matchPath]; [eauto|].
  cbv zeta. destruct (JS.isEmpty (nth i parts EmptyString)).
  - destruct (_ || _)%bool; [apply IH, Hd|].
    generalize (Z.to_nat (depth - minDepth pc + 1)). intros cnt.
    revert depth Hd. induction cnt as [|c IHc]; intros depth Hd; [eauto|].
    destruct (IH depth Hd) as [b ->]. destruct b; [eauto|].
    apply IHc. lia.
  - destruct (typeAtDepth_defined pc depth Hd) as [[next|] ->]; [|eauto].
    destruct (typeMatches next _); [|eauto]. apply IH. lia.
Qed.

Lemma some_defined (f : string -> option bool) l :
  (forall x, exists b, f x = Some b) -> exists b, some f l = Some b.
Proof.
  intros Hf. induction l as [|x r IH]; simpl; [eauto|].
  destruct (Hf x) as [b ->]. destruct b; [eauto|exact IH].
Qed.

(** X23.  [matchesContext] never throws and changes nothing: for
    every context string, in every state in which [open] points into
    the stack, it returns [true] or [false], and the state is as
    before.  The frames it reads, [nodes[depth]] for depths from
    [open] downward, are all there. *)
Theorem matchesContext_returns (context : string) pc :
  0 <= open pc < Z.of_nat (length (pnodes pc)) ->
  exists b, matchesContext context pc = Done b pc.
Proof.
  intros Hopen. unfold matchesContext, bind, get.
  assert (Hp : forall s, exists b, matchesPath pc s = Some b).
  { intros s. unfold matchesPath. cbv zeta. apply matchPath_defined. lia. }
  assert (H : exists b, matchesContextPure pc context = Some b).
  { unfold matchesContextPure. destruct (JS.hasChar 124 context); [|apply Hp].
    apply some_defined, Hp. }
  destruct H as [b ->]. exists b. reflexivity.
Qed.

Lemma splitChar_cons sep s : exists h t, JS.splitChar sep s = h :: t.
Proof.
  induction s as [|c r IH]; simpl; [eauto|].
  destruct (JS.isChar sep c); [eauto|].
  destruct IH as (h & t & ->). eauto.
Qed.

Lemma splitChar_slash s :
  JS.splitChar 47 (s ++ "/")%string = JS.splitChar 47 s ++ [EmptyString].
Proof.
  induction s as [|c r IH].
  - reflexivity.
  - change ((String c r ++ "/")%string) with (String c (r ++ "/")%string).
    cbn [JS.splitChar]. rewrite IH.
    destruct (JS.isChar 47 c); [reflexivity|].
    destruct (splitChar_cons 47 r) as (h & t & ->). reflexivity.
Qed.

Lemma hasChar_slash s :
  JS.hasChar 124 (s ++ "/")%string = JS.hasChar 124 s.
Proof.
  induction s as [|c r IH]; [reflexivity|].
  change ((String c r ++ "/")%string) with (String c (r ++ "/")%string).
  cbn [JS.hasChar]. rewrite IH. reflexivity.
Qed.

Lemma matchPath_slash pc (parts : list string) :
  List.last parts EmptyString <> EmptyString ->
  forall n depth,
    (n <= length parts)%nat ->
    matchPath pc (parts ++ [EmptyString]) n depth = matchPath pc parts n depth.
Proof.
  intros Hlast. induction n as [|i IH]; intros depth Hn; [reflexivity|].
  cbn [matchPath]. cbv zeta.
  rewrite app_nth1 by lia.
  destruct (JS.isEmpty (nth i parts EmptyString)) eqn:Ee.
  - assert (Hi : i <> (length parts - 1)%nat).
    { intros ->. apply Hlast.
      assert (E : List.last parts EmptyString
                  = nth (length parts - 1) parts EmptyString).
      { clear. induction parts as [|a l IH]; [reflexivity|].
        destruct l as [|b l']; [reflexivity|].
        change (List.last (a :: b :: l') EmptyString)
          with (List.last (b :: l') EmptyString).
        rewrite IH. cbn [length].
        replace (S (S (length l')) - 1)%nat with (S (length l')) by lia.
        replace (S (length l') - 1)%nat with (length l') by lia.
        reflexivity. }
      rewrite E. destruct (nth _ parts EmptyString); [reflexivity|discriminate]. }
    rewrite length_app. cbn [length].
    rewrite (bool_decide_eq_false_2 (i = (length parts + 1 - 1)%nat)) by lia.
    rewrite (bool_decide_eq_false_2 (i = (length parts - 1)%nat)) by exact Hi.
    cbn [orb].
    destruct (bool_decide (i = O)); [apply IH; lia|].
    generalize (Z.to_nat (depth - minDepth pc + 1)). intros cnt. revert depth.
    induction cnt as [|c IHc]; intros depth; [reflexivity|].
    rewrite IH by lia. destruct (matchPath pc parts i depth) as [[]|];
      [reflexivity|apply IHc|reflexivity].
  - destruct (typeAtDepth pc depth) as [[next|]|]; try reflexivity.
    destruct (typeMatches next _); [apply IH; lia|reflexivity].
Qed.

(** X24.  The slash at the end of a context string is optional: a
    context without alternatives whose last segment is not empty
    matches exactly when the same context with a slash appended
    does. *)
Theorem matchesContext_trailing_slash (context : string) pc :
  JS.hasChar 124 context = false ->
  List.last (JS.splitChar 47 context) EmptyString <> EmptyString ->
  matchesContext (context ++ "/")%string pc = matchesContext context pc.
Proof.
  intros Hbar Hlast. unfold matchesContext, bind, get. f_equal.
  unfold matchesContextPure. rewrite hasChar_slash, Hbar.
  unfold matchesPath. cbv zeta. rewrite splitChar_slash.
  rewrite length_app. cbn [length].
  replace (length (JS.splitChar 47 context) + 1)%nat
    with (S (length (JS.splitChar 47 context))) by lia.
  cbn [matchPath]. cbv zeta.
  rewrite app_nth2 by lia. rewrite Nat.sub_diag. cbn [nth JS.isEmpty].
  rewrite length_app. cbn [length].
  rewrite (bool_decide_eq_true_2
             (length (JS.splitChar 47 context)
              = (length (JS.splitChar 47 context) + 1 - 1)%nat)) by lia.
  cbn [orb]. apply matchPath_slash; [exact Hlast|lia].
Qed.

End ContextStrings.

(** A scan that returns no rule leaves the state as it is. *)
Lemma matchTag_none (dom : DOMNode) (after : option nat) (pc : ParseContext) :
  Sample.resultOf (matchTag dom after pc) = Some None ->
  matchTag dom after pc = Done None pc.
Proof.
  destruct (matchTag dom after pc) as [r pc'| |] eqn:H; simpl; intros E;
    try discriminate.
  injection E as ->.
  apply matchTag_outcome in H as [[_ ->]|(i & rule & Hr & _)];
    [reflexivity|discriminate].
Qed.

(** The parser that [parserOf] stands for is the one the constructor
    returns. *)
Lemma parserOf_run (schema : Schema) (rs : list ParseRule) :
  match newDOMParser schema rs with Some _ => true | None => false end = true ->
  newDOMParser schema rs = Some (Sample.parserOf schema rs).
Proof.
  unfold Sample.parserOf. destruct (newDOMParser schema rs); [reflexivity|discriminate].
Qed.

Lemma StackOk_check pc :
  ((0 <=? open pc) && (open pc <? Z.of_nat (length (pnodes pc))) &&
   bool_decide (NoDup (map nc_id (pnodes pc))))%bool = true ->
  forallb (fun f => (nc_id f <? nextId pc)%nat) (pnodes pc) = true ->
  StackOk pc.
Proof.
  intros H1 H2. split; [apply WellFormed_check|apply FreshIds_check]; assumption.
Qed.


(* ===================================================================== *)
(** ** The statements at work on the sample schema *)
(* ===================================================================== *)

(** A step is run for its value alone; the state it leaves is
    [stateAfter]. *)
Ltac runs := apply stateAfter_run; vm_compute; reflexivity.
Ltac ends := apply endState_run; vm_compute; reflexivity.
Ltac calc := vm_compute; reflexivity.





(** The colour rule of the sample schema takes the value of the
    property as its attribute. *)
Lemma match_writes_attrs_only_witness :
  exists rule,
    matchStyle "color" "red" None Sample.pcDoc = Done (Some 1%nat) Sample.pcDoc1 /\
    ruleAt Sample.pcDoc 1 = Some rule /\
    pnodes Sample.pcDoc1 = pnodes Sample.pcDoc /\
    ruleAt Sample.pcDoc1 1 = Some (setAttrs rule (Some "red")).
Proof.
  assert (Hrun : matchStyle "color" "red" None Sample.pcDoc
                 = Done (Some 1%nat) Sample.pcDoc1)
    by runs.
  assert (Hrule : ruleAt Sample.pcDoc 1
                  = Some (markRule "color" Sample.colorRule))
    by calc.
  destruct (match_writes_attrs_only
              (matchStyle "color" "red" None) (GAString "red")
              Sample.pcDoc (Some 1%nat) Sample.pcDoc1
              (or_intror (ex_intro _ "color" (ex_intro _ "red"
                 (ex_intro _ None (conj eq_refl eq_refl)))))
              Hrun)
    as ((_ & Hnodes & _) & _ & _ & _ & Hwritten).
  exists (markRule "color" Sample.colorRule).
  split; [exact Hrun|]. split; [exact Hrule|].
  split; [exact Hnodes|]. exact (Hwritten _ _ eq_refl Hrule).
Defined.

(** The rule object of the colour rule before and after a match. *)
Lemma matchStyle_writes_rule :
  exists rule rule',
    matchStyle "color" "red" None Sample.pcDoc = Done (Some 1%nat) Sample.pcDoc1 /\
    ruleAt Sample.pcDoc 1 = Some rule /\
    ruleAt Sample.pcDoc1 1 = Some rule' /\
    attrs rule = None /\
    attrs rule' = Some "red".
Proof.
  exists (markRule "color" Sample.colorRule).
  exists (setAttrs (markRule "color" Sample.colorRule) (Some "red")).
  split; [runs|]. split; [calc|]. split; [calc|]. split; reflexivity.
Qed.

(** A paragraph that declares its rule of priority 30 first: the rule
    of priority 70 comes first in the rule list. *)
Lemma schemaRules_priority_order_witness :
  map priority (declaredRules Sample.prioSchema) = [None; Some 30; Some 70] /\
  map priority (schemaRules Sample.prioSchema) = [Some 70; None; Some 30] /\
  exists r1 r2,
    schemaRules Sample.prioSchema !! 0%nat = Some r1 /\
    schemaRules Sample.prioSchema !! 2%nat = Some r2 /\
    (0 < 2)%nat.
Proof.
  split; [reflexivity|]. split; [reflexivity|].
  destruct (schemaRules_priority_order Sample.prioSchema) as (_ & _ & _ & H & _).
  assert (H1 : schemaRules Sample.prioSchema !! 0%nat
               = Some (Sample.withPriority
                         (nodeRule "paragraph" (Sample.tagNode "p" "")) 70))
    by reflexivity.
  assert (H2 : schemaRules Sample.prioSchema !! 2%nat
               = Some (Sample.withPriority
                         (nodeRule "paragraph" (Sample.tagNode "p" "")) 30))
    by reflexivity.
  exists (Sample.withPriority (nodeRule "paragraph" (Sample.tagNode "p" "")) 70).
  exists (Sample.withPriority (nodeRule "paragraph" (Sample.tagNode "p" "")) 30).
  split; [exact H1|]. split; [exact H2|].
  exact (H _ _ _ _ H1 H2 eq_refl eq_refl).
Defined.

(** A text node placed in an empty document: the one frame offers the
    route through a paragraph. *)
Lemma findPlace_search_witness :
  WellFormed Sample.pcDoc /\
  exists pc' d cx r,
    findPlace (Sample.NText "a" []) Sample.pcDoc = Done true pc' /\
    In (d, cx) (scanned Sample.pcDoc) /\
    routeOf cx (Sample.NText "a" []) = Some r /\
    open pc' = d + Z.of_nat (length r).
Proof.
  assert (Hwf : WellFormed Sample.pcDoc) by (apply WellFormed_check; calc).
  split; [exact Hwf|].
  assert (Hrun : findPlace (Sample.NText "a" []) Sample.pcDoc
                 = Done true
                     (Sample.stateAfter (findPlace (Sample.NText "a" [])) Sample.pcDoc))
    by runs.
  destruct (findPlace_search Sample.pcDoc (Sample.NText "a" []) Hwf) as [H _].
  destruct (H _ _ Hrun) as (_ & _ & Htrue & _).
  destruct (Htrue eq_refl) as (d & cx & r & Hin & Hr & _ & Hopen & _).
  eexists. exists d, cx, r. split; [exact Hrun|]. auto.
Defined.

(** Blanks in a blockquote, with a position inside them. *)
Lemma blank_text_discarded_witness :
  addTextNode 2%nat Sample.pcBlank = Done tt Sample.pcBlank /\
  forall pc' l e,
    addTextNode 2%nat Sample.pcBlank = Done tt pc' ->
    find Sample.pcBlank = Some l -> In e l ->
    fnode e = 2%nat -> fpos e = None ->
    pnodes pc' = pnodes Sample.pcBlank /\ find pc' = Some l.
Proof.
  apply (blank_text_discarded (SA := Sample.schemaAPI) (DA := Sample.domAPI)
           2%nat Sample.pcBlank "   " (Sample.topFrame Sample.pcBlank)).
  - calc.
  - calc.
  - calc.
  - calc.
  - calc.
  - calc.
Defined.

(** The whole parse of the blanks: the blockquote is empty, and the
    position inside the blanks is not found. *)
Lemma blank_text_position_lost :
  exists pc',
    parse 8 Sample.sampleParser Sample.blankDoc 0%nat
          (Sample.withPositions [Sample.blankEntry])
    = Done (inl (Sample.NElem Sample.TDoc None
                   [Sample.NElem Sample.TBlockquote None [] []] []))
           pc' /\
    find pc' = Some [Sample.blankEntry] /\
    fpos Sample.blankEntry = None.
Proof.
  exists (Sample.endState
            (parse 8 Sample.sampleParser Sample.blankDoc 0%nat
                   (Sample.withPositions [Sample.blankEntry]))
            Sample.pcBlank).
  split; [ends|]. split; [calc|reflexivity].
Qed.

(** A paragraph in a blockquote in a document. *)
Lemma matchesContext_blockquote_paragraph_witness :
  isOpen Sample.pcQuoted = false /\
  o_context (options Sample.pcQuoted) = None /\
  matchesContextPure Sample.pcQuoted "blockquote/paragraph/" = Some true.
Proof.
  assert (H1 : isOpen Sample.pcQuoted = false) by calc.
  assert (H2 : o_context (options Sample.pcQuoted) = None) by calc.
  split; [exact H1|]. split; [exact H2|].
  destruct (matchesContext_blockquote_paragraph Sample.pcQuoted H1 H2) as [Hiff _].
  apply Hiff.
  exists (Sample.frameAt Sample.pcQuoted 2), (Sample.frameAt Sample.pcQuoted 1).
  split; [calc|]. split; [calc|]. split; calc.
Defined.

(** The same two frames in the parse of a slice whose top node is the
    blockquote: the frame at depth 0 is not looked at, and the rule
    does not match. *)
Lemma context_path_in_slice :
  exists inner outer,
    isOpen Sample.pcSliceQuoted = true /\
    o_context (options Sample.pcSliceQuoted) = None /\
    nodeAt (pnodes Sample.pcSliceQuoted) (open Sample.pcSliceQuoted) = Some inner /\
    nodeAt (pnodes Sample.pcSliceQuoted) (open Sample.pcSliceQuoted - 1)
    = Some outer /\
    frameMatches inner "paragraph" = true /\
    frameMatches outer "blockquote" = true /\
    matchesContextPure Sample.pcSliceQuoted "blockquote/paragraph/" = Some false /\
    Sample.resultOf (matchesContext "blockquote/paragraph/" Sample.pcSliceQuoted)
    = Some false.
Proof.
  exists (Sample.frameAt Sample.pcSliceQuoted 1),
         (Sample.frameAt Sample.pcSliceQuoted 0).
  split; [calc|]. split; [calc|]. split; [calc|]. split; [calc|].
  split; [calc|]. split; [calc|]. split; calc.
Qed.

(** A paragraph opened in a document: the root frame is not open to
    the left, and neither is the paragraph. *)
Lemma enterInner_open_left_witness :
  exists pc' child,
    enterInner Sample.TParagraph None false None Sample.pcDoc = Done tt pc' /\
    top pc' = Some child /\
    hasOpt (nc_options child) OPT_OPEN_LEFT = false.
Proof.
  destruct (enterInner_open_left (SA := Sample.schemaAPI) (DA := Sample.domAPI)
              Sample.TParagraph None false
              Sample.pcDoc Sample.pcDoc0 (Sample.topFrame Sample.pcDoc0))
    as (pc' & child & Hrun & Htop & _ & _ & Hbit).
  - runs.
  - calc.
  - calc.
  - exists pc', child. split; [exact Hrun|]. split; [exact Htop|].
    rewrite Hbit. calc.
Defined.

(** A paragraph opened at the start of a slice: the root frame is open
    to the left and empty, no whitespace option is given, and the
    paragraph is open to the left as well. *)
Lemma open_left_inherited :
  exists par child,
    top Sample.pcSlice = Some par /\
    hasOpt (nc_options par) OPT_OPEN_LEFT = true /\
    String.eqb (nt_whitespace Sample.TParagraph) "pre" = false /\
    enterInner Sample.TParagraph None false None Sample.pcSlice
    = Done tt Sample.pcSlice1 /\
    top Sample.pcSlice1 = Some child /\
    hasOpt (nc_options child) OPT_OPEN_LEFT = true.
Proof.
  exists (Sample.topFrame Sample.pcSlice), (Sample.topFrame Sample.pcSlice1).
  split; [calc|]. split; [calc|]. split; [calc|]. split; [runs|].
  split; calc.
Qed.

(** A [br] in a [div], with a rule that ignores it. *)
Lemma ignored_br_probes_only_witness :
  addElement (walk 8) 1%nat None Sample.pcBr
  = (findPlace (schemaText Sample.pcBr1 "-") ;;; ret tt) Sample.pcBr1 /\
  forall pc',
    addElement (walk 8) 1%nat None Sample.pcBr = Done tt pc' ->
    contentFrom Sample.pcBr1 pc'.
Proof.
  apply (ignored_br_probes_only (SA := Sample.schemaAPI) (DA := Sample.domAPI)
           (walk 8) 1%nat None Sample.pcBr Sample.ignoreBr
           Sample.pcBr0 Sample.pcBr1 (Sample.topFrame Sample.pcBr1)).
  - calc.
  - right. split; [exact I|]. exists 0%nat. split; [runs|calc].
  - calc.
  - runs.
  - calc.
  - calc.
  - apply WellFormed_check. calc.
Defined.

(** The parse of that [div]: a paragraph is opened for the text node
    ["-"], and stays empty. *)
Lemma ignored_br_no_text :
  exists t pc',
    Sample.resultOf (matchTag 1%nat None Sample.pcBr) = Some (Some 0%nat) /\
    ruleAt Sample.pcBr 0 = Some Sample.ignoreBr /\
    top Sample.pcBr = Some t /\
    NodeContext.inlineContext t Sample.brDoc 1%nat = false /\
    parse 8 Sample.brParser Sample.brDoc 0%nat Sample.noOptions
    = Done (inl (Sample.NElem Sample.TDoc None
                   [Sample.NElem Sample.TParagraph None [] []] []))
           pc'.
Proof.
  exists (Sample.topFrame Sample.pcBr).
  exists (Sample.endState
            (parse 8 Sample.brParser Sample.brDoc 0%nat Sample.noOptions)
            Sample.pcBr).
  split; [calc|]. split; [calc|]. split; [calc|]. split; [calc|ends].
Qed.

(** A [span] with the style [color: red], where the colour rule has
    [consuming: false] and the rule behind it ignores elements with a
    colour: the colour rule is read, the ignoring rule is reached, the
    element is skipped and its text is not in the result. *)
Lemma style_ignore_skips_element_witness :
  reachesIgnore "color" "red" 2 None Sample.pcChain Sample.pcChain2 /\
  readStyles 8 (parseStyles "color: red") Sample.pcChain
  = Done None Sample.pcChain2 /\
  addDOM (walk 8) 1%nat Sample.pcChain = Done tt Sample.pcChain2 /\
  sameButAttrs Sample.pcChain Sample.pcChain2.
Proof.
  assert (Hchain : reachesIgnore (SA := Sample.schemaAPI) (DA := Sample.domAPI)
                     "color" "red" 2 None Sample.pcChain Sample.pcChain2).
  { eapply (reaches_later (SA := Sample.schemaAPI) (DA := Sample.domAPI)
              "color" "red" 1 None Sample.pcChain 0%nat Sample.pcChain1
              _ Sample.pcChain2).
    - runs.
    - vm_compute. reflexivity.
    - calc.
    - calc.
    - vm_compute. eexists. reflexivity.
    - apply (reaches_here (SA := Sample.schemaAPI) (DA := Sample.domAPI)
               "color" "red" (Some 0%nat) Sample.pcChain1 1%nat Sample.pcChain2
               Sample.ignoreColor).
      + runs.
      + calc.
      + calc. }
  destruct (style_ignore_skips_element (SA := Sample.schemaAPI)
              (DA := Sample.domAPI) (walk 8) 1%nat Sample.pcChain
              "color: red" Sample.pcChain2) as [[Hto _] Hskip].
  - calc.
  - calc.
  - calc.
  - assert (Hread : readStyles (SA := Sample.schemaAPI) (DA := Sample.domAPI)
                      8 (parseStyles "color: red") Sample.pcChain
                    = Done None Sample.pcChain2).
    { apply Hto.
      exists [], "color", "red", [], (@nil Sample.SMark, @nil Sample.SMark),
             Sample.pcChain, 2%nat.
      split; [calc|]. split; [reflexivity|]. split; [vm_compute; lia|].
      exact Hchain. }
    split; [exact Hchain|]. split; [exact Hread|]. exact (Hskip Hread).
Defined.

(** The same [span], where the colour rule in front of the ignoring
    rule has no [consuming: false]: the ignoring rule accepts the pair
    [color: red], yet [readStyles] returns the red mark, and the text
    of the element is in the result, marked red. *)
Lemma ignoring_rule_not_reached :
  ruleAt Sample.pcShadow 1 = Some Sample.ignoreColor /\
  ignore Sample.ignoreColor = true /\
  styleRuleAccepts Sample.pcShadow "color" "red" 1%nat /\
  readStyles 8 (parseStyles "color: red") Sample.pcShadow
  = Done (Some ([Sample.colorMark "red"], [])) Sample.pcShadow1 /\
  Sample.resultOf
    (parse 12 Sample.shadowParser Sample.paintedDoc 0%nat Sample.noOptions)
  = Some (inl (Sample.NElem Sample.TDoc None
                 [Sample.NElem Sample.TParagraph None
                    [Sample.NText "x" [Sample.colorMark "red"]] []] [])).
Proof.
  split; [calc|]. split; [reflexivity|]. split; [|split].
  - exists Sample.ignoreColor.
    split; [calc|]. split; [calc|]. split; [left; vm_compute; lia|].
    split; [reflexivity|]. intros f Hf. discriminate Hf.
  - runs.
  - calc.
Qed.

(** Red is pushed a second time while it is pending: the pending red
    mark goes to the stash. *)
Lemma addPendingMark_effect_witness :
  exists t',
    addPendingMark (Sample.colorMark "red") Sample.pcPara1
    = Done tt (setNodes Sample.pcPara1
                 (putNode (pnodes Sample.pcPara1) (open Sample.pcPara1) t')) /\
    nc_stashMarks t' = [Sample.colorMark "red"].
Proof.
  destruct (addPendingMark_effect (SA := Sample.schemaAPI) (DA := Sample.domAPI)
              (Sample.colorMark "red") Sample.pcPara1
              (Sample.topFrame Sample.pcPara1))
    as (t' & Hrun & _ & _ & Hm).
  - calc.
  - exists t'. split; [exact Hrun|].
    assert (E : findSameMarkInSet (SA := Sample.schemaAPI) (Sample.colorMark "red")
                  (nc_pendingMarks (Sample.topFrame Sample.pcPara1))
                = Some (Sample.colorMark "red")) by calc.
    rewrite E in Hm. destruct Hm as [-> _]. calc.
Defined.

(** Blue is closed in the paragraph that holds ["a"] in red and ["b"]
    in red and blue. *)
Lemma removePendingMark_levels_witness :
  exists pc',
    removePendingMark (Sample.colorMark "blue")
      (Some (nc_id (Sample.topFrame Sample.pcPara))) Sample.pcPara4
    = Done tt pc' /\
    open pc' = open Sample.pcPara4 /\
    length (pnodes pc') = length (pnodes Sample.pcPara4).
Proof.
  destruct (removePendingMark_levels (SA := Sample.schemaAPI) (DA := Sample.domAPI)
              (Sample.colorMark "blue")
              (Some (nc_id (Sample.topFrame Sample.pcPara))) Sample.pcPara4)
    as (stop & pc' & Hrun & Hopen & Hlen & _).
  - destruct (WellFormed_check Sample.pcPara4) as [H _]; [calc|exact H].
  - exists pc'. split; [exact Hrun|]. split; [exact Hopen|exact Hlen].
Defined.

(** The [p] element under the rules of [prioSchema], asked for a rule
    behind rule 0: rule 1, for [b], is passed over and rule 2, the
    second rule for [p], is returned. *)
Lemma matchTag_first_witness :
  tagRuleAccepts Sample.pcPrio 1%nat 2%nat /\
  ~ tagRuleAccepts Sample.pcPrio 1%nat 1%nat.
Proof.
  pose proof (matchTag_first (SA := Sample.schemaAPI) (DA := Sample.domAPI)
                1%nat (Some 0%nat) Sample.pcPrio (Some 2%nat)
                (Sample.stateAfter (matchTag 1%nat (Some 0%nat)) Sample.pcPrio))
    as H.
  destruct H as (l1 & l2 & Hl & Hacc & Hfirst); [runs|].
  split; [exact Hacc|].
  assert (E : drop (startAfter (Some 0%nat) (tags (parser Sample.pcPrio)))
                   (tags (parser Sample.pcPrio)) = [1%nat; 2%nat]) by calc.
  rewrite E in Hl. apply Hfirst.
  destruct l1 as [|a [|b l1]]; simpl in Hl.
  - discriminate.
  - injection Hl as <- _. left. reflexivity.
  - injection Hl as _ _ Hl. destruct l1; discriminate.
Defined.

(** The property [display: none] under the rules of [hiddenParser],
    asked for a rule behind the colour rule. *)
Lemma matchStyle_first_witness :
  styleRuleAccepts Sample.pcHidden "display" "none" 1%nat.
Proof.
  pose proof (matchStyle_first (SA := Sample.schemaAPI) (DA := Sample.domAPI)
                "display" "none" (Some 0%nat) Sample.pcHidden (Some 1%nat)
                (Sample.stateAfter (matchStyle "display" "none" (Some 0%nat))
                                   Sample.pcHidden))
    as H.
  destruct H as (l1 & l2 & _ & Hacc & _); [runs|exact Hacc].
Defined.

(** The rules of [hiddenParser]: two style rules and a tag rule. *)
Lemma newDOMParser_index_lists_witness :
  rules Sample.hiddenParser
  = [markRule "color" Sample.colorRule; Sample.hiddenRule;
     Sample.tagNode "p" "paragraph"] /\
  StronglySorted lt (tags Sample.hiddenParser) /\
  StronglySorted lt (styles Sample.hiddenParser) /\
  forall i, In i (tags Sample.hiddenParser) -> ~ In i (styles Sample.hiddenParser).
Proof.
  destruct (newDOMParser_index_lists (SA := Sample.schemaAPI) (DA := Sample.domAPI)
              Sample.sampleSchema
              [markRule "color" Sample.colorRule; Sample.hiddenRule;
               Sample.tagNode "p" "paragraph"]
              Sample.hiddenParser)
    as (Hr & _ & _ & Ht & Hs & Hd).
  - apply parserOf_run. calc.
  - split; [exact Hr|]. split; [exact Ht|]. split; [exact Hs|exact Hd].
Defined.

(** The second rule for [p] stands behind the first. *)
Lemma match_after_later_witness :
  matchTag 1%nat (Some 0%nat) Sample.pcPrio
  = Done (Some 2%nat)
         (Sample.stateAfter (matchTag 1%nat (Some 0%nat)) Sample.pcPrio) /\
  (0 < 2)%nat.
Proof.
  assert (Hrun : matchTag 1%nat (Some 0%nat) Sample.pcPrio
                 = Done (Some 2%nat)
                     (Sample.stateAfter (matchTag 1%nat (Some 0%nat)) Sample.pcPrio))
    by runs.
  assert (Et : tags (parser Sample.pcPrio) = [0; 1; 2]%nat) by calc.
  assert (Es : styles (parser Sample.pcPrio) = []) by calc.
  split; [exact Hrun|].
  destruct (match_after_later (SA := Sample.schemaAPI) (DA := Sample.domAPI)
              1%nat "" "" 0%nat Sample.pcPrio 2%nat
              (Sample.stateAfter
                 (matchTag (SA := Sample.schemaAPI) (DA := Sample.domAPI)
                    1%nat (Some 0%nat))
                 Sample.pcPrio))
    as [H _].
  - rewrite Et. repeat constructor; lia.
  - rewrite Es. constructor.
  - apply H; [rewrite Et; left; reflexivity|exact Hrun].
Defined.

(** The frames [doc], [blockquote], [paragraph] with the [doc] frame
    made the open one: the two frames above it are closed, and the
    [doc] frame gets the blockquote as its one new child. *)
Lemma closeExtra_closes_witness :
  exists n,
    top (Sample.stateAfter (closeExtra false) Sample.pcQuoted0)
    = Some (setContent (Sample.topFrame Sample.pcQuoted0)
              (nc_content (Sample.topFrame Sample.pcQuoted0) ++ [n])) /\
    Z.of_nat (length (pnodes (Sample.stateAfter (closeExtra false) Sample.pcQuoted0)))
    = 1.
Proof.
  destruct (closeExtra_closes (SA := Sample.schemaAPI) (DA := Sample.domAPI)
              false Sample.pcQuoted0
              (Sample.stateAfter
                 (closeExtra (SA := Sample.schemaAPI) (DA := Sample.domAPI) false)
                 Sample.pcQuoted0)
              (Sample.topFrame Sample.pcQuoted0))
    as (_ & Hlen & _ & Hnew & _).
  - calc.
  - runs.
  - assert (E : (Z.of_nat (length (pnodes Sample.pcQuoted0)) - 1
                 >? open Sample.pcQuoted0) = true) by calc.
    rewrite E in Hnew. destruct Hnew as (n & _ & Htop).
    exists n. split; [exact Htop|]. rewrite Hlen. calc.
Defined.

(** A blockquote entered in an empty document. *)
Lemma enterInner_pushes_witness :
  exists pc' child,
    enterInner Sample.TBlockquote None true None Sample.pcDoc = Done tt pc' /\
    top pc' = Some child /\
    nc_id child = nextId Sample.pcDoc /\
    nc_type child = Some Sample.TBlockquote /\
    nc_solid child = true /\ nc_content child = [].
Proof.
  destruct (enterInner_pushes (SA := Sample.schemaAPI) (DA := Sample.domAPI)
              Sample.TBlockquote None true None Sample.pcDoc
              (Sample.stateAfter
                 (enterInner (SA := Sample.schemaAPI) (DA := Sample.domAPI)
                    Sample.TBlockquote None true None)
                 Sample.pcDoc))
    as (pc1 & par0 & par & child & _ & _ & _ & _ & _ & _ & Htop & Hid & Hty & _
        & Hsolid & Hc & _).
  - runs.
  - eexists. exists child. split; [runs|]. split; [exact Htop|].
    split; [exact Hid|]. split; [exact Hty|]. split; [exact Hsolid|exact Hc].
Defined.

(** The text ["a"] inserted in the paragraph in which red is
    pending. *)
Lemma insertNode_appends_witness :
  exists t' before,
    top Sample.pcPara2 = Some t' /\
    Z.of_nat (length (pnodes Sample.pcPara2)) = open Sample.pcPara2 + 1 /\
    nc_content t'
    = before ++
      [node_mark (Sample.NText "a" [])
         (fold_left (fun marks m => addToSet m marks)
            (List.filter (fun m => match nc_type t' with
                                   | Some ty => nt_allowsMarkType ty (mark_type m)
                                   | None => true
                                   end) (node_marks (Sample.NText "a" [])))
            (nc_activeMarks t'))].
Proof.
  apply (insertNode_appends (SA := Sample.schemaAPI) (DA := Sample.domAPI)
           (Sample.NText "a" []) Sample.pcPara1 Sample.pcPara2).
  runs.
Defined.

(** An empty [div] parses to an empty document. *)
Lemma parse_childless_witness :
  exists pc',
    parse 0 Sample.sampleParser Sample.emptyDoc 0%nat Sample.noOptions
    = Done (inl (Sample.NElem Sample.TDoc None [] [])) pc' /\
    find pc' = None.
Proof.
  pose proof (parse_childless (SA := Sample.schemaAPI) (DA := Sample.domAPI)
                0 Sample.sampleParser Sample.emptyDoc 0%nat Sample.noOptions
                eq_refl eq_refl eq_refl eq_refl) as H.
  cbv zeta in H.
  match type of H with
  | match ?s with _ => _ end =>
      destruct s as [filler|] eqn:E; [|vm_compute in E; discriminate]
  end.
  destruct H as (pc' & Hrun & Hfind).
  vm_compute in E. injection E as <-.
  exists pc'. split; [exact Hrun|exact Hfind].
Defined.

(** A [script] element with text in it, under the rules of the sample
    schema: nothing is added and nothing changes. *)
Lemma ignored_tag_skipped_witness :
  addElement (walk 8) 1%nat None Sample.pcScript = Done tt Sample.pcScript.
Proof.
  destruct (ignored_tag_skipped (SA := Sample.schemaAPI) (DA := Sample.domAPI)
              (walk 8) 1%nat None Sample.pcScript)
    as [_ H].
  - calc.
  - exact I.
  - apply matchTag_none. calc.
  - apply H. calc.
Defined.

(** The invariant holds in the paragraph in which red is pending, and
    so it does after ["a"] is inserted. *)
Lemma stack_invariant_kept_witness :
  StackOk Sample.pcPara1 /\ StackOk Sample.pcPara2.
Proof.
  assert (H1 : StackOk Sample.pcPara1) by (apply StackOk_check; calc).
  split; [exact H1|].
  destruct (stack_invariant_kept (SA := Sample.schemaAPI) (DA := Sample.domAPI)
              Sample.pcPara1 H1)
    as (_ & _ & _ & _ & H & _).
  apply (H (Sample.NText "a" []) true). runs.
Defined.

(** The paragraph that holds ["a"] and ["b"]: the position after them
    is 2. *)
Lemma currentPos_value_witness :
  currentPos Sample.pcPara4
  = Done 2 (Sample.stateAfter (closeExtra false) Sample.pcPara4).
Proof.
  destruct (currentPos_value (SA := Sample.schemaAPI) (DA := Sample.domAPI)
              Sample.pcPara4
              (Sample.stateAfter
                 (closeExtra (SA := Sample.schemaAPI) (DA := Sample.domAPI) false)
                 Sample.pcPara4))
    as [H _].
  - destruct (WellFormed_check Sample.pcPara4) as [Hw _]; [calc|exact Hw].
  - runs.
  - assert (E : open Sample.pcPara4
                 + framesSize
                     (pnodes (Sample.stateAfter
                                (closeExtra (SA := Sample.schemaAPI)
                                   (DA := Sample.domAPI) false)
                                Sample.pcPara4))
                 = 2) by calc.
    rewrite H, E. reflexivity.
Defined.

(** The walk over the [div] with the two [x] elements, which opens and
    closes two blockquotes. *)
Lemma walk_keeps_stack_witness :
  walkKeeps Sample.pcShared
    (Sample.stateAfter (addAll (walk 8) 0%nat None None) Sample.pcShared).
Proof.
  destruct (walk_keeps_stack (SA := Sample.schemaAPI) (DA := Sample.domAPI)
              8 Sample.pcShared)
    as (_ & _ & H).
  - apply StackOk_check; calc.
  - apply (H 0%nat None None). runs.
Defined.

(** The [div] with the two [x] elements parses to a document. *)
Lemma parse_result_shape_witness :
  (exists content,
     inl (Sample.NElem Sample.TDoc None
            [Sample.NElem Sample.TBlockquote None [] [];
             Sample.NElem Sample.TBlockquote None [] []] [])
     = inl (B := Fragment)
           (nt_create Sample.TDoc None (Some content) (Some Mark_none))) /\
  sameEntries (Some [Sample.sharedEntry])
    (find (Sample.endState
             (parse 8 (Sample.parserOf Sample.sampleSchema
                         [Sample.sharedContentRule])
                Sample.sharedDoc 0%nat
                (Sample.withPositions [Sample.sharedEntry]))
             Sample.pcShared)).
Proof.
  destruct (parse_result_shape (SA := Sample.schemaAPI) (DA := Sample.domAPI)
              8 (Sample.parserOf Sample.sampleSchema [Sample.sharedContentRule])
              Sample.sharedDoc 0%nat (Sample.withPositions [Sample.sharedEntry])
              (inl (Sample.NElem Sample.TDoc None
                      [Sample.NElem Sample.TBlockquote None [] [];
                       Sample.NElem Sample.TBlockquote None [] []] []))
              (Sample.endState
                 (parse 8 (Sample.parserOf Sample.sampleSchema
                             [Sample.sharedContentRule])
                    Sample.sharedDoc 0%nat
                    (Sample.withPositions [Sample.sharedEntry]))
                 Sample.pcShared))
    as [H _].
  apply H. ends.
Defined.

(** The frames [doc], [blockquote], [paragraph]. *)
Lemma matchesContext_returns_witness :
  exists b, matchesContext "blockquote/paragraph/" Sample.pcQuoted
            = Done b Sample.pcQuoted.
Proof.
  apply (matchesContext_returns (SA := Sample.schemaAPI) (DA := Sample.domAPI)
           "blockquote/paragraph/" Sample.pcQuoted).
  destruct (WellFormed_check Sample.pcQuoted) as [H _]; [calc|exact H].
Defined.

(** The context of the paragraph in the blockquote, written without
    the slash at its end. *)
Lemma matchesContext_trailing_slash_witness :
  matchesContext ("blockquote/paragraph" ++ "/")%string Sample.pcQuoted
  = matchesContext "blockquote/paragraph" Sample.pcQuoted.
Proof.
  apply (matchesContext_trailing_slash (SA := Sample.schemaAPI)
           (DA := Sample.domAPI) "blockquote/paragraph" Sample.pcQuoted).
  - reflexivity.
  - vm_compute. discriminate.
Defined.
